(* Shallow embedding of the apikit code generator (reation-io/apikit):
   the extractor registry, struct-tag lookup and parameter naming, the
   type-directed extraction code generators, the checksum gate, the
   nested-struct resolver, handler-signature validation and the runtime
   timestamp helper. *)

From Stdlib Require Import String Ascii ZArith Lia List Bool Sorting.Sorted.
From stdpp Require Import base gmap strings list.
Import ListNotations.
Open Scope string_scope.
Set Warnings "-register-all".

(* ------------------------------------------------------------------ *)
(** * Byte-level string helpers (Go strings are byte strings) *)
(* ------------------------------------------------------------------ *)

Definition byte_of (c : ascii) : nat := nat_of_ascii c.

(** the double-quote byte *)
Definition dq : ascii := ascii_of_nat 34.

Fixpoint str_of_list (l : list ascii) : string :=
  match l with [] => EmptyString | c :: r => String c (str_of_list r) end.

Fixpoint list_of_str (s : string) : list ascii :=
  match s with EmptyString => [] | String c r => c :: list_of_str r end.

Definition is_empty (s : string) : bool :=
  match s with EmptyString => true | _ => false end.

(** strings.HasPrefix *)
Fixpoint has_prefix (s p : string) : bool :=
  match p, s with
  | EmptyString, _ => true
  | String c p', String d s' => Ascii.eqb c d && has_prefix s' p'
  | String _ _, EmptyString => false
  end.

(** strings.TrimPrefix *)
Definition trim_prefix (s p : string) : string :=
  if has_prefix s p then substring (String.length p) (String.length s - String.length p) s
  else s.

(** strings.HasSuffix / strings.TrimSuffix *)
Definition has_suffix (s p : string) : bool :=
  (String.length p <=? String.length s)%nat &&
  String.eqb (substring (String.length s - String.length p) (String.length p) s) p.

Definition trim_suffix (s p : string) : string :=
  if has_suffix s p then substring 0 (String.length s - String.length p) s else s.

(** strings.Contains *)
Fixpoint contains (s p : string) : bool :=
  has_prefix s p || match s with EmptyString => false | String _ s' => contains s' p end.

(** unicode.IsSpace on the rune whose UTF-8 encoding starts [l]: the
    length of that encoding when the rune is white space, else 0. The
    white-space runes are '\t', '\n', '\v', '\f', '\r', ' ', U+0085,
    U+00A0, U+1680, U+2000 to U+200A, U+2028, U+2029, U+202F, U+205F and
    U+3000. Their encodings are valid, so utf8.DecodeRuneInString(s)
    returns one of them exactly when the bytes of s start with its
    encoding (an invalid sequence decodes as utf8.RuneError, which is not
    white space). *)
Definition space_len (l : list ascii) : nat :=
  match l with
  | [] => 0
  | c :: r =>
      let n := byte_of c in
      if (n =? 32)%nat || (9 <=? n)%nat && (n <=? 13)%nat then 1
      else if (n =? 194)%nat then
        (* C2 85, C2 A0 *)
        match r with
        | c2 :: _ => if (byte_of c2 =? 133)%nat || (byte_of c2 =? 160)%nat then 2 else 0
        | [] => 0
        end
      else if (n =? 225)%nat then
        (* E1 9A 80 *)
        match r with
        | c2 :: c3 :: _ => if (byte_of c2 =? 154)%nat && (byte_of c3 =? 128)%nat then 3 else 0
        | _ => 0
        end
      else if (n =? 226)%nat then
        (* E2 80 80 .. E2 80 8A, E2 80 A8, E2 80 A9, E2 80 AF, E2 81 9F *)
        match r with
        | c2 :: c3 :: _ =>
            let b2 := byte_of c2 in
            let b3 := byte_of c3 in
            if (b2 =? 128)%nat && ((128 <=? b3)%nat && (b3 <=? 138)%nat || (b3 =? 168)%nat
                                   || (b3 =? 169)%nat || (b3 =? 175)%nat)
               || (b2 =? 129)%nat && (b3 =? 159)%nat
            then 3 else 0
        | _ => 0
        end
      else if (n =? 227)%nat then
        (* E3 80 80 *)
        match r with
        | c2 :: c3 :: _ => if (byte_of c2 =? 128)%nat && (byte_of c3 =? 128)%nat then 3 else 0
        | _ => 0
        end
      else 0
  end.

(** unicode.IsSpace on the last rune of a string, given its bytes in
    reverse order: the length of the white-space encoding that ends the
    string, else 0. utf8.DecodeLastRuneInString backs up to the last byte
    that is not a continuation byte (0x80 to 0xBF); every white-space
    encoding starts with such a byte and goes on with continuation bytes
    only, so the last rune is white space exactly when the string ends
    with one of the encodings. *)
Definition space_len_last (rl : list ascii) : nat :=
  match rl with
  | [] => 0
  | c :: r =>
      if (space_len [c] =? 1)%nat then 1
      else match r with
           | c2 :: r2 =>
               if (space_len [c2; c] =? 2)%nat then 2
               else match r2 with
                    | c3 :: _ => if (space_len [c3; c2; c] =? 3)%nat then 3 else 0
                    | [] => 0
                    end
           | [] => 0
           end
  end.

(** strings.TrimLeftFunc(s, unicode.IsSpace) on the bytes of s; each
    round drops at least one byte, so [length l] rounds suffice. *)
Fixpoint trim_left_space_aux (fuel : nat) (l : list ascii) : list ascii :=
  match fuel with
  | O => l
  | S f =>
      match space_len l with
      | O => l
      | k => trim_left_space_aux f (skipn k l)
      end
  end.

(** strings.TrimRightFunc(s, unicode.IsSpace) on the reversed bytes of s *)
Fixpoint trim_right_space_aux (fuel : nat) (rl : list ascii) : list ascii :=
  match fuel with
  | O => rl
  | S f =>
      match space_len_last rl with
      | O => rl
      | k => trim_right_space_aux f (skipn k rl)
      end
  end.

(** strings.TrimSpace: its ASCII fast path and its fallback
    TrimFunc(s, unicode.IsSpace) both trim the leading and then the
    trailing white-space runes. *)
Definition trim_space (s : string) : string :=
  let l := trim_left_space_aux (length (list_of_str s)) (list_of_str s) in
  str_of_list (rev (trim_right_space_aux (length l) (rev l))).

(** strings.Fields: the maximal runs of bytes between white-space runes.
    Go splits at runes (FieldsFunc(s, unicode.IsSpace) outside its ASCII
    fast path); a white-space encoding never starts inside a valid
    multi-byte rune, whose later bytes are continuation bytes, and an
    invalid byte decodes as a rune of its own, so splitting at the bytes
    where a white-space encoding starts is the same. Each round consumes
    at least one byte, so [length l] rounds suffice. *)
Fixpoint fields_aux (fuel : nat) (l : list ascii) (cur : list ascii) : list string :=
  match fuel, l with
  | S f, c :: r =>
      match space_len l with
      | O => fields_aux f r (c :: cur)
      | k =>
          match cur with
          | [] => fields_aux f (skipn k l) []
          | _ => str_of_list (rev cur) :: fields_aux f (skipn k l) []
          end
      end
  | _, _ => match cur with [] => [] | _ => [str_of_list (rev cur)] end
  end.

Definition fields (s : string) : list string :=
  fields_aux (length (list_of_str s)) (list_of_str s) [].

(* ------------------------------------------------------------------ *)
(** * UTF-8 rune round trip ([]rune(s) then string(runes)) *)
(* ------------------------------------------------------------------ *)

Definition in_range (lo hi : nat) (c : ascii) : bool :=
  (lo <=? byte_of c)%nat && (byte_of c <=? hi)%nat.

Definition is_cont (c : ascii) : bool := in_range 128 191 c.

(** Length of the valid UTF-8 sequence starting the byte list, following
    Go's unicode/utf8 acceptance table; 0 when the first bytes are not a
    valid encoding (decoded as RuneError, width 1). *)
Definition utf8_seq_len (l : list ascii) : nat :=
  match l with
  | [] => 0
  | b0 :: r =>
      let n := byte_of b0 in
      if (n <? 128)%nat then 1
      else if (n <? 194)%nat then 0
      else if (n <? 224)%nat then
        match r with b1 :: _ => if is_cont b1 then 2 else 0 | _ => 0 end
      else if (n <? 240)%nat then
        let lo := if (n =? 224)%nat then 160 else 128 in
        let hi := if (n =? 237)%nat then 159 else 191 in
        match r with
        | b1 :: b2 :: _ => if in_range lo hi b1 && is_cont b2 then 3 else 0
        | _ => 0
        end
      else if (n <? 245)%nat then
        let lo := if (n =? 240)%nat then 144 else 128 in
        let hi := if (n =? 244)%nat then 143 else 191 in
        match r with
        | b1 :: b2 :: b3 :: _ =>
            if in_range lo hi b1 && is_cont b2 && is_cont b3 then 4 else 0
        | _ => 0
        end
      else 0
  end.

(** U+FFFD encoded in UTF-8 *)
Definition rune_error_bytes : list ascii :=
  [ascii_of_nat 239; ascii_of_nat 191; ascii_of_nat 189].

Fixpoint runes_roundtrip_aux (fuel : nat) (l : list ascii) : list ascii :=
  match fuel with
  | O => l
  | S fuel' =>
      match l with
      | [] => []
      | b :: r =>
          match utf8_seq_len l with
          | O => rune_error_bytes ++ runes_roundtrip_aux fuel' r
          | k => firstn k l ++ runes_roundtrip_aux fuel' (skipn k l)
          end
      end
  end.

(** string([]rune(s)): invalid bytes become U+FFFD, valid text is kept. *)
Definition runes_roundtrip (s : string) : string :=
  let l := list_of_str s in str_of_list (runes_roundtrip_aux (length l) l).

(* ------------------------------------------------------------------ *)
(** * Parsed model: parser.Field and parser.Struct *)
(* ------------------------------------------------------------------ *)

Inductive Struct :=
  mkStruct (SName : string) (SFields : list Field) (IsDTO : bool)
with Field :=
  mkField (Name Type_ StructTag InComment InCommentName : string)
          (IsPointer IsSlice : bool) (SliceType : string)
          (IsEmbedded IsBody IsRawBody IsResponseWriter IsRequest IsFile : bool)
          (NestedStruct : option Struct) (PackagePath : string).

Definition SName (s : Struct) := let 'mkStruct n _ _ := s in n.
Definition SFields (s : Struct) := let 'mkStruct _ fs _ := s in fs.
Definition IsDTO (s : Struct) := let 'mkStruct _ _ d := s in d.

Definition Name (f : Field) := let 'mkField x _ _ _ _ _ _ _ _ _ _ _ _ _ _ _ := f in x.
Definition Type_ (f : Field) := let 'mkField _ x _ _ _ _ _ _ _ _ _ _ _ _ _ _ := f in x.
Definition StructTag (f : Field) := let 'mkField _ _ x _ _ _ _ _ _ _ _ _ _ _ _ _ := f in x.
Definition InComment (f : Field) := let 'mkField _ _ _ x _ _ _ _ _ _ _ _ _ _ _ _ := f in x.
Definition InCommentName (f : Field) := let 'mkField _ _ _ _ x _ _ _ _ _ _ _ _ _ _ _ := f in x.
Definition IsPointer (f : Field) := let 'mkField _ _ _ _ _ x _ _ _ _ _ _ _ _ _ _ := f in x.
Definition IsSlice (f : Field) := let 'mkField _ _ _ _ _ _ x _ _ _ _ _ _ _ _ _ := f in x.
Definition SliceType (f : Field) := let 'mkField _ _ _ _ _ _ _ x _ _ _ _ _ _ _ _ := f in x.
Definition IsEmbedded (f : Field) := let 'mkField _ _ _ _ _ _ _ _ x _ _ _ _ _ _ _ := f in x.
Definition IsBody (f : Field) := let 'mkField _ _ _ _ _ _ _ _ _ x _ _ _ _ _ _ := f in x.
Definition IsRawBody (f : Field) := let 'mkField _ _ _ _ _ _ _ _ _ _ x _ _ _ _ _ := f in x.
Definition IsResponseWriter (f : Field) := let 'mkField _ _ _ _ _ _ _ _ _ _ _ x _ _ _ _ := f in x.
Definition IsRequest (f : Field) := let 'mkField _ _ _ _ _ _ _ _ _ _ _ _ x _ _ _ := f in x.
Definition IsFile (f : Field) := let 'mkField _ _ _ _ _ _ _ _ _ _ _ _ _ x _ _ := f in x.
Definition NestedStruct (f : Field) := let 'mkField _ _ _ _ _ _ _ _ _ _ _ _ _ _ x _ := f in x.
Definition PackagePath (f : Field) := let 'mkField _ _ _ _ _ _ _ _ _ _ _ _ _ _ _ x := f in x.

(** field.NestedStruct = ns *)
Definition set_NestedStruct (f : Field) (ns : option Struct) : Field :=
  let 'mkField a b c d e g h i j k l m n o _ q := f in mkField a b c d e g h i j k l m n o ns q.

(** field.PackagePath = p *)
Definition set_PackagePath (f : Field) (p : string) : Field :=
  let 'mkField a b c d e g h i j k l m n o ns _ := f in mkField a b c d e g h i j k l m n o ns p.

(** parser.Field{} with every member at its zero value *)
Definition zeroField : Field :=
  mkField "" "" "" "" "" false false "" false false false false false false None "".

(* ------------------------------------------------------------------ *)
(** * reflect.StructTag.Lookup *)
(* ------------------------------------------------------------------ *)

Definition is_tag_name_char (c : ascii) : bool :=
  let n := byte_of c in
  (32 <? n)%nat && negb (n =? 58)%nat && negb (n =? 34)%nat && negb (n =? 127)%nat.

(** Scan to the colon: the longest prefix of name bytes. *)
Fixpoint scan_name (s : string) : string * string :=
  match s with
  | String c r =>
      if is_tag_name_char c then let '(n, rest) := scan_name r in (String c n, rest)
      else (EmptyString, s)
  | EmptyString => (EmptyString, EmptyString)
  end.

(** Scan a quoted string body after the opening quote: returns the raw
    body and the text after the closing quote, or None when the closing
    quote is missing. A backslash skips the following byte. *)
Fixpoint scan_quoted (s : string) : option (string * string) :=
  match s with
  | EmptyString => None
  | String c r =>
      if (byte_of c =? 34)%nat then Some (EmptyString, r)
      else if (byte_of c =? 92)%nat then
        match r with
        | EmptyString => None
        | String d r' =>
            match scan_quoted r' with
            | Some (b, rest) => Some (String c (String d b), rest)
            | None => None
            end
        end
      else
        match scan_quoted r with
        | Some (b, rest) => Some (String c b, rest)
        | None => None
        end
  end.

Section StructTag.

(** strconv.Unquote, a standard-library function taken as a parameter. *)
Variable unquote : string -> option string.

Fixpoint skip_spaces (s : string) : string :=
  match s with
  | String c r => if (byte_of c =? 32)%nat then skip_spaces r else s
  | EmptyString => s
  end.

(** The loop of reflect.StructTag.Lookup; each round consumes at least
    three bytes, so [String.length tag] rounds always suffice. *)
Fixpoint lookup_loop (fuel : nat) (key tag : string) : string * bool :=
  match fuel with
  | O => ("", false)
  | S fuel' =>
      let tag := skip_spaces tag in
      if is_empty tag then ("", false) else
      let '(name, rest) := scan_name tag in
      match name, rest with
      | String _ _, String colon (String quote body) =>
          if negb ((byte_of colon =? 58)%nat && (byte_of quote =? 34)%nat) then ("", false) else
          match scan_quoted body with
          | None => ("", false)
          | Some (raw, after) =>
              if String.eqb key name then
                match unquote (String dq (raw ++ String dq EmptyString)) with
                | Some v => (v, true)
                | None => ("", false)
                end
              else lookup_loop fuel' key after
          end
      | _, _ => ("", false)
      end
  end.

Definition Lookup (tag key : string) : string * bool :=
  lookup_loop (S (String.length tag)) key tag.

(** StructTag.Get *)
Definition TagGet (tag key : string) : string := fst (Lookup tag key).

(* ------------------------------------------------------------------ *)
(** * extractors.GetParameterName and toCamelCase *)
(* ------------------------------------------------------------------ *)

(** toCamelCase: an ASCII capital first rune is lowered by adding 32;
    the rune round trip of the Go code is kept for the rest. *)
Definition toCamelCase (s : string) : string :=
  match s with
  | EmptyString => s
  | String c r =>
      let n := byte_of c in
      if (65 <=? n)%nat && (n <=? 90)%nat then
        runes_roundtrip (String (ascii_of_nat (n + 32)) r)
      else runes_roundtrip s
  end.

Definition GetParameterName (field : Field) (tagName : string) : string :=
  let fromTag :=
    if negb (String.eqb (StructTag field) "") then
      let '(val, ok) := Lookup (StructTag field) tagName in
      if ok then (if negb (String.eqb val "") then Some val else None) else None
    else None in
  match fromTag with
  | Some v => v
  | None =>
      if negb (String.eqb (InCommentName field) "") then InCommentName field
      else toCamelCase (Name field)
  end.

End StructTag.

(* ------------------------------------------------------------------ *)
(** * Emitted Go code *)
(* ------------------------------------------------------------------ *)

(** The generators build Go source with fmt.Sprintf; each constructor is
    one template, with its holes as arguments, and [render] prints the
    exact text. *)
Inductive stmt :=
  (* if val := SRC; val != "" { THEN } [else { ELSE }] *)
  | SIfVal (src : string) (thn : stmt) (els : option stmt)
  (* payload.F = val *)
  | SAssignVal (fld : string)
  (* payload.F = LIT   (GenerateDefaultValue) *)
  | SDefault (fld lit : string)
  (* GenerateIntParsing / GenerateUintParsing / GenerateFloatParsing /
     GenerateBoolParsing *)
  | SParseInt (v fld ty : string)
  | SParseUint (v fld ty : string)
  | SParseFloat (v fld bits : string)
  | SParseBool (v fld : string)
  (* payload.F = T(v), the fallback for unregistered types *)
  | SCast (fld ty v : string)
  (* the time.Time codec: apikit.NewTimeFromString *)
  | STime (v fld : string) (ptr : bool)
  (* text returned by any other codec's ParseFunc *)
  | SText (txt : string)
  (* if vals := SRC; len(vals) > 0 { payload.F = vals } *)
  | SSliceVals (src fld : string)
  (* the element-parsing loops of GenerateSliceCodeByType *)
  | SSliceInt (src fld ety : string)
  | SSliceUint (src fld ety : string)
  | SSliceFloat (src fld ety bits : string)
  | SSliceBool (src fld : string)
  | SSliceCodec (src fld ety : string) (inner : stmt)
  (* FormExtractor.generateFileCode *)
  | SFileMulti (form fld : string)
  | SFileSingle (form fld : string).

Definition nl : string := String (ascii_of_nat 10) EmptyString.
Definition tb : string := String (ascii_of_nat 9) EmptyString.
(** a Go string literal without escapes: "s" *)
Definition q (s : string) : string := String dq (s ++ String dq EmptyString).

Definition errorf_line (fld : string) : string :=
  "return fmt.Errorf(" ++ q ("invalid " ++ fld ++ ": %w") ++ ", err)".

Definition errorf_idx_line (fld : string) : string :=
  "return fmt.Errorf(" ++ q ("invalid " ++ fld ++ "[%d]: %w") ++ ", i, err)".

Definition parse_template (head assign fld : string) : string :=
  head ++ "; err == nil {" ++ nl ++ tb ++ tb ++ assign ++ nl ++ tb ++ "} else {" ++ nl
  ++ tb ++ tb ++ errorf_line fld ++ nl ++ tb ++ "}".

Definition slice_loop (src fld ety conv assign : string) : string :=
  "if vals := " ++ src ++ "; len(vals) > 0 {" ++ nl
  ++ tb ++ tb ++ "payload." ++ fld ++ " = make([]" ++ ety ++ ", 0, len(vals))" ++ nl
  ++ tb ++ tb ++ "for i, val := range vals {" ++ nl
  ++ tb ++ tb ++ tb ++ "if parsed, err := " ++ conv ++ "; err == nil {" ++ nl
  ++ tb ++ tb ++ tb ++ tb ++ "payload." ++ fld ++ " = append(payload." ++ fld ++ ", " ++ assign ++ ")" ++ nl
  ++ tb ++ tb ++ tb ++ "} else {" ++ nl
  ++ tb ++ tb ++ tb ++ tb ++ errorf_idx_line fld ++ nl
  ++ tb ++ tb ++ tb ++ "}" ++ nl
  ++ tb ++ tb ++ "}" ++ nl
  ++ tb ++ "}".

Fixpoint render (s : stmt) : string :=
  match s with
  | SIfVal src thn els =>
      "if val := " ++ src ++ "; val != " ++ q "" ++ " {" ++ nl ++ tb ++ tb ++ render thn ++ nl
      ++ tb ++ "}"
      ++ match els with
         | Some e => " else {" ++ nl ++ tb ++ tb ++ render e ++ nl ++ tb ++ "}"
         | None => ""
         end
  | SAssignVal fld => "payload." ++ fld ++ " = val"
  | SDefault fld lit => "payload." ++ fld ++ " = " ++ lit
  | SParseInt v fld ty =>
      parse_template ("if i, err := strconv.ParseInt(" ++ v ++ ", 10, 64)")
        ("payload." ++ fld ++ " = " ++ ty ++ "(i)") fld
  | SParseUint v fld ty =>
      parse_template ("if i, err := strconv.ParseUint(" ++ v ++ ", 10, 64)")
        ("payload." ++ fld ++ " = " ++ ty ++ "(i)") fld
  | SParseFloat v fld bits =>
      parse_template ("if f, err := strconv.ParseFloat(" ++ v ++ ", " ++ bits ++ ")")
        ("payload." ++ fld ++ " = float" ++ bits ++ "(f)") fld
  | SParseBool v fld =>
      parse_template ("if b, err := strconv.ParseBool(" ++ v ++ ")")
        ("payload." ++ fld ++ " = b") fld
  | SCast fld ty v => "payload." ++ fld ++ " = " ++ ty ++ "(" ++ v ++ ")"
  | STime v fld ptr =>
      "if t, err := apikit.NewTimeFromString(" ++ v ++ "); err == nil {" ++ nl
      ++ tb ++ "payload." ++ fld ++ " = " ++ (if ptr then "&t" else "t") ++ nl
      ++ "} else {" ++ nl ++ tb ++ errorf_line fld ++ nl ++ "}"
  | SText txt => txt
  | SSliceVals src fld =>
      "if vals := " ++ src ++ "; len(vals) > 0 {" ++ nl ++ tb ++ tb ++ "payload." ++ fld
      ++ " = vals" ++ nl ++ tb ++ "}"
  | SSliceInt src fld ety =>
      slice_loop src fld ety "strconv.ParseInt(val, 10, 64)" (ety ++ "(parsed)")
  | SSliceUint src fld ety =>
      slice_loop src fld ety "strconv.ParseUint(val, 10, 64)" (ety ++ "(parsed)")
  | SSliceFloat src fld ety bits =>
      slice_loop src fld ety ("strconv.ParseFloat(val, " ++ bits ++ ")") (ety ++ "(parsed)")
  | SSliceBool src fld =>
      slice_loop src fld "bool" "strconv.ParseBool(val)" "parsed"
  | SSliceCodec src fld ety inner =>
      "if vals := " ++ src ++ "; len(vals) > 0 {" ++ nl
      ++ tb ++ tb ++ "payload." ++ fld ++ " = make([]" ++ ety ++ ", 0, len(vals))" ++ nl
      ++ tb ++ tb ++ "for _, val := range vals {" ++ nl
      ++ tb ++ tb ++ tb ++ "var parsed " ++ ety ++ nl
      ++ tb ++ tb ++ tb ++ render inner ++ nl
      ++ tb ++ tb ++ tb ++ "payload." ++ fld ++ " = append(payload." ++ fld ++ ", parsed)" ++ nl
      ++ tb ++ tb ++ "}" ++ nl ++ tb ++ "}"
  | SFileMulti form fld =>
      "if form := r.MultipartForm; form != nil {" ++ nl
      ++ tb ++ tb ++ "if files := form.File[" ++ q form ++ "]; len(files) > 0 {" ++ nl
      ++ tb ++ tb ++ tb ++ "payload." ++ fld ++ " = files" ++ nl
      ++ tb ++ tb ++ "}" ++ nl ++ tb ++ "}"
  | SFileSingle form fld =>
      "if _, header, err := r.FormFile(" ++ q form ++ "); err == nil {" ++ nl
      ++ tb ++ tb ++ "payload." ++ fld ++ " = header" ++ nl
      ++ tb ++ "} else if err != http.ErrMissingFile {" ++ nl
      ++ tb ++ tb ++ "return fmt.Errorf(" ++ q ("reading file '" ++ form ++ "': %w") ++ ", err)" ++ nl
      ++ tb ++ "}"
  end.

(* ------------------------------------------------------------------ *)
(** * The type codec registry (package types) *)
(* ------------------------------------------------------------------ *)

Record Codec := mkCodec {
  TypeName : string;
  Import : string;
  ParseFunc : string -> string -> bool -> stmt;
  RequiresError : bool
}.

(** types.Registry: a map from type name to codec; Register overwrites. *)
Definition TypeRegistry := gmap string Codec.

Definition registry_register (e : Codec) (r : TypeRegistry) : TypeRegistry :=
  <[TypeName e := e]> r.

(** The text of a built-in codec: HEAD; err == nil { LINES } else { return ... } *)
Definition codec_text (head : string) (lines : list string) (fld : string) : string :=
  head ++ "; err == nil {" ++ nl ++ String.concat "" (map (fun l => tb ++ l ++ nl) lines)
  ++ "} else {" ++ nl ++ tb ++ errorf_line fld ++ nl ++ "}".

Definition stringCodec : Codec :=
  mkCodec "string" ""
    (fun v f ptr => if ptr then SText ("val := " ++ v ++ nl ++ "payload." ++ f ++ " = &val")
                    else SText ("payload." ++ f ++ " = " ++ v)) false.

Definition intCodec (ty : string) : Codec :=
  mkCodec ty ""
    (fun v f ptr =>
       let head := "if i, err := strconv.ParseInt(" ++ v ++ ", 10, 64)" in
       if ptr then SText (codec_text head ["val := " ++ ty ++ "(i)"; "payload." ++ f ++ " = &val"] f)
       else SText (codec_text head ["payload." ++ f ++ " = " ++ ty ++ "(i)"] f)) true.

Definition uintCodec (ty : string) : Codec :=
  mkCodec ty ""
    (fun v f ptr =>
       let head := "if u, err := strconv.ParseUint(" ++ v ++ ", 10, 64)" in
       if ptr then SText (codec_text head ["val := " ++ ty ++ "(u)"; "payload." ++ f ++ " = &val"] f)
       else SText (codec_text head ["payload." ++ f ++ " = " ++ ty ++ "(u)"] f)) true.

Definition floatCodec (ty bits : string) : Codec :=
  mkCodec ty ""
    (fun v f ptr =>
       let head := "if f, err := strconv.ParseFloat(" ++ v ++ ", " ++ bits ++ ")" in
       if ptr then SText (codec_text head ["val := " ++ ty ++ "(f)"; "payload." ++ f ++ " = &val"] f)
       else SText (codec_text head ["payload." ++ f ++ " = " ++ ty ++ "(f)"] f)) true.

Definition boolCodec : Codec :=
  mkCodec "bool" ""
    (fun v f ptr =>
       let head := "if b, err := strconv.ParseBool(" ++ v ++ ")" in
       if ptr then SText (codec_text head ["val := b"; "payload." ++ f ++ " = &val"] f)
       else SText (codec_text head ["payload." ++ f ++ " = b"] f)) true.

Definition timeCodec : Codec :=
  mkCodec "time.Time" "github.com/reation-io/apikit/pkg/apikit" (fun v f ptr => STime v f ptr) true.

Definition fileCodec (ty : string) : Codec :=
  mkCodec ty "mime/multipart" (fun v f _ => SText ("payload." ++ f ++ " = " ++ v)) false.

(** NewRegistry (registerBuiltins) followed by the init of the file types *)
Definition DefaultRegistry : TypeRegistry :=
  fold_left (fun r e => registry_register e r)
    ([stringCodec]
     ++ map intCodec ["int"; "int8"; "int16"; "int32"; "int64"]
     ++ map uintCodec ["uint"; "uint8"; "uint16"; "uint32"; "uint64"]
     ++ [floatCodec "float32" "32"; floatCodec "float64" "64"; boolCodec; timeCodec;
         fileCodec "*multipart.FileHeader"; fileCodec "[]*multipart.FileHeader"])
    ∅.

(* ------------------------------------------------------------------ *)
(** * Code-generation helpers of package extractors *)
(* ------------------------------------------------------------------ *)

Definition IsIntType (t : string) : bool :=
  String.eqb t "int" || String.eqb t "int8" || String.eqb t "int16" ||
  String.eqb t "int32" || String.eqb t "int64".
Definition IsUintType (t : string) : bool :=
  String.eqb t "uint" || String.eqb t "uint8" || String.eqb t "uint16" ||
  String.eqb t "uint32" || String.eqb t "uint64".
Definition IsFloatType (t : string) : bool := String.eqb t "float32" || String.eqb t "float64".
Definition IsBoolType (t : string) : bool := String.eqb t "bool".
Definition IsStringType (t : string) : bool := String.eqb t "string".

Definition GetBaseType (field : Field) : string :=
  let t := Type_ field in
  let t := if IsPointer field then trim_prefix t "*" else t in
  if IsSlice field then SliceType field else t.

Section Codegen.

Variable unquote : string -> option string.
(** strconv.Quote, a standard-library function taken as a parameter. *)
Variable quote : string -> string.
Variable reg : TypeRegistry.

Definition GetDefaultTag (field : Field) : string :=
  if String.eqb (StructTag field) "" then "" else TagGet unquote (StructTag field) "default".

Definition GenerateDefaultValue (fieldName defaultValue typeName : string) : stmt :=
  if has_prefix typeName "int" || has_prefix typeName "uint" then SDefault fieldName defaultValue
  else if has_prefix typeName "float" then SDefault fieldName defaultValue
  else if String.eqb typeName "bool" then SDefault fieldName defaultValue
  else if String.eqb typeName "string" then SDefault fieldName (quote defaultValue)
  else SDefault fieldName defaultValue.

(** The nil parsingFunc passed for strings; the string branch of
    GenerateExtractionCode never calls it. *)
Definition nil_parse : string -> string -> stmt := fun _ _ => SText "".

Definition GenerateExtractionCode (varName fieldName typeName : string) (field : Field)
    (parsingFunc : string -> string -> stmt) (imports : list string) : stmt * list string :=
  let defaultTag := GetDefaultTag field in
  let hasDefault := negb (String.eqb defaultTag "") in
  let els := if hasDefault then Some (GenerateDefaultValue fieldName defaultTag typeName)
             else None in
  if IsStringType typeName then (SIfVal varName (SAssignVal fieldName) els, imports)
  else (SIfVal varName (parsingFunc "val" fieldName) els, imports).

(** GenerateCodeByType: None is the empty code string "". *)
Definition GenerateCodeByType (varName fieldName typeName : string) (field : Field)
    : option stmt * list string :=
  let wrap (r : stmt * list string) := (Some (fst r), snd r) in
  if IsStringType typeName then
    wrap (GenerateExtractionCode varName fieldName typeName field nil_parse [])
  else if IsIntType typeName then
    wrap (GenerateExtractionCode varName fieldName typeName field
            (fun v f => SParseInt v f typeName) ["strconv"])
  else if IsUintType typeName then
    wrap (GenerateExtractionCode varName fieldName typeName field
            (fun v f => SParseUint v f typeName) ["strconv"])
  else if IsFloatType typeName then
    let bitSize := if String.eqb typeName "float32" then "32" else "64" in
    wrap (GenerateExtractionCode varName fieldName typeName field
            (fun v f => SParseFloat v f bitSize) ["strconv"])
  else if IsBoolType typeName then
    wrap (GenerateExtractionCode varName fieldName typeName field
            (fun v f => SParseBool v f) ["strconv"])
  else
    match reg !! typeName with
    | Some te =>
        let imports := if String.eqb (Import te) "" then [] else [Import te] in
        wrap (GenerateExtractionCode varName fieldName typeName field
                (fun v f => ParseFunc te v f (IsPointer field)) imports)
    | None =>
        if negb (IsEmbedded field) then
          wrap (GenerateExtractionCode varName fieldName typeName field
                  (fun v f => SCast f typeName v) [])
        else (None, [])
    end.

Definition GenerateSliceCodeByType (varName fieldName elementType : string) (field : Field)
    : option stmt * list string :=
  if IsStringType elementType then (Some (SSliceVals varName fieldName), [])
  else if IsIntType elementType then (Some (SSliceInt varName fieldName elementType), ["strconv"])
  else if IsUintType elementType then (Some (SSliceUint varName fieldName elementType), ["strconv"])
  else if IsFloatType elementType then
    let bitSize := if String.eqb elementType "float32" then "32" else "64" in
    (Some (SSliceFloat varName fieldName elementType bitSize), ["strconv"])
  else if IsBoolType elementType then (Some (SSliceBool varName fieldName), ["strconv"])
  else
    match reg !! elementType with
    | Some te =>
        let imports := if String.eqb (Import te) "" then [] else [Import te] in
        (Some (SSliceCodec varName fieldName elementType (ParseFunc te "val" "parsed" false)),
         imports)
    | None => (Some (SSliceVals varName fieldName), [])
    end.

End Codegen.

(* ------------------------------------------------------------------ *)
(** * Field extractors (classifiers) and their registry *)
(* ------------------------------------------------------------------ *)

(** extractors.Extractor; Priority is a Go int (64-bit). *)
Record Extractor := mkExtractor {
  ExtName : string;
  CanExtract : Field -> bool;
  GenerateCode : Field -> string -> option stmt * list string;
  Priority : Z
}.

Section Extractors.

Variable unquote : string -> option string.
Variable quote : string -> string.
Variable reg : TypeRegistry.

(** if field.StructTag != "" { if _, ok := tag.Lookup(key); ok { return true } };
    return field.InComment == key *)
Definition tag_or_comment (field : Field) (key : string) : bool :=
  if negb (String.eqb (StructTag field) "") then
    if snd (Lookup unquote (StructTag field) key) then true
    else String.eqb (InComment field) key
  else String.eqb (InComment field) key.

Definition PathExtractor : Extractor :=
  mkExtractor "path" (fun field => tag_or_comment field "path")
    (fun field _ =>
       let paramName := GetParameterName unquote field "path" in
       GenerateCodeByType unquote quote reg ("r.PathValue(" ++ q paramName ++ ")")
         (Name field) (GetBaseType field) field)
    10.

Definition FormExtractor : Extractor :=
  mkExtractor "form"
    (fun field =>
       if IsRequest field || IsResponseWriter field || IsRawBody field then false
       else tag_or_comment field "form")
    (fun field _ =>
       let formName := GetParameterName unquote field "form" in
       if IsFile field then
         (Some (if IsSlice field then SFileMulti formName (Name field)
                else SFileSingle formName (Name field)), ["mime/multipart"])
       else if IsSlice field then
         (Some (SSliceVals ("r.Form[" ++ q formName ++ "]") (Name field)), [])
       else
         let '(typeCode, typeImports) :=
           GenerateCodeByType unquote quote reg ("r.FormValue(" ++ q formName ++ ")")
             (Name field) (Type_ field) field in
         (typeCode, typeImports))
    15.

Definition QueryExtractor : Extractor :=
  mkExtractor "query" (fun field => tag_or_comment field "query")
    (fun field _ =>
       let paramName := GetParameterName unquote field "query" in
       if IsSlice field then
         GenerateSliceCodeByType reg ("r.URL.Query()[" ++ q paramName ++ "]")
           (Name field) (SliceType field) field
       else
         GenerateCodeByType unquote quote reg ("r.URL.Query().Get(" ++ q paramName ++ ")")
           (Name field) (GetBaseType field) field)
    20.

Definition HeaderExtractor : Extractor :=
  mkExtractor "header" (fun field => tag_or_comment field "header")
    (fun field _ =>
       let headerName := GetParameterName unquote field "header" in
       if IsSlice field then
         GenerateSliceCodeByType reg ("r.Header[" ++ q headerName ++ "]")
           (Name field) (SliceType field) field
       else
         GenerateCodeByType unquote quote reg ("r.Header.Get(" ++ q headerName ++ ")")
           (Name field) (GetBaseType field) field)
    30.

Definition CookieExtractor : Extractor :=
  mkExtractor "cookie" (fun field => tag_or_comment field "cookie")
    (fun field _ =>
       let cookieName := GetParameterName unquote field "cookie" in
       GenerateCodeByType unquote quote reg ("apikit.GetCookie(r, " ++ q cookieName ++ ")")
         (Name field) (GetBaseType field) field)
    35.

Definition BodyExtractor : Extractor :=
  mkExtractor "body"
    (fun field =>
       if IsRequest field || IsResponseWriter field || IsRawBody field then false
       else if IsBody field then true
       else if negb (String.eqb (StructTag field) "") then
         snd (Lookup unquote (StructTag field) "json")
       else false)
    (fun _ _ => (None, []))
    40.

(** RequestExtractor: *http.Request is passed directly to the handler,
    no extraction code ("", nil). *)
Definition RequestExtractor : Extractor :=
  mkExtractor "request" IsRequest (fun _ _ => (None, [])) 50.

(** ResponseExtractor: http.ResponseWriter is passed directly to the
    handler, no extraction code ("", nil). *)
Definition ResponseExtractor : Extractor :=
  mkExtractor "response" IsResponseWriter (fun _ _ => (None, [])) 60.

End Extractors.

(** extractors.GetExtractor: the first registered extractor that accepts the field *)
Fixpoint GetExtractor (exts : list Extractor) (field : Field) : option Extractor :=
  match exts with
  | [] => None
  | e :: rest => if CanExtract e field then Some e else GetExtractor rest field
  end.

(* ------------------------------------------------------------------ *)
(** * codegen.generateExtractionCode *)
(* ------------------------------------------------------------------ *)

(** The Go function returns the fragments joined by a newline and a tab
    and records imports in a shared map. A nested struct's non-empty
    joined code is appended as one line; joining is associative, so the
    list below keeps the nested fragments in place, and the Go string is
    [join_code] of it. *)
Definition join_code (lines : list stmt) : string :=
  String.concat (nl ++ tb) (map render lines).

Fixpoint generateExtractionCode (exts : list Extractor) (s : Struct)
    (importsMap : gset string) {struct s} : list stmt * gset string :=
  match s with
  | mkStruct sname fs _ =>
      (fix go (fs : list Field) (importsMap : gset string) : list stmt * gset string :=
         match fs with
         | [] => ([], importsMap)
         | field :: rest =>
             match field with
             | mkField _ _ _ _ _ _ _ _ isEmbedded _ isRawBody _ _ _ nested _ =>
                 if isEmbedded then
                   match nested with
                   | Some ns =>
                       let '(nestedCode, im1) := generateExtractionCode exts ns importsMap in
                       let '(more, im2) := go rest im1 in (app nestedCode more, im2)
                   | None => go rest importsMap
                   end
                 else if isRawBody then go rest importsMap
                 else
                   let '(code, im1) :=
                     (fix scan (l : list Extractor) : list stmt * gset string :=
                        match l with
                        | [] => ([], importsMap)
                        | ext :: l' =>
                            if CanExtract ext field then
                              match GenerateCode ext field sname with
                              | (Some c, imports) =>
                                  if negb (String.eqb (render c) "") then
                                    ([c], list_to_set imports ∪ importsMap)
                                  else ([], importsMap)
                              | (None, _) => ([], importsMap)
                              end
                            else scan l'
                        end) exts in
                   let '(more, im2) := go rest im1 in (app code more, im2)
             end
         end) fs importsMap
  end.

(* ------------------------------------------------------------------ *)
(** * Directive comments (parser.extractInComment) *)
(* ------------------------------------------------------------------ *)

Definition strip_markers (comment : string) : string :=
  trim_space (trim_suffix (trim_prefix (trim_prefix comment "//") "/*") "*/").

Definition extractInComment (comment : string) : string * string :=
  let comment := strip_markers comment in
  if has_prefix comment "in:" then
    let value := trim_space (trim_prefix comment "in:") in
    match fields value with
    | [] => ("", "")
    | [p0] => (p0, "")
    | p0 :: p1 :: _ => (p0, p1)
    end
  else ("", "").

(* ------------------------------------------------------------------ *)
(** * Valid UTF-8 and concrete standard-library instances *)
(* ------------------------------------------------------------------ *)

(** utf8.ValidString, by the same decoding table as the rune round trip. *)
Fixpoint valid_utf8_aux (fuel : nat) (l : list ascii) : bool :=
  match fuel with
  | O => match l with [] => true | _ => false end
  | S fuel' =>
      match l with
      | [] => true
      | _ :: _ =>
          match utf8_seq_len l with
          | O => false
          | k => valid_utf8_aux fuel' (skipn k l)
          end
      end
  end.

Definition valid_utf8 (s : string) : bool :=
  let l := list_of_str s in valid_utf8_aux (length l) l.

Fixpoint has_byte (n : nat) (s : string) : bool :=
  match s with
  | EmptyString => false
  | String c r => (byte_of c =? n)%nat || has_byte n r
  end.

Definition drop_last (s : string) : string :=
  str_of_list (removelast (list_of_str s)).

(** strconv.Unquote on a double-quoted literal without escapes: the text
    between the quotes when it holds no quote, backslash or newline and is
    valid UTF-8. Literals with escapes are not decoded by this instance. *)
Definition unquote_plain (s : string) : option string :=
  match s with
  | String c r =>
      if (byte_of c =? 34)%nat && has_suffix r (String dq EmptyString) then
        let body := drop_last r in
        if has_byte 34 body || has_byte 92 body || has_byte 10 body then None
        else if valid_utf8 body then Some body else None
      else None
  | EmptyString => None
  end.

(** strconv.Quote on printable ASCII text without quote or backslash. *)
Definition quote_plain (s : string) : string := q s.

(** The lowering rule the tests of toCamelCase describe: an ASCII capital
    first letter becomes small, any other first character stays. *)
Definition lower_ascii_first (s : string) : string :=
  match s with
  | EmptyString => s
  | String c r =>
      let n := byte_of c in
      if (65 <=? n)%nat && (n <=? 90)%nat then String (ascii_of_nat (n + 32)) r else s
  end.

(** A field declared as  Q string `query:"x"` // in: query y  *)
Definition precedence_example_field : Field :=
  let '(src, nm) := extractInComment "// in: query y" in
  mkField "Q" "string" ("query:" ++ q "x") src nm false false "" false false false false false false
    None "".

(** The string "Élan" in UTF-8 (C3 89 for the capital E with acute accent). *)
Definition Elan : string := String (ascii_of_nat 195) (String (ascii_of_nat 137) "lan").
(** "élan" (C3 A9 for the small e with acute accent). *)
Definition elan : string := String (ascii_of_nat 195) (String (ascii_of_nat 169) "lan").

Definition plain_field (name ty tag : string) : Field :=
  mkField name ty tag "" "" false false "" false false false false false false None "".

(* ------------------------------------------------------------------ *)
(** * Running the emitted extraction code *)
(* ------------------------------------------------------------------ *)

(** Go's integer conversions T(x) on a 64-bit platform: the value is
    reduced modulo 2^w into the range of T. *)
Definition int_width (ty : string) : Z :=
  if String.eqb ty "int8" then 8 else if String.eqb ty "int16" then 16
  else if String.eqb ty "int32" then 32 else 64.

Definition uint_width (ty : string) : Z :=
  if String.eqb ty "uint8" then 8 else if String.eqb ty "uint16" then 16
  else if String.eqb ty "uint32" then 32 else 64.

Definition wrap_signed (w x : Z) : Z :=
  let m := (x mod 2 ^ w)%Z in if (2 ^ (w - 1) <=? m)%Z then (m - 2 ^ w)%Z else m.

Definition wrap_unsigned (w x : Z) : Z := (x mod 2 ^ w)%Z.

Section Exec.

(** The values produced by the standard-library parsers the emitted code
    calls: strconv.ParseInt(s, 10, 64), strconv.ParseUint(s, 10, 64),
    strconv.ParseFloat(s, bits), strconv.ParseBool(s) and
    apikit.NewTimeFromString(s); [None] is a non-nil error. *)
Variable Float Time : Type.
Variable ParseInt ParseUint : string -> option Z.
Variable ParseFloat : string -> string -> option Float.
Variable ParseBool : string -> option bool.
Variable NewTimeFromString : string -> option Time.

(** The value stored into a payload field. *)
Inductive gvalue :=
  | VStr (s : string)                    (* payload.F = val *)
  | VLit (lit : string)                  (* payload.F = LIT, a default *)
  | VInt (ty : string) (i : Z)           (* payload.F = T(i) *)
  | VUint (ty : string) (u : Z)
  | VFloat (bits : string) (f : Float)
  | VBool (b : bool)
  | VTime (t : Time) (ptr : bool)
  | VCast (ty s : string).               (* payload.F = T(val) *)

(** The outcome of one extraction fragment. *)
Inductive result :=
  | RNone                                (* nothing assigned *)
  | RAssign (fld : string) (v : gvalue)
  | RErr (fld : string)                  (* return fmt.Errorf("invalid F: %w", err) *)
  | ROpaque (code : string).             (* text of another codec, not interpreted *)

(** [env] gives the value of each Go expression in scope: the request
    accessor that an [if val := SRC] evaluates (the empty string when the
    parameter is absent), and [val] inside the branches. *)
Fixpoint exec (env : string -> string) (s : stmt) : result :=
  match s with
  | SIfVal src thn els =>
      let v := env src in
      let env' := fun x => if String.eqb x "val" then v else env x in
      if negb (String.eqb v "") then exec env' thn
      else match els with Some e => exec env' e | None => RNone end
  | SAssignVal fld => RAssign fld (VStr (env "val"))
  | SDefault fld lit => RAssign fld (VLit lit)
  | SParseInt v fld ty =>
      match ParseInt (env v) with
      | Some i => RAssign fld (VInt ty (wrap_signed (int_width ty) i))
      | None => RErr fld
      end
  | SParseUint v fld ty =>
      match ParseUint (env v) with
      | Some u => RAssign fld (VUint ty (wrap_unsigned (uint_width ty) u))
      | None => RErr fld
      end
  | SParseFloat v fld bits =>
      match ParseFloat (env v) bits with
      | Some f => RAssign fld (VFloat bits f)
      | None => RErr fld
      end
  | SParseBool v fld =>
      match ParseBool (env v) with
      | Some b => RAssign fld (VBool b)
      | None => RErr fld
      end
  | SCast fld ty v => RAssign fld (VCast ty (env v))
  | STime v fld ptr =>
      match NewTimeFromString (env v) with
      | Some t => RAssign fld (VTime t ptr)
      | None => RErr fld
      end
  | other => ROpaque (render other)
  end.

(** The field types whose emitted code converts the raw text with a
    parser that can fail, and whether that parser fails on [raw]. *)
Definition conversion_fails (typeName raw : string) : bool :=
  if IsStringType typeName then false
  else if IsIntType typeName then match ParseInt raw with Some _ => false | None => true end
  else if IsUintType typeName then match ParseUint raw with Some _ => false | None => true end
  else if IsFloatType typeName then
    match ParseFloat raw (if String.eqb typeName "float32" then "32" else "64") with Some _ => false | None => true end
  else if IsBoolType typeName then match ParseBool raw with Some _ => false | None => true end
  else if String.eqb typeName "time.Time" then match NewTimeFromString raw with Some _ => false | None => true end
  else false.

End Exec.

(** strconv.ParseInt(s, 10, 64): an optional sign, at least one decimal
    digit, and a value in the int64 range. *)
Fixpoint digits_val (l : list ascii) (acc : Z) : option Z :=
  match l with
  | [] => Some acc
  | c :: r =>
      let n := byte_of c in
      if (48 <=? n)%nat && (n <=? 57)%nat then digits_val r (acc * 10 + Z.of_nat (n - 48))%Z
      else None
  end.

Definition parse_int_dec (s : string) : option Z :=
  let '(neg, body) :=
    match list_of_str s with
    | c :: r => if (byte_of c =? 45)%nat then (true, r)
                else if (byte_of c =? 43)%nat then (false, r) else (false, c :: r)
    | [] => (false, [])
    end in
  match body with
  | [] => None
  | _ =>
      match digits_val body 0 with
      | Some v =>
          let v := if neg then (- v)%Z else v in
          if (- 2 ^ 63 <=? v)%Z && (v <? 2 ^ 63)%Z then Some v else None
      | None => None
      end
  end.

(** A field  N int8 `query:"n" default:"1"`  and the accessor the query
    extractor reads it with. *)
Definition int8_default_field : Field :=
  plain_field "N" "int8" ("query:" ++ q "n" ++ " default:" ++ q "1").

Definition query_n : string := "r.URL.Query().Get(" ++ q "n" ++ ")".

(** The request environment in which query parameter n is [raw]. *)
Definition query_env (raw : string) : string -> string :=
  fun e => if String.eqb e query_n then raw else "".

(** A field of an unregistered named type, scalar and slice. *)
Definition status_field : Field := plain_field "S" "model.Status" ("query:" ++ q "s").

Definition status_slice_field : Field :=
  mkField "S" "[]model.Status" ("query:" ++ q "s") "" "" false true "model.Status"
    false false false false false false None "".

Arguments VStr {Float Time}.
Arguments VLit {Float Time}.
Arguments VInt {Float Time}.
Arguments VUint {Float Time}.
Arguments VFloat {Float Time}.
Arguments VBool {Float Time}.
Arguments VTime {Float Time}.
Arguments VCast {Float Time}.
Arguments RNone {Float Time}.
Arguments RAssign {Float Time}.
Arguments RErr {Float Time}.
Arguments ROpaque {Float Time}.
Arguments exec {Float Time}.
Arguments conversion_fails {Float Time}.

(* ------------------------------------------------------------------ *)
(** * The checksum gate (package checksum and cmd generateWithParser) *)
(* ------------------------------------------------------------------ *)

(** A path of the file system: absent, or present with its bytes and
    whether the process may read it. *)
Inductive file_state :=
  | Missing
  | Present (contents : string) (readable : bool).

(** strings.Split(s, sep) for a one-byte separator *)
Fixpoint split_on_aux (sep : nat) (s : string) (cur : list ascii) : list string :=
  match s with
  | EmptyString => [str_of_list (rev cur)]
  | String c r =>
      if (byte_of c =? sep)%nat then str_of_list (rev cur) :: split_on_aux sep r []
      else split_on_aux sep r (c :: cur)
  end.

Definition split_on (sep : nat) (s : string) : list string := split_on_aux sep s [].

(** strings.Split(s, "\n") *)
Definition split_nl (s : string) : list string := split_on 10 s.

Definition is_lower_hex (c : ascii) : bool :=
  in_range 48 57 c || in_range 97 102 c.

(** [a-f0-9]{n} at the start of [s] *)
Fixpoint take_hex (n : nat) (s : string) : option string :=
  match n with
  | O => Some EmptyString
  | S n' =>
      match s with
      | String c r => if is_lower_hex c then option_map (String c) (take_hex n' r) else None
      | EmptyString => None
      end
  end.

Definition checksum_marker : string := "// apikit:checksum:".

(** checksumPattern.FindStringSubmatch(line)[1] for the pattern
    `// apikit:checksum:([a-f0-9]{64})`: the leftmost match, unanchored. *)
Fixpoint find_checksum (line : string) : option string :=
  match line with
  | EmptyString => None
  | String _ r =>
      match if has_prefix line checksum_marker
            then take_hex 64 (trim_prefix line checksum_marker) else None with
      | Some h => Some h
      | None => find_checksum r
      end
  end.

Fixpoint first_checksum (lines : list string) : option string :=
  match lines with
  | [] => None
  | l :: rest => match find_checksum l with Some h => Some h | None => first_checksum rest end
  end.

(** The loop  for i := 0; i < len(lines) && i < 10; i++  of ExtractChecksum *)
Definition artifact_checksum (content : string) : option string :=
  first_checksum (firstn 10 (split_nl content)).

Section Checksum.

(** The lowercase hexadecimal SHA-256 digest, fmt.Sprintf("%x", sha256(...)). *)
Variable sha256hex : string -> string.
Variable fs : string -> file_state.

(** CalculateFileChecksum: [None] is an error (os.Open or io.Copy). *)
Definition CalculateFileChecksum (filepath : string) : option string :=
  match fs filepath with
  | Present c true => Some (sha256hex c)
  | _ => None
  end.

(** ExtractChecksum: a missing file has no checksum (""), another read
    error is an error ([None]). *)
Definition ExtractChecksum (filepath : string) : option string :=
  match fs filepath with
  | Missing => Some ""
  | Present _ false => None
  | Present c true =>
      Some (match artifact_checksum c with Some h => h | None => "" end)
  end.

(** HasSourceChanged: [None] is the error result (false, err). *)
Definition HasSourceChanged (sourceFile generatedFile : string) : option bool :=
  match CalculateFileChecksum sourceFile with
  | None => None
  | Some currentChecksum =>
      match ExtractChecksum generatedFile with
      | None => None
      | Some storedChecksum =>
          if String.eqb storedChecksum "" then Some true
          else Some (negb (String.eqb currentChecksum storedChecksum))
      end
  end.

(** Where generateWithParser goes after the check: [SkipFile] is the
    [return nil] before p.ParseFile; [ParseSource] goes on to
    p.ParseFile(sourceFilePath) and the generation that follows it. *)
Inductive gate_outcome := SkipFile | ParseSource.

Definition output_path (outputFile sourceFilePath : string) : string :=
  if String.eqb outputFile "" then trim_suffix sourceFilePath ".go" ++ "_apikit.go"
  else outputFile.

(** The head of generateWithParser; an error of HasSourceChanged is only
    logged (when verbose). *)
Definition generateWithParser_gate (force : bool) (outputFile sourceFilePath : string)
    : gate_outcome :=
  let output := output_path outputFile sourceFilePath in
  if negb force then
    match HasSourceChanged sourceFilePath output with
    | None => ParseSource
    | Some false => SkipFile
    | Some true => ParseSource
    end
  else ParseSource.

End Checksum.

(** A stand-in digest for the concrete runs below: 64 hex digits derived
    from the length of the text. *)
Definition toy_sha256hex (s : string) : string :=
  str_of_list (repeat (ascii_of_nat (48 + Nat.modulo (String.length s) 10)) 64).

Definition checksum_line (h : string) : string := checksum_marker ++ h.

(** A source file handlers.go and its artifact handlers_apikit.go with the
    given state. *)
Definition gate_fs (src : string) (artifact : file_state) : string -> file_state :=
  fun p => if String.eqb p "handlers.go" then Present src true
           else if String.eqb p "handlers_apikit.go" then artifact
           else Missing.

Definition nl_join (ls : list string) : string := String.concat nl ls.

(* ------------------------------------------------------------------ *)
(** * The runtime timestamp helper (apikit.NewTimeFromString) *)
(* ------------------------------------------------------------------ *)

Definition RFC3339 : string := "2006-01-02T15:04:05Z07:00".

Definition CommonTimeFormats : list string :=
  [RFC3339; "2006-01-02T15:04:05"; "2006-01-02T15:04:05.999"; "2006-01-02T15:04:05.999Z";
   "2006-01-02T15:04:05.999-07:00"; "2006-01-02 15:04:05"; "2006-01-02"].

Definition time_error_message : string :=
  "unable to parse time: expected RFC3339 or common date format".

Section TimeHelper.

Variable Time : Type.
(** time.Time{} *)
Variable zeroTime : Time.
(** time.Parse(layout, value); [None] is a non-nil error. *)
Variable time_Parse : string -> string -> option Time.

Fixpoint parse_loop (formats : list string) (s : string) : Time * option string :=
  match formats with
  | [] => (zeroTime, Some time_error_message)
  | format :: rest =>
      match time_Parse format s with
      | Some t => (t, None)
      | None => parse_loop rest s
      end
  end.

(** NewTimeFromString: the time and the error (None is a nil error). *)
Definition NewTimeFromString (s : string) : Time * option string :=
  parse_loop CommonTimeFormats s.

End TimeHelper.

(** A stand-in for time.Parse in the concrete run: it accepts only the
    date 2024-01-02 under the layout 2006-01-02, as day 19724. *)
Definition toy_time_Parse (layout value : string) : option Z :=
  if String.eqb layout "2006-01-02" && String.eqb value "2024-01-02" then Some 19724%Z
  else None.

(* ------------------------------------------------------------------ *)
(** * Handler discovery (parser.parseHandler, isValidHandlerSignature) *)
(* ------------------------------------------------------------------ *)

(** The go/ast type expressions the parser inspects. *)
Inductive TypeExpr :=
  | TIdent (name : string)
  | TStar (x : TypeExpr)
  | TSelector (x : TypeExpr) (sel : string)
  | TArray (len : option string) (elt : TypeExpr)
  | TMap (key value : TypeExpr)
  | TInterface
  | TOtherExpr.

(** An ast.Field of a parameter or result list: one group of names
    sharing a type, e.g. "a, b Req"; unnamed parameters have no names. *)
Record FieldGroup := mkGroup { GNames : list string; GType : TypeExpr }.

(** The parts of an ast.FuncDecl that parseHandler reads; [FnPos] is the
    printed token.Position of the declaration. *)
Record FuncDecl := mkFuncDecl {
  FnName : string;
  FnPos : string;
  FnDoc : option (list string);
  FnRecv : option (list FieldGroup);
  FnParams : option (list FieldGroup);
  FnResults : option (list FieldGroup)
}.

Record Handler := mkHandler {
  HName : string;
  HPackage : string;
  HReceiver : string;
  HParamType : string;
  HReturnType : string;
  HStruct : option Struct;
  HHasResponseWriter : bool;
  HHasRequest : bool;
  HPos : string
}.

Fixpoint typeToString (e : TypeExpr) : string :=
  match e with
  | TIdent n => n
  | TStar x => "*" ++ typeToString x
  | TSelector x sel => typeToString x ++ "." ++ sel
  | TArray None elt => "[]" ++ typeToString elt
  | TArray (Some l) elt => "[" ++ l ++ "]" ++ typeToString elt
  | TMap k v => "map[" ++ typeToString k ++ "]" ++ typeToString v
  | TInterface => "any"
  | TOtherExpr => ""
  end.

Fixpoint getTypeName (e : TypeExpr) : string :=
  match e with
  | TIdent n => n
  | TStar x => getTypeName x
  | TSelector _ sel => sel
  | _ => ""
  end.

Definition isContextType (e : TypeExpr) : bool :=
  match e with
  | TSelector (TIdent x) sel => String.eqb x "context" && String.eqb sel "Context"
  | _ => false
  end.

Definition isErrorType (e : TypeExpr) : bool :=
  match e with TIdent n => String.eqb n "error" | _ => false end.

Definition isResponseWriterType (e : TypeExpr) : bool :=
  match e with
  | TSelector (TIdent x) sel => String.eqb x "http" && String.eqb sel "ResponseWriter"
  | _ => false
  end.

Definition isRequestType (e : TypeExpr) : bool :=
  match e with
  | TStar (TSelector (TIdent x) sel) => String.eqb x "http" && String.eqb sel "Request"
  | _ => false
  end.

Definition hasApikitComment (fn : FuncDecl) : bool :=
  match FnDoc fn with
  | None => false
  | Some comments => existsb (fun c => contains c "apikit:handler") comments
  end.

(** [params.List] and [results.List] are the field groups. *)
Definition isValidHandlerSignature (fn : FuncDecl) : bool :=
  match FnParams fn with
  | None => false
  | Some params =>
      if (length params <? 2)%nat || (4 <? length params)%nat then false
      else
        match params with
        | p0 :: _ :: extra =>
            if negb (isContextType (GType p0)) then false
            else if negb (forallb (fun g => isResponseWriterType (GType g)
                                            || isRequestType (GType g)) extra) then false
            else
              match FnResults fn with
              | Some [_; r1] => isErrorType (GType r1)
              | _ => false
              end
        | _ => false
        end
  end.

Definition invalid_signature_warning (fn : FuncDecl) : string :=
  FnPos fn ++ ": function " ++ FnName fn ++ " has apikit:handler comment but invalid signature".

(** parseHandler: the handler (nil is [None]) and result.Warnings after
    the call. *)
Definition parseHandler (fn : FuncDecl) (pkgName : string) (structs : gmap string Struct)
    (warnings : list string) : option Handler * list string :=
  if negb (hasApikitComment fn) then (None, warnings)
  else if negb (isValidHandlerSignature fn) then
    (None, (warnings ++ [invalid_signature_warning fn])%list)
  else
    let receiver :=
      match FnRecv fn with Some (r :: _) => typeToString (GType r) | _ => "" end in
    let params := match FnParams fn with Some ps => ps | None => [] end in
    match params with
    | _ :: p1 :: extra =>
        let hasW := existsb (fun g => isResponseWriterType (GType g)) extra in
        let hasR := existsb (fun g => negb (isResponseWriterType (GType g))
                                      && isRequestType (GType g)) extra in
        match FnResults fn with
        | Some (r0 :: _) =>
            (Some (mkHandler (FnName fn) pkgName receiver (typeToString (GType p1))
                     (typeToString (GType r0)) (structs !! getTypeName (GType p1))
                     hasW hasR (FnPos fn)), warnings)
        | _ =>
            (None, app warnings [FnPos fn ++ ": function " ++ FnName fn
                                 ++ " has no return values"])
        end
    | _ =>
        (None, app warnings [FnPos fn ++ ": function " ++ FnName fn
                             ++ " has insufficient parameters"])
    end.

(** The second ast.Inspect pass of ParseFile over the file's functions. *)
Fixpoint find_handlers (fns : list FuncDecl) (pkgName : string) (structs : gmap string Struct)
    (handlers : list Handler) (warnings : list string) : list Handler * list string :=
  match fns with
  | [] => (handlers, warnings)
  | fn :: rest =>
      let '(h, ws) := parseHandler fn pkgName structs warnings in
      find_handlers rest pkgName structs
        (match h with Some h => (handlers ++ [h])%list | None => handlers end) ws
  end.

(** The number of parameters a parameter list declares. *)
Definition param_count (groups : list FieldGroup) : nat :=
  fold_right (fun g n => Nat.max 1 (length (GNames g)) + n)%nat 0%nat groups.

Definition ctx_group : FieldGroup := mkGroup ["ctx"] (TSelector (TIdent "context") "Context").

(** //apikit:handler
    func CreateUser(ctx context.Context, a, b Req) (Resp, error) *)
Definition two_payload_handler : FuncDecl :=
  mkFuncDecl "CreateUser" "handlers.go:12:1" (Some ["//apikit:handler"]) None
    (Some [ctx_group; mkGroup ["a"; "b"] (TIdent "Req")])
    (Some [mkGroup [] (TIdent "Resp"); mkGroup [] (TIdent "error")]).

(** //apikit:handler
    func GetUser(ctx context.Context, req Req) Resp *)
Definition one_result_handler : FuncDecl :=
  mkFuncDecl "GetUser" "handlers.go:20:1" (Some ["//apikit:handler"]) None
    (Some [ctx_group; mkGroup ["req"] (TIdent "Req")])
    (Some [mkGroup [] (TIdent "Resp")]).

(* ------------------------------------------------------------------ *)
(** * Nested-struct resolution (parser.resolveNestedStructsRecursive) *)
(* ------------------------------------------------------------------ *)

Section Resolver.

(** p.loadExternalStruct(importPath, structName): the parsed struct and
    the imports of its file, or nil. *)
Variable loadExternalStruct : string -> string -> option (Struct * gmap string string).

(** A copy of a struct with the given fields: &Struct{Name, Fields, IsDTO}. *)
Definition struct_copy (ns : Struct) (fs : list Field) : Struct :=
  mkStruct (SName ns) fs (IsDTO ns).

(** The base type name of a field (without pointer or slice). *)
Definition field_base_type (field : Field) : string :=
  let typeName := Type_ field in
  let typeName := if IsPointer field then trim_prefix typeName "*" else typeName in
  if IsSlice field then SliceType field else typeName.

(** The result of resolving a struct: the struct, the visited set and
    the struct cache afterwards. *)
Definition resolved := (Struct * gset string * gmap string Struct)%type.

(** One iteration of the field loop. [recurse] is the recursive call
    p.resolveNestedStructsRecursive(nested, visited, imports). *)
Definition resolve_field
    (recurse : Struct -> gset string -> gmap string string -> gmap string Struct -> option resolved)
    (imports : gmap string string) (field : Field) (visited : gset string)
    (cache : gmap string Struct) : option (Field * gset string * gmap string Struct) :=
  if IsRawBody field || IsResponseWriter field || IsRequest field then
    Some (field, visited, cache)
  else
    let typeName := field_base_type field in
    let '(pkgAlias, structName, field) :=
      if contains typeName "." then
        match split_on 46 typeName with
        | [a; b] => (a, b, set_PackagePath field a)
        | _ => ("", typeName, field)
        end
      else ("", typeName, field) in
    match cache !! typeName with
    | Some nestedStruct =>
        if decide (typeName ∈ visited) then
          Some (set_NestedStruct field (Some (struct_copy nestedStruct [])), visited, cache)
        else
          match recurse (struct_copy nestedStruct (SFields nestedStruct)) visited imports cache with
          | Some (ns, visited, cache) => Some (set_NestedStruct field (Some ns), visited, cache)
          | None => None
          end
    | None =>
        if String.eqb pkgAlias "" then Some (field, visited, cache)
        else
          match imports !! pkgAlias with
          | None => Some (field, visited, cache)
          | Some importPath =>
              match loadExternalStruct importPath structName with
              | None => Some (field, visited, cache)
              | Some (externalStruct, externalImports) =>
                  let cache := <[typeName := externalStruct]> cache in
                  if decide (typeName ∈ visited) then
                    Some (set_NestedStruct field (Some (struct_copy externalStruct [])),
                          visited, cache)
                  else
                    match recurse (struct_copy externalStruct (SFields externalStruct))
                            visited externalImports cache with
                    | Some (ns, visited, cache) =>
                        Some (set_NestedStruct field (Some ns), visited, cache)
                    | None => None
                    end
              end
          end
    end.

Fixpoint resolve_fields
    (recurse : Struct -> gset string -> gmap string string -> gmap string Struct -> option resolved)
    (imports : gmap string string) (fs : list Field) (visited : gset string)
    (cache : gmap string Struct) : option (list Field * gset string * gmap string Struct) :=
  match fs with
  | [] => Some ([], visited, cache)
  | field :: rest =>
      match resolve_field recurse imports field visited cache with
      | Some (field, visited, cache) =>
          match resolve_fields recurse imports rest visited cache with
          | Some (fs', visited, cache) => Some (field :: fs', visited, cache)
          | None => None
          end
      | None => None
      end
  end.

(** The recursion threads the visited set (a map shared by every call in
    Go) and the struct cache p.structs. The struct [s] is updated in
    place in Go; here the updated struct is returned. [fuel] bounds the
    depth of the recursion; [None] means it ran out. *)
Fixpoint resolveNestedStructsRecursive (fuel : nat) (s : Struct) (visited : gset string)
    (imports : gmap string string) (cache : gmap string Struct) : option resolved :=
  match fuel with
  | O => None
  | S fuel' =>
      if decide (SName s ∈ visited) then Some (s, visited, cache)
      else
        match resolve_fields (resolveNestedStructsRecursive fuel') imports (SFields s)
                ({[SName s]} ∪ visited) cache with
        | Some (fs', visited, cache) => Some (struct_copy s fs', visited, cache)
        | None => None
        end
  end.

End Resolver.

(** The names of the structs a resolution can reach: those of the cache
    and those the loader can return. *)
Definition cache_names (cache : gmap string Struct) : gset string :=
  list_to_set (map (fun kv => SName (snd kv)) (map_to_list cache)).

(** type A struct { Next *A } *)
Definition self_ref_A : Struct :=
  mkStruct "A"
    [mkField "Next" "*A" "" "" "" true false "" false false false false false false None ""]
    false.

(** No external packages. *)
Definition no_external : string -> string -> option (Struct * gmap string string) :=
  fun _ _ => None.

(** Package ext (import "example.com/ext") holds type Node struct { Next *Node }. *)
Definition ext_Node : Struct :=
  mkStruct "Node"
    [mkField "Next" "*Node" "" "" "" true false "" false false false false false false None ""]
    false.

Definition ext_loader : string -> string -> option (Struct * gmap string string) :=
  fun importPath structName =>
    if String.eqb importPath "example.com/ext" && String.eqb structName "Node"
    then Some (ext_Node, ∅) else None.

(** type Req struct { N ext.Node } in a file importing example.com/ext *)
Definition req_ext : Struct :=
  mkStruct "Req"
    [mkField "N" "ext.Node" "" "" "" false false "" false false false false false false None ""]
    false.

Definition ext_imports : gmap string string := {[ "ext" := "example.com/ext" ]}.

(* ------------------------------------------------------------------ *)
(** * slices.SortFunc (Go's pattern-defeating quicksort, pdqsortCmpFunc) *)
(* ------------------------------------------------------------------ *)

(** bits.Len for a non-negative int *)
Definition bits_Len (x : Z) : Z := if (x <=? 0)%Z then 0%Z else (Z.log2 x + 1)%Z.

(** A signed 64-bit int: the result of arithmetic wraps around. *)
Definition wrap64 (z : Z) : Z :=
  let m := (z mod 2 ^ 64)%Z in if (2 ^ 63 <=? m)%Z then (m - 2 ^ 64)%Z else m.

(** A uint64: arithmetic modulo 2^64. *)
Definition wrapu64 (z : Z) : Z := (z mod 2 ^ 64)%Z.

Inductive sortedHint := unknownHint | increasingHint | decreasingHint.

Section SortFunc.

Context {E : Type}.
Variable cmp : E -> E -> Z.

(** The slice being sorted is threaded as state; an index out of range is
    a run-time panic ([None]); a loop given no fuel also yields [None]. *)
Definition M (A : Type) : Type := list E -> option (A * list E).
Definition ret {A} (x : A) : M A := fun d => Some (x, d).
Definition bind {A B} (m : M A) (k : A -> M B) : M B :=
  fun d => match m d with Some (x, d') => k x d' | None => None end.
Definition panic {A} : M A := fun _ => None.

Local Notation "x <- m ;; k" := (bind m (fun x => k)) (at level 95, m at level 94, right associativity).
Local Notation "m ;;; k" := (bind m (fun _ => k)) (at level 95, right associativity).

Definition at_ (i : Z) : M E :=
  fun d => if (i <? 0)%Z then None
           else match d !! Z.to_nat i with Some x => Some (x, d) | None => None end.

(** data[i], data[j] = data[j], data[i] *)
Definition swap (i j : Z) : M unit :=
  fun d => if (i <? 0)%Z || (j <? 0)%Z then None
           else match d !! Z.to_nat i, d !! Z.to_nat j with
                | Some x, Some y => Some (tt, <[Z.to_nat j := x]> (<[Z.to_nat i := y]> d))
                | _, _ => None
                end.

(** cmp(data[i], data[j]) < 0 *)
Definition less (i j : Z) : M bool :=
  x <- at_ i ;; y <- at_ j ;; ret (cmp x y <? 0)%Z.

(** Every loop below runs at most [n] rounds, [n] being one more than the
    length of the slice. *)
Section Loops.
Variable n : nat.

(** for j := i; j > a && cmp(data[j], data[j-1]) < 0; j-- { swap } *)
Fixpoint insertion_inner (fuel : nat) (a j : Z) : M unit :=
  match fuel with
  | O => panic
  | S f =>
      if (a <? j)%Z then
        lt <- less j (j - 1) ;;
        if lt then swap j (j - 1) ;;; insertion_inner f a (j - 1) else ret tt
      else ret tt
  end.

(** for i := a + 1; i < b; i++ { ... } *)
Fixpoint insertion_outer (fuel : nat) (a i b : Z) : M unit :=
  match fuel with
  | O => panic
  | S f =>
      if (i <? b)%Z then insertion_inner n a i ;;; insertion_outer f a (i + 1) b
      else ret tt
  end.

Definition insertionSortCmpFunc (a b : Z) : M unit := insertion_outer n a (a + 1) b.

Fixpoint siftDown_loop (fuel : nat) (hi first root : Z) : M unit :=
  match fuel with
  | O => panic
  | S f =>
      let child := (2 * root + 1)%Z in
      if (hi <=? child)%Z then ret tt else
      child <- (if (child + 1 <? hi)%Z then
                  lt <- less (first + child) (first + child + 1) ;;
                  ret (if lt then (child + 1)%Z else child)
                else ret child) ;;
      lt <- less (first + root) (first + child) ;;
      if negb lt then ret tt
      else swap (first + root) (first + child) ;;; siftDown_loop f hi first child
  end.

Definition siftDownCmpFunc (lo hi first : Z) : M unit := siftDown_loop n hi first lo.

Fixpoint heap_build (fuel : nat) (i hi first : Z) : M unit :=
  match fuel with
  | O => panic
  | S f =>
      if (0 <=? i)%Z then siftDownCmpFunc i hi first ;;; heap_build f (i - 1) hi first
      else ret tt
  end.

Fixpoint heap_pop (fuel : nat) (i lo first : Z) : M unit :=
  match fuel with
  | O => panic
  | S f =>
      if (0 <=? i)%Z then
        swap first (first + i) ;;; siftDownCmpFunc lo i first ;;; heap_pop f (i - 1) lo first
      else ret tt
  end.

Definition heapSortCmpFunc (a b : Z) : M unit :=
  let first := a in let lo := 0%Z in let hi := (b - a)%Z in
  heap_build n (Z.quot (hi - 1) 2) hi first ;;; heap_pop n (hi - 1) lo first.

(** xorshift.Next on a uint64 state *)
Definition xorshift_next (r : Z) : Z :=
  let r := Z.lxor r (wrapu64 (Z.shiftl r 13)) in
  let r := Z.lxor r (Z.shiftr r 7) in
  Z.lxor r (wrapu64 (Z.shiftl r 17)).

Definition nextPowerOfTwo (length : Z) : Z := Z.shiftl 1 (bits_Len length).

Fixpoint break_loop (k : nat) (i random modulus length a idx : Z) : M unit :=
  match k with
  | O => ret tt
  | S k' =>
      let random := xorshift_next random in
      let other := Z.land random (modulus - 1) in
      let other := if (length <=? other)%Z then (other - length)%Z else other in
      swap (idx - 1 + i) (a + other) ;;; break_loop k' (i + 1) random modulus length a idx
  end.

Definition breakPatternsCmpFunc (a b : Z) : M unit :=
  let length := (b - a)%Z in
  if (8 <=? length)%Z then
    let random := length in
    let modulus := nextPowerOfTwo length in
    let idx := (a + (Z.quot length 4) * 2 - 1)%Z in
    break_loop 3 0 random modulus length a idx
  else ret tt.

(** order2CmpFunc, with the swap counter threaded *)
Definition order2CmpFunc (a b swaps : Z) : M (Z * Z * Z) :=
  lt <- less b a ;; if lt then ret (b, a, swaps + 1)%Z else ret (a, b, swaps).

Definition medianCmpFunc (a b c swaps : Z) : M (Z * Z) :=
  r1 <- order2CmpFunc a b swaps ;; let '(a, b, swaps) := r1 in
  r2 <- order2CmpFunc b c swaps ;; let '(b, c, swaps) := r2 in
  r3 <- order2CmpFunc a b swaps ;; let '(a, b, swaps) := r3 in
  ret (b, swaps).

Definition medianAdjacentCmpFunc (a swaps : Z) : M (Z * Z) :=
  medianCmpFunc (a - 1) a (a + 1) swaps.

Definition choosePivotCmpFunc (a b : Z) : M (Z * sortedHint) :=
  let shortestNinther := 50%Z in let maxSwaps := (4 * 3)%Z in
  let l := (b - a)%Z in
  let i := (a + Z.quot l 4 * 1)%Z in
  let j := (a + Z.quot l 4 * 2)%Z in
  let k := (a + Z.quot l 4 * 3)%Z in
  r <-
    (if (8 <=? l)%Z then
       r1 <-
         (if (shortestNinther <=? l)%Z then
            ri <- medianAdjacentCmpFunc i 0 ;; let '(i, swaps) := ri in
            rj <- medianAdjacentCmpFunc j swaps ;; let '(j, swaps) := rj in
            rk <- medianAdjacentCmpFunc k swaps ;; let '(k, swaps) := rk in
            ret (i, j, k, swaps)
          else ret (i, j, k, 0%Z)) ;;
       let '(i, j, k, swaps) := r1 in
       medianCmpFunc i j k swaps
     else ret (j, 0%Z)) ;;
  let '(j, swaps) := r in
  if (swaps =? 0)%Z then ret (j, increasingHint)
  else if (swaps =? maxSwaps)%Z then ret (j, decreasingHint)
  else ret (j, unknownHint).

Fixpoint reverse_loop (fuel : nat) (i j : Z) : M unit :=
  match fuel with
  | O => panic
  | S f => if (i <? j)%Z then swap i j ;;; reverse_loop f (i + 1) (j - 1) else ret tt
  end.

Definition reverseRangeCmpFunc (a b : Z) : M unit := reverse_loop n a (b - 1).

(** for i < b && !(cmp(data[i], data[i-1]) < 0) { i++ } *)
Fixpoint skip_sorted (fuel : nat) (i b : Z) : M Z :=
  match fuel with
  | O => panic
  | S f =>
      if (i <? b)%Z then
        lt <- less i (i - 1) ;; if negb lt then skip_sorted f (i + 1) b else ret i
      else ret i
  end.

(** for j := i - 1; j >= 1; j-- { if !(cmp(data[j], data[j-1]) < 0) { break }; swap } *)
Fixpoint shift_left (fuel : nat) (j : Z) : M unit :=
  match fuel with
  | O => panic
  | S f =>
      if (1 <=? j)%Z then
        lt <- less j (j - 1) ;; if negb lt then ret tt else swap j (j - 1) ;;; shift_left f (j - 1)
      else ret tt
  end.

(** for j := i + 1; j < b; j++ { if !(cmp(data[j], data[j-1]) < 0) { break }; swap } *)
Fixpoint shift_right (fuel : nat) (j b : Z) : M unit :=
  match fuel with
  | O => panic
  | S f =>
      if (j <? b)%Z then
        lt <- less j (j - 1) ;; if negb lt then ret tt else swap j (j - 1) ;;; shift_right f (j + 1) b
      else ret tt
  end.

Fixpoint partial_steps (steps : nat) (i a b : Z) : M bool :=
  match steps with
  | O => ret false
  | S s =>
      i <- skip_sorted n i b ;;
      if (i =? b)%Z then ret true
      else if (b - a <? 50)%Z then ret false
      else
        swap i (i - 1) ;;;
        (if (2 <=? i - a)%Z then shift_left n (i - 1) else ret tt) ;;;
        (if (2 <=? b - i)%Z then shift_right n (i + 1) b else ret tt) ;;;
        partial_steps s i a b
  end.

Definition partialInsertionSortCmpFunc (a b : Z) : M bool := partial_steps 5 (a + 1) a b.

(** for i <= j && cmp(data[i], data[a]) < 0 { i++ } *)
Fixpoint scan_lt (fuel : nat) (i j a : Z) : M Z :=
  match fuel with
  | O => panic
  | S f =>
      if (i <=? j)%Z then lt <- less i a ;; if lt then scan_lt f (i + 1) j a else ret i
      else ret i
  end.

(** for i <= j && !(cmp(data[j], data[a]) < 0) { j-- } *)
Fixpoint scan_ge (fuel : nat) (i j a : Z) : M Z :=
  match fuel with
  | O => panic
  | S f =>
      if (i <=? j)%Z then lt <- less j a ;; if negb lt then scan_ge f i (j - 1) a else ret j
      else ret j
  end.

Fixpoint partition_loop (fuel : nat) (i j a : Z) : M Z :=
  match fuel with
  | O => panic
  | S f =>
      i <- scan_lt n i j a ;;
      j <- scan_ge n i j a ;;
      if (j <? i)%Z then ret j
      else swap i j ;;; partition_loop f (i + 1) (j - 1) a
  end.

Definition partitionCmpFunc (a b pivot : Z) : M (Z * bool) :=
  swap a pivot ;;;
  i <- scan_lt n (a + 1) (b - 1) a ;;
  j <- scan_ge n i (b - 1) a ;;
  if (j <? i)%Z then swap j a ;;; ret (j, true)
  else
    swap i j ;;;
    j <- partition_loop n (i + 1) (j - 1) a ;;
    swap j a ;;; ret (j, false).

(** for i <= j && !(cmp(data[a], data[i]) < 0) { i++ } *)
Fixpoint scan_eq (fuel : nat) (i j a : Z) : M Z :=
  match fuel with
  | O => panic
  | S f =>
      if (i <=? j)%Z then lt <- less a i ;; if negb lt then scan_eq f (i + 1) j a else ret i
      else ret i
  end.

(** for i <= j && cmp(data[a], data[j]) < 0 { j-- } *)
Fixpoint scan_gt (fuel : nat) (i j a : Z) : M Z :=
  match fuel with
  | O => panic
  | S f =>
      if (i <=? j)%Z then lt <- less a j ;; if lt then scan_gt f i (j - 1) a else ret j
      else ret j
  end.

Fixpoint partition_equal_loop (fuel : nat) (i j a : Z) : M Z :=
  match fuel with
  | O => panic
  | S f =>
      i <- scan_eq n i j a ;;
      j <- scan_gt n i j a ;;
      if (j <? i)%Z then ret i
      else swap i j ;;; partition_equal_loop f (i + 1) (j - 1) a
  end.

Definition partitionEqualCmpFunc (a b pivot : Z) : M Z :=
  swap a pivot ;;; partition_equal_loop n (a + 1) (b - 1) a.

(** pdqsortCmpFunc: its for loop and its recursive calls share one fuel;
    each round shrinks [a, b), so [n] rounds suffice along every path. *)
Fixpoint pdqsort_loop (fuel : nat) (a b limit : Z) (wasBalanced wasPartitioned : bool) : M unit :=
  match fuel with
  | O => panic
  | S f =>
      let length := (b - a)%Z in
      if (length <=? 12)%Z then insertionSortCmpFunc a b
      else if (limit =? 0)%Z then heapSortCmpFunc a b
      else
        (if negb wasBalanced then breakPatternsCmpFunc a b else ret tt) ;;;
        let limit := if negb wasBalanced then (limit - 1)%Z else limit in
        r1 <- choosePivotCmpFunc a b ;; let '(pivot, hint) := r1 in
        r2 <-
          (match hint with
           | decreasingHint =>
               reverseRangeCmpFunc a b ;;; ret ((b - 1) - (pivot - a), increasingHint)%Z
           | _ => ret (pivot, hint)
           end) ;;
        let '(pivot, hint) := r2 in
        done <-
          (if wasBalanced && wasPartitioned
              && (match hint with increasingHint => true | _ => false end)
           then partialInsertionSortCmpFunc a b else ret false) ;;
        if done then ret tt
        else
          eqpart <- (if (0 <? a)%Z then lt <- less (a - 1) pivot ;; ret (negb lt) else ret false) ;;
          if eqpart then
            mid <- partitionEqualCmpFunc a b pivot ;;
            pdqsort_loop f mid b limit wasBalanced wasPartitioned
          else
            r3 <- partitionCmpFunc a b pivot ;; let '(mid, alreadyPartitioned) := r3 in
            let wasPartitioned := alreadyPartitioned in
            let leftLen := (mid - a)%Z in
            let rightLen := (b - mid)%Z in
            let balanceThreshold := Z.quot length 8 in
            if (leftLen <? rightLen)%Z then
              let wasBalanced := (balanceThreshold <=? leftLen)%Z in
              pdqsort_loop f a mid limit true true ;;;
              pdqsort_loop f (mid + 1) b limit wasBalanced wasPartitioned
            else
              let wasBalanced := (balanceThreshold <=? rightLen)%Z in
              pdqsort_loop f (mid + 1) b limit true true ;;;
              pdqsort_loop f a mid limit wasBalanced wasPartitioned
  end.

End Loops.

(** slices.SortFunc(x, cmp) *)
Definition SortFunc (x : list E) : option (list E) :=
  let n := S (length x) in
  let len := Z.of_nat (length x) in
  match pdqsort_loop n n 0 len (bits_Len len) true true x with
  | Some (_, d) => Some d
  | None => None
  end.

End SortFunc.

(* ------------------------------------------------------------------ *)
(** * extractors.Register / GetExtractors *)
(* ------------------------------------------------------------------ *)

(** func(e1, e2 Extractor) int { return e1.Priority() - e2.Priority() } *)
Definition priority_cmp (e1 e2 : Extractor) : Z := wrap64 (Priority e1 - Priority e2).

(** Register appends and sorts the global registry; [None] is a panic. *)
Definition Register (e : Extractor) (extractors : list Extractor) : option (list Extractor) :=
  SortFunc priority_cmp (extractors ++ [e]).

(** The registry after a sequence of registrations from the empty one:
    what GetExtractors returns afterwards. *)
Fixpoint register_all (es : list Extractor) (extractors : list Extractor)
    : option (list Extractor) :=
  match es with
  | [] => Some extractors
  | e :: rest =>
      match Register e extractors with
      | Some r => register_all rest r
      | None => None
      end
  end.

Definition GetExtractors_after (es : list Extractor) : option (list Extractor) :=
  register_all es [].

(** Stable sorting by an integer key, as the registry's documentation
    describes it: each element is placed after every element with a key
    not greater than its own. *)
Fixpoint stable_insert {E : Type} (key : E -> Z) (x : E) (l : list E) : list E :=
  match l with
  | [] => [x]
  | h :: t => if (key x <? key h)%Z then x :: h :: t else h :: stable_insert key x t
  end.

Definition stable_sort {E : Type} (key : E -> Z) (l : list E) : list E :=
  fold_left (fun acc x => stable_insert key x acc) l [].

(** Priorities whose differences fit in a Go int. *)
Definition small_priority (e : Extractor) : Prop :=
  (- 2 ^ 62 <= Priority e < 2 ^ 62)%Z.

Definition dummy_extractor (nm : string) (p : Z) : Extractor :=
  mkExtractor nm (fun _ => false) (fun _ _ => (None, [])) p.

(** Twelve extractors of priority 1 (a, b, ..., l) registered before one
    of priority 0 (z). *)
Definition tie_registrations : list Extractor :=
  (map (fun k => dummy_extractor (String (ascii_of_nat (97 + k)) EmptyString) 1%Z) (seq 0 12)
   ++ [dummy_extractor "z" 0%Z])%list.

(** The built-in extractors in the order their files' init functions
    register them (body, cookie, form, header, path, query, request,
    response). *)
Definition builtin_registrations (unquote : string -> option string) (quote : string -> string)
    (reg : TypeRegistry) : list Extractor :=
  [BodyExtractor unquote; CookieExtractor unquote quote reg; FormExtractor unquote quote reg;
   HeaderExtractor unquote quote reg; PathExtractor unquote quote reg;
   QueryExtractor unquote quote reg; RequestExtractor; ResponseExtractor].

(** The parsing code of a payload, generated with the built-in registry. *)
Definition payload_code (s : Struct) : option (list stmt) :=
  option_map (fun exts => fst (generateExtractionCode exts s ∅))
    (GetExtractors_after (builtin_registrations unquote_plain quote_plain DefaultRegistry)).

Definition precedence_example_struct : Struct :=
  mkStruct "Req" [precedence_example_field] false.

(** type Req struct { Q string `query:"q"`; ID string `path:"id"` } *)
Definition order_example_struct : Struct :=
  mkStruct "Req" [plain_field "Q" "string" ("query:" ++ q "q");
                  plain_field "ID" "string" ("path:" ++ q "id")] false.

(* ------------------------------------------------------------------ *)
(** * Stamping the artifact (checksum.AddChecksumToGenerated) *)
(* ------------------------------------------------------------------ *)

(** The index of the first line that contains "DO NOT EDIT". *)
Fixpoint find_do_not_edit (lines : list string) : option nat :=
  match lines with
  | [] => None
  | line :: rest =>
      if contains line "DO NOT EDIT" then Some 0%nat else option_map S (find_do_not_edit rest)
  end.

(** AddChecksumToGenerated: the comment goes on the line after the first
    "DO NOT EDIT" line, or in front of the content when there is none. *)
Definition AddChecksumToGenerated (content sourceChecksum : string) : string :=
  let checksumComment := checksum_marker ++ sourceChecksum in
  let lines := split_nl content in
  match find_do_not_edit lines with
  | Some i => nl_join (firstn (S i) lines ++ checksumComment :: skipn (S i) lines)%list
  | None => checksumComment ++ nl ++ content
  end.

(** A digest as fmt.Sprintf("%x") prints a SHA-256 sum: 64 lowercase
    hexadecimal digits. *)
Definition is_checksum (h : string) : bool :=
  (String.length h =? 64)%nat && forallb is_lower_hex (list_of_str h).

(** The number of lines AddChecksumToGenerated keeps in front of the
    checksum comment. *)
Definition checksum_slot (content : string) : nat :=
  match find_do_not_edit (split_nl content) with Some i => S i | None => 0%nat end.

(* ------------------------------------------------------------------ *)
(** * One run of cmd.generateWithParser *)
(* ------------------------------------------------------------------ *)

(** How a run ends: [GenSkipped] is the return nil of an unchanged
    source, [GenNoHandlers] the return nil when the file has no handler,
    [GenError] a returned error (its message prefix), [GenDryRun] the
    printed output of --dry-run, and [GenWrite] the call
    os.WriteFile(output, code, 0644) that ends a successful run. *)
Inductive gen_outcome :=
  | GenSkipped
  | GenNoHandlers
  | GenError (msg : string)
  | GenDryRun (output code : string)
  | GenWrite (output code : string).

(** The file system after os.WriteFile(path, code, 0644). *)
Definition write_file (fs : string -> file_state) (path code : string) : string -> file_state :=
  fun p => if String.eqb p path then Present code true else fs p.

Section GenerateRun.

Variable sha256hex : string -> string.
(** The parse result of p.ParseFile, its handler list, the parse of a
    file's text (go/parser.ParseFile and the passes after it; [None] is
    an error) and codegen's gen.Generate ([None] is an error). *)
Variable ParseResult : Type.
Variable Handlers_of : ParseResult -> list Handler.
Variable parse_source : string -> option ParseResult.
Variable Generate : ParseResult -> option string.

(** p.ParseFile(path): the file is read and parsed. *)
Definition ParseFile (fs : string -> file_state) (path : string) : option ParseResult :=
  match fs path with
  | Present c true => parse_source c
  | _ => None
  end.

Definition generateWithParser (fs : string -> file_state) (force dryRun : bool)
    (outputFile sourceFilePath : string) : gen_outcome :=
  let output := output_path outputFile sourceFilePath in
  match generateWithParser_gate sha256hex fs force outputFile sourceFilePath with
  | SkipFile => GenSkipped
  | ParseSource =>
      match ParseFile fs sourceFilePath with
      | None => GenError "parsing file"
      | Some result =>
          if (length (Handlers_of result) =? 0)%nat then GenNoHandlers
          else
            match Generate result with
            | None => GenError "generating code"
            | Some code =>
                match CalculateFileChecksum sha256hex fs sourceFilePath with
                | None => GenError "calculating source checksum"
                | Some sourceChecksum =>
                    let code := AddChecksumToGenerated code sourceChecksum in
                    if dryRun then GenDryRun output code else GenWrite output code
                end
            end
      end
  end.

End GenerateRun.

(* ------------------------------------------------------------------ *)
(** * Struct fields from the syntax tree (parser.parseField, parseStruct) *)
(* ------------------------------------------------------------------ *)

(** The parts of an ast.Field of a struct type that parseField reads: the
    names (none for an embedded field), the type, the tag literal as
    written and the texts of the doc and line comments. *)
Record AstField := mkAstField {
  AFNames : list string;
  AFType : TypeExpr;
  AFTag : option string;
  AFDoc : option (list string);
  AFComment : option (list string)
}.

(** extractDefaultComment *)
Definition extractDefaultComment (comment : string) : string :=
  let comment := strip_markers comment in
  if has_prefix comment "default:" then trim_space (trim_prefix comment "default:") else "".

Fixpoint drop_while_byte (n : nat) (l : list ascii) : list ascii :=
  match l with
  | c :: r => if (byte_of c =? n)%nat then drop_while_byte n r else l
  | [] => []
  end.

(** strings.Trim(s, cutset) for a one-byte cutset *)
Definition trim_byte (n : nat) (s : string) : string :=
  str_of_list (rev (drop_while_byte n (rev (drop_while_byte n (list_of_str s))))).

(** The variables of parseField that the comment loops set: inComment,
    inCommentName, defaultFromComment and isBody. *)
Definition directive_state := (string * string * string * bool)%type.

(** The loop over field.Comment.List *)
Fixpoint scan_line_comments (cs : list string) (st : directive_state) : directive_state :=
  match cs with
  | [] => st
  | c :: rest =>
      let '(inComment, inCommentName, defaultFromComment, isBody) := st in
      let '(source, name) := extractInComment c in
      let '(inComment, inCommentName, isBody) :=
        if negb (String.eqb source "") then
          (source, name, if String.eqb source "body" then true else isBody)
        else (inComment, inCommentName, isBody) in
      let defaultVal := extractDefaultComment c in
      let defaultFromComment :=
        if negb (String.eqb defaultVal "") then defaultVal else defaultFromComment in
      scan_line_comments rest (inComment, inCommentName, defaultFromComment, isBody)
  end.

(** The loop over field.Doc.List *)
Fixpoint scan_doc_comments (cs : list string) (st : directive_state) : directive_state :=
  match cs with
  | [] => st
  | c :: rest =>
      let '(inComment, inCommentName, defaultFromComment, isBody) := st in
      let '(inComment, inCommentName, isBody) :=
        if String.eqb inComment "" then
          let '(source, name) := extractInComment c in
          if negb (String.eqb source "") then
            (source, name, if String.eqb source "body" then true else isBody)
          else (inComment, inCommentName, isBody)
        else (inComment, inCommentName, isBody) in
      let defaultFromComment :=
        if String.eqb defaultFromComment "" then
          let defaultVal := extractDefaultComment c in
          if negb (String.eqb defaultVal "") then defaultVal else defaultFromComment
        else defaultFromComment in
      scan_doc_comments rest (inComment, inCommentName, defaultFromComment, isBody)
  end.

Definition parseField (field : AstField) : list Field :=
  let fieldType := typeToString (AFType field) in
  let isPointer := match AFType field with TStar _ => true | _ => false end in
  let '(isSlice, sliceType) :=
    match AFType field with
    | TArray None elt => (true, typeToString elt)
    | _ => (false, "")
    end in
  let st0 : directive_state := ("", "", "", false) in
  let st1 := match AFComment field with Some cs => scan_line_comments cs st0 | None => st0 end in
  let '(inComment, inCommentName, _, isBody) :=
    match AFDoc field with Some cs => scan_doc_comments cs st1 | None => st1 end in
  let tag := match AFTag field with Some v => trim_byte 96 v | None => "" end in
  match AFNames field with
  | [] =>
      [mkField (getTypeName (AFType field)) fieldType tag inComment inCommentName false isSlice
         sliceType true isBody false false false false None ""]
  | names =>
      map (fun name =>
             mkField name fieldType tag inComment inCommentName isPointer isSlice sliceType
               false isBody
               (String.eqb fieldType "[]byte"
                && (String.eqb name "RawBody" || String.eqb name "Raw"))
               ((String.eqb name "Response" || String.eqb name "Res")
                && String.eqb fieldType "http.ResponseWriter")
               ((String.eqb name "Request" || String.eqb name "Req")
                && String.eqb fieldType "*http.Request")
               false None "")
        names
  end.

(** parseStruct(name, st, typeSpec) with the texts of the type's doc
    comments *)
Definition parseStruct (name : string) (fields : list AstField) (doc : option (list string))
    : Struct :=
  let isDTO := match doc with
               | Some cs => existsb (fun c => contains c "apikit:dto") cs
               | None => false
               end in
  mkStruct name (concat (map parseField fields)) isDTO.

(* ------------------------------------------------------------------ *)
(** * Struct scans of package codegen *)
(* ------------------------------------------------------------------ *)

Section Scans.

Variable unquote : string -> option string.

(** tag.Lookup("json") gives "body" *)
Definition json_body_tag (tag : string) : bool :=
  negb (String.eqb tag "") &&
  (let '(v, ok) := Lookup unquote tag "json" in ok && String.eqb v "body").

Fixpoint hasBodyFields (s : Struct) : bool :=
  match s with
  | mkStruct _ fs _ =>
      (fix go (fs : list Field) : bool :=
         match fs with
         | [] => false
         | field :: rest =>
             match field with
             | mkField _ _ tag _ _ _ _ _ isEmbedded isBody _ _ _ _ nested _ =>
                 if isEmbedded && match nested with
                                  | Some ns => hasBodyFields ns
                                  | None => false
                                  end then true
                 else if isBody then true
                 else if json_body_tag tag then true
                 else go rest
             end
         end) fs
  end.

Fixpoint findBodyField (s : Struct) : string :=
  match s with
  | mkStruct _ fs _ =>
      (fix go (fs : list Field) : string :=
         match fs with
         | [] => ""
         | field :: rest =>
             match field with
             | mkField name _ tag _ _ _ _ _ isEmbedded isBody _ _ _ _ nested _ =>
                 let bodyField := if isEmbedded then
                                    match nested with
                                    | Some ns => findBodyField ns
                                    | None => ""
                                    end
                                  else "" in
                 if negb (String.eqb bodyField "") then bodyField
                 else if isBody then name
                 else if json_body_tag tag then name
                 else go rest
             end
         end) fs
  end.

Fixpoint hasValidationTags (s : Struct) : bool :=
  match s with
  | mkStruct _ fs _ =>
      (fix go (fs : list Field) : bool :=
         match fs with
         | [] => false
         | field :: rest =>
             match field with
             | mkField _ _ tag _ _ _ _ _ isEmbedded _ _ _ _ _ nested _ =>
                 if isEmbedded && match nested with
                                  | Some ns => hasValidationTags ns
                                  | None => false
                                  end then true
                 else if negb (String.eqb tag "") && snd (Lookup unquote tag "validate") then true
                 else go rest
             end
         end) fs
  end.

Fixpoint hasMultipartFormFields (s : Struct) : bool :=
  match s with
  | mkStruct _ fs _ =>
      (fix go (fs : list Field) : bool :=
         match fs with
         | [] => false
         | field :: rest =>
             match field with
             | mkField _ _ tag inComment _ _ _ _ isEmbedded _ _ _ _ isFile nested _ =>
                 if isEmbedded && match nested with
                                  | Some ns => hasMultipartFormFields ns
                                  | None => false
                                  end then true
                 else if isFile then true
                 else if negb (String.eqb tag "") && snd (Lookup unquote tag "form") then true
                 else if String.eqb inComment "form" then true
                 else go rest
             end
         end) fs
  end.

End Scans.

Fixpoint findRawBodyField (s : Struct) : string :=
  match s with
  | mkStruct _ fs _ =>
      (fix go (fs : list Field) : string :=
         match fs with
         | [] => ""
         | field :: rest =>
             match field with
             | mkField name _ _ _ _ _ _ _ isEmbedded _ isRawBody _ _ _ nested _ =>
                 let rawBodyField := if isEmbedded then
                                       match nested with
                                       | Some ns => findRawBodyField ns
                                       | None => ""
                                       end
                                     else "" in
                 if negb (String.eqb rawBodyField "") then rawBodyField
                 else if isRawBody then name
                 else go rest
             end
         end) fs
  end.

(** The fields a scan of package codegen visits: those of the struct and,
    through every embedded field with a resolved struct, those of the
    embedded struct. *)
Inductive scanned_field : Struct -> Field -> Prop :=
  | scanned_here (s : Struct) (f : Field) :
      In f (SFields s) -> scanned_field s f
  | scanned_embedded (s : Struct) (f : Field) (ns : Struct) (g : Field) :
      In f (SFields s) -> IsEmbedded f = true -> NestedStruct f = Some ns ->
      scanned_field ns g -> scanned_field s g.

(** The number of struct nodes in a struct, nested ones included. *)
Fixpoint struct_size (s : Struct) : nat :=
  match s with
  | mkStruct _ fs _ =>
      S ((fix go (fs : list Field) : nat :=
            match fs with
            | [] => 0%nat
            | field :: rest =>
                match field with
                | mkField _ _ _ _ _ _ _ _ _ _ _ _ _ _ nested _ =>
                    (match nested with Some ns => struct_size ns | None => 0%nat end + go rest)%nat
                end
            end) fs)
  end.

(* ------------------------------------------------------------------ *)
(** * Closed forms used to state the properties of parseField *)
(* ------------------------------------------------------------------ *)

Definition comments_of (cg : option (list string)) : list string :=
  match cg with Some cs => cs | None => [] end.

(** The in: directives among comments, in order: the (source, name)
    pairs extractInComment returns with a non-empty source. *)
Definition in_directives (cs : list string) : list (string * string) :=
  List.filter (fun d => negb (String.eqb (fst d) "")) (map extractInComment cs).

(** The directive a parsed field carries: the last in: directive of its
    line comment, else the first of its doc comment, else none. *)
Definition field_directive (field : AstField) : string * string :=
  match rev (in_directives (comments_of (AFComment field))) with
  | d :: _ => d
  | [] => match in_directives (comments_of (AFDoc field)) with
          | d :: _ => d
          | [] => ("", "")
          end
  end.

(** Whether a parsed field is marked as the body: some in: directive of
    its line comment names body, or there is none and the first one of
    its doc comment names body. *)
Definition field_is_body (field : AstField) : bool :=
  match in_directives (comments_of (AFComment field)) with
  | [] => match in_directives (comments_of (AFDoc field)) with
          | d :: _ => String.eqb (fst d) "body"
          | [] => false
          end
  | ds => existsb (fun d => String.eqb (fst d) "body") ds
  end.

(** The comments that are no default: directive. *)
Definition drop_default_comments (cg : option (list string)) : option (list string) :=
  option_map (List.filter (fun c => String.eqb (extractDefaultComment c) "")) cg.

(** The built-in extractors in ascending priority order. *)
Definition builtin_sorted (unquote : string -> option string) (quote : string -> string)
    (reg : TypeRegistry) : list Extractor :=
  [PathExtractor unquote quote reg; FormExtractor unquote quote reg;
   QueryExtractor unquote quote reg; HeaderExtractor unquote quote reg;
   CookieExtractor unquote quote reg; BodyExtractor unquote; RequestExtractor; ResponseExtractor].

(** A handler and a generated file used in the examples. *)
Definition toy_handler : Handler :=
  mkHandler "CreateUser" "main" "" "Req" "Resp" None false false "handlers.go:12:1".

Definition toy_generated : string :=
  nl_join ["// Code generated by apikit. DO NOT EDIT."; ""; "package x"].



(** type Upload struct { Title string `form:"title"` } *)
Definition upload_struct : Struct :=
  mkStruct "Upload" [plain_field "Title" "string" ("form:" ++ q "title")] false.

(** type CreateReq struct { Upload } *)
Definition create_req_struct : Struct :=
  mkStruct "CreateReq"
    [mkField "Upload" "Upload" "" "" "" false false "" true false false false false false
       (Some upload_struct) ""] false.

(** A field with its resolved struct and package path cleared: what the
    resolver may change of a field. *)
Definition field_shape (f : Field) : Field := set_PackagePath (set_NestedStruct f None) "".

(** type Addr struct { City string `json:"city"` } in package example.com/m *)
Definition addr_struct : Struct :=
  mkStruct "Addr" [plain_field "City" "string" ("json:" ++ q "city")] false.

(** A loader that finds Addr in example.com/m. *)
Definition addr_loader (importPath structName : string) : option (Struct * gmap string string) :=
  if String.eqb importPath "example.com/m" && String.eqb structName "Addr"
  then Some (addr_struct, ∅) else None.

(** type User struct { Home m.Addr }, a DTO *)
Definition user_struct : Struct :=
  mkStruct "User" [plain_field "Home" "m.Addr" ""] true.

(** The statement of a field's code, as GetExtractor selects its
    extractor: the code of the first extractor that accepts the field,
    unless that extractor produces none or an empty one. *)
Definition field_code_via_GetExtractor (exts : list Extractor) (field : Field) (sname : string)
    : list stmt :=
  match GetExtractor exts field with
  | Some ext =>
      match fst (GenerateCode ext field sname) with
      | Some c => if String.eqb (render c) "" then [] else [c]
      | None => []
      end
  | None => []
  end.

(** The lines of generateExtractionCode written with GetExtractor: the
    fields in order, an embedded field with a resolved struct giving the
    lines of that struct, and a raw-body field none. *)
Fixpoint extraction_lines (exts : list Extractor) (s : Struct) : list stmt :=
  match s with
  | mkStruct sname fs _ =>
      (fix go (fs : list Field) : list stmt :=
         match fs with
         | [] => []
         | field :: rest =>
             match field with
             | mkField _ _ _ _ _ _ _ _ isEmbedded _ isRawBody _ _ _ nested _ =>
                 ((if isEmbedded then
                    match nested with Some ns => extraction_lines exts ns | None => [] end
                  else if isRawBody then []
                  else field_code_via_GetExtractor exts field sname) ++ go rest)%list
             end
         end) fs
  end.

(* ------------------------------------------------------------------ *)
(** * Handler data of the template (codegen.prepareHandlerData) *)
(* ------------------------------------------------------------------ *)

Record HandlerData := mkHandlerData {
  HDName : string;
  HDWrapperName : string;
  HDParseFuncName : string;
  HDParamType : string;
  HDReturnType : string;
  HDHasExtractionCode : bool;
  HDExtractionCode : string;
  HDHasBody : bool;
  HDBodyFieldName : string;
  HDHasRawBody : bool;
  HDRawBodyFieldName : string;
  HDHasValidation : bool;
  HDHasResponseWriter : bool;
  HDHasRequest : bool;
  HDHasMultipartForm : bool;
  HDMaxMemory : Z
}.

Definition validator_import : string := "github.com/reation-io/apikit/validator".

(** strings.Join(lines, "\n\t") *)
Definition join_lines (lines : list string) : string :=
  String.concat (String (ascii_of_nat 10) (String (ascii_of_nat 9) EmptyString)) lines.

Section PrepareHandlerData.

(** toCamelCasePrivate and capitalize change the case of the first rune
    by Unicode rules; they are parameters here. *)
Variable toCamelCasePrivate capitalize : string -> string.
Variable unquote : string -> option string.
(** extractors.GetExtractors() *)
Variable exts : list Extractor.

(** prepareHandlerData(handler, importsMap): the handler data and the
    import set afterwards (the map is shared with the caller in Go). *)
Definition prepareHandlerData (handler : Handler) (importsMap : gset string)
    : HandlerData * gset string :=
  let hd := mkHandlerData (HName handler) (toCamelCasePrivate (HName handler) ++ "APIKit")
              ("parse" ++ capitalize (HName handler) ++ "Request")
              (HParamType handler) (HReturnType handler) false "" false "" false "" false
              (HHasResponseWriter handler) (HHasRequest handler) false 0 in
  match HStruct handler with
  | None => (hd, importsMap)
  | Some s =>
      let '(lines, importsMap) := generateExtractionCode exts s importsMap in
      let extractionCode := join_lines (map render lines) in
      let hasBody := hasBodyFields unquote s in
      let bodyFieldName := if hasBody then findBodyField unquote s else "" in
      let rawBodyField := findRawBodyField s in
      let hasValidation := hasValidationTags unquote s in
      let importsMap := if hasValidation then {[validator_import]} ∪ importsMap else importsMap in
      let hasMultipartForm := hasMultipartFormFields unquote s in
      (mkHandlerData (HName handler) (HDWrapperName hd) (HDParseFuncName hd)
         (HParamType handler) (HReturnType handler)
         (negb (String.eqb extractionCode "")) extractionCode
         hasBody bodyFieldName
         (negb (String.eqb rawBodyField "")) rawBodyField
         hasValidation (HHasResponseWriter handler) (HHasRequest handler)
         hasMultipartForm (if hasMultipartForm then Z.shiftl 32 20 else 0),
       importsMap)
  end.

End PrepareHandlerData.

(** func CreateUser(ctx context.Context, req CreateReq) (User, error) *)
Definition create_user_handler : Handler :=
  mkHandler "CreateUser" "main" "" "CreateReq" "User" (Some create_req_struct) false false
    "handlers.go:20:1".

(** No white-space rune starts at any byte of [l]. *)
Fixpoint no_space_at (l : list ascii) : bool :=
  match l with
  | [] => true
  | _ :: r => (space_len l =? 0)%nat && no_space_at r
  end.

(** A word of a directive: no white-space rune, so strings.Fields and
    strings.TrimSpace do not split or trim inside it. *)
Definition has_no_space (s : string) : bool := no_space_at (list_of_str s).

(* ------------------------------------------------------------------ *)
(** * Imports of the extraction code and codegen.prepareTemplateData *)
(* ------------------------------------------------------------------ *)

From stdpp Require sorting.

(** The imports a field's code records, as GetExtractor selects its
    extractor: those the first accepting extractor reports along with a
    non-empty statement. *)
Definition field_imports_via_GetExtractor (exts : list Extractor) (field : Field) (sname : string)
    : gset string :=
  match GetExtractor exts field with
  | Some ext =>
      match GenerateCode ext field sname with
      | (Some c, imports) => if String.eqb (render c) "" then ∅ else list_to_set imports
      | (None, _) => ∅
      end
  | None => ∅
  end.

(** The imports generateExtractionCode records for a struct, field by
    field as in [extraction_lines]. *)
Fixpoint extraction_imports (exts : list Extractor) (s : Struct) : gset string :=
  match s with
  | mkStruct sname fs _ =>
      (fix go (fs : list Field) : gset string :=
         match fs with
         | [] => ∅
         | field :: rest =>
             match field with
             | mkField _ _ _ _ _ _ _ _ isEmbedded _ isRawBody _ _ _ nested _ =>
                 (if isEmbedded then
                    match nested with Some ns => extraction_imports exts ns | None => ∅ end
                  else if isRawBody then ∅
                  else field_imports_via_GetExtractor exts field sname) ∪ go rest
             end
         end) fs
  end.

Definition apikit_import : string := "github.com/reation-io/apikit".

(** codegen.TemplateData *)
Record TemplateData := mkTemplateData {
  TDPackageName : string;
  TDImports : list string;
  TDHandlers : list HandlerData
}.

Section PrepareTemplateData.

Variable toCamelCasePrivate capitalize : string -> string.
Variable unquote : string -> option string.
Variable exts : list Extractor.

(** The loop over result.Handlers, sharing importsMap. *)
Fixpoint prepare_handlers (handlers : list Handler) (importsMap : gset string)
    : list HandlerData * gset string :=
  match handlers with
  | [] => ([], importsMap)
  | handler :: rest =>
      let '(hd, importsMap) :=
        prepareHandlerData toCamelCasePrivate capitalize unquote exts handler importsMap in
      let '(hds, importsMap) := prepare_handlers rest importsMap in
      (hd :: hds, importsMap)
  end.

(** prepareTemplateData(result) with result.Source.Package and
    result.Handlers; the map's keys are collected and sorted by
    slices.Sort, which orders strings bytewise. *)
Definition prepareTemplateData (package : string) (handlers : list Handler) : TemplateData :=
  let '(hds, importsMap) := prepare_handlers handlers {[apikit_import]} in
  mkTemplateData package (sorting.merge_sort String.le (elements importsMap)) hds.

(** The imports one handler contributes. *)
Definition handler_imports (handler : Handler) : gset string :=
  match HStruct handler with
  | None => ∅
  | Some s =>
      extraction_imports exts s
      ∪ (if hasValidationTags unquote s then {[validator_import]} else ∅)
  end.

End PrepareTemplateData.

(* ------------------------------------------------------------------ *)
(** * The generate command (cmd.runGenerate) *)
(* ------------------------------------------------------------------ *)

Definition no_source_file_msg : string :=
  "no source file specified" ++ nl ++
  "Use --file flag, provide files as arguments, or call from //go:generate directive:" ++ nl ++
  "  //go:generate apikit generate" ++ nl ++
  "  apikit generate file1.go file2.go" ++ nl ++
  "  apikit generate --file file.go".

(** The files to process: --file, then the arguments, else $GOFILE. *)
Definition collect_source_files (sourceFile : string) (args : list string) (goFile : string)
    : option (list string) :=
  let sourceFiles := ((if String.eqb sourceFile "" then [] else [sourceFile]) ++ args)%list in
  match sourceFiles with
  | [] => if String.eqb goFile "" then None else Some [goFile]
  | _ => Some sourceFiles
  end.

Section RunGenerate.

Variable sha256hex : string -> string.
Variable ParseResult : Type.
Variable Handlers_of : ParseResult -> list Handler.
Variable parse_source : string -> option ParseResult.
Variable Generate : ParseResult -> option string.
(** filepath.Join *)
Variable filepath_Join : string -> string -> string.

(** The loop resolving the files against the working directory; only a
    file that does not exist stops it (os.IsNotExist). *)
Fixpoint resolve_files (fs : string -> file_state) (cwd : string) (files : list string)
    : string + list string :=
  match files with
  | [] => inr []
  | file :: rest =>
      let filePath := filepath_Join cwd file in
      match fs filePath with
      | Missing => inl ("source file not found: " ++ filePath)
      | Present _ _ =>
          match resolve_files fs cwd rest with
          | inl msg => inl msg
          | inr resolved => inr (filePath :: resolved)
          end
      end
  end.

(** The processing loop: each file in turn with the shared file system;
    the first error ends the command. The result is the file system
    afterwards, the outcome of each run and the returned error. *)
Fixpoint process_files (fs : string -> file_state) (force dryRun : bool) (outputFile : string)
    (files : list string) : (string -> file_state) * list gen_outcome * option string :=
  match files with
  | [] => (fs, [], None)
  | sourceFilePath :: rest =>
      match generateWithParser sha256hex ParseResult Handlers_of parse_source Generate
              fs force dryRun outputFile sourceFilePath with
      | GenError msg => (fs, [GenError msg], Some ("processing " ++ sourceFilePath ++ ": " ++ msg))
      | GenWrite output code =>
          let '(fs', outs, err) := process_files (write_file fs output code) force dryRun outputFile rest in
          (fs', GenWrite output code :: outs, err)
      | o =>
          let '(fs', outs, err) := process_files fs force dryRun outputFile rest in
          (fs', o :: outs, err)
      end
  end.

(** runGenerate with the flags --force, --dry-run, --output and --file,
    the positional arguments, the environment and os.Getwd ([None] is
    its error). *)
Definition runGenerate (fs : string -> file_state) (force dryRun : bool)
    (outputFile sourceFile : string) (args : list string) (getenv : string -> string)
    (getwd : option string) : (string -> file_state) * list gen_outcome * option string :=
  let force := if negb force && negb (String.eqb (getenv "APIKIT_FORCE") "") then true else force in
  match collect_source_files sourceFile args (getenv "GOFILE") with
  | None => (fs, [], Some no_source_file_msg)
  | Some sourceFiles =>
      match getwd with
      | None => (fs, [], Some "getting current directory")
      | Some cwd =>
          match resolve_files fs cwd sourceFiles with
          | inl msg => (fs, [], Some msg)
          | inr resolvedFiles => process_files fs force dryRun outputFile resolvedFiles
          end
      end
  end.

End RunGenerate.

Definition is_gen_error (o : gen_outcome) : bool :=
  match o with GenError _ => true | _ => false end.

(** filepath.Join for a clean directory and a clean relative name. *)
Definition join_clean (dir file : string) : string := dir ++ "/" ++ file.

(** An environment with only the given variables set. *)
Definition env_of (vars : list (string * string)) (name : string) : string :=
  match List.find (fun kv => String.eqb (fst kv) name) vars with
  | Some (_, v) => v
  | None => ""
  end.

(** A working directory /src holding handlers.go. *)
Definition src_fs (src : string) : string -> file_state :=
  fun p => if String.eqb p "/src/handlers.go" then Present src true else Missing.

(** /src also holds broken.go, whose text "package" does not parse as a Go file. *)
Definition broken_fs : string -> file_state :=
  fun p => if String.eqb p "/src/broken.go" then Present "package" true else src_fs "package x" p.

(** func CreateUser(ctx context.Context, req CreateReq, r *http.Request,
    w http.ResponseWriter) (User, error), marked apikit:handler. *)
Definition create_user_decl : FuncDecl :=
  mkFuncDecl "CreateUser" "handlers.go:20:1" (Some ["// apikit:handler"]) None
    (Some [mkGroup ["ctx"] (TSelector (TIdent "context") "Context");
           mkGroup ["req"] (TIdent "CreateReq");
           mkGroup ["r"] (TStar (TSelector (TIdent "http") "Request"));
           mkGroup ["w"] (TSelector (TIdent "http") "ResponseWriter")])
    (Some [mkGroup [] (TIdent "User"); mkGroup [] (TIdent "error")]).

(* ================================================================== *)
(** * Proofs *)
(* ================================================================== *)

Lemma str_of_list_of_str (s : string) : str_of_list (list_of_str s) = s.
Proof. induction s; simpl; congruence. Qed.

Lemma runes_roundtrip_aux_valid (fuel : nat) (l : list ascii) :
  valid_utf8_aux fuel l = true -> runes_roundtrip_aux fuel l = l.
Proof.
  revert l; induction fuel as [|fuel IH]; intros l H; [reflexivity|].
  destruct l as [|b r]; [reflexivity|].
  cbn [valid_utf8_aux] in H; cbn [runes_roundtrip_aux].
  destruct (utf8_seq_len (b :: r)) as [|k]; [discriminate|].
  rewrite (IH _ H). apply firstn_skipn.
Qed.

Lemma runes_roundtrip_valid (s : string) : valid_utf8 s = true -> runes_roundtrip s = s.
Proof.
  unfold valid_utf8, runes_roundtrip; intros H.
  rewrite (runes_roundtrip_aux_valid _ _ H). apply str_of_list_of_str.
Qed.

Lemma runes_roundtrip_nonempty (c : ascii) (r : string) : runes_roundtrip (String c r) <> "".
Proof.
  unfold runes_roundtrip; cbn [list_of_str length runes_roundtrip_aux].
  destruct (utf8_seq_len (c :: list_of_str r)); simpl; discriminate.
Qed.

Lemma utf8_seq_len_ascii (c : ascii) (l : list ascii) :
  (byte_of c < 128)%nat -> utf8_seq_len (c :: l) = 1%nat.
Proof. intros H; unfold utf8_seq_len; apply Nat.ltb_lt in H; rewrite H; reflexivity. Qed.

Lemma valid_utf8_ascii_head (c : ascii) (r : string) :
  (byte_of c < 128)%nat ->
  valid_utf8 (String c r) = valid_utf8_aux (length (list_of_str r)) (list_of_str r).
Proof.
  intros H; unfold valid_utf8; cbn [list_of_str length valid_utf8_aux].
  rewrite utf8_seq_len_ascii by exact H; reflexivity.
Qed.

Lemma byte_of_ascii_of_nat (n : nat) : (n < 256)%nat -> byte_of (ascii_of_nat n) = n.
Proof. intros H; unfold byte_of; apply nat_ascii_embedding; exact H. Qed.

Lemma byte_of_lt_256 (c : ascii) : (byte_of c < 256)%nat.
Proof. unfold byte_of; apply nat_ascii_bounded. Qed.

Lemma toCamelCase_valid (s : string) :
  valid_utf8 s = true -> toCamelCase s = lower_ascii_first s.
Proof.
  intros H; destruct s as [|c r]; [reflexivity|].
  unfold toCamelCase, lower_ascii_first.
  destruct ((65 <=? byte_of c)%nat && (byte_of c <=? 90)%nat) eqn:E.
  - apply andb_true_iff in E as [E1 E2]; apply Nat.leb_le in E1, E2.
    apply runes_roundtrip_valid.
    rewrite valid_utf8_ascii_head by (rewrite byte_of_ascii_of_nat; lia).
    rewrite valid_utf8_ascii_head in H by lia. exact H.
  - apply runes_roundtrip_valid; exact H.
Qed.

Lemma toCamelCase_nonempty (s : string) : s <> "" -> toCamelCase s <> "".
Proof.
  intros Hs; destruct s as [|c r]; [congruence|]; unfold toCamelCase.
  destruct (_ && _); apply runes_roundtrip_nonempty.
Qed.

Lemma Lookup_empty_tag (unquote : string -> option string) (key : string) :
  Lookup unquote "" key = ("", false).
Proof. reflexivity. Qed.

(** No usable tag value: the fall-through condition of GetParameterName. *)
Lemma GetParameterName_fallthrough (unquote : string -> option string) (field : Field) (key : string) :
  (StructTag field = "" \/ snd (Lookup unquote (StructTag field) key) = false
   \/ fst (Lookup unquote (StructTag field) key) = "") ->
  GetParameterName unquote field key =
    if negb (String.eqb (InCommentName field) "") then InCommentName field
    else toCamelCase (Name field).
Proof.
  intros H; unfold GetParameterName.
  destruct (String.eqb (StructTag field) "") eqn:Et; simpl; [reflexivity|].
  destruct (Lookup unquote (StructTag field) key) as [v ok] eqn:EL; simpl in H.
  destruct H as [H | [H | H]].
  - apply String.eqb_neq in Et; congruence.
  - subst ok; reflexivity.
  - subst v; destruct ok; reflexivity.
Qed.

Lemma GetParameterName_nonempty (unquote : string -> option string) (field : Field) (key : string) :
  Name field <> "" -> GetParameterName unquote field key <> "".
Proof.
  intros Hn; unfold GetParameterName.
  destruct (negb (String.eqb (StructTag field) "")).
  - destruct (Lookup unquote (StructTag field) key) as [v ok]; destruct ok.
    + destruct (String.eqb v "") eqn:Ev; simpl.
      * destruct (String.eqb (InCommentName field) "") eqn:Ec; simpl.
        -- apply toCamelCase_nonempty; exact Hn.
        -- apply String.eqb_neq; exact Ec.
      * apply String.eqb_neq; exact Ev.
    + destruct (String.eqb (InCommentName field) "") eqn:Ec; simpl.
      * apply toCamelCase_nonempty; exact Hn.
      * apply String.eqb_neq; exact Ec.
  - destruct (String.eqb (InCommentName field) "") eqn:Ec; simpl.
    + apply toCamelCase_nonempty; exact Hn.
    + apply String.eqb_neq; exact Ec.
Qed.

Lemma fallthrough_cases (unquote : string -> option string) (field : Field) (key : string) :
  (StructTag field = "" \/ snd (Lookup unquote (StructTag field) key) = false
   \/ fst (Lookup unquote (StructTag field) key) = "") ->
  (InCommentName field <> "" -> GetParameterName unquote field key = InCommentName field) /\
  (InCommentName field = "" -> valid_utf8 (Name field) = true ->
     GetParameterName unquote field key = lower_ascii_first (Name field)).
Proof.
  intros H; rewrite (GetParameterName_fallthrough _ _ _ H); split.
  - intros Hc; apply String.eqb_neq in Hc; rewrite Hc; reflexivity.
  - intros Hc Hv; rewrite Hc; simpl; apply toCamelCase_valid; exact Hv.
Qed.

(** C10 (amended): when the tag holds the requested key with an empty
    value, GetParameterName does not return that value: it returns the
    directive name when that is non-empty, and otherwise the declared name
    with an ASCII capital first letter lowered (other first characters are
    kept); and the result is non-empty for every field with a non-empty
    name. *)
Theorem GetParameterName_empty_tag_value (unquote : string -> option string) (field : Field)
    (key : string) :
  (Lookup unquote (StructTag field) key = ("", true) ->
     (InCommentName field <> "" -> GetParameterName unquote field key = InCommentName field) /\
     (InCommentName field = "" -> valid_utf8 (Name field) = true ->
        GetParameterName unquote field key = lower_ascii_first (Name field))) /\
  (Name field <> "" -> GetParameterName unquote field key <> "").
Proof.
  split.
  - intros HL; apply fallthrough_cases; right; right; rewrite HL; reflexivity.
  - apply GetParameterName_nonempty.
Qed.

Lemma GetParameterName_empty_tag_value_witness :
  Lookup unquote_plain ("query:" ++ q "") "query" = ("", true) /\
  GetParameterName unquote_plain (plain_field "UserID" "string" ("query:" ++ q "")) "query"
    = "userID" /\
  GetParameterName unquote_plain (plain_field "UserID" "string" ("query:" ++ q "")) "query" <> "".
Proof.
  assert (HL : Lookup unquote_plain ("query:" ++ q "") "query" = ("", true))
    by (vm_compute; reflexivity).
  pose proof (GetParameterName_empty_tag_value unquote_plain
                (plain_field "UserID" "string" ("query:" ++ q "")) "query") as [T1 T2].
  split; [exact HL|]; split.
  - apply (proj2 (T1 HL)); [reflexivity | vm_compute; reflexivity].
  - apply T2; discriminate.
Defined.

(** C10, counterexample: a field named "Élan" with the tag query:"" gets
    the wire name "Élan", not "élan": the first letter is not lowered. *)
Lemma GetParameterName_empty_tag_value_counterexample :
  valid_utf8 Elan = true /\
  GetParameterName unquote_plain (plain_field Elan "string" ("query:" ++ q "")) "query" = Elan /\
  Elan <> elan.
Proof.
  split; [vm_compute; reflexivity|]; split; [vm_compute; reflexivity|].
  intros H; vm_compute in H; discriminate.
Qed.

(* ------------------------------------------------------------------ *)
(** ** Go's insertion sort is a stable sort *)
(* ------------------------------------------------------------------ *)

Section StableSort.

Context {E : Type}.
Variable key : E -> Z.
Local Open Scope list_scope.

Definition keyle (a b : E) : Prop := (key a <= key b)%Z.

Lemma Forall_stable_insert (Q : E -> Prop) (x : E) (l : list E) :
  Forall Q (stable_insert key x l) <-> Q x /\ Forall Q l.
Proof.
  induction l as [|h t IH]; simpl.
  - split; [intros H; inversion H; auto | intros [Hx _]; constructor; auto].
  - destruct (key x <? key h)%Z.
    + split; [intros H; inversion H; auto | intros [Hx Ht]; constructor; auto].
    + split.
      * intros H; inversion H as [|? ? Hh Hr]; subst.
        apply IH in Hr as [Hx Ht]; auto.
      * intros [Hx Ht]; inversion Ht; subst; constructor; auto; apply IH; auto.
Qed.

Lemma stable_insert_sorted (x : E) (l : list E) :
  StronglySorted keyle l -> StronglySorted keyle (stable_insert key x l).
Proof.
  induction l as [|h t IH]; simpl; intros Hs.
  - repeat constructor.
  - apply StronglySorted_inv in Hs as [Ht Hh].
    destruct (key x <? key h)%Z eqn:E1.
    + apply Z.ltb_lt in E1. constructor; [constructor; auto|].
      constructor; [unfold keyle; lia|].
      eapply Forall_impl; [exact Hh|]; unfold keyle; intros; lia.
    + apply Z.ltb_ge in E1. constructor; [auto|].
      apply Forall_stable_insert; split; auto.
Qed.

Lemma stable_sort_snoc (l : list E) (x : E) :
  stable_sort key (l ++ [x]) = stable_insert key x (stable_sort key l).
Proof. unfold stable_sort; rewrite fold_left_app; reflexivity. Qed.

Lemma stable_sort_sorted (l : list E) : StronglySorted keyle (stable_sort key l).
Proof.
  induction l as [|x l IH] using rev_ind; [constructor|].
  rewrite stable_sort_snoc; apply stable_insert_sorted; exact IH.
Qed.

Lemma Forall_stable_sort (Q : E -> Prop) (l : list E) :
  Forall Q l -> Forall Q (stable_sort key l).
Proof.
  induction l as [|x l IH] using rev_ind; [constructor|].
  intros H; apply Forall_app in H as [Hl Hx]; inversion Hx; subst.
  rewrite stable_sort_snoc; apply Forall_stable_insert; auto.
Qed.

Lemma length_stable_insert (x : E) (l : list E) :
  length (stable_insert key x l) = S (length l).
Proof. induction l as [|h t IH]; simpl; [reflexivity|]. destruct (_ <? _)%Z; simpl; auto. Qed.

Lemma length_stable_sort (l : list E) : length (stable_sort key l) = length l.
Proof.
  induction l as [|x l IH] using rev_ind; [reflexivity|].
  rewrite stable_sort_snoc, length_stable_insert, IH, length_app; simpl; lia.
Qed.

Lemma StronglySorted_snoc (l : list E) (y : E) :
  StronglySorted keyle (l ++ [y]) -> StronglySorted keyle l /\ Forall (fun z => keyle z y) l.
Proof.
  induction l as [|h t IH]; simpl; intros H; [split; constructor|].
  apply StronglySorted_inv in H as [Ht Hh].
  apply IH in Ht as [Ht Hy].
  apply Forall_app in Hh as [Hh1 Hh2]; inversion Hh2; subst.
  split; constructor; auto.
Qed.

Lemma stable_insert_last (l : list E) (y : E) :
  Forall (fun z => keyle z y) l -> stable_insert key y l = l ++ [y].
Proof.
  induction l as [|h t IH]; simpl; intros H; [reflexivity|].
  inversion H as [|? ? Hh Ht]; subst; unfold keyle in Hh.
  destruct (key y <? key h)%Z eqn:E1; [apply Z.ltb_lt in E1; lia|].
  rewrite IH; auto.
Qed.

Lemma stable_sort_sorted_id (l : list E) : StronglySorted keyle l -> stable_sort key l = l.
Proof.
  induction l as [|y l IH] using rev_ind; intros H; [reflexivity|].
  apply StronglySorted_snoc in H as [Hl Hy].
  rewrite stable_sort_snoc, IH by exact Hl; apply stable_insert_last; exact Hy.
Qed.

Lemma stable_insert_snoc (s : list E) (x y : E) :
  StronglySorted keyle (s ++ [y]) ->
  stable_insert key x (s ++ [y]) =
    if (key x <? key y)%Z then (stable_insert key x s ++ [y])%list else (s ++ [y; x])%list.
Proof.
  induction s as [|h t IH]; simpl; intros H.
  - destruct (key x <? key y)%Z; reflexivity.
  - apply StronglySorted_inv in H as [Ht Hh].
    apply Forall_app in Hh as [_ Hhy]; inversion Hhy as [|? ? Hhy' _]; subst; unfold keyle in Hhy'.
    rewrite (IH Ht).
    destruct (key x <? key h)%Z eqn:E1.
    + apply Z.ltb_lt in E1.
      assert (E2 : (key x <? key y)%Z = true) by (apply Z.ltb_lt; lia).
      rewrite E2; reflexivity.
    + destruct (key x <? key y)%Z; reflexivity.
Qed.

Lemma filter_above (x : E) (l : list E) :
  Forall (fun z => (key x < key z)%Z) l ->
  List.filter (fun e => Z.eqb (key e) (key x)) l = [].
Proof.
  induction l as [|h t IH]; simpl; intros H; [reflexivity|].
  inversion H as [|? ? Hh Ht]; subst.
  destruct (Z.eqb (key h) (key x)) eqn:E1; [apply Z.eqb_eq in E1; lia|]. auto.
Qed.

Lemma filter_stable_insert (p : Z) (x : E) (l : list E) :
  StronglySorted keyle l ->
  List.filter (fun e => Z.eqb (key e) p) (stable_insert key x l) =
    (List.filter (fun e => Z.eqb (key e) p) l ++ (if Z.eqb (key x) p then [x] else []))%list.
Proof.
  induction l as [|h t IH]; intros Hs.
  - simpl; destruct (Z.eqb (key x) p); reflexivity.
  - apply StronglySorted_inv in Hs as [Ht Hh].
    cbn [stable_insert].
    destruct (key x <? key h)%Z eqn:E1.
    + apply Z.ltb_lt in E1.
      destruct (Z.eqb (key x) p) eqn:Ex.
      * apply Z.eqb_eq in Ex; subst p.
        assert (Hn : List.filter (fun e => Z.eqb (key e) (key x)) (h :: t) = []).
        { apply filter_above; constructor; [exact E1|].
          eapply Forall_impl; [exact Hh|]; unfold keyle; intros; lia. }
        change (List.filter (fun e => Z.eqb (key e) (key x)) (x :: h :: t)) with
          (if Z.eqb (key x) (key x) then x :: List.filter (fun e => Z.eqb (key e) (key x)) (h :: t)
           else List.filter (fun e => Z.eqb (key e) (key x)) (h :: t)).
        rewrite Z.eqb_refl, Hn; reflexivity.
      * simpl; rewrite Ex, app_nil_r; reflexivity.
    + simpl; rewrite (IH Ht); destruct (Z.eqb (key h) p); reflexivity.
Qed.

Lemma filter_stable_sort (p : Z) (l : list E) :
  List.filter (fun e => Z.eqb (key e) p) (stable_sort key l) =
    List.filter (fun e => Z.eqb (key e) p) l.
Proof.
  induction l as [|x l IH] using rev_ind; [reflexivity|].
  rewrite stable_sort_snoc, filter_stable_insert by apply stable_sort_sorted.
  rewrite IH, List.filter_app; simpl; destruct (Z.eqb (key x) p); reflexivity.
Qed.

End StableSort.

(* ------------------------------------------------------------------ *)
(** ** The state monad of the sort *)
(* ------------------------------------------------------------------ *)

Lemma bind_some {E A B : Type} (m : @M E A) (k : A -> @M E B) (d d' : list E) (x : A) :
  m d = Some (x, d') -> bind m k d = k x d'.
Proof. intros H; unfold bind; rewrite H; reflexivity. Qed.

Lemma less_some {E : Type} (cmp : E -> E -> Z) (i j : Z) (d : list E) (a b : E) :
  (0 <= i)%Z -> (0 <= j)%Z -> d !! Z.to_nat i = Some a -> d !! Z.to_nat j = Some b ->
  less cmp i j d = Some ((cmp a b <? 0)%Z, d).
Proof.
  intros Hi Hj Ha Hb; unfold less, bind, at_, ret.
  rewrite (proj2 (Z.ltb_ge i 0) Hi), Ha, (proj2 (Z.ltb_ge j 0) Hj), Hb; reflexivity.
Qed.

Lemma lookup_middle {E : Type} (s post : list E) (x : E) :
  (s ++ x :: post)%list !! length s = Some x.
Proof. induction s; simpl; auto. Qed.

Lemma insert_middle {E : Type} (s post : list E) (x y : E) :
  <[length s := y]> (s ++ x :: post)%list = (s ++ y :: post)%list.
Proof. induction s as [|h t IH]; simpl; [reflexivity|]. rewrite IH; reflexivity. Qed.

Lemma swap_down {E : Type} (s post : list E) (x y : E) :
  swap (Z.of_nat (length s + 1)) (Z.of_nat (length s + 1) - 1) (s ++ y :: x :: post)%list
  = Some (tt, (s ++ x :: y :: post)%list).
Proof.
  unfold swap.
  replace (Z.of_nat (length s + 1) - 1)%Z with (Z.of_nat (length s)) by lia.
  rewrite !Nat2Z.id.
  rewrite (proj2 (Z.ltb_ge (Z.of_nat (length s + 1)) 0)) by lia.
  rewrite (proj2 (Z.ltb_ge (Z.of_nat (length s)) 0)) by lia.
  assert (E1 : (s ++ y :: x :: post)%list = ((s ++ [y]) ++ x :: post)%list)
    by (rewrite <- app_assoc; reflexivity).
  assert (L1 : (length s + 1)%nat = length (s ++ [y])) by (rewrite length_app; simpl; lia).
  assert (H1 : (s ++ y :: x :: post)%list !! (length s + 1)%nat = Some x)
    by (rewrite E1, L1; apply lookup_middle).
  rewrite H1, lookup_middle; simpl.
  rewrite E1, L1, insert_middle, <- app_assoc; simpl.
  rewrite insert_middle; reflexivity.
Qed.

(* ------------------------------------------------------------------ *)
(** ** insertionSortCmpFunc sorts stably *)
(* ------------------------------------------------------------------ *)

Section GoInsertionSort.

Context {E : Type}.
Variable key : E -> Z.
Variable cmp : E -> E -> Z.
Variable P : E -> Prop.
(** The comparator agrees with the keys on the elements being sorted. *)
Hypothesis Hcmp : forall x y, P x -> P y -> (cmp x y <? 0)%Z = (key x <? key y)%Z.
Local Open Scope list_scope.

Lemma insertion_inner_spec (s : list E) (x : E) (post : list E) (fuel : nat) :
  (length s < fuel)%nat -> StronglySorted (keyle key) s -> Forall P (x :: s) ->
  insertion_inner cmp fuel 0 (Z.of_nat (length s)) (s ++ x :: post)
  = Some (tt, stable_insert key x s ++ post).
Proof.
  revert post fuel.
  induction s as [|y s IH] using rev_ind; intros post fuel Hf Hs HP.
  - destruct fuel as [|f]; [simpl in Hf; lia|]. reflexivity.
  - destruct fuel as [|f]; [simpl in Hf; lia|].
    rewrite length_app in *; simpl length in *.
    apply StronglySorted_snoc in Hs as Hs'; destruct Hs' as [Hs1 _].
    inversion HP as [|? ? HPx HPs]; subst.
    apply Forall_app in HPs as [HPs HPy]; inversion HPy as [|? ? HPy' _]; subst.
    cbn [insertion_inner].
    rewrite (proj2 (Z.ltb_lt 0 (Z.of_nat (length s + 1)))) by lia.
    rewrite <- app_assoc; simpl (([y] ++ _)).
    assert (Hx : (s ++ y :: x :: post) !! Z.to_nat (Z.of_nat (length s + 1)) = Some x).
    { rewrite Nat2Z.id.
      replace (s ++ y :: x :: post) with ((s ++ [y]) ++ x :: post) by (rewrite <- app_assoc; reflexivity).
      replace (length s + 1)%nat with (length (s ++ [y])) by (rewrite length_app; simpl; lia).
      apply lookup_middle. }
    assert (Hy : (s ++ y :: x :: post) !! Z.to_nat (Z.of_nat (length s + 1) - 1) = Some y).
    { replace (Z.of_nat (length s + 1) - 1)%Z with (Z.of_nat (length s)) by lia.
      rewrite Nat2Z.id; apply lookup_middle. }
    rewrite (bind_some _ _ _ _ _ (less_some cmp (Z.of_nat (length s + 1)) (Z.of_nat (length s + 1) - 1) _ x y ltac:(lia) ltac:(lia) Hx Hy)).
    rewrite (Hcmp x y HPx HPy').
    rewrite (stable_insert_snoc key s x y Hs).
    destruct (key x <? key y)%Z.
    + rewrite (bind_some _ _ _ _ _ (swap_down s post x y)).
      replace (Z.of_nat (length s + 1) - 1)%Z with (Z.of_nat (length s)) by lia.
      rewrite (IH (y :: post) f ltac:(lia) Hs1 ltac:(constructor; auto)).
      rewrite <- app_assoc; reflexivity.
    + unfold ret; rewrite <- app_assoc; reflexivity.
Qed.

Lemma insertion_outer_spec (n : nat) (post pre : list E) (fuel : nat) :
  (length post < fuel)%nat -> (length pre + length post < n)%nat -> Forall P (pre ++ post) ->
  insertion_outer cmp n fuel 0 (Z.of_nat (length pre)) (Z.of_nat (length pre + length post))
    (stable_sort key pre ++ post)
  = Some (tt, stable_sort key (pre ++ post)).
Proof.
  revert pre fuel.
  induction post as [|x post IH]; intros pre fuel Hf Hn HP.
  - destruct fuel as [|f]; [simpl in Hf; lia|]. cbn [insertion_outer].
    rewrite Nat.add_0_r, Z.ltb_irrefl, !app_nil_r; reflexivity.
  - destruct fuel as [|f]; [simpl in Hf; lia|]. cbn [insertion_outer].
    simpl length in *.
    change (length (x :: post)) with (S (length post)) in *.
    match goal with |- context [(?a <? ?b)%Z] => rewrite (proj2 (Z.ltb_lt a b)) by lia end.
    apply Forall_app in HP as [HPpre HPpost].
    inversion HPpost as [|? ? HPx HPpost']; subst.
    assert (Hin : insertion_inner cmp n 0 (Z.of_nat (length pre)) (stable_sort key pre ++ x :: post)
                  = Some (tt, stable_insert key x (stable_sort key pre) ++ post)).
    { rewrite <- (length_stable_sort key pre) at 1.
      apply insertion_inner_spec.
      - rewrite length_stable_sort; lia.
      - apply stable_sort_sorted.
      - constructor; [exact HPx|]. apply Forall_stable_sort; exact HPpre. }
    rewrite (bind_some _ _ _ _ _ Hin).
    rewrite <- stable_sort_snoc.
    replace (Z.of_nat (length pre) + 1)%Z with (Z.of_nat (length (pre ++ [x]))) by (rewrite length_app; simpl; lia).
    replace (Z.of_nat (length pre + S (length post))) with (Z.of_nat (length (pre ++ [x]) + length post))
      by (rewrite length_app; simpl; lia).
    rewrite IH.
    + rewrite <- app_assoc; reflexivity.
    + lia.
    + rewrite length_app; simpl; lia.
    + rewrite <- app_assoc; apply Forall_app; split; [exact HPpre|]; constructor; auto.
Qed.

Lemma insertionSort_spec (n : nat) (d : list E) :
  (length d < n)%nat -> Forall P d ->
  insertionSortCmpFunc cmp n 0 (Z.of_nat (length d)) d = Some (tt, stable_sort key d).
Proof.
  intros Hn HP; destruct d as [|x rest].
  - destruct n as [|n']; [simpl in Hn; lia|]. reflexivity.
  - unfold insertionSortCmpFunc.
    change (0 + 1)%Z with (Z.of_nat (length [x])).
    change (Z.of_nat (length (x :: rest))) with (Z.of_nat (length [x] + length rest)).
    change (x :: rest) with (stable_sort key [x] ++ rest) at 1.
    apply insertion_outer_spec; simpl in *; auto; lia.
Qed.

Lemma SortFunc_small (d : list E) :
  (length d <= 12)%nat -> Forall P d -> SortFunc cmp d = Some (stable_sort key d).
Proof.
  intros Hl HP; unfold SortFunc; cbn [pdqsort_loop].
  rewrite (proj2 (Z.leb_le (Z.of_nat (length d) - 0) 12)) by lia.
  rewrite insertionSort_spec by (auto; lia). reflexivity.
Qed.

End GoInsertionSort.


(* ------------------------------------------------------------------ *)
(** ** pdqsort sorts: the result is a permutation ordered by the keys *)
(* ------------------------------------------------------------------ *)

Section PdqsortCorrect.

Context {E : Type}.
Variable key : E -> Z.
Variable cmp : E -> E -> Z.
Variable P : E -> Prop.
(** The comparator agrees with the keys on the elements being sorted. *)
Hypothesis Hcmp : forall x y, P x -> P y -> (cmp x y <? 0)%Z = (key x <? key y)%Z.
Local Open Scope list_scope.
Local Open Scope Z_scope.

(** [m] run on [d] succeeds, and its result and final slice satisfy [Q]. *)
Definition runs {A : Type} (m : @M E A) (d : list E) (Q : A -> list E -> Prop) : Prop :=
  exists x d', m d = Some (x, d') /\ Q x d'.

Definition zlen (d : list E) : Z := Z.of_nat (length d).
Definition el (d : list E) (i : Z) : option E := d !! Z.to_nat i.
(** The key at index [i] of the slice. *)
Definition ky (d : list E) (i : Z) : Z := from_option key 0 (el d i).

(** [d'] is obtained from [d] by swaps of positions inside [a, b). *)
Inductive rsw (a b : Z) : list E -> list E -> Prop :=
| rsw_refl d : rsw a b d d
| rsw_step d i j x y :
    0 <= a <= i -> i < b -> a <= j < b -> b <= zlen d ->
    el d i = Some x -> el d j = Some y ->
    rsw a b d (<[Z.to_nat j := x]> (<[Z.to_nat i := y]> d))
| rsw_trans d1 d2 d3 : rsw a b d1 d2 -> rsw a b d2 d3 -> rsw a b d1 d3.

(** [a, b) is sorted by key. *)
Definition sorted_range (d : list E) (a b : Z) : Prop :=
  forall x y, a <= x -> x <= y -> y < b -> ky d x <= ky d y.

(** The element before [a, b), if any, is not greater than those in it. *)
Definition Lb (d : list E) (a b : Z) : Prop :=
  0 < a -> forall x, a <= x < b -> ky d (a - 1) <= ky d x.

(** Heap order on the subtree positions [lo, hi) of the heap stored from
    [first]: no child is greater than its parent. *)
Definition heap_ok (d : list E) (first lo hi : Z) : Prop :=
  forall p c, lo <= p -> (c = 2 * p + 1 \/ c = 2 * p + 2) -> c < hi ->
  ky d (first + c) <= ky d (first + p).

(** Heap order except below [root], whose children are not greater than
    its parent. *)
Definition heap_at (d : list E) (first lo hi root : Z) : Prop :=
  (forall p c, lo <= p -> p <> root -> (c = 2 * p + 1 \/ c = 2 * p + 2) -> c < hi ->
   ky d (first + c) <= ky d (first + p)) /\
  (forall pp c, lo <= pp -> (root = 2 * pp + 1 \/ root = 2 * pp + 2) ->
   (c = 2 * root + 1 \/ c = 2 * root + 2) -> c < hi ->
   ky d (first + c) <= ky d (first + pp)).

(** The partition invariant: [a+1, i) holds smaller keys than the pivot at
    [a], and (j, b) keys not smaller. *)
Definition PInv (d : list E) (a b i j : Z) : Prop :=
  (forall x, a + 1 <= x < i -> ky d x < ky d a) /\
  (forall x, j < x < b -> ky d a <= ky d x).

Lemma runs_ret {A : Type} (x : A) (d : list E) (Q : A -> list E -> Prop) :
  Q x d -> runs (ret x) d Q.
Proof. intros H; exists x, d; split; [reflexivity|exact H]. Qed.

Lemma runs_bind {A B : Type} (m : @M E A) (k : A -> @M E B) (d : list E)
    (Q1 : A -> list E -> Prop) (Q : B -> list E -> Prop) :
  runs m d Q1 -> (forall x d', Q1 x d' -> runs (k x) d' Q) -> runs (bind m k) d Q.
Proof.
  intros (x & d' & Hm & H1) Hk; destruct (Hk x d' H1) as (y & d'' & Hk' & HQ).
  exists y, d''; unfold bind; rewrite Hm; auto.
Qed.

Lemma runs_bind_eq {A B : Type} (m : @M E A) (k : A -> @M E B) (d d' : list E) (x : A)
    (Q : B -> list E -> Prop) :
  m d = Some (x, d') -> runs (k x) d' Q -> runs (bind m k) d Q.
Proof. intros Hm (y & d'' & Hk & HQ); exists y, d''; unfold bind; rewrite Hm; auto. Qed.

Lemma runs_weaken {A : Type} (m : @M E A) (d : list E) (Q Q' : A -> list E -> Prop) :
  runs m d Q -> (forall x d', Q x d' -> Q' x d') -> runs m d Q'.
Proof. intros (x & d' & Hm & H) HQ; exists x, d'; auto. Qed.

Lemma el_lookup (d : list E) (i : Z) : 0 <= i < zlen d -> exists x, el d i = Some x.
Proof.
  unfold el, zlen; intros Hi; apply lookup_lt_is_Some_2; lia.
Qed.

Lemma ky_el (d : list E) (i : Z) (x : E) : el d i = Some x -> ky d i = key x.
Proof. unfold ky; intros ->; reflexivity. Qed.

Lemma el_P (d : list E) (i : Z) (x : E) : Forall P d -> el d i = Some x -> P x.
Proof. unfold el; intros HP Hx; exact (Forall_lookup_1 _ _ _ _ HP Hx). Qed.

Lemma less_key (i j : Z) (d : list E) :
  0 <= i < zlen d -> 0 <= j < zlen d -> Forall P d ->
  less cmp i j d = Some ((ky d i <? ky d j), d).
Proof.
  intros Hi Hj HP.
  destruct (el_lookup d i Hi) as [x Hx]; destruct (el_lookup d j Hj) as [y Hy].
  rewrite (less_some cmp i j d x y ltac:(lia) ltac:(lia) Hx Hy).
  rewrite (ky_el _ _ _ Hx), (ky_el _ _ _ Hy), (Hcmp x y (el_P _ _ _ HP Hx) (el_P _ _ _ HP Hy)).
  reflexivity.
Qed.

Lemma less_any (i j : Z) (d : list E) :
  0 <= i < zlen d -> 0 <= j < zlen d -> exists b, less cmp i j d = Some (b, d).
Proof.
  intros Hi Hj.
  destruct (el_lookup d i Hi) as [x Hx]; destruct (el_lookup d j Hj) as [y Hy].
  eexists; exact (less_some cmp i j d x y ltac:(lia) ltac:(lia) Hx Hy).
Qed.

Lemma perm_insert_front (h y : E) (t : list E) (m : nat) :
  t !! m = Some y -> Permutation (h :: t) (y :: <[m := h]> t).
Proof.
  intros Hy.
  rewrite <- (take_drop_middle t m y Hy) at 1.
  assert (Hl : length (take m t) = m)
    by (apply length_take_le; apply lookup_lt_Some in Hy; lia).
  assert (Ht : <[m := h]> t = take m t ++ h :: drop (S m) t).
  { rewrite <- (take_drop_middle t m y Hy) at 1.
    rewrite <- Hl at 1; rewrite insert_app_r_alt by lia.
    rewrite Nat.sub_diag; reflexivity. }
  rewrite Ht.
  eapply perm_trans; [apply perm_skip, Permutation_sym, Permutation_middle|].
  eapply perm_trans; [apply perm_swap|].
  apply perm_skip, Permutation_middle.
Qed.

Lemma perm_swap_lt (d : list E) (i j : nat) (x y : E) :
  (i < j)%nat -> d !! i = Some x -> d !! j = Some y ->
  Permutation d (<[j := x]> (<[i := y]> d)).
Proof.
  revert i j; induction d as [|h t IH]; intros i j Hij Hx Hy; [discriminate|].
  destruct i as [|i'], j as [|j']; try lia.
  - cbn in Hx; injection Hx as <-; cbn.
    apply perm_insert_front; exact Hy.
  - cbn in Hx, Hy |- *; apply perm_skip, IH; auto; lia.
Qed.

Lemma perm_swap_any (d : list E) (i j : nat) (x y : E) :
  d !! i = Some x -> d !! j = Some y ->
  Permutation d (<[j := x]> (<[i := y]> d)).
Proof.
  intros Hx Hy.
  destruct (Nat.lt_total i j) as [Hij|[<-|Hij]].
  - apply perm_swap_lt; auto.
  - rewrite Hx in Hy; injection Hy as <-.
    rewrite list_insert_insert_eq, list_insert_id by exact Hx; reflexivity.
  - rewrite list_insert_insert_ne by lia; apply perm_swap_lt; auto.
Qed.

Lemma rsw_len (a b : Z) (d d' : list E) : rsw a b d d' -> length d' = length d.
Proof. induction 1; auto; [rewrite !length_insert; reflexivity|congruence]. Qed.

Lemma rsw_perm (a b : Z) (d d' : list E) : rsw a b d d' -> Permutation d d'.
Proof.
  induction 1 as [|d i j x y _ _ _ _ Hx Hy|]; [reflexivity| |eapply perm_trans; eauto].
  apply perm_swap_any; auto.
Qed.

Lemma rsw_P (a b : Z) (d d' : list E) : rsw a b d d' -> Forall P d -> Forall P d'.
Proof.
  intros H HP; apply List.Forall_forall; intros z Hz.
  apply (proj1 (List.Forall_forall P d) HP).
  apply (Permutation_in z (Permutation_sym (rsw_perm a b d d' H))); exact Hz.
Qed.

Lemma rsw_out (a b : Z) (d d' : list E) :
  rsw a b d d' -> forall x, 0 <= x -> x < a \/ b <= x -> el d' x = el d x.
Proof.
  induction 1 as [d|d i j u v Ha Hi Hj Hb Hu Hv|d1 d2 d3 _ IH1 _ IH2]; intros z Hz Hout.
  - reflexivity.
  - unfold el; rewrite !list_lookup_insert_ne by lia; reflexivity.
  - rewrite IH2, IH1 by assumption; reflexivity.
Qed.

Lemma rsw_in (a b : Z) (d d' : list E) :
  rsw a b d d' -> forall x, a <= x < b -> exists y, a <= y < b /\ el d' x = el d y.
Proof.
  induction 1 as [d|d i j u v Ha Hi Hj Hb Hu Hv|d1 d2 d3 _ IH1 _ IH2]; intros z Hz.
  - exists z; auto.
  - unfold el in *.
    destruct (Z.eq_dec z j) as [->|Hzj].
    + exists i; split; [lia|].
      rewrite list_lookup_insert_eq; [congruence|rewrite length_insert; unfold zlen in Hb; lia].
    + rewrite list_lookup_insert_ne by lia.
      destruct (Z.eq_dec z i) as [->|Hzi].
      * exists j; split; [lia|].
        rewrite list_lookup_insert_eq; [congruence|unfold zlen in Hb; lia].
      * exists z; split; [lia|]; rewrite list_lookup_insert_ne by lia; reflexivity.
  - destruct (IH2 z Hz) as (y & Hy & E2); destruct (IH1 y Hy) as (w & Hw & E1).
    exists w; split; [exact Hw|congruence].
Qed.

Lemma rsw_widen (a b a' b' : Z) (d d' : list E) :
  rsw a b d d' -> 0 <= a' <= a -> b <= b' -> b' <= zlen d -> rsw a' b' d d'.
Proof.
  induction 1 as [d|d i j u v Ha Hi Hj Hb Hu Hv|d1 d2 d3 H12 IH1 _ IH2]; intros Ha' Hb' Hl.
  - apply rsw_refl.
  - apply rsw_step; auto; lia.
  - apply rsw_trans with d2; [apply IH1; auto|apply IH2; auto].
    unfold zlen in *; rewrite (rsw_len _ _ _ _ H12); exact Hl.
Qed.

Lemma rsw_zlen (a b : Z) (d d' : list E) : rsw a b d d' -> zlen d' = zlen d.
Proof. intros H; unfold zlen; rewrite (rsw_len _ _ _ _ H); reflexivity. Qed.

Lemma ky_out (a b : Z) (d d' : list E) (x : Z) :
  rsw a b d d' -> 0 <= x -> x < a \/ b <= x -> ky d' x = ky d x.
Proof. intros H Hx Hout; unfold ky; rewrite (rsw_out a b d d' H x Hx Hout); reflexivity. Qed.

Lemma rsw_range (a b : Z) (d d' : list E) (Q : Z -> Prop) :
  rsw a b d d' -> (forall y, a <= y < b -> Q (ky d y)) -> forall x, a <= x < b -> Q (ky d' x).
Proof.
  intros H HQ x Hx; destruct (rsw_in a b d d' H x Hx) as (y & Hy & Exy).
  unfold ky; rewrite Exy; apply HQ; exact Hy.
Qed.

Lemma Lb_rsw (a b : Z) (d d' : list E) : rsw a b d d' -> Lb d a b -> Lb d' a b.
Proof.
  intros H HL Ha x Hx.
  rewrite (ky_out a b d d' (a - 1) H) by lia.
  exact (rsw_range a b d d' (fun z => ky d (a - 1) <= z) H (HL Ha) x Hx).
Qed.

Lemma swap_runs (a b i j : Z) (d : list E) :
  0 <= a <= i -> i < b -> a <= j < b -> b <= zlen d ->
  runs (swap i j) d (fun _ d' => rsw a b d d' /\ ky d' i = ky d j /\ ky d' j = ky d i /\
                                 forall x, 0 <= x -> x <> i -> x <> j -> ky d' x = ky d x).
Proof.
  intros Ha Hi Hj Hb.
  destruct (el_lookup d i ltac:(lia)) as [u Hu]; destruct (el_lookup d j ltac:(lia)) as [v Hv].
  exists tt, (<[Z.to_nat j := u]> (<[Z.to_nat i := v]> d)); split.
  - unfold swap; unfold el in Hu, Hv.
    rewrite (proj2 (Z.ltb_ge i 0)), (proj2 (Z.ltb_ge j 0)) by lia; cbn [orb].
    rewrite Hu, Hv; reflexivity.
  - split; [apply rsw_step; auto|].
    unfold zlen in Hb; unfold ky, el in *.
    split; [|split].
    + destruct (Z.eq_dec i j) as [->|Hij].
      * rewrite list_lookup_insert_eq by (rewrite length_insert; lia).
        rewrite Hu in Hv; injection Hv as <-; rewrite Hu; reflexivity.
      * rewrite list_lookup_insert_ne by lia.
        rewrite list_lookup_insert_eq by lia; rewrite Hv; reflexivity.
    + rewrite list_lookup_insert_eq by (rewrite length_insert; lia); rewrite Hu; reflexivity.
    + intros x Hx Hxi Hxj; rewrite !list_lookup_insert_ne by lia; reflexivity.
Qed.

Lemma sorted_combine (d : list E) (a j i : Z) :
  a <= j -> sorted_range d a j -> sorted_range d (j + 1) (i + 1) ->
  (forall x y, a <= x < j -> j < y <= i -> ky d x <= ky d y) ->
  (forall y, j < y <= i -> ky d j <= ky d y) ->
  (a < j -> ky d (j - 1) <= ky d j) ->
  sorted_range d a (i + 1).
Proof.
  intros Haj S1 S2 Hc Hins Hadj x y Hx Hxy Hy.
  destruct (Z.lt_trichotomy x j) as [Hxj|[->|Hxj]].
  - destruct (Z.lt_trichotomy y j) as [Hyj|[->|Hyj]].
    + apply S1; lia.
    + transitivity (ky d (j - 1)); [apply S1; lia|apply Hadj; lia].
    + apply Hc; lia.
  - destruct (Z.eq_dec y j) as [->|Hyj]; [lia|apply Hins; lia].
  - apply S2; lia.
Qed.

Lemma sorted_extend (d : list E) (a i : Z) :
  sorted_range d a i -> a + 1 <= i -> ky d (i - 1) <= ky d i -> sorted_range d a (i + 1).
Proof.
  intros S Hi Hle x y Hx Hxy Hy.
  destruct (Z.eq_dec y i) as [->|Hyi]; [|apply S; lia].
  destruct (Z.eq_dec x i) as [->|Hxi]; [lia|].
  transitivity (ky d (i - 1)); [apply S; lia|exact Hle].
Qed.

Lemma sorted_single (d : list E) (a : Z) : sorted_range d a (a + 1).
Proof. intros x y Hx Hxy Hy; replace y with x by lia; lia. Qed.

Lemma sorted_sub (d : list E) (a b a' b' : Z) :
  sorted_range d a b -> a <= a' -> b' <= b -> sorted_range d a' b'.
Proof. intros S Ha Hb x y Hx Hxy Hy; apply S; lia. Qed.

(** The inner loop of insertion sort: the element at [j] is moved left
    into the sorted [a, j), in front of the sorted (j, i] it is below. *)
Lemma insertion_inner_ok (fuel : nat) (a i : Z) :
  forall j d, Forall P d -> 0 <= a <= j -> j <= i -> i < zlen d -> j - a < Z.of_nat fuel ->
  sorted_range d a j -> sorted_range d (j + 1) (i + 1) ->
  (forall x y, a <= x < j -> j < y <= i -> ky d x <= ky d y) ->
  (forall y, j < y <= i -> ky d j <= ky d y) ->
  runs (insertion_inner cmp fuel a j) d
    (fun _ d' => rsw a (i + 1) d d' /\ sorted_range d' a (i + 1)).
Proof.
  induction fuel as [|f IH]; intros j d HP Ha Hji Hi Hf S1 S2 Hc Hins; [lia|].
  cbn [insertion_inner].
  destruct (Z.ltb_spec a j) as [Haj|Haj].
  - eapply runs_bind_eq; [apply less_key; auto; lia|].
    destruct (Z.ltb_spec (ky d j) (ky d (j - 1))) as [Hlt|Hge].
    + eapply runs_bind; [apply (swap_runs a (i + 1) j (j - 1)); lia|].
      intros [] d1 (R1 & E1 & E2 & E3).
      eapply runs_weaken; [apply (IH (j - 1) d1)|].
      * exact (rsw_P _ _ _ _ R1 HP).
      * lia.
      * lia.
      * rewrite (rsw_zlen _ _ _ _ R1); lia.
      * lia.
      * intros x y Hx Hxy Hy; rewrite !E3 by lia; apply S1; lia.
      * intros x y Hx Hxy Hy.
        destruct (Z.eq_dec x j) as [->|Hxj].
        { destruct (Z.eq_dec y j) as [->|Hyj]; [lia|].
          rewrite E1, (E3 y) by lia; apply Hc; lia. }
        rewrite !E3 by lia; apply S2; lia.
      * intros x y Hx Hy; rewrite (E3 x) by lia.
        destruct (Z.eq_dec y j) as [->|Hyj]; [rewrite E1; apply S1; lia|].
        rewrite (E3 y) by lia; apply Hc; lia.
      * intros y Hy; rewrite E2.
        destruct (Z.eq_dec y j) as [->|Hyj]; [rewrite E1; lia|].
        rewrite (E3 y) by lia; apply Hins; lia.
      * intros [] d2 [R2 S]; split; [eapply rsw_trans; eauto|exact S].
    + apply runs_ret; split; [apply rsw_refl|].
      apply (sorted_combine d a j i); auto; lia.
  - apply runs_ret; split; [apply rsw_refl|].
    apply (sorted_combine d a j i); auto; lia.
Qed.

Lemma insertion_outer_ok (n fuel : nat) (a b : Z) :
  forall i d, Forall P d -> 0 <= a -> a + 1 <= i <= b + 1 -> b <= zlen d -> zlen d < Z.of_nat n ->
  b - i + 1 < Z.of_nat fuel -> sorted_range d a i ->
  runs (insertion_outer cmp n fuel a i b) d (fun _ d' => rsw a b d d' /\ sorted_range d' a b).
Proof.
  induction fuel as [|f IH]; intros i d HP Ha Hi Hb Hn Hf S; [lia|].
  cbn [insertion_outer].
  destruct (Z.ltb_spec i b) as [Hib|Hib].
  - eapply runs_bind; [apply (insertion_inner_ok n a i i d); auto; try lia; unfold sorted_range; intros; lia|].
    + intros [] d1 [R1 S1].
      eapply runs_weaken; [apply (IH (i + 1) d1)|].
      * exact (rsw_P _ _ _ _ R1 HP).
      * lia.
      * lia.
      * rewrite (rsw_zlen _ _ _ _ R1); lia.
      * rewrite (rsw_zlen _ _ _ _ R1); lia.
      * lia.
      * exact S1.
      * intros [] d2 [R2 S2]; split; [|exact S2].
        apply rsw_trans with d1; [|exact R2].
        apply (rsw_widen a (i + 1)); auto; lia.
  - apply runs_ret; split; [apply rsw_refl|].
    apply (sorted_sub d a i); auto; lia.
Qed.

Lemma insertionSort_ok (n : nat) (a b : Z) (d : list E) :
  Forall P d -> 0 <= a -> a <= b -> b <= zlen d -> zlen d < Z.of_nat n ->
  runs (insertionSortCmpFunc cmp n a b) d (fun _ d' => rsw a b d d' /\ sorted_range d' a b).
Proof.
  intros HP Ha Hab Hb Hn; unfold insertionSortCmpFunc.
  apply insertion_outer_ok; auto; try lia.
  apply sorted_single.
Qed.

(** partialInsertionSortCmpFunc's left shift stops at [a]: the element
    before [a] is not greater than those of [a, b). *)
Lemma shift_left_ok (fuel : nat) (a i : Z) :
  forall j d, Forall P d -> 0 <= a <= j -> j <= i -> i < zlen d -> j - a < Z.of_nat fuel ->
  Lb d a (i + 1) ->
  sorted_range d a j -> sorted_range d (j + 1) (i + 1) ->
  (forall x y, a <= x < j -> j < y <= i -> ky d x <= ky d y) ->
  (forall y, j < y <= i -> ky d j <= ky d y) ->
  runs (shift_left cmp fuel j) d (fun _ d' => rsw a (i + 1) d d' /\ sorted_range d' a (i + 1)).
Proof.
  induction fuel as [|f IH]; intros j d HP Ha Hji Hi Hf HL S1 S2 Hc Hins; [lia|].
  cbn [shift_left].
  destruct (Z.leb_spec 1 j) as [Hj1|Hj1].
  - destruct (Z.eq_dec j a) as [->|Hja].
    + eapply runs_bind_eq; [apply less_key; auto; lia|].
      rewrite (proj2 (Z.ltb_ge _ _)) by (apply HL; lia); cbn [negb].
      apply runs_ret; split; [apply rsw_refl|].
      apply (sorted_combine d a a i); auto; lia.
    + eapply runs_bind_eq; [apply less_key; auto; lia|].
      destruct (Z.ltb_spec (ky d j) (ky d (j - 1))) as [Hlt|Hge]; cbn [negb].
      * eapply runs_bind; [apply (swap_runs a (i + 1) j (j - 1)); lia|].
        intros [] d1 (R1 & E1 & E2 & E3).
        eapply runs_weaken; [apply (IH (j - 1) d1)|].
        -- exact (rsw_P _ _ _ _ R1 HP).
        -- lia.
        -- lia.
        -- rewrite (rsw_zlen _ _ _ _ R1); lia.
        -- lia.
        -- exact (Lb_rsw _ _ _ _ R1 HL).
        -- intros x y Hx Hxy Hy; rewrite !E3 by lia; apply S1; lia.
        -- intros x y Hx Hxy Hy.
           destruct (Z.eq_dec x j) as [->|Hxj].
           { destruct (Z.eq_dec y j) as [->|Hyj]; [lia|].
             rewrite E1, (E3 y) by lia; apply Hc; lia. }
           rewrite !E3 by lia; apply S2; lia.
        -- intros x y Hx Hy; rewrite (E3 x) by lia.
           destruct (Z.eq_dec y j) as [->|Hyj]; [rewrite E1; apply S1; lia|].
           rewrite (E3 y) by lia; apply Hc; lia.
        -- intros y Hy; rewrite E2.
           destruct (Z.eq_dec y j) as [->|Hyj]; [rewrite E1; lia|].
           rewrite (E3 y) by lia; apply Hins; lia.
        -- intros [] d2 [R2 S]; split; [eapply rsw_trans; eauto|exact S].
      * apply runs_ret; split; [apply rsw_refl|].
        apply (sorted_combine d a j i); auto; lia.
  - apply runs_ret; split; [apply rsw_refl|].
    apply (sorted_combine d a j i); auto; lia.
Qed.

Lemma shift_right_ok (fuel : nat) (a0 b : Z) :
  forall j d, 0 <= a0 -> a0 + 1 <= j <= b + 1 -> b <= zlen d -> b - j + 1 < Z.of_nat fuel ->
  runs (shift_right cmp fuel j b) d (fun _ d' => rsw a0 b d d').
Proof.
  induction fuel as [|f IH]; intros j d Ha Hj Hb Hf; [lia|].
  cbn [shift_right].
  destruct (Z.ltb_spec j b) as [Hjb|Hjb].
  - destruct (less_any j (j - 1) d ltac:(lia) ltac:(lia)) as [bb Hbb].
    eapply runs_bind_eq; [exact Hbb|].
    destruct bb; cbn [negb].
    + eapply runs_bind; [apply (swap_runs a0 b j (j - 1)); lia|].
      intros [] d1 (R1 & _).
      eapply runs_weaken; [apply (IH (j + 1) d1)|].
      * lia.
      * lia.
      * rewrite (rsw_zlen _ _ _ _ R1); lia.
      * lia.
      * intros [] d2 R2; eapply rsw_trans; eauto.
    + apply runs_ret, rsw_refl.
  - apply runs_ret, rsw_refl.
Qed.

Lemma skip_sorted_ok (fuel : nat) (a b : Z) :
  forall i d, Forall P d -> 0 <= a -> a + 1 <= i <= b -> b <= zlen d -> b - i < Z.of_nat fuel ->
  sorted_range d a i ->
  runs (skip_sorted cmp fuel i b) d
    (fun r d' => d' = d /\ a + 1 <= r <= b /\ sorted_range d a r /\
                 (r < b -> ky d r < ky d (r - 1))).
Proof.
  induction fuel as [|f IH]; intros i d HP Ha Hi Hb Hf S; [lia|].
  cbn [skip_sorted].
  destruct (Z.ltb_spec i b) as [Hib|Hib].
  - eapply runs_bind_eq; [apply less_key; auto; lia|].
    destruct (Z.ltb_spec (ky d i) (ky d (i - 1))) as [Hlt|Hge]; cbn [negb].
    + apply runs_ret; split; [reflexivity|split; [lia|split; auto]].
    + apply IH; auto; try lia.
      apply sorted_extend; auto; lia.
  - apply runs_ret; split; [reflexivity|split; [lia|split; auto]].
    intros; lia.
Qed.

Lemma partial_steps_ok (n steps : nat) (a b : Z) :
  forall i d, Forall P d -> Lb d a b -> 0 <= a -> a + 1 <= i <= b -> b <= zlen d ->
  zlen d < Z.of_nat n -> sorted_range d a i ->
  runs (partial_steps cmp n steps i a b) d
    (fun r d' => rsw a b d d' /\ (r = true -> sorted_range d' a b)).
Proof.
  induction steps as [|s IH]; intros i d HP HL Ha Hi Hb Hn S.
  - apply runs_ret; split; [apply rsw_refl|discriminate].
  - cbn [partial_steps].
    eapply runs_bind; [apply (skip_sorted_ok n a b i d); auto; lia|].
    intros r d0 (-> & Hr & Sr & Hlt).
    destruct (Z.eqb_spec r b) as [->|Hrb].
    { apply runs_ret; split; [apply rsw_refl|auto]. }
    destruct (Z.ltb_spec (b - a) 50) as [H50|H50].
    { apply runs_ret; split; [apply rsw_refl|discriminate]. }
    eapply runs_bind; [apply (swap_runs a b r (r - 1)); lia|].
    intros [] d2 (R2 & E1 & E2 & E3).
    eapply runs_bind with
      (Q1 := fun _ d3 => rsw a r d2 d3 /\ sorted_range d3 a r).
    { destruct (Z.leb_spec 2 (r - a)) as [H2|H2].
      - eapply runs_weaken; [apply (shift_left_ok n a (r - 1) (r - 1) d2)|].
        + exact (rsw_P _ _ _ _ R2 HP).
        + lia.
        + lia.
        + pose proof (rsw_zlen _ _ _ _ R2); lia.
        + pose proof (rsw_zlen _ _ _ _ R2); lia.
        + intros Ha0 x Hx; apply (Lb_rsw _ _ _ _ R2 HL); lia.
        + intros x y Hx Hxy Hy; rewrite !E3 by lia; apply Sr; lia.
        + intros x y Hx Hxy Hy; lia.
        + intros x y Hx Hy; lia.
        + intros y Hy; lia.
        + intros [] d3; replace (r - 1 + 1) with r by lia; auto.
      - apply runs_ret; split; [apply rsw_refl|].
        replace r with (a + 1) by lia; apply sorted_single. }
    intros [] d3 [R3 S3].
    eapply runs_bind with (Q1 := fun _ d4 => rsw r b d3 d4).
    { destruct (Z.leb_spec 2 (b - r)) as [H2|H2].
      - apply shift_right_ok; try lia.
        rewrite (rsw_zlen _ _ _ _ R3), (rsw_zlen _ _ _ _ R2); lia.
      - apply runs_ret, rsw_refl. }
    intros [] d4 R4.
    assert (R24 : rsw a b d2 d4).
    { apply rsw_trans with d3.
      - apply (rsw_widen a r); auto; [lia|lia|rewrite (rsw_zlen _ _ _ _ R2); lia].
      - apply (rsw_widen r b); auto; [lia|lia|rewrite (rsw_zlen _ _ _ _ R3), (rsw_zlen _ _ _ _ R2); lia]. }
    assert (R04 : rsw a b d d4) by (apply rsw_trans with d2; auto).
    eapply runs_weaken; [apply (IH r d4)|].
    + exact (rsw_P _ _ _ _ R04 HP).
    + exact (Lb_rsw _ _ _ _ R04 HL).
    + lia.
    + lia.
    + rewrite (rsw_zlen _ _ _ _ R04); lia.
    + rewrite (rsw_zlen _ _ _ _ R04); lia.
    + intros x y Hx Hxy Hy; rewrite !(ky_out r b d3 d4) by (auto; lia); apply S3; lia.
    + intros r' d5 [R5 S5]; split; [eapply rsw_trans; eauto|exact S5].
Qed.

Lemma partialInsertionSort_ok (n : nat) (a b : Z) (d : list E) :
  Forall P d -> Lb d a b -> 0 <= a -> a + 1 <= b -> b <= zlen d -> zlen d < Z.of_nat n ->
  runs (partialInsertionSortCmpFunc cmp n a b) d
    (fun r d' => rsw a b d d' /\ (r = true -> sorted_range d' a b)).
Proof.
  intros; apply partial_steps_ok; auto; try lia; apply sorted_single.
Qed.

Lemma siftDown_ok (fuel : nat) (hi first lo : Z) :
  forall root d, Forall P d -> 0 <= first -> first + hi <= zlen d -> 0 <= lo <= root ->
  root <= hi -> hi - root < Z.of_nat fuel -> heap_at d first lo hi root ->
  runs (siftDown_loop cmp fuel hi first root) d
    (fun _ d' => rsw (first + lo) (first + hi) d d' /\ heap_ok d' first lo hi).
Proof.
  induction fuel as [|f IH]; intros root d HP Hf Hhi Hlo Hr Hfuel [H1 H2]; [lia|].
  cbn [siftDown_loop].
  destruct (Z.leb_spec hi (2 * root + 1)) as [Hleaf|Hleaf].
  { apply runs_ret; split; [apply rsw_refl|].
    intros p c Hp Hc Hch; destruct (Z.eq_dec p root) as [->|Hpr]; [lia|].
    apply H1; auto. }
  eapply runs_bind with
    (Q1 := fun c d1 => d1 = d /\ (c = 2 * root + 1 \/ c = 2 * root + 2) /\ c < hi /\
           forall c', (c' = 2 * root + 1 \/ c' = 2 * root + 2) -> c' < hi ->
           ky d (first + c') <= ky d (first + c)).
  { destruct (Z.ltb_spec (2 * root + 1 + 1) hi) as [H2c|H2c].
    - eapply runs_bind_eq; [apply less_key; auto; lia|].
      destruct (Z.ltb_spec (ky d (first + (2 * root + 1))) (ky d (first + (2 * root + 1) + 1)))
        as [Hlt|Hge];
        replace (first + (2 * root + 1) + 1) with (first + (2 * root + 2)) in * by lia.
      + apply runs_ret; cbv beta; replace (2 * root + 1 + 1) with (2 * root + 2) by lia.
        split; [reflexivity|split; [lia|split; [lia|]]].
        intros c' [-> | ->] _; lia.
      + apply runs_ret; split; [reflexivity|split; [lia|split; [lia|]]].
        intros c' [-> | ->] _; lia.
    - apply runs_ret; split; [reflexivity|split; [lia|split; [lia|]]].
      intros c' [-> | ->] Hc'; lia. }
  intros c d1 (-> & Hc & Hch & Hmax).
  eapply runs_bind_eq; [apply less_key; auto; lia|].
  destruct (Z.ltb_spec (ky d (first + root)) (ky d (first + c))) as [Hlt|Hge]; cbn [negb].
  - eapply runs_bind; [apply (swap_runs (first + lo) (first + hi) (first + root) (first + c)); lia|].
    intros [] d2 (R2 & E1 & E2 & E3).
    eapply runs_weaken; [apply (IH c d2)|].
    + exact (rsw_P _ _ _ _ R2 HP).
    + exact Hf.
    + rewrite (rsw_zlen _ _ _ _ R2); exact Hhi.
    + lia.
    + lia.
    + lia.
    + split.
      * intros p c2 Hp Hpc Hc2 Hc2hi.
        destruct (Z.eq_dec p root) as [->|Hpr].
        { rewrite E1.
          destruct (Z.eq_dec c2 c) as [->|Hc2c]; [rewrite E2; lia|].
          rewrite (E3 (first + c2)) by lia; apply Hmax; auto. }
        assert (Hc2c : c2 <> c) by lia.
        rewrite (E3 (first + p)) by lia.
        destruct (Z.eq_dec c2 root) as [->|Hc2r].
        { rewrite E1; apply (H2 p c); auto; lia. }
        rewrite (E3 (first + c2)) by lia; apply H1; auto.
      * intros pp c2 Hpp Hc' Hc2 Hc2hi.
        assert (pp = root) as -> by lia.
        rewrite E1, (E3 (first + c2)) by lia.
        apply H1; auto; lia.
    + intros [] d3 [R3 Hh]; split; [|exact Hh].
      apply rsw_trans with d2; [exact R2|].
      exact R3.
  - apply runs_ret; split; [apply rsw_refl|].
    intros p c2 Hp Hc2 Hc2hi.
    destruct (Z.eq_dec p root) as [->|Hpr]; [|apply H1; auto].
    transitivity (ky d (first + c)); [apply Hmax; auto|lia].
Qed.

Lemma heap_root_max (d : list E) (first m : Z) :
  heap_ok d first 0 m -> forall p, 0 <= p < m -> ky d (first + p) <= ky d first.
Proof.
  intros H p Hp.
  assert (Hall : forall k : nat, forall p, 0 <= p < m -> (Z.to_nat p <= k)%nat -> ky d (first + p) <= ky d first).
  { induction k as [|k IH]; intros q Hq Hk.
    - replace q with 0 by lia; rewrite Z.add_0_r; lia.
    - destruct (Z.eq_dec q 0) as [->|Hq0]; [rewrite Z.add_0_r; lia|].
      set (pp := (q - 1) / 2).
      assert (Hpp : q = 2 * pp + 1 \/ q = 2 * pp + 2).
      { pose proof (Z.div_mod (q - 1) 2 ltac:(lia)); pose proof (Z.mod_pos_bound (q - 1) 2 ltac:(lia)).
        unfold pp; destruct (Z.eq_dec ((q - 1) mod 2) 0); [left|right]; lia. }
      assert (Hpq : 0 <= pp < q).
      { pose proof (Z.div_mod (q - 1) 2 ltac:(lia)); pose proof (Z.mod_pos_bound (q - 1) 2 ltac:(lia)).
        unfold pp; lia. }
      transitivity (ky d (first + pp)); [apply H; auto; lia|].
      apply IH; lia. }
  apply (Hall (Z.to_nat p)); auto; lia.
Qed.

Lemma heap_build_ok (n fuel : nat) (hi first : Z) :
  forall i d, Forall P d -> 0 <= first -> first + hi <= zlen d -> zlen d < Z.of_nat n ->
  -1 <= i < hi -> i + 1 < Z.of_nat fuel -> heap_ok d first (i + 1) hi ->
  runs (heap_build cmp n fuel i hi first) d
    (fun _ d' => rsw first (first + hi) d d' /\ heap_ok d' first 0 hi).
Proof.
  induction fuel as [|f IH]; intros i d HP Hf Hhi Hn Hi Hfuel H; [lia|].
  cbn [heap_build].
  destruct (Z.leb_spec 0 i) as [Hi0|Hi0].
  - unfold siftDownCmpFunc.
    eapply runs_bind; [apply (siftDown_ok n hi first i i d); auto; try lia|].
    + split.
      * intros p c Hp Hpr Hc Hch; apply H; auto; lia.
      * intros pp c Hpp Hr; lia.
    + intros [] d1 [R1 H1].
      eapply runs_weaken; [apply (IH (i - 1) d1)|].
      * exact (rsw_P _ _ _ _ R1 HP).
      * exact Hf.
      * rewrite (rsw_zlen _ _ _ _ R1); exact Hhi.
      * rewrite (rsw_zlen _ _ _ _ R1); exact Hn.
      * lia.
      * lia.
      * replace (i - 1 + 1) with i by lia; exact H1.
      * intros [] d2 [R2 H2]; split; [|exact H2].
        apply rsw_trans with d1; [|exact R2].
        apply (rsw_widen (first + i) (first + hi)); auto; lia.
  - apply runs_ret; split; [apply rsw_refl|].
    replace 0 with (i + 1) by lia; exact H.
Qed.

Lemma heap_pop_ok (n fuel : nat) (hi first : Z) :
  forall i d, Forall P d -> 0 <= first -> first + hi <= zlen d -> zlen d < Z.of_nat n ->
  -1 <= i < hi -> i + 1 < Z.of_nat fuel -> heap_ok d first 0 (i + 1) ->
  sorted_range d (first + i + 1) (first + hi) ->
  (forall x y, 0 <= x <= i -> i < y < hi -> ky d (first + x) <= ky d (first + y)) ->
  runs (heap_pop cmp n fuel i 0 first) d
    (fun _ d' => rsw first (first + hi) d d' /\ sorted_range d' first (first + hi)).
Proof.
  induction fuel as [|f IH]; intros i d HP Hf Hhi Hn Hi Hfuel H S Hc; [lia|].
  cbn [heap_pop].
  destruct (Z.leb_spec 0 i) as [Hi0|Hi0].
  - pose proof (heap_root_max d first (i + 1) H) as Hmax.
    eapply runs_bind; [apply (swap_runs first (first + hi) first (first + i)); lia|].
    intros [] d1 (R1 & E1 & E2 & E3).
    unfold siftDownCmpFunc.
    eapply runs_bind; [apply (siftDown_ok n i first 0 0 d1); auto; try lia|].
    + exact (rsw_P _ _ _ _ R1 HP).
    + rewrite (rsw_zlen _ _ _ _ R1); lia.
    + split.
      * intros p c Hp Hp0 Hc' Hch.
        rewrite (E3 (first + p)), (E3 (first + c)) by lia.
        apply H; auto; lia.
      * intros pp c Hpp Hr; lia.
    + intros [] d2 [R2 H2].
      assert (Hd1 : forall x, first + i + 1 <= x -> ky d1 x = ky d x) by (intros x Hx; apply E3; lia).
      assert (Hd2 : forall x, first + i <= x -> ky d2 x = ky d1 x)
        by (intros x Hx; apply (ky_out _ _ _ _ x R2); lia).
      eapply runs_weaken; [apply (IH (i - 1) d2)|].
      * exact (rsw_P _ _ _ _ R2 (rsw_P _ _ _ _ R1 HP)).
      * exact Hf.
      * rewrite (rsw_zlen _ _ _ _ R2), (rsw_zlen _ _ _ _ R1); exact Hhi.
      * rewrite (rsw_zlen _ _ _ _ R2), (rsw_zlen _ _ _ _ R1); exact Hn.
      * lia.
      * lia.
      * replace (i - 1 + 1) with i by lia; exact H2.
      * intros x y Hx Hxy Hy.
        rewrite (Hd2 x), (Hd2 y) by lia.
        destruct (Z.eq_dec x (first + i)) as [->|Hxi].
        -- rewrite E2.
           destruct (Z.eq_dec y (first + i)) as [->|Hyi]; [rewrite E2; lia|].
           rewrite (Hd1 y) by lia.
           replace y with (first + (y - first)) by lia.
           pose proof (Hc 0 (y - first) ltac:(lia) ltac:(lia)) as Hc0.
           rewrite Z.add_0_r in Hc0; exact Hc0.
        -- rewrite (Hd1 x), (Hd1 y) by lia; apply S; lia.
      * intros x y Hx Hy.
        rewrite (Hd2 (first + y)) by lia.
        assert (Hbound : forall z, first <= z < first + i -> ky d1 z <= ky d1 (first + y)).
        { intros z Hz.
          destruct (Z.eq_dec y i) as [->|Hyi].
          - rewrite E2.
            destruct (Z.eq_dec z first) as [->|Hzf].
            + rewrite E1; apply Hmax; lia.
            + rewrite (E3 z) by lia.
              replace z with (first + (z - first)) by lia; apply Hmax; lia.
          - rewrite (E3 (first + y)) by lia.
            destruct (Z.eq_dec z first) as [->|Hzf].
            + rewrite E1; apply Hc; lia.
            + rewrite (E3 z) by lia.
              replace z with (first + (z - first)) by lia; apply Hc; lia. }
        rewrite Z.add_0_r in R2.
        apply (rsw_range first (first + i) d1 d2 (fun z => z <= ky d1 (first + y)) R2); [|lia].
        intros z Hz; apply Hbound; lia.
      * intros [] d3 [R3 S3]; split; [|exact S3].
        apply rsw_trans with d1; [exact R1|].
        apply rsw_trans with d2; [|exact R3].
        apply (rsw_widen (first + 0) (first + i)); [exact R2|lia|lia|pose proof (rsw_zlen _ _ _ _ R1); lia].
  - apply runs_ret; split; [apply rsw_refl|].
    replace first with (first + i + 1) at 1 by lia; exact S.
Qed.

Lemma heapSort_ok (n : nat) (a b : Z) (d : list E) :
  Forall P d -> 0 <= a -> a + 1 <= b -> b <= zlen d -> zlen d < Z.of_nat n ->
  runs (heapSortCmpFunc cmp n a b) d (fun _ d' => rsw a b d d' /\ sorted_range d' a b).
Proof.
  intros HP Ha Hab Hb Hn; unfold heapSortCmpFunc.
  rewrite Z.quot_div_nonneg by lia.
  pose proof (Z.div_mod (b - a - 1) 2 ltac:(lia)) as Hdm.
  pose proof (Z.mod_pos_bound (b - a - 1) 2 ltac:(lia)) as Hmb.
  eapply runs_bind; [apply (heap_build_ok n n (b - a) a ((b - a - 1) / 2) d)|].
  - exact HP.
  - exact Ha.
  - lia.
  - exact Hn.
  - lia.
  - lia.
  - intros p c Hp Hc Hch; lia.
  - intros [] d1 [R1 H1].
    replace (a + (b - a)) with b in R1 by lia.
    eapply runs_weaken; [apply (heap_pop_ok n n (b - a) a (b - a - 1) d1)|].
    + exact (rsw_P _ _ _ _ R1 HP).
    + lia.
    + rewrite (rsw_zlen _ _ _ _ R1); lia.
    + rewrite (rsw_zlen _ _ _ _ R1); lia.
    + lia.
    + lia.
    + replace (b - a - 1 + 1) with (b - a) by lia; exact H1.
    + intros x y Hx Hxy Hy; lia.
    + intros x y Hx Hy; lia.
    + intros [] d2 [R2 S2]; replace (a + (b - a)) with b in * by lia.
      split; [eapply rsw_trans; eauto|exact S2].
Qed.

(** ** Pattern breaking, pivot choice and reversal *)

Lemma break_loop_ok (k : nat) (a L m idx : Z) :
  0 <= a -> 0 < L -> 0 <= m -> 2 ^ m <= 2 * L ->
  forall i random d, a + L <= zlen d ->
  (forall i', i <= i' < i + Z.of_nat k -> a <= idx - 1 + i' < a + L) ->
  runs (break_loop k i random (2 ^ m) L a idx) d (fun _ d' => rsw a (a + L) d d').
Proof.
  intros Ha HL Hm Hm2; induction k as [|k IH]; intros i r d Hd Hidx; cbn [break_loop].
  - apply runs_ret, rsw_refl.
  - assert (Ho : 0 <= Z.land (xorshift_next r) (2 ^ m - 1) < 2 ^ m).
    { replace (2 ^ m - 1) with (Z.pred (2 ^ m)) by lia.
      rewrite <- Z.ones_equiv, Z.land_ones by lia.
      apply Z.mod_pos_bound; apply Z.pow_pos_nonneg; lia. }
    set (o := Z.land (xorshift_next r) (2 ^ m - 1)) in *.
    assert (Ho' : 0 <= (if L <=? o then o - L else o) < L)
      by (destruct (Z.leb_spec L o); lia).
    pose proof (Hidx i ltac:(lia)) as Hi.
    eapply runs_bind; [apply (swap_runs a (a + L)); lia|].
    intros [] d1 (R1 & _).
    eapply runs_weaken; [apply IH|].
    + rewrite (rsw_zlen _ _ _ _ R1); exact Hd.
    + intros i' Hi'; apply Hidx; lia.
    + intros [] d2 R2; eapply rsw_trans; eauto.
Qed.

Lemma breakPatterns_ok (a b : Z) (d : list E) :
  0 <= a -> a <= b -> b <= zlen d ->
  runs (breakPatternsCmpFunc a b) d (fun _ d' => rsw a b d d').
Proof.
  intros Ha Hab Hb; unfold breakPatternsCmpFunc.
  destruct (Z.leb_spec 8 (b - a)) as [H8|H8]; [|apply runs_ret, rsw_refl].
  unfold nextPowerOfTwo, bits_Len.
  destruct (Z.leb_spec (b - a) 0) as [H0|H0]; [lia|].
  rewrite Z.shiftl_1_l.
  pose proof (Z.log2_spec (b - a) ltac:(lia)) as [Hl1 Hl2].
  pose proof (Z.log2_nonneg (b - a)) as Hl0.
  rewrite Z.quot_div_nonneg by lia.
  pose proof (Z.div_mod (b - a) 4 ltac:(lia)) as Hdm.
  pose proof (Z.mod_pos_bound (b - a) 4 ltac:(lia)) as Hmb.
  eapply runs_weaken; [apply (break_loop_ok 3 a (b - a) (Z.log2 (b - a) + 1))|].
  - exact Ha.
  - lia.
  - lia.
  - rewrite Z.pow_add_r, Z.pow_1_r by lia; lia.
  - lia.
  - intros i' Hi'; cbn in Hi'; lia.
  - intros [] d' R; replace (a + (b - a)) with b in R by lia; exact R.
Qed.

Section IndexRange.
Variables (lo hi : Z) (d : list E).
Hypothesis Hlo : 0 <= lo.
Hypothesis Hhi : hi <= zlen d.

Lemma order2_ok (x y s : Z) :
  lo <= x < hi -> lo <= y < hi ->
  runs (order2CmpFunc cmp x y s) d
    (fun r d' => d' = d /\ lo <= fst (fst r) < hi /\ lo <= snd (fst r) < hi).
Proof.
  intros Hx Hy; unfold order2CmpFunc.
  destruct (less_any y x d ltac:(lia) ltac:(lia)) as [c Hc].
  eapply runs_bind_eq; [exact Hc|].
  destruct c; apply runs_ret; cbn; auto.
Qed.

Lemma median_ok (x y z s : Z) :
  lo <= x < hi -> lo <= y < hi -> lo <= z < hi ->
  runs (medianCmpFunc cmp x y z s) d (fun r d' => d' = d /\ lo <= fst r < hi).
Proof.
  intros Hx Hy Hz; unfold medianCmpFunc.
  eapply runs_bind; [apply (order2_ok x y s Hx Hy)|].
  intros [[x1 y1] s1] d1 (-> & Hx1 & Hy1); cbn in Hx1, Hy1.
  eapply runs_bind; [apply (order2_ok y1 z s1 Hy1 Hz)|].
  intros [[y2 z2] s2] d2 (-> & Hy2 & Hz2); cbn in Hy2, Hz2.
  eapply runs_bind; [apply (order2_ok x1 y2 s2 Hx1 Hy2)|].
  intros [[x3 y3] s3] d3 (-> & Hx3 & Hy3); cbn in Hx3, Hy3.
  apply runs_ret; cbn; auto.
Qed.

Lemma medianAdjacent_ok (x s : Z) :
  lo <= x - 1 -> x + 1 < hi ->
  runs (medianAdjacentCmpFunc cmp x s) d (fun r d' => d' = d /\ lo <= fst r < hi).
Proof. intros H1 H2; unfold medianAdjacentCmpFunc; apply median_ok; lia. Qed.

End IndexRange.

Lemma choosePivot_ok (a b : Z) (d : list E) :
  0 <= a -> a + 8 <= b -> b <= zlen d ->
  runs (choosePivotCmpFunc cmp a b) d (fun r d' => d' = d /\ a <= fst r < b).
Proof.
  intros Ha Hab Hb; unfold choosePivotCmpFunc.
  rewrite Z.quot_div_nonneg by lia.
  pose proof (Z.div_mod (b - a) 4 ltac:(lia)) as Hdm.
  pose proof (Z.mod_pos_bound (b - a) 4 ltac:(lia)) as Hmb.
  destruct (Z.leb_spec 8 (b - a)) as [_|H8]; [|lia].
  eapply runs_bind with (Q1 := fun r d' => d' = d /\ a <= fst r < b).
  - eapply runs_bind with (Q1 := fun (r : Z * Z * Z * Z) d' => let '(i, j, k, _) := r in
        d' = d /\ a <= i < b /\ a <= j < b /\ a <= k < b).
    + destruct (Z.leb_spec 50 (b - a)).
      * eapply runs_bind; [apply (medianAdjacent_ok a b d Ha Hb); lia|].
        intros [i s1] d1 [-> Hi]; cbn in Hi.
        eapply runs_bind; [apply (medianAdjacent_ok a b d Ha Hb); lia|].
        intros [j s2] d2 [-> Hj]; cbn in Hj.
        eapply runs_bind; [apply (medianAdjacent_ok a b d Ha Hb); lia|].
        intros [k s3] d3 [-> Hk]; cbn in Hk.
        apply runs_ret; cbn; auto.
      * apply runs_ret; cbn; repeat split; lia.
    + intros [[[i j] k] s] d1 (-> & Hi & Hj & Hk).
      apply (median_ok a b d Ha Hb); auto.
  - intros [j s] d1 [-> Hj]; cbn in Hj.
    destruct (s =? 0); [apply runs_ret; auto|].
    destruct (s =? 4 * 3); apply runs_ret; auto.
Qed.

Lemma reverse_loop_ok (fuel : nat) (a b : Z) :
  forall i j d, 0 <= a <= i -> i <= j + 1 -> j < b -> b <= zlen d -> j - i + 1 < Z.of_nat fuel ->
  runs (reverse_loop fuel i j) d (fun _ d' => rsw a b d d').
Proof.
  induction fuel as [|f IH]; intros i j d Hi Hij Hj Hb Hf; [lia|]; cbn [reverse_loop].
  destruct (Z.ltb_spec i j) as [Hlt|Hge]; [|apply runs_ret, rsw_refl].
  eapply runs_bind; [apply (swap_runs a b i j); lia|].
  intros [] d1 (R1 & _).
  eapply runs_weaken; [apply IH; try lia; rewrite (rsw_zlen _ _ _ _ R1); lia|].
  intros [] d2 R2; eapply rsw_trans; eauto.
Qed.

Lemma reverseRange_ok (n : nat) (a b : Z) (d : list E) :
  0 <= a <= b -> b <= zlen d -> zlen d < Z.of_nat n ->
  runs (reverseRangeCmpFunc n a b) d (fun _ d' => rsw a b d d').
Proof. intros Hab Hb Hn; unfold reverseRangeCmpFunc; apply reverse_loop_ok; lia. Qed.

(** ** Partitioning around the element at [a] *)

Lemma scan_lt_ok (fuel : nat) (j p : Z) :
  forall i d, Forall P d -> 0 <= i -> i <= j + 1 -> j < zlen d -> 0 <= p < zlen d ->
  j - i + 1 < Z.of_nat fuel ->
  runs (scan_lt cmp fuel i j p) d (fun i' d' => d' = d /\ i <= i' <= j + 1 /\
    (forall x, i <= x < i' -> ky d x < ky d p) /\ (i' <= j -> ky d p <= ky d i')).
Proof.
  induction fuel as [|f IH]; intros i d HP Hi Hij Hj Hp Hf; [lia|]; cbn [scan_lt].
  destruct (Z.leb_spec i j) as [Hle|Hgt]; [|apply runs_ret; repeat split; lia].
  eapply runs_bind_eq; [apply less_key; auto; lia|].
  destruct (Z.ltb_spec (ky d i) (ky d p)) as [Hlt|Hge].
  - eapply runs_weaken; [apply IH; auto; lia|].
    intros i' d' (-> & Hi' & Hbelow & Hstop); repeat split; auto; try lia.
    intros x Hx; destruct (Z.eq_dec x i) as [->|]; [exact Hlt|apply Hbelow; lia].
  - apply runs_ret; repeat split; auto; lia.
Qed.

Lemma scan_ge_ok (fuel : nat) (i p : Z) :
  forall j d, Forall P d -> 0 <= i -> i <= j + 1 -> j < zlen d -> 0 <= p < zlen d ->
  j - i + 1 < Z.of_nat fuel ->
  runs (scan_ge cmp fuel i j p) d (fun j' d' => d' = d /\ i - 1 <= j' <= j /\
    (forall x, j' < x <= j -> ky d p <= ky d x) /\ (i <= j' -> ky d j' < ky d p)).
Proof.
  induction fuel as [|f IH]; intros j d HP Hi Hij Hj Hp Hf; [lia|]; cbn [scan_ge].
  destruct (Z.leb_spec i j) as [Hle|Hgt]; [|apply runs_ret; repeat split; lia].
  eapply runs_bind_eq; [apply less_key; auto; lia|].
  destruct (Z.ltb_spec (ky d j) (ky d p)) as [Hlt|Hge]; cbn [negb].
  - apply runs_ret; repeat split; auto; lia.
  - eapply runs_weaken; [apply IH; auto; lia|].
    intros j' d' (-> & Hj' & Habove & Hstop); repeat split; auto; try lia.
    intros x Hx; destruct (Z.eq_dec x j) as [->|]; [exact Hge|apply Habove; lia].
Qed.

Lemma partition_step (a b i j : Z) (d : list E) :
  0 <= a -> a + 1 <= i -> i < j -> j < b -> b <= zlen d ->
  PInv d a b i j -> ky d a <= ky d i -> ky d j < ky d a ->
  runs (swap i j) d (fun _ d' => rsw (a + 1) b d d' /\ ky d' a = ky d a /\ PInv d' a b (i + 1) (j - 1)).
Proof.
  intros Ha Hi Hij Hj Hb [IL IR] Hki Hkj.
  eapply runs_weaken; [apply (swap_runs (a + 1) b i j); lia|].
  intros [] d' (R & Ei & Ej & Eo).
  assert (Ea : ky d' a = ky d a) by (apply Eo; lia).
  repeat split; auto; rewrite Ea.
  - intros x Hx; destruct (Z.eq_dec x i) as [->|Hxi]; [rewrite Ei; exact Hkj|].
    rewrite Eo by lia; apply IL; lia.
  - intros x Hx; destruct (Z.eq_dec x j) as [->|Hxj]; [rewrite Ej; exact Hki|].
    rewrite Eo by lia; apply IR; lia.
Qed.

Lemma partition_loop_ok (n fuel : nat) (a b : Z) :
  forall i j d, Forall P d -> 0 <= a -> a + 1 <= i -> i <= j + 1 -> j < b -> b <= zlen d ->
  zlen d < Z.of_nat n -> j - i + 1 < Z.of_nat fuel -> PInv d a b i j ->
  runs (partition_loop cmp n fuel i j a) d (fun j' d' => rsw (a + 1) b d d' /\
    ky d' a = ky d a /\ a <= j' < b /\ PInv d' a b (j' + 1) j').
Proof.
  induction fuel as [|f IH]; intros i j d HP Ha Hi Hij Hj Hb Hn Hf [IL IR]; [lia|].
  cbn [partition_loop].
  eapply runs_bind; [apply (scan_lt_ok n j a i d); auto; lia|].
  intros i1 d1 (-> & Hi1 & SL & SL').
  eapply runs_bind; [apply (scan_ge_ok n i1 a j d); auto; lia|].
  intros j1 d1 (-> & Hj1 & SG & SG').
  destruct (Z.ltb_spec j1 i1) as [Hlt|Hge].
  - apply runs_ret; split; [apply rsw_refl|]; repeat split; auto; try lia.
    + intros x Hx; destruct (Z.lt_ge_cases x i); [apply IL; lia|apply SL; lia].
    + intros x Hx; destruct (Z.le_gt_cases x j); [apply SG; lia|apply IR; lia].
  - assert (Hk1 : ky d a <= ky d i1) by (apply SL'; lia).
    assert (Hk2 : ky d j1 < ky d a) by (apply SG'; lia).
    assert (Hne : i1 < j1) by (destruct (Z.eq_dec i1 j1) as [->|]; lia).
    eapply runs_bind; [apply (partition_step a b i1 j1 d); auto; try lia|].
    + split.
      * intros x Hx; destruct (Z.lt_ge_cases x i); [apply IL; lia|apply SL; lia].
      * intros x Hx; destruct (Z.le_gt_cases x j); [apply SG; lia|apply IR; lia].
    + intros [] d2 (R2 & E2 & I2).
      eapply runs_weaken; [apply (IH (i1 + 1) (j1 - 1) d2); auto; try lia|].
      * exact (rsw_P _ _ _ _ R2 HP).
      * rewrite (rsw_zlen _ _ _ _ R2); lia.
      * rewrite (rsw_zlen _ _ _ _ R2); lia.
      * intros j' d3 (R3 & E3 & Hj' & I3).
        refine (conj _ (conj _ (conj _ I3))); [eapply rsw_trans; eauto|congruence|lia].
Qed.

(** The last swap puts the pivot at [j]. *)
Lemma partition_finish (a b j : Z) (flag : bool) (d : list E) :
  0 <= a <= j -> j < b -> b <= zlen d -> PInv d a b (j + 1) j ->
  runs (bind (swap j a) (fun _ => ret (j, flag))) d (fun r d' => rsw a b d d' /\ fst r = j /\
    (forall x, a <= x < j -> ky d' x <= ky d' j) /\ (forall x, j < x < b -> ky d' j <= ky d' x)).
Proof.
  intros Haj Hj Hb [IL IR].
  eapply runs_bind; [apply (swap_runs a b j a); lia|].
  intros [] d' (R & Ej & Ea & Eo); apply runs_ret; cbn; repeat split; auto.
  - intros x Hx; rewrite Ej.
    destruct (Z.eq_dec x a) as [->|Hxa].
    + destruct (Z.eq_dec j a) as [->|Hja]; [lia|].
      rewrite Ea; pose proof (IL j ltac:(lia)); lia.
    + destruct (Z.eq_dec x j) as [->|Hxj]; [lia|].
      rewrite Eo by lia; pose proof (IL x ltac:(lia)); lia.
  - intros x Hx; rewrite Ej.
    destruct (Z.eq_dec x a) as [->|Hxa]; [lia|].
    rewrite Eo by lia; apply IR; lia.
Qed.

Lemma partition_ok (n : nat) (a b pivot : Z) (d : list E) :
  Forall P d -> 0 <= a <= pivot -> pivot < b -> b <= zlen d -> zlen d < Z.of_nat n ->
  runs (partitionCmpFunc cmp n a b pivot) d (fun r d' => rsw a b d d' /\ a <= fst r < b /\
    (forall x, a <= x < fst r -> ky d' x <= ky d' (fst r)) /\
    (forall x, fst r < x < b -> ky d' (fst r) <= ky d' x)).
Proof.
  intros HP Hap Hpb Hb Hn; unfold partitionCmpFunc.
  eapply runs_bind; [apply (swap_runs a b a pivot); lia|].
  intros [] d1 (R1 & _).
  assert (HP1 : Forall P d1) by exact (rsw_P _ _ _ _ R1 HP).
  assert (Hl1 : zlen d1 = zlen d) by exact (rsw_zlen _ _ _ _ R1).
  eapply runs_bind; [apply (scan_lt_ok n (b - 1) a (a + 1) d1); auto; lia|].
  intros i d2 (-> & Hi & SL & SL').
  eapply runs_bind; [apply (scan_ge_ok n i a (b - 1) d1); auto; lia|].
  intros j d2 (-> & Hj & SG & SG').
  destruct (Z.ltb_spec j i) as [Hlt|Hge].
  - eapply runs_weaken; [apply (partition_finish a b); try lia|].
    + split; [intros x Hx; apply SL; lia|intros x Hx; apply SG; lia].
    + intros r d3 (R3 & -> & H1 & H2); repeat split; auto; try lia.
      eapply rsw_trans; eauto.
  - assert (Hk1 : ky d1 a <= ky d1 i) by (apply SL'; lia).
    assert (Hk2 : ky d1 j < ky d1 a) by (apply SG'; lia).
    assert (Hne : i < j) by (destruct (Z.eq_dec i j) as [->|]; lia).
    eapply runs_bind; [apply (partition_step a b i j d1); auto; try lia|].
    + split; [intros x Hx; apply SL; lia|intros x Hx; apply SG; lia].
    + intros [] d2 (R2 & E2 & I2).
      assert (HP2 : Forall P d2) by exact (rsw_P _ _ _ _ R2 HP1).
      assert (Hl2 : zlen d2 = zlen d1) by exact (rsw_zlen _ _ _ _ R2).
      eapply runs_bind; [apply (partition_loop_ok n n a b (i + 1) (j - 1) d2); auto; lia|].
      intros j' d3 (R3 & E3 & Hj' & I3).
      assert (Hl3 : zlen d3 = zlen d2) by exact (rsw_zlen _ _ _ _ R3).
      eapply runs_weaken; [apply (partition_finish a b); auto; lia|].
      intros r d4 (R4 & -> & H1 & H2); repeat split; auto; try lia.
      apply rsw_trans with d1; [exact R1|].
      apply rsw_trans with d2; [apply (rsw_widen (a + 1) b); auto; lia|].
      apply rsw_trans with d3; [apply (rsw_widen (a + 1) b); auto; lia|exact R4].
Qed.

(** ** Partitioning into keys equal to the pivot and greater ones *)

Lemma scan_eq_ok (fuel : nat) (j p : Z) :
  forall i d, Forall P d -> 0 <= i -> i <= j + 1 -> j < zlen d -> 0 <= p < zlen d ->
  j - i + 1 < Z.of_nat fuel ->
  runs (scan_eq cmp fuel i j p) d (fun i' d' => d' = d /\ i <= i' <= j + 1 /\
    (forall x, i <= x < i' -> ky d x <= ky d p) /\ (i' <= j -> ky d p < ky d i')).
Proof.
  induction fuel as [|f IH]; intros i d HP Hi Hij Hj Hp Hf; [lia|]; cbn [scan_eq].
  destruct (Z.leb_spec i j) as [Hle|Hgt]; [|apply runs_ret; repeat split; lia].
  eapply runs_bind_eq; [apply less_key; auto; lia|].
  destruct (Z.ltb_spec (ky d p) (ky d i)) as [Hlt|Hge]; cbn [negb].
  - apply runs_ret; repeat split; auto; lia.
  - eapply runs_weaken; [apply IH; auto; lia|].
    intros i' d' (-> & Hi' & Hbelow & Hstop); repeat split; auto; try lia.
    intros x Hx; destruct (Z.eq_dec x i) as [->|]; [exact Hge|apply Hbelow; lia].
Qed.

Lemma scan_gt_ok (fuel : nat) (i p : Z) :
  forall j d, Forall P d -> 0 <= i -> i <= j + 1 -> j < zlen d -> 0 <= p < zlen d ->
  j - i + 1 < Z.of_nat fuel ->
  runs (scan_gt cmp fuel i j p) d (fun j' d' => d' = d /\ i - 1 <= j' <= j /\
    (i <= j' -> ky d j' <= ky d p)).
Proof.
  induction fuel as [|f IH]; intros j d HP Hi Hij Hj Hp Hf; [lia|]; cbn [scan_gt].
  destruct (Z.leb_spec i j) as [Hle|Hgt]; [|apply runs_ret; repeat split; lia].
  eapply runs_bind_eq; [apply less_key; auto; lia|].
  destruct (Z.ltb_spec (ky d p) (ky d j)) as [Hlt|Hge].
  - eapply runs_weaken; [apply IH; auto; lia|].
    intros j' d' (-> & Hj' & Hstop); repeat split; auto; lia.
  - apply runs_ret; repeat split; auto; lia.
Qed.

Lemma partition_equal_loop_ok (n fuel : nat) (a b : Z) :
  forall i j d, Forall P d -> 0 <= a -> a + 1 <= i -> i <= j + 1 -> j < b -> b <= zlen d ->
  zlen d < Z.of_nat n -> j - i + 1 < Z.of_nat fuel ->
  (forall x, a + 1 <= x < i -> ky d x <= ky d a) ->
  runs (partition_equal_loop cmp n fuel i j a) d (fun i' d' => rsw (a + 1) b d d' /\
    ky d' a = ky d a /\ a + 1 <= i' <= b /\ forall x, a + 1 <= x < i' -> ky d' x <= ky d a).
Proof.
  induction fuel as [|f IH]; intros i j d HP Ha Hi Hij Hj Hb Hn Hf IL; [lia|].
  cbn [partition_equal_loop].
  eapply runs_bind; [apply (scan_eq_ok n j a i d); auto; lia|].
  intros i1 d1 (-> & Hi1 & SL & SL').
  eapply runs_bind; [apply (scan_gt_ok n i1 a j d); auto; lia|].
  intros j1 d1 (-> & Hj1 & SG').
  destruct (Z.ltb_spec j1 i1) as [Hlt|Hge].
  - apply runs_ret; split; [apply rsw_refl|]; repeat split; auto; try lia.
    intros x Hx; destruct (Z.lt_ge_cases x i); [apply IL; lia|apply SL; lia].
  - assert (Hk1 : ky d a < ky d i1) by (apply SL'; lia).
    assert (Hk2 : ky d j1 <= ky d a) by (apply SG'; lia).
    assert (Hne : i1 < j1) by (destruct (Z.eq_dec i1 j1) as [->|]; lia).
    eapply runs_bind; [apply (swap_runs (a + 1) b i1 j1); lia|].
    intros [] d2 (R2 & Ei & Ej & Eo).
    assert (E2 : ky d2 a = ky d a) by (apply Eo; lia).
    eapply runs_weaken; [apply (IH (i1 + 1) (j1 - 1) d2); auto; try lia|].
    + exact (rsw_P _ _ _ _ R2 HP).
    + rewrite (rsw_zlen _ _ _ _ R2); lia.
    + rewrite (rsw_zlen _ _ _ _ R2); lia.
    + intros x Hx; rewrite E2.
      destruct (Z.eq_dec x i1) as [->|Hxi]; [rewrite Ei; exact Hk2|].
      rewrite Eo by lia.
      destruct (Z.lt_ge_cases x i); [apply IL; lia|apply SL; lia].
    + intros i' d3 (R3 & E3 & Hi' & H3).
      refine (conj _ (conj _ (conj _ _))); [eapply rsw_trans; eauto|congruence|lia|].
      intros x Hx; rewrite <- E2; apply H3; lia.
Qed.

Lemma partitionEqual_ok (n : nat) (a b pivot : Z) (d : list E) :
  Forall P d -> 0 <= a <= pivot -> pivot < b -> b <= zlen d -> zlen d < Z.of_nat n ->
  runs (partitionEqualCmpFunc cmp n a b pivot) d (fun mid d' => rsw a b d d' /\ a + 1 <= mid <= b /\
    forall x, a <= x < mid -> ky d' x <= ky d pivot).
Proof.
  intros HP Hap Hpb Hb Hn; unfold partitionEqualCmpFunc.
  eapply runs_bind; [apply (swap_runs a b a pivot); lia|].
  intros [] d1 (R1 & Ea & _ & _).
  pose proof (rsw_zlen _ _ _ _ R1) as Hl1.
  eapply runs_weaken; [apply (partition_equal_loop_ok n n a b (a + 1) (b - 1) d1)|].
  - exact (rsw_P _ _ _ _ R1 HP).
  - lia.
  - lia.
  - lia.
  - lia.
  - lia.
  - lia.
  - lia.
  - intros x Hx; lia.
  - intros mid d2 (R2 & E2 & Hmid & H2).
    refine (conj _ (conj _ _)); [|lia|].
    + apply rsw_trans with d1; [exact R1|apply (rsw_widen (a + 1) b); auto; lia].
    + intros x Hx; destruct (Z.eq_dec x a) as [->|Hxa]; [lia|].
      rewrite <- Ea; apply H2; lia.
Qed.

(** ** The main loop *)

Lemma sorted_pivot (d : list E) (a m b : Z) :
  sorted_range d a m -> sorted_range d (m + 1) b ->
  (forall x, a <= x < m -> ky d x <= ky d m) -> (forall x, m < x < b -> ky d m <= ky d x) ->
  sorted_range d a b.
Proof.
  intros SL SR HL HR x y Hx Hxy Hy.
  destruct (Z.lt_ge_cases y m); [apply SL; lia|].
  destruct (Z.lt_ge_cases m x); [apply SR; lia|].
  destruct (Z.eq_dec x m) as [->|Hxm].
  - destruct (Z.eq_dec y m) as [->|]; [lia|apply HR; lia].
  - destruct (Z.eq_dec y m) as [->|]; [apply HL; lia|].
    pose proof (HL x ltac:(lia)); pose proof (HR y ltac:(lia)); lia.
Qed.

Lemma sorted_out (c e a b : Z) (d d' : list E) :
  rsw c e d d' -> 0 <= a -> (b <= c \/ e <= a) -> sorted_range d a b -> sorted_range d' a b.
Proof.
  intros R Ha Hout S x y Hx Hxy Hy.
  rewrite (ky_out c e d d' x R), (ky_out c e d d' y R) by lia; apply S; lia.
Qed.

Lemma Lb_sub (d : list E) (a b b' : Z) : Lb d a b -> b' <= b -> Lb d a b'.
Proof. intros HL Hb Ha x Hx; apply HL; lia. Qed.

Lemma Lb_out (c e a b : Z) (d d' : list E) :
  rsw c e d d' -> 0 <= a -> (b <= c \/ e < a) -> Lb d a b -> Lb d' a b.
Proof.
  intros R Ha Hout HL Hpos x Hx.
  rewrite (ky_out c e d d' x R), (ky_out c e d d' (a - 1) R) by lia; apply HL; lia.
Qed.

(** After partitioning around [mid], sorting both sides, in either order,
    sorts [a, b). *)
Lemma sides_sorted (a mid b : Z) (d5 d6 d7 : list E) :
  0 <= a <= mid -> mid < b ->
  (forall x, a <= x < mid -> ky d5 x <= ky d5 mid) ->
  (forall x, mid < x < b -> ky d5 mid <= ky d5 x) ->
  (rsw a mid d5 d6 /\ sorted_range d6 a mid /\ rsw (mid + 1) b d6 d7 /\ sorted_range d7 (mid + 1) b) \/
  (rsw (mid + 1) b d5 d6 /\ sorted_range d6 (mid + 1) b /\ rsw a mid d6 d7 /\ sorted_range d7 a mid) ->
  sorted_range d7 a b.
Proof.
  intros Ha Hb HL HR [(R6 & S6 & R7 & S7)|(R6 & S6 & R7 & S7)].
  - assert (Hm : ky d7 mid = ky d5 mid)
      by (rewrite (ky_out _ _ _ _ mid R7), (ky_out _ _ _ _ mid R6) by lia; reflexivity).
    apply (sorted_pivot d7 a mid b); auto.
    + apply (sorted_out (mid + 1) b a mid d6 d7 R7); [lia|lia|exact S6].
    + intros x Hx; rewrite Hm, (ky_out _ _ _ _ x R7) by lia.
      exact (rsw_range _ _ _ _ (fun z => z <= ky d5 mid) R6 HL x Hx).
    + intros x Hx; rewrite Hm.
      apply (rsw_range _ _ _ _ (fun z => ky d5 mid <= z) R7); [|lia].
      intros y Hy; rewrite (ky_out _ _ _ _ y R6) by lia; apply HR; lia.
  - assert (Hm : ky d7 mid = ky d5 mid)
      by (rewrite (ky_out _ _ _ _ mid R7), (ky_out _ _ _ _ mid R6) by lia; reflexivity).
    apply (sorted_pivot d7 a mid b); auto.
    + apply (sorted_out a mid (mid + 1) b d6 d7 R7); [lia|lia|exact S6].
    + intros x Hx; rewrite Hm.
      apply (rsw_range _ _ _ _ (fun z => z <= ky d5 mid) R7); [|lia].
      intros y Hy; rewrite (ky_out _ _ _ _ y R6) by lia; apply HL; lia.
    + intros x Hx; rewrite Hm, (ky_out _ _ _ _ x R7) by lia.
      apply (rsw_range _ _ _ _ (fun z => ky d5 mid <= z) R6); [|lia].
      intros y Hy; apply HR; lia.
Qed.

Lemma pdq_ok (n fuel : nat) :
  forall a b limit wb wp d, Forall P d -> 0 <= a <= b -> b <= zlen d -> zlen d < Z.of_nat n ->
  b - a < Z.of_nat fuel -> Lb d a b ->
  runs (pdqsort_loop cmp n fuel a b limit wb wp) d (fun _ d' => rsw a b d d' /\ sorted_range d' a b).
Proof.
  induction fuel as [|f IH]; intros a b limit wb wp d HP Hab Hb Hn Hf HL; [lia|].
  cbn [pdqsort_loop].
  destruct (Z.leb_spec (b - a) 12) as [H12|H12].
  { apply insertionSort_ok; auto; lia. }
  destruct (Z.eqb_spec limit 0) as [Hl0|Hl0].
  { apply heapSort_ok; auto; lia. }
  eapply runs_bind with (Q1 := fun _ d1 => rsw a b d d1).
  { destruct wb; cbn [negb]; [apply runs_ret, rsw_refl|apply breakPatterns_ok; lia]. }
  intros [] d1 R1.
  pose proof (rsw_zlen _ _ _ _ R1) as Hl1.
  pose proof (rsw_P _ _ _ _ R1 HP) as HP1.
  eapply runs_bind; [apply choosePivot_ok; lia|].
  intros [pivot hint] d2 [-> Hpv]; cbn in Hpv.
  eapply runs_bind with (Q1 := fun r d2 => rsw a b d1 d2 /\ a <= fst r < b).
  { destruct hint.
    - apply runs_ret; split; [apply rsw_refl|exact Hpv].
    - apply runs_ret; split; [apply rsw_refl|exact Hpv].
    - eapply runs_bind; [apply reverseRange_ok; lia|].
      intros [] d2 R2; apply runs_ret; cbn; split; [exact R2|lia]. }
  intros [pv hint'] d2 [R2 Hpv']; cbn in Hpv'.
  pose proof (rsw_zlen _ _ _ _ R2) as Hl2.
  pose proof (rsw_P _ _ _ _ R2 HP1) as HP2.
  assert (R12 : rsw a b d d2) by (eapply rsw_trans; eauto).
  pose proof (Lb_rsw _ _ _ _ R12 HL) as HL2.
  eapply runs_bind with (Q1 := fun done d3 => rsw a b d2 d3 /\ (done = true -> sorted_range d3 a b)).
  { lazymatch goal with |- runs (if ?c then _ else _) _ _ => destruct c end.
    - eapply runs_weaken; [apply partialInsertionSort_ok; auto; lia|].
      intros r d3 [R3 S3]; auto.
    - apply runs_ret; split; [apply rsw_refl|discriminate]. }
  intros done d3 [R3 S3].
  pose proof (rsw_zlen _ _ _ _ R3) as Hl3.
  pose proof (rsw_P _ _ _ _ R3 HP2) as HP3.
  assert (R13 : rsw a b d d3) by (eapply rsw_trans; eauto).
  pose proof (Lb_rsw _ _ _ _ R13 HL) as HL3.
  destruct done.
  { apply runs_ret; split; [exact R13|auto]. }
  eapply runs_bind with
    (Q1 := fun e d4 => d4 = d3 /\ (e = true -> 0 < a /\ ky d3 pv <= ky d3 (a - 1))).
  { destruct (Z.ltb_spec 0 a) as [Ha0|Ha0].
    - eapply runs_bind_eq; [apply less_key; auto; lia|].
      apply runs_ret; split; auto; intros He; split; auto.
      destruct (Z.ltb_spec (ky d3 (a - 1)) (ky d3 pv)); cbn in He; [discriminate|lia].
    - apply runs_ret; split; auto; discriminate. }
  intros e d4 [-> He].
  destruct e.
  - destruct (He eq_refl) as [Ha0 Hle].
    assert (Hge : forall x, a <= x < b -> ky d3 (a - 1) <= ky d3 x) by (apply HL3; exact Ha0).
    assert (Hpv0 : ky d3 pv = ky d3 (a - 1)) by (pose proof (Hge pv ltac:(lia)); lia).
    eapply runs_bind; [apply partitionEqual_ok; auto; lia|].
    intros mid d5 (R5 & Hmid & H5).
    pose proof (rsw_zlen _ _ _ _ R5) as Hl5.
    pose proof (rsw_range _ _ _ _ (fun z => ky d3 (a - 1) <= z) R5 Hge) as Hge5; cbn beta in Hge5.
    eapply runs_weaken; [apply (IH mid b)|].
    + exact (rsw_P _ _ _ _ R5 HP3).
    + lia.
    + lia.
    + lia.
    + lia.
    + intros Hm x Hx.
      pose proof (H5 (mid - 1) ltac:(lia)); pose proof (Hge5 x ltac:(lia)); lia.
    + intros [] d6 [R6 S6]; split.
      * apply rsw_trans with d3; [exact R13|].
        apply rsw_trans with d5; [exact R5|apply (rsw_widen mid b); auto; lia].
      * assert (Heq : forall x, a <= x < mid -> ky d6 x = ky d3 (a - 1)).
        { intros x Hx; rewrite (ky_out _ _ _ _ x R6) by lia.
          pose proof (H5 x Hx); pose proof (Hge5 x ltac:(lia)); lia. }
        assert (Hge6 : forall x, mid <= x < b -> ky d3 (a - 1) <= ky d6 x).
        { apply (rsw_range _ _ _ _ (fun z => ky d3 (a - 1) <= z) R6).
          intros y Hy; apply Hge5; lia. }
        intros x y Hx Hxy Hy.
        destruct (Z.lt_ge_cases y mid).
        { rewrite (Heq x), (Heq y) by lia; lia. }
        destruct (Z.lt_ge_cases x mid).
        { rewrite (Heq x) by lia; apply Hge6; lia. }
        apply S6; lia.
  - eapply runs_bind; [apply partition_ok; auto; lia|].
    intros [mid ap] d5 (R5 & Hmid & H5l & H5r); cbn in Hmid, H5l, H5r.
    pose proof (rsw_zlen _ _ _ _ R5) as Hl5.
    pose proof (rsw_P _ _ _ _ R5 HP3) as HP5.
    pose proof (Lb_sub d5 a b mid (Lb_rsw _ _ _ _ R5 HL3) ltac:(lia)) as HL5l.
    assert (HL5r : Lb d5 (mid + 1) b)
      by (intros _ x Hx; replace (mid + 1 - 1) with mid by lia; apply H5r; lia).
    assert (Hfin : forall d6 d7,
      (rsw a mid d5 d6 /\ sorted_range d6 a mid /\ rsw (mid + 1) b d6 d7 /\ sorted_range d7 (mid + 1) b) \/
      (rsw (mid + 1) b d5 d6 /\ sorted_range d6 (mid + 1) b /\ rsw a mid d6 d7 /\ sorted_range d7 a mid) ->
      rsw a b d d7 /\ sorted_range d7 a b).
    { intros d6 d7 Hcases; split; [|exact (sides_sorted a mid b d5 d6 d7 ltac:(lia) ltac:(lia) H5l H5r Hcases)].
      apply rsw_trans with d3; [exact R13|].
      apply rsw_trans with d5; [exact R5|].
      destruct Hcases as [(R6 & _ & R7 & _)|(R6 & _ & R7 & _)]; pose proof (rsw_zlen _ _ _ _ R6) as Hl6.
      - apply rsw_trans with d6; [apply (rsw_widen a mid); auto; lia|apply (rsw_widen (mid + 1) b); auto; lia].
      - apply rsw_trans with d6; [apply (rsw_widen (mid + 1) b); auto; lia|apply (rsw_widen a mid); auto; lia]. }
    destruct (Z.ltb_spec (mid - a) (b - mid)).
    + eapply runs_bind; [apply (IH a mid); auto; lia|].
      intros [] d6 [R6 S6].
      pose proof (rsw_zlen _ _ _ _ R6) as Hl6.
      eapply runs_weaken; [apply (IH (mid + 1) b)|].
      * exact (rsw_P _ _ _ _ R6 HP5).
      * lia.
      * lia.
      * lia.
      * lia.
      * apply (Lb_out a mid (mid + 1) b d5 d6 R6); [lia|lia|exact HL5r].
      * intros [] d7 [R7 S7]; apply (Hfin d6 d7); left; auto.
    + eapply runs_bind; [apply (IH (mid + 1) b); auto; lia|].
      intros [] d6 [R6 S6].
      pose proof (rsw_zlen _ _ _ _ R6) as Hl6.
      eapply runs_weaken; [apply (IH a mid)|].
      * exact (rsw_P _ _ _ _ R6 HP5).
      * lia.
      * lia.
      * lia.
      * lia.
      * apply (Lb_out (mid + 1) b a mid d5 d6 R6); [lia|lia|exact HL5l].
      * intros [] d7 [R7 S7]; apply (Hfin d6 d7); right; auto.
Qed.

Lemma ky_cons (y : E) (d : list E) (x : Z) : 0 <= x -> ky (y :: d) (x + 1) = ky d x.
Proof.
  intros Hx; unfold ky, el.
  replace (Z.to_nat (x + 1)) with (S (Z.to_nat x)) by lia; reflexivity.
Qed.

Lemma sorted_range_strongly (d : list E) :
  sorted_range d 0 (zlen d) -> StronglySorted (fun u v => key u <= key v) d.
Proof.
  induction d as [|y d IH]; intros S; constructor.
  - apply IH; intros x z Hx Hxz Hz.
    rewrite <- (ky_cons y d x), <- (ky_cons y d z) by lia.
    apply S; unfold zlen in *; cbn [length]; lia.
  - apply List.Forall_forall; intros v Hv.
    apply list_elem_of_In, list_elem_of_lookup_1 in Hv as [k Hk].
    pose proof (lookup_lt_Some _ _ _ Hk) as Hlt.
    pose proof (S 0 (Z.of_nat k + 1) ltac:(lia) ltac:(lia) ltac:(unfold zlen; cbn [length]; lia)) as Hs.
    rewrite ky_cons in Hs by lia.
    unfold ky, el in Hs; rewrite Nat2Z.id, Hk in Hs; exact Hs.
Qed.

(** slices.SortFunc sorts by the keys, whenever the comparator agrees
    with them. *)
Lemma SortFunc_sorted (x : list E) :
  Forall P x ->
  exists d, SortFunc cmp x = Some d /\ Permutation x d /\
            StronglySorted (fun u v => key u <= key v) d.
Proof.
  intros HP.
  destruct (pdq_ok (S (length x)) (S (length x)) 0 (Z.of_nat (length x))
              (bits_Len (Z.of_nat (length x))) true true x HP) as (u & d & Hrun & R & S);
    try (unfold zlen; lia).
  { intros H; lia. }
  exists d; unfold SortFunc; cbv zeta; rewrite Hrun.
  split; [reflexivity|split; [exact (rsw_perm _ _ _ _ R)|]].
  apply sorted_range_strongly; rewrite (rsw_zlen _ _ _ _ R); exact S.
Qed.

End PdqsortCorrect.

(* ------------------------------------------------------------------ *)
(** ** The extractor registry *)
(* ------------------------------------------------------------------ *)

Lemma wrap64_small (z : Z) : (- 2 ^ 63 <= z < 2 ^ 63)%Z -> wrap64 z = z.
Proof.
  unfold wrap64; intros H.
  change (2 ^ 64)%Z with 18446744073709551616%Z.
  change (2 ^ 63)%Z with 9223372036854775808%Z in *.
  destruct (Z.le_gt_cases 0 z) as [Hz | Hz].
  - rewrite Z.mod_small by lia.
    rewrite (proj2 (Z.leb_gt 9223372036854775808 z)) by lia; reflexivity.
  - rewrite <- (Z.mod_add z 1 18446744073709551616) by lia.
    rewrite Z.mod_small by lia.
    rewrite (proj2 (Z.leb_le 9223372036854775808 (z + 1 * 18446744073709551616))) by lia; lia.
Qed.

Lemma priority_cmp_spec (x y : Extractor) :
  small_priority x -> small_priority y ->
  (priority_cmp x y <? 0)%Z = (Priority x <? Priority y)%Z.
Proof.
  unfold small_priority, priority_cmp; intros Hx Hy.
  rewrite wrap64_small by (change (2 ^ 63)%Z with (2 * 2 ^ 62)%Z; lia).
  destruct (Priority x <? Priority y)%Z eqn:E1;
    [apply Z.ltb_lt in E1; apply Z.ltb_lt; lia | apply Z.ltb_ge in E1; apply Z.ltb_ge; lia].
Qed.

Lemma register_all_small (es pre : list Extractor) :
  (length (pre ++ es) <= 12)%nat -> Forall small_priority (pre ++ es) ->
  register_all es (stable_sort Priority pre) = Some (stable_sort Priority (pre ++ es)%list).
Proof.
  revert pre; induction es as [|e rest IH]; intros pre Hl HP.
  - rewrite app_nil_r; reflexivity.
  - cbn [register_all]; unfold Register.
    apply Forall_app in HP as [HPpre HPes]; inversion HPes as [|? ? HPe HPrest]; subst.
    rewrite (SortFunc_small Priority priority_cmp small_priority priority_cmp_spec).
    + rewrite stable_sort_snoc, stable_sort_sorted_id by apply stable_sort_sorted.
      rewrite <- stable_sort_snoc.
      replace (pre ++ e :: rest)%list with ((pre ++ [e]) ++ rest)%list
        by (rewrite <- app_assoc; reflexivity).
      apply IH.
      * rewrite <- app_assoc; exact Hl.
      * rewrite <- app_assoc; apply Forall_app; split; [exact HPpre | constructor; auto].
    + rewrite length_app, length_stable_sort; rewrite length_app in Hl; simpl in *; lia.
    + apply Forall_app; split; [apply Forall_stable_sort; exact HPpre | constructor; auto].
Qed.

Lemma register_all_sorted (es pre : list Extractor) :
  Forall small_priority (pre ++ es) ->
  StronglySorted (fun a b => (Priority a <= Priority b)%Z) pre ->
  exists r, register_all es pre = Some r /\ Permutation (pre ++ es) r /\
            StronglySorted (fun a b => (Priority a <= Priority b)%Z) r.
Proof.
  revert pre; induction es as [|e rest IH]; intros pre HP Hs.
  - exists pre; rewrite app_nil_r; split; [reflexivity|split; [reflexivity|exact Hs]].
  - cbn [register_all]; unfold Register.
    assert (HP1 : Forall small_priority (pre ++ [e])).
    { apply Forall_app in HP as [HPpre HPes]; inversion HPes; subst.
      apply Forall_app; split; [exact HPpre|constructor; auto]. }
    destruct (SortFunc_sorted Priority priority_cmp small_priority priority_cmp_spec (pre ++ [e]) HP1)
      as (d & Hd & Hp & Hds).
    rewrite Hd.
    assert (HP2 : Forall small_priority (d ++ rest)).
    { apply Forall_app; split.
      - apply List.Forall_forall; intros x Hx.
        apply (proj1 (List.Forall_forall _ _) HP1).
        exact (Permutation_in x (Permutation_sym Hp) Hx).
      - apply Forall_app in HP as [_ HPes]; inversion HPes; auto. }
    destruct (IH d HP2 Hds) as (r & Hr & Hpr & Hsr).
    exists r; split; [exact Hr|split; [|exact Hsr]].
    replace (pre ++ e :: rest)%list with ((pre ++ [e]) ++ rest)%list
      by (rewrite <- app_assoc; reflexivity).
    eapply Permutation_trans; [apply Permutation_app_tail; exact Hp|exact Hpr].
Qed.

(** C1 (amended): for every sequence of registrations whose priorities
    lie between -2^62 and 2^62, GetExtractors returns the registered
    extractors, each exactly once (a permutation of the registrations),
    ordered by ascending priority; for at most twelve registrations the
    result is the stable sort by priority, so extractors of equal priority
    also keep their registration order. *)
Theorem Register_order (es : list Extractor) :
  Forall small_priority es ->
  exists r, GetExtractors_after es = Some r /\ Permutation es r /\
    StronglySorted (fun a b => (Priority a <= Priority b)%Z) r /\
    ((length es <= 12)%nat ->
       r = stable_sort Priority es /\
       forall p, List.filter (fun e => Z.eqb (Priority e) p) r
                 = List.filter (fun e => Z.eqb (Priority e) p) es).
Proof.
  intros HP.
  destruct (register_all_sorted es [] HP (SSorted_nil _)) as (r & Hr & Hp & Hs).
  exists r; split; [exact Hr|split; [exact Hp|split; [exact Hs|]]].
  intros Hl.
  assert (Hr' : r = stable_sort Priority es).
  { pose proof (register_all_small es [] Hl HP) as H.
    unfold GetExtractors_after in Hr; cbn [stable_sort fold_left app] in H.
    rewrite Hr in H; injection H as H; exact H. }
  split; [exact Hr'|intros p; rewrite Hr'; apply filter_stable_sort].
Qed.

Lemma Register_order_witness :
  Forall small_priority tie_registrations /\
  exists r, GetExtractors_after tie_registrations = Some r /\ Permutation tie_registrations r /\
    StronglySorted (fun a b => (Priority a <= Priority b)%Z) r /\
    ((length tie_registrations <= 12)%nat ->
       r = stable_sort Priority tie_registrations /\
       forall p, List.filter (fun e => Z.eqb (Priority e) p) r
                 = List.filter (fun e => Z.eqb (Priority e) p) tie_registrations).
Proof.
  assert (H : Forall small_priority tie_registrations)
    by (repeat constructor; unfold small_priority; cbn; lia).
  split; [exact H|exact (Register_order tie_registrations H)].
Defined.

(** C1, counterexample: twelve extractors of priority 1 (a to l)
    registered before one of priority 0 (z), all priorities small: the
    thirteenth registration sorts with pdqsort past its insertion-sort
    cutoff, and the registry comes out as z, g, c, d, e, f, a, h, ..., l, b,
    so extractors of equal priority lose their registration order. *)
Lemma Register_order_counterexample :
  Forall small_priority tie_registrations /\
  option_map (map ExtName) (GetExtractors_after tie_registrations) =
    Some ["z"; "g"; "c"; "d"; "e"; "f"; "a"; "h"; "i"; "j"; "k"; "l"; "b"].
Proof.
  split.
  - repeat constructor; unfold small_priority; cbn; lia.
  - vm_compute; reflexivity.
Qed.

(** The comparator subtracts priorities in a Go int: with priorities
    -2^62 - 1 and 2^62 the difference wraps around and the larger priority
    is put first. *)
Lemma Register_overflow_example :
  option_map (map ExtName)
    (GetExtractors_after [dummy_extractor "lo" (- 2 ^ 62 - 1)%Z; dummy_extractor "hi" (2 ^ 62)%Z])
  = Some ["hi"; "lo"].
Proof. vm_compute; reflexivity. Qed.

(** C2 (amended): GetParameterName returns the tag value for the source
    when the tag holds it non-empty; otherwise the directive name when that
    is non-empty; otherwise the declared name with an ASCII capital first
    letter lowered (any other first character is kept). For the field
    Q string `query:"x"` // in: query y, the generated code reads "x". *)
Theorem GetParameterName_precedence (unquote : string -> option string) (field : Field)
    (key v : string) :
  (StructTag field <> "" -> Lookup unquote (StructTag field) key = (v, true) -> v <> "" ->
     GetParameterName unquote field key = v) /\
  ((StructTag field = "" \/ snd (Lookup unquote (StructTag field) key) = false
    \/ fst (Lookup unquote (StructTag field) key) = "") ->
     (InCommentName field <> "" -> GetParameterName unquote field key = InCommentName field) /\
     (InCommentName field = "" -> valid_utf8 (Name field) = true ->
        GetParameterName unquote field key = lower_ascii_first (Name field))) /\
  extractInComment "// in: query y" = ("query", "y") /\
  payload_code precedence_example_struct
    = Some [SIfVal ("r.URL.Query().Get(" ++ q "x" ++ ")") (SAssignVal "Q") None].
Proof.
  split; [|split; [|split]].
  - intros Ht HL Hv; unfold GetParameterName.
    apply String.eqb_neq in Ht; rewrite Ht; simpl; rewrite HL.
    apply String.eqb_neq in Hv; rewrite Hv; reflexivity.
  - apply fallthrough_cases.
  - vm_compute; reflexivity.
  - vm_compute; reflexivity.
Qed.

Lemma GetParameterName_precedence_witness :
  GetParameterName unquote_plain precedence_example_field "query" = "x" /\
  GetParameterName unquote_plain precedence_example_field "header" = "y" /\
  GetParameterName unquote_plain (plain_field "UserID" "string" "") "query" = "userID".
Proof.
  pose proof (GetParameterName_precedence unquote_plain precedence_example_field "query" "x")
    as [A _].
  pose proof (GetParameterName_precedence unquote_plain precedence_example_field "header" "")
    as [_ [B _]].
  pose proof (GetParameterName_precedence unquote_plain (plain_field "UserID" "string" "") "query" "")
    as [_ [C _]].
  split; [|split].
  - apply A; [vm_compute; discriminate | vm_compute; reflexivity | discriminate].
  - apply B; [right; left; vm_compute; reflexivity | vm_compute; discriminate].
  - apply C; [left; reflexivity | reflexivity | vm_compute; reflexivity].
Defined.

(** C2, counterexample: a field named "Élan" with no tag and no directive
    gets the wire name "Élan": its first letter is not lowered to "élan". *)
Lemma GetParameterName_precedence_counterexample :
  valid_utf8 Elan = true /\
  GetParameterName unquote_plain (plain_field Elan "string" "") "query" = Elan /\
  Elan <> elan.
Proof.
  split; [vm_compute; reflexivity|]; split; [vm_compute; reflexivity|].
  intros H; vm_compute in H; discriminate.
Qed.

(** C4: with the built-in registry, the payload
    type Req struct { Q string `query:"q"`; ID string `path:"id"` }
    gets its query extraction before its path extraction, although the
    path extractor has the lower priority: the fragments follow the
    fields' declaration order, not classifier priority. *)
Lemma generateExtractionCode_field_order :
  (Priority (PathExtractor unquote_plain quote_plain DefaultRegistry)
   < Priority (QueryExtractor unquote_plain quote_plain DefaultRegistry))%Z /\
  payload_code order_example_struct
    = Some [SIfVal ("r.URL.Query().Get(" ++ q "q" ++ ")") (SAssignVal "Q") None;
            SIfVal ("r.PathValue(" ++ q "id" ++ ")") (SAssignVal "ID") None].
Proof. split; [cbn; lia | vm_compute; reflexivity]. Qed.

(* ------------------------------------------------------------------ *)
(** ** Defaults and conversion errors in the emitted code *)
(* ------------------------------------------------------------------ *)

Lemma fold_register_lookup (l : list Codec) (m : TypeRegistry) (t : string) (te : Codec) :
  fold_left (fun r e => registry_register e r) l m !! t = Some te ->
  m !! t = Some te \/ In te l.
Proof.
  revert m; induction l as [|e l IH]; simpl; intros m H; [now left|].
  apply IH in H as [H|H]; [|now right; right].
  unfold registry_register in H; apply lookup_insert_Some in H as [[_ <-]|[_ H]].
  - right; left; reflexivity.
  - left; exact H.
Qed.

(** Every codec of the default registry emits either opaque text or the
    time.Time parsing code. *)
Lemma DefaultRegistry_codecs (t : string) (te : Codec) :
  DefaultRegistry !! t = Some te ->
  forall v f p, match ParseFunc te v f p with SText _ | STime _ _ _ => True | _ => False end.
Proof.
  intros H v f p; apply fold_register_lookup in H as [H|H].
  - cbn in H; discriminate.
  - simpl in H; repeat (destruct H as [<-|H]); try contradiction; destruct p; exact I.
Qed.

Lemma DefaultRegistry_time : DefaultRegistry !! "time.Time" = Some timeCodec.
Proof. vm_compute; reflexivity. Qed.

Lemma GenerateDefaultValue_eq (quote : string -> string) (f d t : string) :
  GenerateDefaultValue quote f d t = SDefault f (if IsStringType t then quote d else d).
Proof.
  unfold GenerateDefaultValue, IsStringType.
  destruct (String.eqb t "string") eqn:E.
  - apply String.eqb_eq in E; subst; reflexivity.
  - destruct (has_prefix t "int" || has_prefix t "uint"), (has_prefix t "float"),
      (String.eqb t "bool"); reflexivity.
Qed.

Section DefaultSemantics.

Variable Float Time : Type.
Variable ParseInt ParseUint : string -> option Z.
Variable ParseFloat : string -> string -> option Float.
Variable ParseBool : string -> option bool.
Variable NewTimeFromString : string -> option Time.
Variable unquote : string -> option string.
Variable quote : string -> string.

Let run := exec ParseInt ParseUint ParseFloat ParseBool NewTimeFromString.

(** The if/else shell every GenerateCodeByType fragment has. *)
Lemma exec_ifval (env : string -> string) (src : string) (thn : stmt) (els : option stmt) :
  run env (SIfVal src thn els)
  = if String.eqb (env src) "" then
      match els with
      | Some e => run (fun x => if String.eqb x "val" then env src else env x) e
      | None => RNone
      end
    else run (fun x => if String.eqb x "val" then env src else env x) thn.
Proof. unfold run; simpl; destruct (String.eqb (env src) ""); reflexivity. Qed.

End DefaultSemantics.

(** C6 (part): with the default type registry, the fragment generated for
    a scalar field runs its conversion whenever the raw value is non-empty:
    the result is then never the default assignment, and it is the error
    return when the conversion parser fails on the raw value. When the raw
    value is absent or empty, the fragment assigns the declared default (a
    quoted literal for strings) or does nothing if there is none. *)
Theorem GenerateCodeByType_default_only_when_empty
    (Float Time : Type) (ParseInt ParseUint : string -> option Z)
    (ParseFloat : string -> string -> option Float) (ParseBool : string -> option bool)
    (NewTimeFromString : string -> option Time)
    (unquote : string -> option string) (quote : string -> string)
    (varName fieldName typeName : string) (field : Field) (env : string -> string)
    (c : stmt) (imports : list string) :
  GenerateCodeByType unquote quote DefaultRegistry varName fieldName typeName field
    = (Some c, imports) ->
  (env varName <> "" ->
     (forall lit, exec ParseInt ParseUint ParseFloat ParseBool NewTimeFromString env c
                  <> RAssign fieldName (VLit lit)) /\
     (conversion_fails ParseInt ParseUint ParseFloat ParseBool NewTimeFromString
        typeName (env varName) = true ->
      exec ParseInt ParseUint ParseFloat ParseBool NewTimeFromString env c = RErr fieldName)) /\
  (env varName = "" ->
     exec ParseInt ParseUint ParseFloat ParseBool NewTimeFromString env c
     = if String.eqb (GetDefaultTag unquote field) "" then RNone
       else RAssign fieldName
              (VLit (if IsStringType typeName then quote (GetDefaultTag unquote field)
                     else GetDefaultTag unquote field))).
Proof.
  set (d := GetDefaultTag unquote field).
  set (els := if negb (String.eqb d "")
              then Some (GenerateDefaultValue quote fieldName d typeName) else None).
  (* every fragment is  if val := varName; val != "" { thn } els  *)
  assert (Hshape : forall thn, exec ParseInt ParseUint ParseFloat ParseBool NewTimeFromString env
                      (SIfVal varName thn els)
                    = if String.eqb (env varName) "" then
                        match els with
                        | Some e => exec ParseInt ParseUint ParseFloat ParseBool NewTimeFromString
                                      (fun x => if String.eqb x "val" then env varName else env x) e
                        | None => RNone
                        end
                      else exec ParseInt ParseUint ParseFloat ParseBool NewTimeFromString
                             (fun x => if String.eqb x "val" then env varName else env x) thn)
    by (intros; apply exec_ifval).
  assert (Hels : env varName = "" -> forall thn,
             exec ParseInt ParseUint ParseFloat ParseBool NewTimeFromString env
               (SIfVal varName thn els)
             = if String.eqb d "" then RNone
               else RAssign fieldName (VLit (if IsStringType typeName then quote d else d))).
  { intros He thn; rewrite Hshape, He; simpl String.eqb at 1.
    unfold els; destruct (String.eqb d "") eqn:Ed; simpl; [reflexivity|].
    rewrite GenerateDefaultValue_eq; reflexivity. }
  assert (Hval : forall v, v <> "" -> String.eqb v "" = false)
    by (intros v Hv; apply String.eqb_neq; exact Hv).
  unfold GenerateCodeByType, GenerateExtractionCode; fold d; fold els.
  destruct (IsStringType typeName) eqn:Hs;
    [intros H; injection H as <- _; split; [intros Hne; rewrite Hshape, (Hval _ Hne); simpl|
                                            intros He; apply (Hels He)];
     split; [discriminate|unfold conversion_fails; rewrite Hs; discriminate]|].
  destruct (IsIntType typeName) eqn:Hi;
    [intros H; injection H as <- _; split; [intros Hne; rewrite Hshape, (Hval _ Hne); simpl|
                                            intros He; apply (Hels He)];
     unfold conversion_fails; rewrite Hs, Hi;
     destruct (ParseInt (env varName)); split; congruence|].
  destruct (IsUintType typeName) eqn:Hu;
    [intros H; injection H as <- _; split; [intros Hne; rewrite Hshape, (Hval _ Hne); simpl|
                                            intros He; apply (Hels He)];
     unfold conversion_fails; rewrite Hs, Hi, Hu;
     destruct (ParseUint (env varName)); split; congruence|].
  destruct (IsFloatType typeName) eqn:Hf;
    [intros H; injection H as <- _; split; [intros Hne; rewrite Hshape, (Hval _ Hne); simpl|
                                            intros He; apply (Hels He)];
     unfold conversion_fails; rewrite Hs, Hi, Hu, Hf;
     destruct (ParseFloat (env varName) (if String.eqb typeName "float32" then "32" else "64")); split; congruence|].
  destruct (IsBoolType typeName) eqn:Hb;
    [intros H; injection H as <- _; split; [intros Hne; rewrite Hshape, (Hval _ Hne); simpl|
                                            intros He; apply (Hels He)];
     unfold conversion_fails; rewrite Hs, Hi, Hu, Hf, Hb;
     destruct (ParseBool (env varName)); split; congruence|].
  destruct (DefaultRegistry !! typeName) as [te|] eqn:Hr.
  - intros H; injection H as <- _; split; [|intros He; apply (Hels He)].
    intros Hne; rewrite Hshape, (Hval _ Hne); simpl.
    unfold conversion_fails; rewrite Hs, Hi, Hu, Hf, Hb.
    destruct (String.eqb typeName "time.Time") eqn:Ht.
    + apply String.eqb_eq in Ht; subst typeName.
      rewrite DefaultRegistry_time in Hr; injection Hr as <-; simpl.
      destruct (NewTimeFromString (env varName)); split; congruence.
    + pose proof (DefaultRegistry_codecs _ _ Hr "val" fieldName (IsPointer field)) as Hc.
      destruct (ParseFunc te "val" fieldName (IsPointer field)); try contradiction;
        simpl; split; try congruence; intros lit Hx; repeat case_match; congruence.
  - destruct (IsEmbedded field); simpl; [discriminate|].
    intros H; injection H as <- _; split; [|intros He; apply (Hels He)].
    intros Hne; rewrite Hshape, (Hval _ Hne); simpl.
    unfold conversion_fails; rewrite Hs, Hi, Hu, Hf, Hb.
    destruct (String.eqb typeName "time.Time") eqn:Ht.
    + apply String.eqb_eq in Ht; subst typeName; rewrite DefaultRegistry_time in Hr; discriminate.
    + split; congruence.
Qed.

Lemma GenerateCodeByType_default_only_when_empty_witness :
  GenerateCodeByType unquote_plain quote_plain DefaultRegistry query_n "N" "int8"
    int8_default_field
  = (Some (SIfVal query_n (SParseInt "val" "N" "int8") (Some (SDefault "N" "1"))), ["strconv"]) /\
  exec (Float:=unit) (Time:=unit) parse_int_dec (fun _ => None) (fun _ _ => None)
    (fun _ => None) (fun _ => None) (query_env "abc")
    (SIfVal query_n (SParseInt "val" "N" "int8") (Some (SDefault "N" "1")))
  = RErr "N".
Proof.
  assert (H : GenerateCodeByType unquote_plain quote_plain DefaultRegistry query_n "N" "int8"
                int8_default_field
              = (Some (SIfVal query_n (SParseInt "val" "N" "int8") (Some (SDefault "N" "1"))),
                 ["strconv"])) by (vm_compute; reflexivity).
  split; [exact H|].
  apply (proj2 (proj1 (GenerateCodeByType_default_only_when_empty unit unit parse_int_dec
           (fun _ => None) (fun _ _ => None) (fun _ => None) (fun _ => None)
           unquote_plain quote_plain query_n "N" "int8" int8_default_field (query_env "abc")
           _ _ H) ltac:(vm_compute; discriminate))).
  vm_compute; reflexivity.
Defined.

(** C6: the payload  N int8 `query:"n" default:"1"`  requested with n=300.
    strconv.ParseInt(val, 10, 64) accepts 300, and the emitted conversion
    int8(i) stores 44 without an error, although 300 is not an int8. *)
Theorem GenerateCodeByType_int8_out_of_range :
  payload_code (mkStruct "Req" [int8_default_field] false)
    = Some [SIfVal query_n (SParseInt "val" "N" "int8") (Some (SDefault "N" "1"))] /\
  parse_int_dec "300" = Some 300%Z /\
  ~ (-128 <= 300 < 128)%Z /\
  exec (Float:=unit) (Time:=unit) parse_int_dec (fun _ => None) (fun _ _ => None)
    (fun _ => None) (fun _ => None) (query_env "300")
    (SIfVal query_n (SParseInt "val" "N" "int8") (Some (SDefault "N" "1")))
  = RAssign "N" (VInt "int8" 44).
Proof.
  split; [vm_compute; reflexivity|]; split; [vm_compute; reflexivity|].
  split; [lia | vm_compute; reflexivity].
Qed.

(* ------------------------------------------------------------------ *)
(** ** The fallback for unregistered named types *)
(* ------------------------------------------------------------------ *)

(** C8: for a named type that is not a built-in scalar and has no codec,
    the scalar path emits the bare cast payload.F = T(val) (and nothing for
    an embedded field), while the slice path emits payload.F = vals, the
    raw string slice without a cast. Neither validates the value. *)
Theorem GenerateCodeByType_unregistered_fallback
    (unquote : string -> option string) (quote : string -> string) (reg : TypeRegistry)
    (varName fieldName typeName : string) (field : Field) :
  IsStringType typeName = false -> IsIntType typeName = false ->
  IsUintType typeName = false -> IsFloatType typeName = false ->
  IsBoolType typeName = false -> reg !! typeName = None ->
  GenerateCodeByType unquote quote reg varName fieldName typeName field
    = (if IsEmbedded field then (None, [])
       else (Some (SIfVal varName (SCast fieldName typeName "val")
                    (if String.eqb (GetDefaultTag unquote field) "" then None
                     else Some (GenerateDefaultValue quote fieldName
                                  (GetDefaultTag unquote field) typeName))), [])) /\
  GenerateSliceCodeByType reg varName fieldName typeName field
    = (Some (SSliceVals varName fieldName), []).
Proof.
  intros Hs Hi Hu Hf Hb Hr; split.
  - unfold GenerateCodeByType, GenerateExtractionCode; rewrite Hs, Hi, Hu, Hf, Hb, Hr.
    destruct (IsEmbedded field), (String.eqb (GetDefaultTag unquote field) ""); reflexivity.
  - unfold GenerateSliceCodeByType; rewrite Hs, Hi, Hu, Hf, Hb, Hr; reflexivity.
Qed.

Lemma GenerateCodeByType_unregistered_fallback_witness :
  GenerateCodeByType unquote_plain quote_plain DefaultRegistry
    ("r.URL.Query().Get(" ++ q "s" ++ ")") "S" "model.Status" status_field
    = (Some (SIfVal ("r.URL.Query().Get(" ++ q "s" ++ ")") (SCast "S" "model.Status" "val") None),
       []) /\
  GenerateSliceCodeByType DefaultRegistry ("r.URL.Query()[" ++ q "s" ++ "]") "S" "model.Status"
    status_slice_field
    = (Some (SSliceVals ("r.URL.Query()[" ++ q "s" ++ "]") "S"), []).
Proof.
  destruct (GenerateCodeByType_unregistered_fallback unquote_plain quote_plain DefaultRegistry
              ("r.URL.Query().Get(" ++ q "s" ++ ")") "S" "model.Status" status_field)
    as [A _]; try (vm_compute; reflexivity).
  destruct (GenerateCodeByType_unregistered_fallback unquote_plain quote_plain DefaultRegistry
              ("r.URL.Query()[" ++ q "s" ++ "]") "S" "model.Status" status_slice_field)
    as [_ B]; try (vm_compute; reflexivity).
  split; [rewrite A; vm_compute; reflexivity | exact B].
Defined.

(** C8, counterexample: through the query extractor, a scalar field of the
    unregistered type model.Status gets the cast model.Status(val), while a
    []model.Status field gets payload.S = vals: its text holds no cast to
    the declared type. *)
Lemma GenerateCodeByType_unregistered_counterexample :
  payload_code (mkStruct "Req" [status_field] false)
    = Some [SIfVal ("r.URL.Query().Get(" ++ q "s" ++ ")") (SCast "S" "model.Status" "val") None] /\
  payload_code (mkStruct "Req" [status_slice_field] false)
    = Some [SSliceVals ("r.URL.Query()[" ++ q "s" ++ "]") "S"] /\
  contains (render (SSliceVals ("r.URL.Query()[" ++ q "s" ++ "]") "S")) "model.Status(" = false /\
  contains (render (SIfVal ("r.URL.Query().Get(" ++ q "s" ++ ")") (SCast "S" "model.Status" "val")
                      None)) "model.Status(" = true.
Proof. repeat split; vm_compute; reflexivity. Qed.

(* ------------------------------------------------------------------ *)
(** ** The checksum gate *)
(* ------------------------------------------------------------------ *)

Lemma take_hex_length (n : nat) (s h : string) :
  take_hex n s = Some h -> String.length h = n.
Proof.
  revert s h; induction n as [|n IH]; intros s h H; simpl in H.
  - injection H as <-; reflexivity.
  - destruct s as [|c r]; [discriminate|].
    destruct (is_lower_hex c); [|discriminate].
    destruct (take_hex n r) as [h'|] eqn:E; simpl in H; [|discriminate].
    injection H as <-; simpl; rewrite (IH _ _ E); reflexivity.
Qed.

Lemma find_checksum_nonempty (line h : string) : find_checksum line = Some h -> h <> "".
Proof.
  induction line as [|c r IH]; intros H; [discriminate|].
  cbn [find_checksum] in H.
  destruct (has_prefix (String c r) checksum_marker); [|exact (IH H)].
  destruct (take_hex 64 (trim_prefix (String c r) checksum_marker)) as [h'|] eqn:E;
    [injection H as <-|exact (IH H)].
  apply take_hex_length in E; intros ->; discriminate.
Qed.

Lemma artifact_checksum_nonempty (c h : string) : artifact_checksum c = Some h -> h <> "".
Proof.
  unfold artifact_checksum; generalize (firstn 10 (split_nl c)) as ls.
  induction ls as [|l ls IH]; simpl; [discriminate|].
  destruct (find_checksum l) eqn:E; [intros H; injection H as <-|exact IH].
  exact (find_checksum_nonempty _ _ E).
Qed.

(** C3: without --force, for a readable source file, the gate of
    generateWithParser goes on to parse when the artifact does not exist,
    and for a readable artifact it skips the file (returns before
    p.ParseFile) exactly when a checksum marker is found in the artifact's
    first ten lines and equals the source's SHA-256; with no marker there,
    or a different one, it goes on to parse. When the source file cannot
    be read (it is missing or unreadable), or the artifact exists but
    cannot be read, HasSourceChanged returns an error; the gate only logs
    it and goes on to parse, so generateWithParser runs as with --force.
    With --force the gate always goes on to parse. *)
Theorem generateWithParser_gate_decision (sha256hex : string -> string)
    (fs : string -> file_state) (outputFile src : string) :
  (forall sc, fs src = Present sc true ->
   (fs (output_path outputFile src) = Missing ->
      generateWithParser_gate sha256hex fs false outputFile src = ParseSource) /\
   (forall ac, fs (output_path outputFile src) = Present ac true ->
      generateWithParser_gate sha256hex fs false outputFile src
      = match artifact_checksum ac with
        | None => ParseSource
        | Some h => if String.eqb h (sha256hex sc) then SkipFile else ParseSource
        end)) /\
  ((forall sc, fs src <> Present sc true) \/
   (exists ac, fs (output_path outputFile src) = Present ac false) ->
     HasSourceChanged sha256hex fs src (output_path outputFile src) = None /\
     generateWithParser_gate sha256hex fs false outputFile src = ParseSource /\
     (forall (ParseResult : Type) (Handlers_of : ParseResult -> list Handler)
             (parse_source : string -> option ParseResult)
             (Generate : ParseResult -> option string) (dryRun : bool),
        generateWithParser sha256hex ParseResult Handlers_of parse_source Generate
          fs false dryRun outputFile src
        = generateWithParser sha256hex ParseResult Handlers_of parse_source Generate
            fs true dryRun outputFile src)) /\
  generateWithParser_gate sha256hex fs true outputFile src = ParseSource.
Proof.
  split; [|split; [|reflexivity]].
  - intros sc Hs; unfold generateWithParser_gate, HasSourceChanged, CalculateFileChecksum,
      ExtractChecksum; simpl negb; cbv zeta; rewrite Hs.
    split.
    + intros Ho; rewrite Ho; reflexivity.
    + intros ac Ho; rewrite Ho.
      destruct (artifact_checksum ac) as [h|] eqn:E; [|reflexivity].
      apply artifact_checksum_nonempty in E.
      apply String.eqb_neq in E; rewrite E.
      rewrite String.eqb_sym; destruct (String.eqb h (sha256hex sc)); reflexivity.
  - intros Herr.
    assert (Hn : HasSourceChanged sha256hex fs src (output_path outputFile src) = None).
    { unfold HasSourceChanged, CalculateFileChecksum, ExtractChecksum.
      destruct Herr as [Hs | [ac Ho]].
      - destruct (fs src) as [|c [|]]; [reflexivity| |reflexivity].
        exfalso; exact (Hs c eq_refl).
      - rewrite Ho; destruct (fs src) as [|c [|]]; reflexivity. }
    assert (Hg : generateWithParser_gate sha256hex fs false outputFile src = ParseSource)
      by (unfold generateWithParser_gate; cbv zeta; simpl negb; rewrite Hn; reflexivity).
    split; [exact Hn|split; [exact Hg|]].
    intros PR H ps G dryRun; unfold generateWithParser; rewrite Hg; reflexivity.
Qed.

Lemma generateWithParser_gate_decision_witness :
  generateWithParser_gate toy_sha256hex
    (gate_fs "package x"
       (Present (nl_join ["// Code generated by apikit. DO NOT EDIT.";
                          checksum_line (toy_sha256hex "package x"); "package x"]) true))
    false "" "handlers.go" = SkipFile /\
  generateWithParser_gate toy_sha256hex
    (gate_fs "package x"
       (Present (nl_join (repeat "" 10 ++ [checksum_line (toy_sha256hex "package x")])) true))
    false "" "handlers.go" = ParseSource /\
  HasSourceChanged toy_sha256hex
    (gate_fs "package x"
       (Present (nl_join ["// Code generated by apikit. DO NOT EDIT.";
                          checksum_line (toy_sha256hex "package x")]) false))
    "handlers.go" "handlers_apikit.go" = None.
Proof.
  split; [|split].
  - destruct (generateWithParser_gate_decision toy_sha256hex
      (gate_fs "package x"
         (Present (nl_join ["// Code generated by apikit. DO NOT EDIT.";
                            checksum_line (toy_sha256hex "package x"); "package x"]) true))
      "" "handlers.go") as [A _].
    destruct (A "package x" ltac:(vm_compute; reflexivity)) as [_ B].
    rewrite (B _ ltac:(vm_compute; reflexivity)); vm_compute; reflexivity.
  - destruct (generateWithParser_gate_decision toy_sha256hex
      (gate_fs "package x"
         (Present (nl_join (repeat "" 10 ++ [checksum_line (toy_sha256hex "package x")])) true))
      "" "handlers.go") as [A _].
    destruct (A "package x" ltac:(vm_compute; reflexivity)) as [_ B].
    rewrite (B _ ltac:(vm_compute; reflexivity)); vm_compute; reflexivity.
  - destruct (generateWithParser_gate_decision toy_sha256hex
      (gate_fs "package x"
         (Present (nl_join ["// Code generated by apikit. DO NOT EDIT.";
                            checksum_line (toy_sha256hex "package x")]) false))
      "" "handlers.go") as [_ [C _]].
    apply C; right; eexists; vm_compute; reflexivity.
Defined.

(** C3, counterexample: an artifact that exists and carries the source's
    checksum on its second line, but cannot be read, makes
    HasSourceChanged fail; the error is only logged and the file is parsed
    and regenerated. An unreadable source file goes the same way. *)
Lemma generateWithParser_gate_counterexample :
  artifact_checksum (nl_join ["// Code generated by apikit. DO NOT EDIT.";
                              checksum_line (toy_sha256hex "package x")])
    = Some (toy_sha256hex "package x") /\
  generateWithParser_gate toy_sha256hex
    (gate_fs "package x"
       (Present (nl_join ["// Code generated by apikit. DO NOT EDIT.";
                          checksum_line (toy_sha256hex "package x")]) false))
    false "" "handlers.go" = ParseSource /\
  generateWithParser_gate toy_sha256hex
    (fun p => if String.eqb p "handlers.go" then Present "package x" false
              else Present (nl_join ["// Code generated by apikit. DO NOT EDIT.";
                                     checksum_line (toy_sha256hex "package x")]) true)
    false "" "handlers.go" = ParseSource.
Proof. repeat split; vm_compute; reflexivity. Qed.

(* ------------------------------------------------------------------ *)
(** ** NewTimeFromString *)
(* ------------------------------------------------------------------ *)

Section TimeProofs.

Variable Time : Type.
Variable zeroTime : Time.
Variable time_Parse : string -> string -> option Time.

Lemma parse_loop_spec (formats : list string) (s : string) :
  (snd (parse_loop Time zeroTime time_Parse formats s) = None <->
     exists f, In f formats /\ time_Parse f s <> None) /\
  (snd (parse_loop Time zeroTime time_Parse formats s) <> None ->
     parse_loop Time zeroTime time_Parse formats s = (zeroTime, Some time_error_message)) /\
  (forall t, parse_loop Time zeroTime time_Parse formats s = (t, None) ->
     exists pre f post, formats = (pre ++ f :: post)%list /\
       Forall (fun g => time_Parse g s = None) pre /\ time_Parse f s = Some t).
Proof.
  induction formats as [|f rest [IH1 [IH2 IH3]]]; simpl.
  - split; [split; [discriminate|intros (f & [] & _)]|].
    split; [reflexivity|intros t H; discriminate].
  - destruct (time_Parse f s) as [t0|] eqn:E; simpl.
    + split; [split; [intros _; exists f; split; [left; reflexivity|congruence]|reflexivity]|].
      split; [intros H; contradiction H; reflexivity|].
      intros t H; injection H as <-; exists [], f, rest; split; [reflexivity|].
      split; [constructor|exact E].
    + split; [|split; [exact IH2|]].
      * rewrite IH1; split; intros (g & Hin & Hg); exists g; split; try assumption.
        -- right; exact Hin.
        -- destruct Hin as [<-|Hin]; [contradiction|exact Hin].
      * intros t H; destruct (IH3 t H) as (pre & g & post & -> & Hpre & Hg).
        exists (f :: pre), g, post; split; [reflexivity|split; [constructor; assumption|exact Hg]].
Qed.

End TimeProofs.

(** C7: NewTimeFromString tries the seven layouts of CommonTimeFormats in
    order, RFC3339 first and the bare date last. It returns a nil error iff
    some layout parses the input, and then the time of the first layout
    that parses it; otherwise it returns the zero time with the error
    "unable to parse time: ...". *)
Theorem NewTimeFromString_first_success (Time : Type) (zeroTime : Time)
    (time_Parse : string -> string -> option Time) (s : string) :
  CommonTimeFormats
    = [RFC3339; "2006-01-02T15:04:05"; "2006-01-02T15:04:05.999"; "2006-01-02T15:04:05.999Z";
       "2006-01-02T15:04:05.999-07:00"; "2006-01-02 15:04:05"; "2006-01-02"] /\
  (snd (NewTimeFromString Time zeroTime time_Parse s) = None <->
     exists f, In f CommonTimeFormats /\ time_Parse f s <> None) /\
  (snd (NewTimeFromString Time zeroTime time_Parse s) <> None ->
     NewTimeFromString Time zeroTime time_Parse s = (zeroTime, Some time_error_message)) /\
  (forall t, NewTimeFromString Time zeroTime time_Parse s = (t, None) ->
     exists pre f post, CommonTimeFormats = (pre ++ f :: post)%list /\
       Forall (fun g => time_Parse g s = None) pre /\ time_Parse f s = Some t).
Proof. split; [reflexivity|]; unfold NewTimeFromString; apply parse_loop_spec. Qed.

Lemma NewTimeFromString_first_success_witness :
  NewTimeFromString Z 0%Z toy_time_Parse "2024-01-02" = (19724%Z, None) /\
  NewTimeFromString Z 0%Z toy_time_Parse "yesterday" = (0%Z, Some time_error_message) /\
  exists pre f post, CommonTimeFormats = (pre ++ f :: post)%list /\
    Forall (fun g => toy_time_Parse g "2024-01-02" = None) pre /\
    toy_time_Parse f "2024-01-02" = Some 19724%Z.
Proof.
  destruct (NewTimeFromString_first_success Z 0%Z toy_time_Parse "2024-01-02")
    as [_ [_ [_ A]]].
  destruct (NewTimeFromString_first_success Z 0%Z toy_time_Parse "yesterday")
    as [_ [_ [B _]]].
  split; [vm_compute; reflexivity|].
  split; [apply B; vm_compute; discriminate|].
  apply A; vm_compute; reflexivity.
Defined.

(* ------------------------------------------------------------------ *)
(** ** Handler discovery *)
(* ------------------------------------------------------------------ *)

(** C9: the handler
      //apikit:handler
      func CreateUser(ctx context.Context, a, b Req) (Resp, error)
    declares three parameters, two of them payloads, which is none of the
    shapes isValidHandlerSignature documents. Its parameter list holds two
    field groups, so the check passes: the function becomes a handler with
    payload type Req and no warning is recorded. *)
Theorem isValidHandlerSignature_counts_groups :
  param_count (match FnParams two_payload_handler with Some ps => ps | None => [] end) = 3%nat /\
  isValidHandlerSignature two_payload_handler = true /\
  find_handlers [two_payload_handler] "main" ∅ [] []
    = ([mkHandler "CreateUser" "main" "" "Req" "Resp" None false false "handlers.go:12:1"], []).
Proof. repeat split; vm_compute; reflexivity. Qed.

(** C9 (part): a function with the handler marker whose signature fails
    isValidHandlerSignature is no handler, and one warning naming its
    position and name is appended; the scan goes on with the rest of the
    file. *)
Theorem parseHandler_invalid_signature (fn : FuncDecl) (pkgName : string)
    (structs : gmap string Struct) (warnings : list string) :
  hasApikitComment fn = true -> isValidHandlerSignature fn = false ->
  parseHandler fn pkgName structs warnings = (None, app warnings [invalid_signature_warning fn]) /\
  invalid_signature_warning fn
    = FnPos fn ++ ": function " ++ FnName fn ++ " has apikit:handler comment but invalid signature"
  /\ forall rest handlers,
       find_handlers (fn :: rest) pkgName structs handlers warnings
       = find_handlers rest pkgName structs handlers (app warnings [invalid_signature_warning fn]).
Proof.
  intros Hc Hv.
  assert (H : parseHandler fn pkgName structs warnings
              = (None, app warnings [invalid_signature_warning fn]))
    by (unfold parseHandler; rewrite Hc, Hv; reflexivity).
  split; [exact H|split; [reflexivity|]].
  intros rest handlers; simpl; rewrite H; reflexivity.
Qed.

Lemma parseHandler_invalid_signature_witness :
  find_handlers [one_result_handler; two_payload_handler] "main" ∅ [] []
  = ([mkHandler "CreateUser" "main" "" "Req" "Resp" None false false "handlers.go:12:1"],
     ["handlers.go:20:1: function GetUser has apikit:handler comment but invalid signature"]).
Proof.
  destruct (parseHandler_invalid_signature one_result_handler "main" ∅ []
              ltac:(vm_compute; reflexivity) ltac:(vm_compute; reflexivity)) as [_ [_ H]].
  rewrite H; vm_compute; reflexivity.
Defined.

(* ------------------------------------------------------------------ *)
(** ** Nested-struct resolution *)
(* ------------------------------------------------------------------ *)

Section ResolverProofs.

Variable loadExternalStruct : string -> string -> option (Struct * gmap string string).
(** Every struct name the resolution can meet. *)
Variable U : gset string.
Hypothesis loader_names : forall ip sn ext imps,
  loadExternalStruct ip sn = Some (ext, imps) -> SName ext ∈ U.

Definition cache_in (cache : gmap string Struct) : Prop :=
  forall k ns, cache !! k = Some ns -> SName ns ∈ U.

Definition resolves_within
    (recurse : Struct -> gset string -> gmap string string -> gmap string Struct -> option resolved)
    (bound : nat) : Prop :=
  forall s visited imports cache, SName s ∈ U -> cache_in cache -> (size (U ∖ visited) < bound)%nat ->
    exists s' visited' cache', recurse s visited imports cache = Some (s', visited', cache') /\
      visited ⊆ visited' /\ cache_in cache'.

Lemma size_diff_mono (V V' : gset string) : V ⊆ V' -> (size (U ∖ V') <= size (U ∖ V))%nat.
Proof. intros H; apply subseteq_size; set_solver. Qed.

Lemma size_diff_step (n : string) (V : gset string) :
  n ∈ U -> n ∉ V -> (size (U ∖ ({[n]} ∪ V)) < size (U ∖ V))%nat.
Proof.
  intros Hu Hv; apply subset_size; split; [set_solver|].
  intros H; assert (Hn : n ∈ U ∖ V) by set_solver; apply H in Hn; set_solver.
Qed.

Lemma cache_in_insert (cache : gmap string Struct) (k : string) (ns : Struct) :
  cache_in cache -> SName ns ∈ U -> cache_in (<[k := ns]> cache).
Proof.
  intros Hc Hn k' ns' H; apply lookup_insert_Some in H as [[_ <-]|[_ H]]; [exact Hn|].
  exact (Hc _ _ H).
Qed.

Lemma resolve_field_ok recurse bound imports field visited cache :
  resolves_within recurse bound -> cache_in cache -> (size (U ∖ visited) < bound)%nat ->
  exists field' visited' cache',
    resolve_field loadExternalStruct recurse imports field visited cache
      = Some (field', visited', cache') /\ visited ⊆ visited' /\ cache_in cache'.
Proof.
  intros Hrec Hc Hb; unfold resolve_field.
  destruct (IsRawBody field || IsResponseWriter field || IsRequest field);
    [eexists _, _, _; split; [reflexivity|split; [set_solver|exact Hc]]|].
  destruct (if contains (field_base_type field) "." then _ else _)
    as [[pkgAlias structName] field1].
  destruct (cache !! field_base_type field) as [ns|] eqn:Hl.
  - destruct (decide (field_base_type field ∈ visited));
      [eexists _, _, _; split; [reflexivity|split; [set_solver|exact Hc]]|].
    destruct (Hrec (struct_copy ns (SFields ns)) visited imports cache (Hc _ _ Hl) Hc Hb)
      as (s' & v' & c' & -> & Hv & Hc').
    eexists _, _, _; split; [reflexivity|split; assumption].
  - destruct (String.eqb pkgAlias "");
      [eexists _, _, _; split; [reflexivity|split; [set_solver|exact Hc]]|].
    destruct (imports !! pkgAlias) as [ip|];
      [|eexists _, _, _; split; [reflexivity|split; [set_solver|exact Hc]]].
    destruct (loadExternalStruct ip structName) as [[ext extImports]|] eqn:Hx;
      [|eexists _, _, _; split; [reflexivity|split; [set_solver|exact Hc]]].
    pose proof (cache_in_insert cache (field_base_type field) ext Hc (loader_names _ _ _ _ Hx))
      as Hc1.
    destruct (decide (field_base_type field ∈ visited));
      [eexists _, _, _; split; [reflexivity|split; [set_solver|exact Hc1]]|].
    destruct (Hrec (struct_copy ext (SFields ext)) visited extImports _
                (loader_names _ _ _ _ Hx) Hc1 Hb) as (s' & v' & c' & -> & Hv & Hc').
    eexists _, _, _; split; [reflexivity|split; assumption].
Qed.

Lemma resolve_fields_ok recurse bound imports fs visited cache :
  resolves_within recurse bound -> cache_in cache -> (size (U ∖ visited) < bound)%nat ->
  exists fs' visited' cache',
    resolve_fields loadExternalStruct recurse imports fs visited cache
      = Some (fs', visited', cache') /\ visited ⊆ visited' /\ cache_in cache'.
Proof.
  intros Hrec; revert visited cache; induction fs as [|field rest IH]; intros visited cache Hc Hb.
  - eexists _, _, _; split; [reflexivity|split; [set_solver|exact Hc]].
  - simpl.
    destruct (resolve_field_ok recurse bound imports field visited cache Hrec Hc Hb)
      as (f' & v1 & c1 & -> & Hv1 & Hc1).
    pose proof (size_diff_mono _ _ Hv1) as Hs.
    destruct (IH v1 c1 Hc1 ltac:(lia)) as (fs' & v2 & c2 & -> & Hv2 & Hc2).
    eexists _, _, _; split; [reflexivity|split; [set_solver|exact Hc2]].
Qed.

Lemma resolve_within_fuel (fuel : nat) :
  resolves_within (resolveNestedStructsRecursive loadExternalStruct fuel) fuel.
Proof.
  induction fuel as [|fuel IH]; intros s visited imports cache Hs Hc Hb; [lia|].
  simpl; destruct (decide (SName s ∈ visited)) as [Hin|Hnin];
    [eexists _, _, _; split; [reflexivity|split; [set_solver|exact Hc]]|].
  pose proof (size_diff_step _ _ Hs Hnin) as Hstep.
  destruct (resolve_fields_ok (resolveNestedStructsRecursive loadExternalStruct fuel) fuel imports
              (SFields s) ({[SName s]} ∪ visited) cache IH Hc ltac:(lia))
    as (fs' & v' & c' & -> & Hv & Hc').
  eexists _, _, _; split; [reflexivity|split; [set_solver|exact Hc']].
Qed.

End ResolverProofs.

(** C5 (part): the resolver terminates. When every struct of the cache
    and every struct the loader can return is named in a finite set U,
    and the resolved struct is too, a recursion depth of one more than
    the number of names of U not yet visited suffices: the resolver never
    runs out, returns a result (no error exists), and only adds names to
    the visited set. *)
Theorem resolveNestedStructsRecursive_terminates
    (loadExternalStruct : string -> string -> option (Struct * gmap string string))
    (U : gset string) (s : Struct) (visited : gset string) (imports : gmap string string)
    (cache : gmap string Struct) :
  (forall ip sn ext imps, loadExternalStruct ip sn = Some (ext, imps) -> SName ext ∈ U) ->
  (forall k ns, cache !! k = Some ns -> SName ns ∈ U) ->
  SName s ∈ U ->
  exists s' visited' cache',
    resolveNestedStructsRecursive loadExternalStruct (S (size (U ∖ visited))) s visited imports
      cache = Some (s', visited', cache') /\ visited ⊆ visited'.
Proof.
  intros Hl Hc Hs.
  destruct (resolve_within_fuel loadExternalStruct U Hl (S (size (U ∖ visited))) s visited
              imports cache Hs Hc ltac:(lia)) as (s' & v' & c' & H & Hv & _).
  exists s', v', c'; split; assumption.
Qed.

Lemma resolveNestedStructsRecursive_terminates_witness :
  exists s' visited' cache',
    resolveNestedStructsRecursive no_external 2 self_ref_A ∅ ∅ {[ "A" := self_ref_A ]}
      = Some (s', visited', cache') /\ (∅ : gset string) ⊆ visited'.
Proof.
  replace 2%nat with (S (size ({[ "A" ]} ∖ (∅ : gset string)))) by (vm_compute; reflexivity).
  apply (resolveNestedStructsRecursive_terminates no_external {[ "A" ]} self_ref_A ∅ ∅
           {[ "A" := self_ref_A ]}).
  - intros ip sn ext imps H; discriminate H.
  - intros k ns H; apply lookup_singleton_Some in H as [_ <-]; simpl; set_solver.
  - simpl; set_solver.
Defined.

(** C5 (part): the cycle rule. For a field that is not RawBody, a response
    writer or a request, whose base type name is already visited and
    resolves through the struct cache (or, when it is package-qualified,
    through the loader), the field gets a NestedStruct with the name and
    IsDTO flag of that struct and no fields; the visited set is unchanged
    and no recursion happens. *)
Theorem resolve_field_cycle_rule
    (loadExternalStruct : string -> string -> option (Struct * gmap string string))
    (recurse : Struct -> gset string -> gmap string string -> gmap string Struct -> option resolved)
    (imports : gmap string string) (field : Field) (visited : gset string)
    (cache : gmap string Struct) :
  (IsRawBody field || IsResponseWriter field || IsRequest field) = false ->
  field_base_type field ∈ visited ->
  (forall ns, cache !! field_base_type field = Some ns ->
     exists field', resolve_field loadExternalStruct recurse imports field visited cache
                    = Some (field', visited, cache) /\
                    NestedStruct field' = Some (mkStruct (SName ns) [] (IsDTO ns)) /\
                    Name field' = Name field) /\
  (cache !! field_base_type field = None ->
   forall pkgAlias structName importPath ext extImports,
     split_on 46 (field_base_type field) = [pkgAlias; structName] ->
     pkgAlias <> "" ->
     imports !! pkgAlias = Some importPath ->
     loadExternalStruct importPath structName = Some (ext, extImports) ->
     exists field', resolve_field loadExternalStruct recurse imports field visited cache
                    = Some (field', visited, <[field_base_type field := ext]> cache) /\
                    NestedStruct field' = Some (mkStruct (SName ext) [] (IsDTO ext)) /\
                    Name field' = Name field).
Proof.
  intros Hsp Hv; unfold resolve_field; rewrite Hsp.
  assert (Hname : forall f a, Name (set_PackagePath f a) = Name f)
    by (intros [] a; reflexivity).
  assert (Hnest : forall f a, Name (set_NestedStruct f a) = Name f /\ NestedStruct (set_NestedStruct f a) = a)
    by (intros [] a; split; reflexivity).
  split.
  - intros ns Hl.
    destruct (if contains (field_base_type field) "." then _ else _)
      as [[pkgAlias structName] field1] eqn:Ef.
    rewrite Hl; destruct (decide (field_base_type field ∈ visited)); [|contradiction].
    eexists; split; [reflexivity|].
    destruct (Hnest field1 (Some (struct_copy ns []))) as [-> ->]; split; [reflexivity|].
    destruct (contains (field_base_type field) "."); [|injection Ef as _ _ <-; reflexivity].
    destruct (split_on 46 (field_base_type field)) as [|a [|b [|]]];
      injection Ef as _ _ <-; try reflexivity; apply Hname.
  - intros Hl pkgAlias structName importPath ext extImports Hsplit Hne Hi Hx.
    assert (Hdot : contains (field_base_type field) "." = true).
    { destruct (contains (field_base_type field) ".") eqn:E; [reflexivity|].
      exfalso; revert Hsplit E; generalize (field_base_type field) as t.
      (* a string without '.' splits into itself alone *)
      assert (Hnodot : forall t cur, contains t "." = false ->
                 split_on_aux 46 t cur = [str_of_list (rev cur ++ list_of_str t)%list]).
      { induction t as [|c t IHt]; intros cur Hc; simpl.
        - rewrite app_nil_r; reflexivity.
        - simpl in Hc; apply orb_false_iff in Hc as [Hc1 Hc2].
          destruct (byte_of c =? 46)%nat eqn:Eb.
          + exfalso; revert Eb Hc1.
            destruct c as [[] [] [] [] [] [] [] []]; vm_compute; try congruence;
              destruct t; vm_compute; congruence.
          + rewrite (IHt (c :: cur) Hc2); simpl; rewrite <- app_assoc; reflexivity. }
      intros t Hsplit E; unfold split_on in Hsplit; rewrite (Hnodot t [] E) in Hsplit.
      discriminate. }
    rewrite Hdot, Hsplit, Hl.
    apply String.eqb_neq in Hne; rewrite Hne, Hi, Hx.
    destruct (decide (field_base_type field ∈ visited)); [|contradiction].
    eexists; split; [reflexivity|].
    destruct (Hnest (set_PackagePath field pkgAlias) (Some (struct_copy ext []))) as [-> ->].
    split; [reflexivity|apply Hname].
Qed.

Lemma resolve_field_cycle_rule_witness :
  exists field',
    resolve_field no_external (fun _ _ _ _ => None) ∅
      (mkField "Next" "*A" "" "" "" true false "" false false false false false false None "")
      {[ "A" ]} {[ "A" := self_ref_A ]}
    = Some (field', {[ "A" ]}, {[ "A" := self_ref_A ]}) /\
    NestedStruct field' = Some (mkStruct "A" [] false).
Proof.
  destruct (resolve_field_cycle_rule no_external (fun _ _ _ _ => None) ∅
              (mkField "Next" "*A" "" "" "" true false "" false false false false false false
                 None "")
              {[ "A" ]} {[ "A" := self_ref_A ]} eq_refl ltac:(vm_compute; set_solver))
    as [A _].
  destruct (A self_ref_A ltac:(vm_compute; reflexivity)) as (f' & H & Hn & _).
  exists f'; split; [exact H|rewrite Hn; reflexivity].
Defined.

(** C5: type A struct { Next *A } resolves, and the nested copy of A under
    Next has no fields. *)
Lemma resolve_self_reference :
  resolveNestedStructsRecursive no_external 2 self_ref_A ∅ ∅ {[ "A" := self_ref_A ]}
  = Some (mkStruct "A"
            [mkField "Next" "*A" "" "" "" true false "" false false false false false false
               (Some (mkStruct "A" [] false)) ""] false,
          {[ "A" ]}, {[ "A" := self_ref_A ]}).
Proof. vm_compute; reflexivity. Qed.

(** C5: type Req struct { N ext.Node }, where package ext declares
    type Node struct { Next *Node }. Resolution marks "Node" as visited,
    yet the field Next of the nested Node gets no NestedStruct at all:
    the self-reference "Node" is looked up in the current file's struct
    cache, not in package ext. *)
Theorem resolve_external_self_reference :
  exists visited cache,
    resolveNestedStructsRecursive ext_loader 3 req_ext ∅ ext_imports {[ "Req" := req_ext ]}
    = Some (mkStruct "Req"
              [mkField "N" "ext.Node" "" "" "" false false "" false false false false false false
                 (Some ext_Node) "ext"] false, visited, cache) /\
    "Node" ∈ visited /\
    NestedStruct (mkField "Next" "*Node" "" "" "" true false "" false false false false false
                    false None "") = None /\
    SFields ext_Node
    = [mkField "Next" "*Node" "" "" "" true false "" false false false false false false None ""].
Proof.
  eexists _, _; split; [vm_compute; reflexivity|].
  split; [vm_compute; set_solver|split; reflexivity].
Qed.

(* ------------------------------------------------------------------ *)
(** * Properties of the code beyond the claims *)
(* ------------------------------------------------------------------ *)

Lemma string_append_cons (c : ascii) (s t : string) : String c s ++ t = String c (s ++ t).
Proof. reflexivity. Qed.

Lemma string_append_nil_l (t : string) : "" ++ t = t.
Proof. reflexivity. Qed.

Lemma string_append_nil_r (s : string) : s ++ "" = s.
Proof.
  induction s as [|c s IH]; [reflexivity|rewrite string_append_cons, IH; reflexivity].
Qed.

Lemma string_append_assoc (s t u : string) : s ++ (t ++ u) = (s ++ t) ++ u.
Proof.
  induction s as [|c s IH]; [reflexivity|rewrite !string_append_cons, IH; reflexivity].
Qed.

Lemma list_of_str_of_list (l : list ascii) : list_of_str (str_of_list l) = l.
Proof. induction l; simpl; congruence. Qed.

Lemma str_of_list_app (l1 l2 : list ascii) :
  str_of_list (l1 ++ l2)%list = str_of_list l1 ++ str_of_list l2.
Proof. induction l1 as [|a l1 IH]; [reflexivity|cbn; rewrite IH, string_append_cons; reflexivity]. Qed.

Lemma byte_of_nl : byte_of (ascii_of_nat 10) = 10%nat.
Proof. reflexivity. Qed.

Lemma split_on_aux_nonempty (sep : nat) (s : string) (cur : list ascii) :
  split_on_aux sep s cur <> [].
Proof.
  revert cur; induction s as [|c r IH]; intros cur; simpl; [discriminate|].
  destruct (byte_of c =? sep)%nat; [discriminate|apply IH].
Qed.

Lemma split_nl_app (s t : string) (cur : list ascii) :
  has_byte 10 s = false ->
  split_on_aux 10 (s ++ String (ascii_of_nat 10) t) cur
  = str_of_list (rev cur ++ list_of_str s)%list :: split_on_aux 10 t [].
Proof.
  revert cur; induction s as [|c r IH]; intros cur H; simpl.
  - rewrite app_nil_r; reflexivity.
  - simpl in H; apply orb_false_iff in H as [Hc Hr].
    rewrite Hc, (IH (c :: cur) Hr); simpl; rewrite <- app_assoc; reflexivity.
Qed.

Lemma split_nl_last (s : string) (cur : list ascii) :
  has_byte 10 s = false -> split_on_aux 10 s cur = [str_of_list (rev cur ++ list_of_str s)%list].
Proof.
  revert cur; induction s as [|c r IH]; intros cur H; simpl.
  - rewrite app_nil_r; reflexivity.
  - simpl in H; apply orb_false_iff in H as [Hc Hr].
    rewrite Hc, (IH (c :: cur) Hr); simpl; rewrite <- app_assoc; reflexivity.
Qed.

Lemma split_nl_nl_join (ls : list string) :
  ls <> [] -> Forall (fun l => has_byte 10 l = false) ls -> split_nl (nl_join ls) = ls.
Proof.
  induction ls as [|x [|y r] IH]; intros Hne Hf; [congruence| |].
  - inversion Hf; subst; unfold split_nl, split_on, nl_join; simpl.
    rewrite split_nl_last by assumption; simpl; rewrite str_of_list_of_str; reflexivity.
  - inversion Hf; subst.
    unfold split_nl, split_on, nl_join in *.
    assert (Ec : String.concat nl (x :: y :: r)
                 = x ++ String (ascii_of_nat 10) (String.concat nl (y :: r))) by reflexivity.
    rewrite Ec, split_nl_app by assumption; simpl; rewrite str_of_list_of_str.
    f_equal; apply IH; [discriminate|assumption].
Qed.

Lemma has_byte_str_of_list (n : nat) (l : list ascii) :
  has_byte n (str_of_list l) = existsb (fun c => (byte_of c =? n)%nat) l.
Proof. induction l; simpl; congruence. Qed.

Lemma split_nl_no_nl (s : string) (cur : list ascii) :
  Forall (fun c => (byte_of c =? 10)%nat = false) cur ->
  Forall (fun l => has_byte 10 l = false) (split_on_aux 10 s cur).
Proof.
  revert cur; induction s as [|c r IH]; intros cur Hc; simpl.
  - constructor; [|constructor].
    rewrite has_byte_str_of_list; apply not_true_iff_false; intros Hx.
    apply existsb_exists in Hx as (d & Hd & Hd').
    apply in_rev in Hd; rewrite List.Forall_forall in Hc; rewrite (Hc d Hd) in Hd'; discriminate.
  - destruct (byte_of c =? 10)%nat eqn:E.
    + constructor; [|apply IH; constructor].
      rewrite has_byte_str_of_list; apply not_true_iff_false; intros Hx.
      apply existsb_exists in Hx as (d & Hd & Hd').
      apply in_rev in Hd; rewrite List.Forall_forall in Hc; rewrite (Hc d Hd) in Hd'; discriminate.
    + apply IH; constructor; assumption.
Qed.

Lemma concat_nl_cons2 (a b : string) (r : list string) :
  String.concat nl (a :: b :: r) = a ++ nl ++ String.concat nl (b :: r).
Proof. reflexivity. Qed.

Lemma concat_split_aux (s : string) (cur : list ascii) :
  String.concat nl (split_on_aux 10 s cur) = str_of_list (rev cur) ++ s.
Proof.
  revert cur; induction s as [|c r IH]; intros cur; simpl.
  - rewrite string_append_nil_r; reflexivity.
  - destruct (byte_of c =? 10)%nat eqn:E.
    + pose proof (split_on_aux_nonempty 10 r []) as Hne.
      destruct (split_on_aux 10 r []) as [|y ys] eqn:Es; [congruence|].
      rewrite concat_nl_cons2, <- Es, IH.
      apply Nat.eqb_eq in E.
      assert (c = ascii_of_nat 10) as -> by (rewrite <- E; unfold byte_of; symmetry; apply ascii_nat_embedding).
      reflexivity.
    + rewrite IH; simpl; rewrite str_of_list_app, <- string_append_assoc; reflexivity.
Qed.

Lemma has_byte_app (n : nat) (s t : string) : has_byte n (s ++ t) = has_byte n s || has_byte n t.
Proof.
  induction s as [|c s IH]; [reflexivity|].
  rewrite string_append_cons; cbn [has_byte]; rewrite IH, orb_assoc; reflexivity.
Qed.

Lemma string_length_app (s t : string) : String.length (s ++ t) = (String.length s + String.length t)%nat.
Proof. induction s as [|c s IH]; [reflexivity|rewrite string_append_cons; cbn; rewrite IH; reflexivity]. Qed.

Lemma substring_all (s : string) : substring 0 (String.length s) s = s.
Proof. induction s as [|c s IH]; [reflexivity|cbn; rewrite IH; reflexivity]. Qed.

Lemma has_prefix_app (p s : string) : has_prefix (p ++ s) p = true.
Proof.
  induction p as [|c p IH]; [destruct s; reflexivity|].
  rewrite string_append_cons; cbn; rewrite Ascii.eqb_refl, IH; reflexivity.
Qed.

Lemma trim_prefix_app (p s : string) : trim_prefix (p ++ s) p = s.
Proof.
  unfold trim_prefix; rewrite has_prefix_app, string_length_app.
  replace (String.length p + String.length s - String.length p)%nat with (String.length s) by lia.
  induction p as [|c p IH]; [apply substring_all|].
  rewrite string_append_cons; exact IH.
Qed.

Lemma take_hex_all (h : string) :
  forallb is_lower_hex (list_of_str h) = true -> take_hex (String.length h) h = Some h.
Proof.
  induction h as [|c h IH]; intros H; [reflexivity|].
  cbn in H; apply andb_true_iff in H as [Hc Hh].
  cbn; rewrite Hc, (IH Hh); reflexivity.
Qed.

Lemma is_checksum_no_nl (h : string) : is_checksum h = true -> has_byte 10 h = false.
Proof.
  unfold is_checksum; intros H; apply andb_true_iff in H as [_ H].
  induction h as [|c h IH]; [reflexivity|].
  cbn in H |- *; apply andb_true_iff in H as [Hc Hh]; rewrite (IH Hh), orb_false_r.
  unfold is_lower_hex, in_range in Hc.
  apply Nat.eqb_neq; intros E; rewrite E in Hc; discriminate.
Qed.

Lemma find_checksum_line (h : string) :
  is_checksum h = true -> find_checksum (checksum_line h) = Some h.
Proof.
  intros H; unfold checksum_line.
  destruct (checksum_marker ++ h) as [|c r] eqn:E; [discriminate|].
  cbn [find_checksum]; rewrite <- E, has_prefix_app, trim_prefix_app.
  unfold is_checksum in H; apply andb_true_iff in H as [Hl Hh].
  apply Nat.eqb_eq in Hl; rewrite <- Hl, take_hex_all by exact Hh; reflexivity.
Qed.

Lemma first_checksum_app (a b : list string) :
  first_checksum (a ++ b)%list
  = match first_checksum a with Some h => Some h | None => first_checksum b end.
Proof.
  induction a as [|l a IH]; [reflexivity|].
  cbn; destruct (find_checksum l); [reflexivity|exact IH].
Qed.

Lemma find_do_not_edit_none (lines : list string) :
  find_do_not_edit lines = None <-> Forall (fun l => contains l "DO NOT EDIT" = false) lines.
Proof.
  induction lines as [|l r IH]; cbn; [split; [constructor|reflexivity]|].
  destruct (contains l "DO NOT EDIT") eqn:E.
  - split; [discriminate|intros Hf; inversion Hf; congruence].
  - destruct (find_do_not_edit r); cbn.
    + split; [discriminate|intros Hf; inversion Hf; subst; apply IH in H2; discriminate].
    + split; [intros _; constructor; [exact E|apply IH; reflexivity]|reflexivity].
Qed.

Lemma find_do_not_edit_some (lines : list string) (i : nat) :
  find_do_not_edit lines = Some i ->
  exists l, nth_error lines i = Some l /\ contains l "DO NOT EDIT" = true /\
            Forall (fun l => contains l "DO NOT EDIT" = false) (firstn i lines).
Proof.
  revert i; induction lines as [|l r IH]; intros i H; cbn in H; [discriminate|].
  destruct (contains l "DO NOT EDIT") eqn:E.
  - injection H as <-; exists l; split; [reflexivity|split; [exact E|constructor]].
  - destruct (find_do_not_edit r) as [j|] eqn:Ej; cbn in H; [|discriminate].
    injection H as <-; destruct (IH j eq_refl) as (l' & H1 & H2 & H3).
    exists l'; split; [exact H1|split; [exact H2|cbn; constructor; assumption]].
Qed.

Lemma checksum_slot_le (content : string) :
  (checksum_slot content <= length (split_nl content))%nat.
Proof.
  unfold checksum_slot; destruct (find_do_not_edit (split_nl content)) as [i|] eqn:E; [|lia].
  destruct (find_do_not_edit_some _ _ E) as (l & Hl & _).
  apply nth_error_Some; congruence.
Qed.

Lemma AddChecksumToGenerated_lines (content h : string) :
  has_byte 10 h = false ->
  split_nl (AddChecksumToGenerated content h)
  = (firstn (checksum_slot content) (split_nl content)
     ++ checksum_line h :: skipn (checksum_slot content) (split_nl content))%list.
Proof.
  intros Hh.
  assert (Hx : has_byte 10 (checksum_line h) = false)
    by (unfold checksum_line; rewrite has_byte_app, Hh; reflexivity).
  unfold AddChecksumToGenerated, checksum_slot.
  destruct (find_do_not_edit (split_nl content)) as [i|] eqn:E.
  - apply split_nl_nl_join; [destruct (firstn _ _); discriminate|].
    pose proof (split_nl_no_nl content [] ltac:(constructor)) as Hl.
    apply Forall_app; split; [apply Forall_take; exact Hl|].
    constructor; [exact Hx|apply Forall_drop; exact Hl].
  - cbn [firstn skipn app].
    assert (Ec : (checksum_marker ++ h) ++ nl ++ content
                 = checksum_line h ++ String (ascii_of_nat 10) content) by reflexivity.
    unfold split_nl, split_on; rewrite Ec, split_nl_app by exact Hx; cbn.
    rewrite str_of_list_of_str; reflexivity.
Qed.

(** AddChecksumToGenerated adds exactly one line: the checksum comment,
    right after the first line containing "DO NOT EDIT", or first when no
    line does; every line of the content is kept, in order. *)
Theorem AddChecksumToGenerated_inserts_line (content h : string) :
  has_byte 10 h = false ->
  nl_join (split_nl content) = content /\
  split_nl (AddChecksumToGenerated content h)
  = (firstn (checksum_slot content) (split_nl content)
     ++ checksum_line h :: skipn (checksum_slot content) (split_nl content))%list /\
  ((checksum_slot content = 0%nat /\
    Forall (fun l => contains l "DO NOT EDIT" = false) (split_nl content)) \/
   (exists i l, checksum_slot content = S i /\ nth_error (split_nl content) i = Some l /\
      contains l "DO NOT EDIT" = true /\
      Forall (fun l => contains l "DO NOT EDIT" = false) (firstn i (split_nl content)))).
Proof.
  intros Hh; split; [unfold nl_join, split_nl, split_on; apply concat_split_aux|].
  split; [apply AddChecksumToGenerated_lines, Hh|].
  unfold checksum_slot; destruct (find_do_not_edit (split_nl content)) as [i|] eqn:E.
  - right; destruct (find_do_not_edit_some _ _ E) as (l & H1 & H2 & H3).
    exists i, l; auto.
  - left; split; [reflexivity|apply find_do_not_edit_none, E].
Qed.

Lemma AddChecksumToGenerated_inserts_line_witness :
  has_byte 10 (toy_sha256hex "package x") = false /\
  split_nl (AddChecksumToGenerated (nl_join ["// Code generated by apikit. DO NOT EDIT."; "package x"])
              (toy_sha256hex "package x"))
  = ["// Code generated by apikit. DO NOT EDIT."; checksum_line (toy_sha256hex "package x");
     "package x"].
Proof.
  split; [vm_compute; reflexivity|].
  destruct (AddChecksumToGenerated_inserts_line
              (nl_join ["// Code generated by apikit. DO NOT EDIT."; "package x"])
              (toy_sha256hex "package x") ltac:(vm_compute; reflexivity)) as [_ [H _]].
  rewrite H; vm_compute; reflexivity.
Defined.

Lemma AddChecksumToGenerated_roundtrip_aux (content h : string) :
  is_checksum h = true -> (checksum_slot content < 10)%nat ->
  first_checksum (firstn (checksum_slot content) (split_nl content)) = None ->
  artifact_checksum (AddChecksumToGenerated content h) = Some h.
Proof.
  intros Hh Hk Hn; unfold artifact_checksum.
  rewrite (AddChecksumToGenerated_lines _ _ (is_checksum_no_nl _ Hh)).
  pose proof (checksum_slot_le content) as Hle.
  set (k := checksum_slot content) in *; set (L := split_nl content) in *.
  assert (HA : length (firstn k L) = k) by (apply firstn_length_le; exact Hle).
  assert (HF : firstn 10 (firstn k L) = firstn k L) by (apply firstn_all2; lia).
  rewrite firstn_app, HA, HF.
  destruct (10 - k)%nat as [|m] eqn:Em; [lia|].
  cbn [firstn]; rewrite first_checksum_app, Hn; cbn [first_checksum].
  rewrite find_checksum_line by exact Hh; reflexivity.
Qed.

(** Round trip of the checksum comment: ExtractChecksum reads back the
    digest AddChecksumToGenerated stamped, when it lands within the first
    ten lines and no earlier line already carries a checksum comment. *)
Theorem AddChecksumToGenerated_roundtrip (content h : string) :
  is_checksum h = true -> (checksum_slot content < 10)%nat ->
  first_checksum (firstn (checksum_slot content) (split_nl content)) = None ->
  artifact_checksum (AddChecksumToGenerated content h) = Some h.
Proof.
  intros Hh Hk Hn; exact (AddChecksumToGenerated_roundtrip_aux content h Hh Hk Hn).
Qed.

Lemma AddChecksumToGenerated_roundtrip_witness :
  artifact_checksum
    (AddChecksumToGenerated (nl_join ["// Code generated by apikit. DO NOT EDIT."; "package x"])
       (toy_sha256hex "package x"))
  = Some (toy_sha256hex "package x").
Proof.
  apply AddChecksumToGenerated_roundtrip;
    [vm_compute; reflexivity|apply Nat.ltb_lt; vm_compute; reflexivity|vm_compute; reflexivity].
Defined.

(** A second run of generateWithParser without --force, after a run
    wrote its output, skips the unchanged source: the first run wrote to
    output_path, and the stamped checksum is read back there. *)
Theorem generateWithParser_rerun_skips (sha256hex : string -> string) (ParseResult : Type)
    (Handlers_of : ParseResult -> list Handler) (parse_source : string -> option ParseResult)
    (Generate : ParseResult -> option string) (fs : string -> file_state)
    (force dryRun dryRun' : bool) (outputFile src output code : string) :
  (forall c, is_checksum (sha256hex c) = true) ->
  (forall r c, Generate r = Some c ->
     (checksum_slot c < 10)%nat /\ first_checksum (firstn (checksum_slot c) (split_nl c)) = None) ->
  output_path outputFile src <> src ->
  generateWithParser sha256hex ParseResult Handlers_of parse_source Generate fs force dryRun
    outputFile src = GenWrite output code ->
  output = output_path outputFile src /\
  generateWithParser sha256hex ParseResult Handlers_of parse_source Generate
    (write_file fs output code) false dryRun' outputFile src = GenSkipped.
Proof.
  intros Hsha Hgen Hne H.
  unfold generateWithParser in H; cbv zeta in H.
  destruct (generateWithParser_gate sha256hex fs force outputFile src); [discriminate|].
  unfold ParseFile in H; destruct (fs src) as [|sc [|]] eqn:Fs; try discriminate.
  destruct (parse_source sc) as [r|]; [|discriminate].
  destruct (length (Handlers_of r) =? 0)%nat; [discriminate|].
  destruct (Generate r) as [c|] eqn:Gc; [|discriminate].
  unfold CalculateFileChecksum in H; rewrite Fs in H.
  destruct dryRun; [discriminate|]; injection H as <- <-.
  split; [reflexivity|].
  destruct (Hgen r c Gc) as [Hk Hn].
  assert (Hrt := AddChecksumToGenerated_roundtrip_aux c (sha256hex sc) (Hsha sc) Hk Hn).
  assert (Hnz : String.eqb (sha256hex sc) "" = false).
  { apply String.eqb_neq; intros E; pose proof (Hsha sc) as Hc; rewrite E in Hc; discriminate. }
  unfold generateWithParser, generateWithParser_gate, HasSourceChanged, CalculateFileChecksum,
    ExtractChecksum, write_file; cbv zeta; simpl negb.
  rewrite (proj2 (String.eqb_neq _ _) (not_eq_sym Hne)), String.eqb_refl, Fs, Hrt, Hnz,
    String.eqb_refl.
  reflexivity.
Qed.

Lemma string_length_str_of_list (l : list ascii) : String.length (str_of_list l) = length l.
Proof. induction l; cbn; congruence. Qed.

Lemma toy_sha256hex_is_checksum (c : string) : is_checksum (toy_sha256hex c) = true.
Proof.
  unfold is_checksum, toy_sha256hex.
  rewrite string_length_str_of_list, list_of_str_of_list, repeat_length.
  assert (Hd : is_lower_hex (ascii_of_nat (48 + String.length c mod 10)) = true).
  { assert (Hm : (String.length c mod 10 < 10)%nat) by (apply Nat.mod_upper_bound; lia).
    destruct (String.length c mod 10) as [|[|[|[|[|[|[|[|[|[|k]]]]]]]]]];
      try reflexivity; lia. }
  rewrite Nat.eqb_refl; cbn [andb].
  generalize 64%nat; intros n; induction n as [|n IH]; [reflexivity|].
  cbn [repeat forallb]; rewrite Hd, IH; reflexivity.
Qed.

Lemma generateWithParser_rerun_skips_witness :
  generateWithParser toy_sha256hex string (fun _ => [toy_handler]) (fun c => Some c)
    (fun _ => Some toy_generated) (gate_fs "package x" Missing) false false "" "handlers.go"
  = GenWrite "handlers_apikit.go" (AddChecksumToGenerated toy_generated (toy_sha256hex "package x")) /\
  generateWithParser toy_sha256hex string (fun _ => [toy_handler]) (fun c => Some c)
    (fun _ => Some toy_generated)
    (write_file (gate_fs "package x" Missing) "handlers_apikit.go"
       (AddChecksumToGenerated toy_generated (toy_sha256hex "package x")))
    false false "" "handlers.go" = GenSkipped.
Proof.
  assert (H1 : generateWithParser toy_sha256hex string (fun _ => [toy_handler]) (fun c => Some c)
    (fun _ => Some toy_generated) (gate_fs "package x" Missing) false false "" "handlers.go"
    = GenWrite "handlers_apikit.go"
        (AddChecksumToGenerated toy_generated (toy_sha256hex "package x")))
    by (vm_compute; reflexivity).
  split; [exact H1|].
  apply (generateWithParser_rerun_skips toy_sha256hex string (fun _ => [toy_handler])
           (fun c => Some c) (fun _ => Some toy_generated) (gate_fs "package x" Missing)
           false false false "" "handlers.go").
  - exact toy_sha256hex_is_checksum.
  - intros r c E; injection E as <-.
    split; [apply Nat.ltb_lt; vm_compute; reflexivity|vm_compute; reflexivity].
  - vm_compute; discriminate.
  - exact H1.
Defined.

Lemma rev_cons_head {A} (l : list A) (x y : A) :
  match rev (x :: l) with d :: _ => d | [] => y end
  = match rev l with d :: _ => d | [] => x end.
Proof. cbn [rev]; destruct (rev l); reflexivity. Qed.

Lemma in_directives_cons (c : string) (cs : list string) :
  in_directives (c :: cs)
  = if String.eqb (fst (extractInComment c)) "" then in_directives cs
    else extractInComment c :: in_directives cs.
Proof. unfold in_directives; cbn; destruct (String.eqb _ _); reflexivity. Qed.

Lemma scan_line_comments_spec (cs : list string) (ic icn df : string) (ib : bool) :
  exists df',
    scan_line_comments cs (ic, icn, df, ib)
    = (fst (match rev (in_directives cs) with d :: _ => d | [] => (ic, icn) end),
       snd (match rev (in_directives cs) with d :: _ => d | [] => (ic, icn) end),
       df', ib || existsb (fun d => String.eqb (fst d) "body") (in_directives cs)).
Proof.
  revert ic icn df ib; induction cs as [|c cs IH]; intros ic icn df ib.
  - exists df; cbn; rewrite orb_false_r; reflexivity.
  - rewrite in_directives_cons; cbn [scan_line_comments].
    destruct (extractInComment c) as [source name]; cbn [fst snd].
    destruct (String.eqb source "") eqn:Es; cbn [negb].
    + apply IH.
    + edestruct IH as [df' ->]; exists df'.
      rewrite rev_cons_head; cbn [existsb fst].
      destruct (String.eqb source "body"); cbn; [rewrite orb_true_r|]; reflexivity.
Qed.

Lemma scan_doc_comments_keep (cs : list string) (ic icn df : string) (ib : bool) :
  String.eqb ic "" = false ->
  exists df', scan_doc_comments cs (ic, icn, df, ib) = (ic, icn, df', ib).
Proof.
  revert df; induction cs as [|c cs IH]; intros df H; [exists df; reflexivity|].
  cbn [scan_doc_comments]; rewrite H; apply IH, H.
Qed.

Lemma scan_doc_comments_spec (cs : list string) (icn df : string) (ib : bool) :
  exists df',
    scan_doc_comments cs ("", icn, df, ib)
    = match in_directives cs with
      | d :: _ => (fst d, snd d, df', ib || String.eqb (fst d) "body")
      | [] => ("", icn, df', ib)
      end.
Proof.
  revert icn df ib; induction cs as [|c cs IH]; intros icn df ib; [exists df; reflexivity|].
  rewrite in_directives_cons; cbn [scan_doc_comments String.eqb].
  destruct (extractInComment c) as [source name]; cbn [fst snd].
  destruct (String.eqb source "") eqn:Es; cbn [negb].
  - apply IH.
  - edestruct (scan_doc_comments_keep cs source name) as [df' ->]; [exact Es|].
    exists df'; cbn [fst snd].
    destruct (String.eqb source "body"); rewrite ?orb_true_r, ?orb_false_r; reflexivity.
Qed.

Lemma in_directives_nonempty (cs : list string) :
  Forall (fun d => String.eqb (fst d) "" = false) (in_directives cs).
Proof.
  unfold in_directives; apply List.Forall_forall; intros d Hd.
  apply filter_In in Hd as [_ Hd]; destruct (String.eqb (fst d) ""); [discriminate|reflexivity].
Qed.

(** parseField with the comment loops replaced by their closed forms. *)
Lemma parseField_closed (field : AstField) :
  parseField field =
  let fieldType := typeToString (AFType field) in
  let isPointer := match AFType field with TStar _ => true | _ => false end in
  let '(isSlice, sliceType) :=
    match AFType field with
    | TArray None elt => (true, typeToString elt)
    | _ => (false, "")
    end in
  let '(inComment, inCommentName) := field_directive field in
  let isBody := field_is_body field in
  let tag := match AFTag field with Some v => trim_byte 96 v | None => "" end in
  match AFNames field with
  | [] =>
      [mkField (getTypeName (AFType field)) fieldType tag inComment inCommentName false isSlice
         sliceType true isBody false false false false None ""]
  | names =>
      map (fun name =>
             mkField name fieldType tag inComment inCommentName isPointer isSlice sliceType
               false isBody
               (String.eqb fieldType "[]byte"
                && (String.eqb name "RawBody" || String.eqb name "Raw"))
               ((String.eqb name "Response" || String.eqb name "Res")
                && String.eqb fieldType "http.ResponseWriter")
               ((String.eqb name "Request" || String.eqb name "Req")
                && String.eqb fieldType "*http.Request")
               false None "")
        names
  end.
Proof.
  destruct field as [names ty tag doc com]; unfold parseField;
    cbn [AFNames AFType AFTag AFDoc AFComment].
  assert (Hst : exists df,
    match doc with
    | Some cs => scan_doc_comments cs
        (match com with Some cs => scan_line_comments cs ("", "", "", false)
         | None => ("", "", "", false) end)
    | None => match com with Some cs => scan_line_comments cs ("", "", "", false)
              | None => ("", "", "", false) end
    end
    = (fst (field_directive (mkAstField names ty tag doc com)),
       snd (field_directive (mkAstField names ty tag doc com)),
       df, field_is_body (mkAstField names ty tag doc com))).
  { unfold field_directive, field_is_body; cbn [AFDoc AFComment].
    assert (Hl : exists df1, match com with
                 | Some cs => scan_line_comments cs ("", "", "", false)
                 | None => ("", "", "", false) end
              = (fst (match rev (in_directives (comments_of com)) with d :: _ => d | [] => ("", "") end),
                 snd (match rev (in_directives (comments_of com)) with d :: _ => d | [] => ("", "") end),
                 df1, existsb (fun d => String.eqb (fst d) "body") (in_directives (comments_of com)))).
    { destruct com as [cs|]; [|exists ""; reflexivity].
      edestruct (scan_line_comments_spec cs "" "" "" false) as [df1 E]; exists df1; exact E. }
    destruct Hl as [df1 ->].
    pose proof (in_directives_nonempty (comments_of com)) as Hne.
    destruct (in_directives (comments_of com)) as [|d0 ds] eqn:El.
    - cbn [rev fst snd existsb].
      destruct doc as [cs|]; cbn [comments_of].
      + edestruct (scan_doc_comments_spec cs "" df1 false) as [df2 ->].
        exists df2; destruct (in_directives cs); reflexivity.
      + exists df1; reflexivity.
    - assert (Hr : exists d ds', rev (d0 :: ds) = d :: ds' /\ String.eqb (fst d) "" = false).
      { destruct (rev (d0 :: ds)) as [|d ds'] eqn:Er.
        - apply (f_equal (@length _)) in Er; rewrite length_rev in Er; discriminate.
        - exists d, ds'; split; [reflexivity|].
          apply (proj1 (List.Forall_forall _ _) Hne), in_rev; rewrite Er; left; reflexivity. }
      destruct Hr as (d & ds' & -> & Hd).
      destruct doc as [cs|]; [|exists df1; reflexivity].
      edestruct (scan_doc_comments_keep cs (fst d) (snd d) df1) as [df2 ->]; [exact Hd|].
      exists df2; reflexivity. }
  destruct Hst as [df Hst].
  rewrite Hst; clear Hst.
  destruct (match ty with TArray None elt => (true, typeToString elt) | _ => (false, "") end);
  destruct (field_directive _) as [dsrc dname]; reflexivity.
Qed.

(** parseField: a declaration with names gives one field per name, in
    order, none embedded; one without names gives a single embedded field
    named after the type's bare name, never marked as a pointer, raw body,
    request or response writer. Every field shares the declaration's type
    string, its tag with the backquotes trimmed, the directive of
    [field_directive] and the body mark of [field_is_body]; none is a file
    and none has a resolved struct or package path. *)
Theorem parseField_fields (field : AstField) :
  Forall (fun f =>
    Type_ f = typeToString (AFType field) /\
    StructTag f = match AFTag field with Some v => trim_byte 96 v | None => "" end /\
    (InComment f, InCommentName f) = field_directive field /\
    IsBody f = field_is_body field /\
    IsFile f = false /\ NestedStruct f = None /\ PackagePath f = "") (parseField field) /\
  (AFNames field = [] ->
     map Name (parseField field) = [getTypeName (AFType field)] /\
     Forall (fun f => IsEmbedded f = true /\ IsPointer f = false /\ IsRawBody f = false /\
                      IsRequest f = false /\ IsResponseWriter f = false) (parseField field)) /\
  (AFNames field <> [] ->
     map Name (parseField field) = AFNames field /\
     Forall (fun f => IsEmbedded f = false /\
                      IsPointer f = match AFType field with TStar _ => true | _ => false end)
       (parseField field)).
Proof.
  rewrite parseField_closed; cbv zeta.
  destruct (match AFType field with TArray None elt => (true, typeToString elt)
            | _ => (false, "") end) as [isSlice sliceType].
  destruct (field_directive field) as [dsrc dname] eqn:Ed.
  destruct (AFNames field) as [|n ns] eqn:En.
  - split; [constructor; [cbn; tauto|constructor]|].
    split; [intros _; split; [reflexivity|constructor; [cbn; tauto|constructor]]|].
    intros H; congruence.
  - split.
    + apply List.Forall_forall; intros f Hf; apply in_map_iff in Hf as (x & <- & _); cbn; tauto.
    + split; [intros H; discriminate|intros _; split].
      * rewrite map_map; cbn; rewrite map_id; reflexivity.
      * apply List.Forall_forall; intros f Hf; apply in_map_iff in Hf as (x & <- & _); cbn; tauto.
Qed.

Lemma default_comment_no_directive (c : string) :
  String.eqb (extractDefaultComment c) "" = false -> fst (extractInComment c) = "".
Proof.
  unfold extractDefaultComment, extractInComment.
  destruct (strip_markers c) as [|a s]; [cbn; discriminate|].
  cbn [has_prefix]; destruct (Ascii.eqb "d" a) eqn:Ea; [|cbn; discriminate].
  apply Ascii.eqb_eq in Ea; subst a; reflexivity.
Qed.

Lemma in_directives_drop_default (cg : option (list string)) :
  in_directives (comments_of (drop_default_comments cg)) = in_directives (comments_of cg).
Proof.
  destruct cg as [cs|]; [|reflexivity]; cbn [drop_default_comments option_map comments_of].
  induction cs as [|c cs IH]; [reflexivity|].
  cbn [List.filter]; destruct (String.eqb (extractDefaultComment c) "") eqn:Ed.
  - rewrite !(in_directives_cons c), IH; reflexivity.
  - rewrite in_directives_cons, default_comment_no_directive by exact Ed; cbn; exact IH.
Qed.

(** A comment with a default: directive is never an in: directive, and
    parseField never reads the value of a default: comment: dropping every
    default: comment from the doc and line comments leaves its result
    unchanged. *)
Theorem parseField_ignores_default_comments (field : AstField) :
  (forall c, extractDefaultComment c <> "" -> fst (extractInComment c) = "") /\
  parseField (mkAstField (AFNames field) (AFType field) (AFTag field)
                (drop_default_comments (AFDoc field)) (drop_default_comments (AFComment field)))
  = parseField field.
Proof.
  split.
  - intros c Hc; apply default_comment_no_directive, String.eqb_neq, Hc.
  - rewrite !parseField_closed; unfold field_directive, field_is_body;
      cbn [AFNames AFType AFTag AFDoc AFComment].
    rewrite !in_directives_drop_default; reflexivity.
Qed.



Lemma fst_cons_pair {A B : Type} (c : A) (p : list A * B) :
  fst (let '(m, i) := p in (c :: m, i)) = c :: fst p.
Proof. destruct p; reflexivity. Qed.





Lemma struct_size_cons (n : string) (f : Field) (fs : list Field) (d : bool) :
  struct_size (mkStruct n (f :: fs) d)
  = (match NestedStruct f with Some ns => struct_size ns | None => 0 end
     + struct_size (mkStruct n fs d))%nat.
Proof. destruct f; cbn; lia. Qed.

Lemma struct_size_nested_lt (s : Struct) (f : Field) (ns : Struct) :
  In f (SFields s) -> NestedStruct f = Some ns -> (struct_size ns < struct_size s)%nat.
Proof.
  destruct s as [n fs d]; cbn [SFields]; induction fs as [|f' fs IH]; [intros []|].
  intros [<-|Hin] Hn; rewrite struct_size_cons.
  - rewrite Hn; destruct fs; cbn; lia.
  - specialize (IH Hin Hn); lia.
Qed.

Lemma scanned_field_cons (n : string) (f : Field) (fs : list Field) (d : bool) (g : Field) :
  scanned_field (mkStruct n (f :: fs) d) g <->
  g = f \/
  (IsEmbedded f = true /\ exists ns, NestedStruct f = Some ns /\ scanned_field ns g) \/
  scanned_field (mkStruct n fs d) g.
Proof.
  split.
  - intros H; inversion H as [s f0 Hin | s f0 ns g0 Hin He Hn Hs]; subst; cbn [SFields] in Hin.
    + destruct Hin as [<-|Hin]; [left; reflexivity|right; right; apply scanned_here, Hin].
    + destruct Hin as [<-|Hin]; [right; left; eauto|].
      right; right; eapply scanned_embedded; eauto.
  - intros [->|[[He [ns [Hn Hs]]]|H]].
    + apply scanned_here; left; reflexivity.
    + eapply scanned_embedded; [left; reflexivity|exact He|exact Hn|exact Hs].
    + inversion H as [s f0 Hin | s f0 ns g0 Hin He Hn Hs]; subst; cbn [SFields] in Hin.
      * apply scanned_here; right; exact Hin.
      * eapply scanned_embedded; [right; exact Hin|exact He|exact Hn|exact Hs].
Qed.

Lemma scanned_field_nil (n : string) (d : bool) (g : Field) :
  ~ scanned_field (mkStruct n [] d) g.
Proof. intros H; inversion H; subst; cbn in *; contradiction. Qed.

(** The scans of package codegen: a field test, applied first to the struct
    of an embedded field, then to the field itself, then to the rest. *)
Section FieldScan.

Variable F : Struct -> bool.
Variable P : Field -> bool.
Hypothesis F_nil : forall n d, F (mkStruct n [] d) = false.
Hypothesis F_cons : forall n f fs d,
  F (mkStruct n (f :: fs) d)
  = (IsEmbedded f && match NestedStruct f with Some ns => F ns | None => false end)
    || P f || F (mkStruct n fs d).

Lemma field_scan_fields (n : string) (d : bool) (fs : list Field) :
  (forall f ns, In f fs -> NestedStruct f = Some ns ->
     (F ns = true <-> exists g, scanned_field ns g /\ P g = true)) ->
  (F (mkStruct n fs d) = true <-> exists g, scanned_field (mkStruct n fs d) g /\ P g = true).
Proof.
  induction fs as [|f fs IH]; intros Hns.
  - rewrite F_nil; split; [discriminate|intros (g & Hg & _); destruct (scanned_field_nil _ _ _ Hg)].
  - rewrite F_cons, !orb_true_iff.
    assert (IH' := IH (fun f' ns Hin => Hns f' ns (or_intror Hin))).
    split.
    + intros [[He|Hp]|Hr].
      * apply andb_true_iff in He as [He Hn].
        destruct (NestedStruct f) as [ns|] eqn:En; [|discriminate].
        destruct (proj1 (Hns f ns (or_introl eq_refl) En) Hn) as (g & Hg & Pg).
        exists g; split; [|exact Pg]; apply scanned_field_cons; right; left; eauto.
      * exists f; split; [apply scanned_field_cons; left; reflexivity|exact Hp].
      * destruct (proj1 IH' Hr) as (g & Hg & Pg).
        exists g; split; [apply scanned_field_cons; right; right; exact Hg|exact Pg].
    + intros (g & Hg & Pg); apply scanned_field_cons in Hg as [->|[[He [ns [En Hs]]]|Hr]].
      * left; right; exact Pg.
      * left; left; rewrite He, En; cbn.
        apply (Hns f ns (or_introl eq_refl) En); eauto.
      * right; apply IH'; eauto.
Qed.

Lemma field_scan_iff (s : Struct) :
  F s = true <-> exists g, scanned_field s g /\ P g = true.
Proof.
  remember (struct_size s) as k eqn:Ek; revert s Ek.
  induction k as [k IH] using lt_wf_ind; intros [n fs d] Ek.
  apply field_scan_fields; intros f ns Hin Hn.
  apply (IH (struct_size ns)); [|reflexivity].
  subst k; apply (struct_size_nested_lt (mkStruct n fs d) f ns Hin Hn).
Qed.

End FieldScan.

Ltac scan_cons := intros; match goal with f : Field |- _ => destruct f end; cbn;
  repeat match goal with |- context [if ?b then _ else _] => destruct b end; reflexivity.

Lemma hasValidationTags_cons (u : string -> option string) n f fs d :
  hasValidationTags u (mkStruct n (f :: fs) d)
  = (IsEmbedded f && match NestedStruct f with Some ns => hasValidationTags u ns | None => false end)
    || (negb (String.eqb (StructTag f) "") && snd (Lookup u (StructTag f) "validate"))
    || hasValidationTags u (mkStruct n fs d).
Proof. scan_cons. Qed.

Lemma hasMultipartFormFields_cons (u : string -> option string) n f fs d :
  hasMultipartFormFields u (mkStruct n (f :: fs) d)
  = (IsEmbedded f && match NestedStruct f with Some ns => hasMultipartFormFields u ns | None => false end)
    || (IsFile f || (negb (String.eqb (StructTag f) "") && snd (Lookup u (StructTag f) "form"))
        || String.eqb (InComment f) "form")
    || hasMultipartFormFields u (mkStruct n fs d).
Proof. scan_cons. Qed.

Lemma hasBodyFields_cons (u : string -> option string) n f fs d :
  hasBodyFields u (mkStruct n (f :: fs) d)
  = (IsEmbedded f && match NestedStruct f with Some ns => hasBodyFields u ns | None => false end)
    || (IsBody f || json_body_tag u (StructTag f))
    || hasBodyFields u (mkStruct n fs d).
Proof. scan_cons. Qed.

Lemma findBodyField_cons (u : string -> option string) n f fs d :
  findBodyField u (mkStruct n (f :: fs) d)
  = let bodyField := if IsEmbedded f then
                       match NestedStruct f with Some ns => findBodyField u ns | None => "" end
                     else "" in
    if negb (String.eqb bodyField "") then bodyField
    else if IsBody f || json_body_tag u (StructTag f) then Name f
    else findBodyField u (mkStruct n fs d).
Proof.
  destruct f as [nm ty tg ic icn p sl st emb body raw rw rq file nested pp]; cbn.
  destruct (negb _); [reflexivity|].
  destruct body; [reflexivity|]; destruct (json_body_tag u tg); reflexivity.
Qed.

(** hasValidationTags holds exactly when a field the scan visits (the
    struct's, and through embedded fields those of embedded structs) has a
    non-empty tag with a validate key. *)
Theorem hasValidationTags_iff (u : string -> option string) (s : Struct) :
  hasValidationTags u s = true <->
  exists g, scanned_field s g /\ StructTag g <> "" /\ snd (Lookup u (StructTag g) "validate") = true.
Proof.
  rewrite (field_scan_iff (hasValidationTags u)
             (fun g => negb (String.eqb (StructTag g) "") && snd (Lookup u (StructTag g) "validate")));
    [|reflexivity|apply hasValidationTags_cons].
  split; intros (g & Hg & Hp); exists g; split; try exact Hg.
  - apply andb_true_iff in Hp as [Ht Hv]; split; [|exact Hv].
    apply negb_true_iff, String.eqb_neq in Ht; exact Ht.
  - destruct Hp as [Ht Hv]; apply andb_true_iff; split; [|exact Hv].
    apply negb_true_iff, String.eqb_neq, Ht.
Qed.

Lemma hasMultipartFormFields_iff_aux (u : string -> option string) (s : Struct) :
  hasMultipartFormFields u s = true <->
  exists g, scanned_field s g /\
    (IsFile g = true \/ (StructTag g <> "" /\ snd (Lookup u (StructTag g) "form") = true) \/
     InComment g = "form").
Proof.
  rewrite (field_scan_iff (hasMultipartFormFields u)
             (fun g => IsFile g || (negb (String.eqb (StructTag g) "") && snd (Lookup u (StructTag g) "form"))
                       || String.eqb (InComment g) "form"));
    [|reflexivity|apply hasMultipartFormFields_cons].
  split; intros (g & Hg & Hp); exists g; split; try exact Hg.
  - apply orb_true_iff in Hp as [Hp|Hc]; [apply orb_true_iff in Hp as [Hf|Ht]|].
    + left; exact Hf.
    + right; left; apply andb_true_iff in Ht as [Ht Hv]; split; [|exact Hv].
      apply negb_true_iff, String.eqb_neq in Ht; exact Ht.
    + right; right; apply String.eqb_eq, Hc.
  - apply orb_true_iff; destruct Hp as [Hf|[[Ht Hv]|Hc]].
    + left; rewrite Hf; reflexivity.
    + left; apply orb_true_iff; right; apply andb_true_iff; split; [|exact Hv].
      apply negb_true_iff, String.eqb_neq, Ht.
    + right; apply String.eqb_eq, Hc.
Qed.

(** hasMultipartFormFields holds exactly when a visited field is a file,
    has a non-empty tag with a form key, or carries an in:form directive. *)
Theorem hasMultipartFormFields_iff (u : string -> option string) (s : Struct) :
  hasMultipartFormFields u s = true <->
  exists g, scanned_field s g /\
    (IsFile g = true \/ (StructTag g <> "" /\ snd (Lookup u (StructTag g) "form") = true) \/
     InComment g = "form").
Proof. exact (hasMultipartFormFields_iff_aux u s). Qed.

(** A visited field the form extractor accepts makes
    hasMultipartFormFields true: the handler parses the multipart form
    before reading such a field. *)
Theorem form_extractor_needs_multipart (u : string -> option string) (qt : string -> string)
    (reg : TypeRegistry) (s : Struct) (g : Field) :
  scanned_field s g -> CanExtract (FormExtractor u qt reg) g = true ->
  hasMultipartFormFields u s = true.
Proof.
  intros Hg Hc; apply hasMultipartFormFields_iff_aux; exists g; split; [exact Hg|].
  cbn [CanExtract FormExtractor] in Hc.
  destruct (IsRequest g || IsResponseWriter g || IsRawBody g); [discriminate|].
  unfold tag_or_comment in Hc.
  destruct (String.eqb (StructTag g) "") eqn:Et; cbn [negb] in Hc.
  - right; right; apply String.eqb_eq, Hc.
  - destruct (snd (Lookup u (StructTag g) "form")) eqn:El.
    + right; left; split; [apply String.eqb_neq, Et|reflexivity].
    + right; right; apply String.eqb_eq, Hc.
Qed.

Lemma struct_nested_ind (Q : Struct -> Prop) :
  (forall n fs d, (forall f ns, In f fs -> NestedStruct f = Some ns -> Q ns) -> Q (mkStruct n fs d)) ->
  forall s, Q s.
Proof.
  intros Hstep s; remember (struct_size s) as k eqn:Ek; revert s Ek.
  induction k as [k IH] using lt_wf_ind; intros [n fs d] Ek.
  apply Hstep; intros f ns Hin Hn.
  apply (IH (struct_size ns)); [|reflexivity].
  subst k; apply (struct_size_nested_lt (mkStruct n fs d) f ns Hin Hn).
Qed.

(** findBodyField and hasBodyFields agree: a name found belongs to a
    visited body field (in:body or json:"body") and hasBodyFields holds;
    conversely, when hasBodyFields holds and no visited field has an empty
    name, findBodyField finds one. *)
Theorem findBodyField_hasBodyFields (u : string -> option string) (s : Struct) :
  (findBodyField u s <> "" ->
     hasBodyFields u s = true /\
     exists g, scanned_field s g /\ Name g = findBodyField u s /\
               (IsBody g || json_body_tag u (StructTag g)) = true) /\
  ((forall g, scanned_field s g -> Name g <> "") ->
     hasBodyFields u s = true -> findBodyField u s <> "").
Proof.
  revert s; apply struct_nested_ind; intros n fs d Hns.
  induction fs as [|f fs IH].
  - split; [intros H; contradiction H; reflexivity|intros _ H; discriminate H].
  - assert (IH' := IH (fun f' ns Hin => Hns f' ns (or_intror Hin))).
    rewrite findBodyField_cons, hasBodyFields_cons; cbv zeta.
    destruct (IsEmbedded f) eqn:Ee; [destruct (NestedStruct f) as [ns|] eqn:En|].
    + destruct (Hns f ns (or_introl eq_refl) En) as [Hn1 Hn2].
      destruct (String.eqb (findBodyField u ns) "") eqn:Ef; cbn [negb andb].
      * apply String.eqb_eq in Ef.
        destruct (IsBody f || json_body_tag u (StructTag f)) eqn:Eb.
        -- split.
           ++ intros _; rewrite orb_true_r; split; [reflexivity|].
              exists f; split; [apply scanned_field_cons; left; reflexivity|split; [reflexivity|exact Eb]].
           ++ intros Hnm _; apply Hnm, scanned_field_cons; left; reflexivity.
        -- destruct (hasBodyFields u ns) eqn:Eh.
           ++ split.
              ** intros Hf; destruct (proj1 IH' Hf) as [_ (g & Hg & Hnm & Hb)].
                 split; [reflexivity|exists g; split; [apply scanned_field_cons; right; right; exact Hg|auto]].
              ** intros Hnm _; exfalso; apply (Hn2 (fun g Hg => Hnm g ltac:(apply scanned_field_cons; right; left; eauto))); [reflexivity|exact Ef].
           ++ cbn [orb]; split.
              ** intros Hf; destruct (proj1 IH' Hf) as [Hr (g & Hg & Hnm & Hb)].
                 split; [exact Hr|exists g; split; [apply scanned_field_cons; right; right; exact Hg|auto]].
              ** intros Hnm Hr; apply (proj2 IH'); [|exact Hr].
                 intros g Hg; apply Hnm, scanned_field_cons; right; right; exact Hg.
      * split.
        -- intros Hf; apply String.eqb_neq in Ef.
           destruct (Hn1 Ef) as [Hh (g & Hg & Hnm & Hb)]; rewrite Hh; split; [reflexivity|].
           exists g; split; [apply scanned_field_cons; right; left; eauto|auto].
        -- intros _ _; apply String.eqb_neq, Ef.
    +
      cbn [negb andb String.eqb orb].
      destruct (IsBody f || json_body_tag u (StructTag f)) eqn:Eb.
      * split.
        -- intros _; split; [reflexivity|].
           exists f; split; [apply scanned_field_cons; left; reflexivity|split; [reflexivity|exact Eb]].
        -- intros Hnm _; apply Hnm, scanned_field_cons; left; reflexivity.
      * cbn [orb]; split.
        -- intros Hf; destruct (proj1 IH' Hf) as [Hr (g & Hg & Hnm & Hb)].
           split; [exact Hr|exists g; split; [apply scanned_field_cons; right; right; exact Hg|auto]].
        -- intros Hnm Hr; apply (proj2 IH'); [|exact Hr].
           intros g Hg; apply Hnm, scanned_field_cons; right; right; exact Hg.
    +
      cbn [negb andb String.eqb orb].
      destruct (IsBody f || json_body_tag u (StructTag f)) eqn:Eb.
      * split.
        -- intros _; split; [reflexivity|].
           exists f; split; [apply scanned_field_cons; left; reflexivity|split; [reflexivity|exact Eb]].
        -- intros Hnm _; apply Hnm, scanned_field_cons; left; reflexivity.
      * cbn [orb]; split.
        -- intros Hf; destruct (proj1 IH' Hf) as [Hr (g & Hg & Hnm & Hb)].
           split; [exact Hr|exists g; split; [apply scanned_field_cons; right; right; exact Hg|auto]].
        -- intros Hnm Hr; apply (proj2 IH'); [|exact Hr].
           intros g Hg; apply Hnm, scanned_field_cons; right; right; exact Hg.
Qed.


Lemma form_extractor_needs_multipart_witness :
  scanned_field create_req_struct (plain_field "Title" "string" ("form:" ++ q "title")) /\
  CanExtract (FormExtractor unquote_plain quote_plain DefaultRegistry)
    (plain_field "Title" "string" ("form:" ++ q "title")) = true /\
  hasMultipartFormFields unquote_plain create_req_struct = true.
Proof.
  assert (Hs : scanned_field create_req_struct (plain_field "Title" "string" ("form:" ++ q "title"))).
  { eapply scanned_embedded; [left; reflexivity|reflexivity|reflexivity|].
    apply scanned_here; left; reflexivity. }
  assert (Hc : CanExtract (FormExtractor unquote_plain quote_plain DefaultRegistry)
                 (plain_field "Title" "string" ("form:" ++ q "title")) = true)
    by (vm_compute; reflexivity).
  split; [exact Hs|split; [exact Hc|]].
  exact (form_extractor_needs_multipart unquote_plain quote_plain DefaultRegistry
           create_req_struct _ Hs Hc).
Defined.


Lemma field_shape_set_NestedStruct (f : Field) (ns : option Struct) :
  field_shape (set_NestedStruct f ns) = field_shape f.
Proof. destruct f; reflexivity. Qed.

Lemma field_shape_set_PackagePath (f : Field) (p : string) :
  field_shape (set_PackagePath f p) = field_shape f.
Proof. destruct f; reflexivity. Qed.

Lemma resolve_field_shape
    (L : string -> string -> option (Struct * gmap string string))
    (recurse : Struct -> gset string -> gmap string string -> gmap string Struct -> option resolved)
    (Hrec : forall s vis imp c s' vis' c', recurse s vis imp c = Some (s', vis', c') -> c ⊆ c')
    (imports : gmap string string) (field field' : Field) (visited visited' : gset string)
    (cache cache' : gmap string Struct) :
  resolve_field L recurse imports field visited cache = Some (field', visited', cache') ->
  field_shape field' = field_shape field /\ cache ⊆ cache'.
Proof.
  unfold resolve_field.
  destruct (IsRawBody field || IsResponseWriter field || IsRequest field).
  { intros H; injection H as <- <- <-; split; reflexivity. }
  set (typeName := field_base_type field).
  destruct (if contains typeName "." then _ else _) as [[pkgAlias structName] field1] eqn:Ep.
  assert (Hf1 : field_shape field1 = field_shape field).
  { destruct (contains typeName "."); [|injection Ep as _ _ <-; reflexivity].
    destruct (split_on 46 typeName) as [|a [|b [|c r]]];
      injection Ep as _ _ <-; rewrite ?field_shape_set_PackagePath; reflexivity. }
  destruct (cache !! typeName) as [ns|] eqn:Ec.
  - destruct (decide (typeName ∈ visited)).
    + intros H; injection H as <- <- <-; rewrite field_shape_set_NestedStruct; split; [exact Hf1|reflexivity].
    + destruct (recurse _ visited imports cache) as [[[ns' v1] c1]|] eqn:Er; [|discriminate].
      intros H; injection H as <- <- <-; rewrite field_shape_set_NestedStruct.
      split; [exact Hf1|exact (Hrec _ _ _ _ _ _ _ Er)].
  - destruct (String.eqb pkgAlias "").
    { intros H; injection H as <- <- <-; split; [exact Hf1|reflexivity]. }
    destruct (imports !! pkgAlias) as [importPath|].
    2: { intros H; injection H as <- <- <-; split; [exact Hf1|reflexivity]. }
    destruct (L importPath structName) as [[ext extImports]|].
    2: { intros H; injection H as <- <- <-; split; [exact Hf1|reflexivity]. }
    assert (Hins : cache ⊆ <[typeName := ext]> cache) by (apply insert_subseteq, Ec).
    destruct (decide (typeName ∈ visited)).
    + intros H; injection H as <- <- <-; rewrite field_shape_set_NestedStruct; split; [exact Hf1|exact Hins].
    + destruct (recurse _ visited extImports _) as [[[ns' v1] c1]|] eqn:Er; [|discriminate].
      intros H; injection H as <- <- <-; rewrite field_shape_set_NestedStruct.
      split; [exact Hf1|etransitivity; [exact Hins|exact (Hrec _ _ _ _ _ _ _ Er)]].
Qed.

Lemma resolve_fields_shape
    (L : string -> string -> option (Struct * gmap string string))
    (recurse : Struct -> gset string -> gmap string string -> gmap string Struct -> option resolved)
    (Hrec : forall s vis imp c s' vis' c', recurse s vis imp c = Some (s', vis', c') -> c ⊆ c')
    (imports : gmap string string) (fs : list Field) :
  forall fs' visited visited' cache cache',
  resolve_fields L recurse imports fs visited cache = Some (fs', visited', cache') ->
  map field_shape fs' = map field_shape fs /\ cache ⊆ cache'.
Proof.
  induction fs as [|f fs IH]; intros fs' visited visited' cache cache' H; cbn in H.
  - injection H as <- <- <-; split; reflexivity.
  - destruct (resolve_field L recurse imports f visited cache) as [[[f1 v1] c1]|] eqn:E1;
      [|discriminate].
    destruct (resolve_fields L recurse imports fs v1 c1) as [[[fs1 v2] c2]|] eqn:E2; [|discriminate].
    injection H as <- <- <-.
    destruct (resolve_field_shape L recurse Hrec imports f f1 visited v1 cache c1 E1) as [Hf Hc1].
    destruct (IH fs1 v1 v2 c1 c2 E2) as [Hfs Hc2].
    cbn; rewrite Hf, Hfs; split; [reflexivity|etransitivity; eassumption].
Qed.

(** resolveNestedStructsRecursive keeps a struct's shape: the name, the
    DTO flag and every field apart from its resolved struct and package
    path are unchanged, and the struct cache is only extended, never
    overwritten. *)
Theorem resolveNestedStructsRecursive_shape
    (L : string -> string -> option (Struct * gmap string string)) (fuel : nat) :
  forall s visited imports cache s' visited' cache',
  resolveNestedStructsRecursive L fuel s visited imports cache = Some (s', visited', cache') ->
  SName s' = SName s /\ IsDTO s' = IsDTO s /\
  map field_shape (SFields s') = map field_shape (SFields s) /\ cache ⊆ cache'.
Proof.
  induction fuel as [|fuel IH]; intros s visited imports cache s' visited' cache' H; [discriminate|].
  cbn in H; destruct (decide (SName s ∈ visited)).
  - injection H as <- <- <-; split; [|split; [|split]]; reflexivity.
  - destruct (resolve_fields L (resolveNestedStructsRecursive L fuel) imports (SFields s)
                ({[SName s]} ∪ visited) cache) as [[[fs1 v1] c1]|] eqn:E; [|discriminate].
    injection H as <- <- <-.
    destruct (resolve_fields_shape L (resolveNestedStructsRecursive L fuel)
                (fun s vis imp c s' vis' c' Hr => proj2 (proj2 (proj2 (IH s vis imp c s' vis' c' Hr))))
                imports (SFields s) fs1 _ v1 cache c1 E) as [Hfs Hc].
    destruct s; cbn; auto.
Qed.

Lemma resolveNestedStructsRecursive_shape_witness :
  match resolveNestedStructsRecursive addr_loader 3 user_struct ∅ {[ "m" := "example.com/m" ]} ∅ with
  | Some (s', _, c') =>
      (SName s' = SName user_struct /\ IsDTO s' = IsDTO user_struct /\
       map field_shape (SFields s') = map field_shape (SFields user_struct) /\
       (∅ : gmap string Struct) ⊆ c') /\
      c' !! "m.Addr" = Some addr_struct
  | None => False
  end.
Proof.
  destruct (resolveNestedStructsRecursive addr_loader 3 user_struct ∅ {[ "m" := "example.com/m" ]} ∅)
    as [[[s' v'] c']|] eqn:E; [|vm_compute in E; discriminate].
  split; [exact (resolveNestedStructsRecursive_shape addr_loader 3 _ _ _ _ _ _ _ E)|].
  vm_compute in E; injection E as <- <- <-; vm_compute; reflexivity.
Defined.


Lemma extractor_scan_GetExtractor (exts : list Extractor) (field : Field) (sname : string)
    (importsMap : gset string) :
  fst ((fix scan (l : list Extractor) : list stmt * gset string :=
          match l with
          | [] => ([], importsMap)
          | ext :: l' =>
              if CanExtract ext field then
                match GenerateCode ext field sname with
                | (Some c, imports) =>
                    if negb (String.eqb (render c) "") then
                      ([c], list_to_set imports ∪ importsMap)
                    else ([], importsMap)
                | (None, _) => ([], importsMap)
                end
              else scan l'
          end) exts)
  = field_code_via_GetExtractor exts field sname.
Proof.
  unfold field_code_via_GetExtractor.
  induction exts as [|e exts IH]; [reflexivity|]; cbn [GetExtractor].
  destruct (CanExtract e field); [|exact IH].
  destruct (GenerateCode e field sname) as [[c|] imps]; cbn [fst]; [|reflexivity].
  destruct (String.eqb (render c) ""); reflexivity.
Qed.

Lemma fst_app_pair {A B : Type} (a : list A) (p : list A * B) :
  fst (let '(m, i) := p in ((a ++ m)%list, i)) = (a ++ fst p)%list.
Proof. destruct p; reflexivity. Qed.

Lemma generateExtractionCode_fields (exts : list Extractor) (n : string) (d : bool) (fs : list Field) :
  (forall f ns, In f fs -> NestedStruct f = Some ns ->
     forall im, fst (generateExtractionCode exts ns im) = extraction_lines exts ns) ->
  forall im, fst (generateExtractionCode exts (mkStruct n fs d) im) = extraction_lines exts (mkStruct n fs d).
Proof.
  induction fs as [|f fs IH]; intros Hns im; [reflexivity|].
  assert (IH' := IH (fun f' ns Hin => Hns f' ns (or_intror Hin))).
  assert (Hf := Hns f); clear Hns IH.
  destruct f as [nm ty tg ic icn p sl st emb body raw rw rq file nested pp].
  destruct emb; [destruct nested as [ns|]|destruct raw].
  - specialize (Hf ns (or_introl eq_refl) eq_refl im).
    cbn [generateExtractionCode extraction_lines].
    destruct (generateExtractionCode exts ns im) as [nc im1] eqn:E1.
    cbn [fst] in Hf; subst nc; cbv beta iota.
    rewrite fst_app_pair; f_equal.
    specialize (IH' im1); cbn [generateExtractionCode extraction_lines] in IH'; exact IH'.
  - specialize (IH' im); cbn [generateExtractionCode extraction_lines] in IH' |- *; exact IH'.
  - specialize (IH' im); cbn [generateExtractionCode extraction_lines] in IH' |- *; exact IH'.
  - cbn [generateExtractionCode extraction_lines].
    match goal with |- context [match ?p with (_, _) => _ end] => destruct p as [code im2] eqn:Es end.
    assert (Hs := f_equal fst Es); rewrite extractor_scan_GetExtractor in Hs; cbn [fst] in Hs; subst code.
    rewrite fst_app_pair; f_equal.
    specialize (IH' im2); cbn [generateExtractionCode extraction_lines] in IH'; exact IH'.
Qed.

Lemma generateExtractionCode_lines (exts : list Extractor) (s : Struct) (im : gset string) :
  fst (generateExtractionCode exts s im) = extraction_lines exts s.
Proof.
  revert im; pattern s; revert s.
  apply struct_nested_ind; intros n fs d Hns.
  apply generateExtractionCode_fields, Hns.
Qed.

(** generateExtractionCode selects, for each field, the extractor that
    extractors.GetExtractor returns for it (the first that accepts it),
    and the statements it produces never depend on the import map it
    threads. *)
Theorem generateExtractionCode_GetExtractor (exts : list Extractor) (s : Struct) (im : gset string) :
  fst (generateExtractionCode exts s im) = extraction_lines exts s.
Proof.
  revert im; pattern s; revert s.
  apply struct_nested_ind; intros n fs d Hns.
  apply generateExtractionCode_fields, Hns.
Qed.


Lemma findRawBodyField_cons n f fs d :
  findRawBodyField (mkStruct n (f :: fs) d)
  = let rawBodyField := if IsEmbedded f then
                          match NestedStruct f with Some ns => findRawBodyField ns | None => "" end
                        else "" in
    if negb (String.eqb rawBodyField "") then rawBodyField
    else if IsRawBody f then Name f
    else findRawBodyField (mkStruct n fs d).
Proof.
  destruct f as [nm ty tg ic icn p sl st emb body raw rw rq file nested pp]; cbn.
  destruct (negb _); [reflexivity|]; destruct raw; reflexivity.
Qed.

(** findRawBodyField returns the name of a visited raw-body field, and
    finds one whenever a visited field is a raw body and no visited field
    has an empty name. *)
Theorem findRawBodyField_spec (s : Struct) :
  (findRawBodyField s <> "" ->
     exists g, scanned_field s g /\ IsRawBody g = true /\ Name g = findRawBodyField s) /\
  ((forall g, scanned_field s g -> Name g <> "") ->
     (exists g, scanned_field s g /\ IsRawBody g = true) -> findRawBodyField s <> "").
Proof.
  revert s; apply struct_nested_ind; intros n fs d Hns.
  induction fs as [|f fs IH].
  - split; [intros H; contradiction H; reflexivity|].
    intros _ (g & Hg & _); destruct (scanned_field_nil _ _ _ Hg).
  - assert (IH' := IH (fun f' ns Hin => Hns f' ns (or_intror Hin))); clear IH.
    rewrite findRawBodyField_cons; cbv zeta.
    assert (Hrest : (findRawBodyField (mkStruct n fs d) <> "" ->
        exists g, scanned_field (mkStruct n (f :: fs) d) g /\ IsRawBody g = true /\
                  Name g = findRawBodyField (mkStruct n fs d)) /\
       ((forall g, scanned_field (mkStruct n (f :: fs) d) g -> Name g <> "") ->
        (exists g, scanned_field (mkStruct n fs d) g /\ IsRawBody g = true) ->
        findRawBodyField (mkStruct n fs d) <> "")).
    { split.
      - intros Hf; destruct (proj1 IH' Hf) as (g & Hg & Hr & Hnm).
        exists g; split; [apply scanned_field_cons; right; right; exact Hg|auto].
      - intros Hnm He; apply (proj2 IH'); [|exact He].
        intros g Hg; apply Hnm, scanned_field_cons; right; right; exact Hg. }
    assert (Hnested : forall ns, IsEmbedded f = true -> NestedStruct f = Some ns ->
              findRawBodyField ns = "" ->
              (forall g, scanned_field (mkStruct n (f :: fs) d) g -> Name g <> "") ->
              ~ (exists g, scanned_field ns g /\ IsRawBody g = true)).
    { intros ns He En Hz Hnm Hex.
      apply (proj2 (Hns f ns (or_introl eq_refl) En)); [|exact Hex|exact Hz].
      intros g Hg; apply Hnm, scanned_field_cons; right; left; eauto. }
    destruct (if IsEmbedded f then match NestedStruct f with
              | Some ns => findRawBodyField ns | None => "" end else "") as [|c r] eqn:Eb;
      cbn [negb String.eqb].
    + destruct (IsRawBody f) eqn:Er.
      * split.
        -- intros _; exists f; split; [apply scanned_field_cons; left; reflexivity|auto].
        -- intros Hnm _; apply Hnm, scanned_field_cons; left; reflexivity.
      * split; [exact (proj1 Hrest)|].
        intros Hnm (g & Hg & Hr); apply scanned_field_cons in Hg as [->|[[He [ns [En Hs]]]|Hg]].
        -- congruence.
        -- rewrite He, En in Eb; exfalso; apply (Hnested ns He En Eb Hnm); eauto.
        -- apply (proj2 Hrest Hnm); eauto.
    + split; [|intros _ _; discriminate].
      intros _; destruct (IsEmbedded f) eqn:He; [|discriminate].
      destruct (NestedStruct f) as [ns|] eqn:En; [|discriminate].
      destruct (proj1 (Hns f ns (or_introl eq_refl) En)) as (g & Hg & Hr & Hnm);
        [rewrite Eb; discriminate|].
      exists g; split; [apply scanned_field_cons; right; left; eauto|].
      split; [exact Hr|rewrite Hnm, Eb; reflexivity].
Qed.


Lemma extractor_scan_imports (exts : list Extractor) (field : Field) (sname : string)
    (importsMap : gset string) :
  importsMap ⊆
  snd ((fix scan (l : list Extractor) : list stmt * gset string :=
          match l with
          | [] => ([], importsMap)
          | ext :: l' =>
              if CanExtract ext field then
                match GenerateCode ext field sname with
                | (Some c, imports) =>
                    if negb (String.eqb (render c) "") then
                      ([c], list_to_set imports ∪ importsMap)
                    else ([], importsMap)
                | (None, _) => ([], importsMap)
                end
              else scan l'
          end) exts).
Proof.
  induction exts as [|e exts IH]; [reflexivity|]; cbn [snd].
  destruct (CanExtract e field); [|exact IH].
  destruct (GenerateCode e field sname) as [[c|] imps]; [|reflexivity].
  destruct (negb _); [set_solver|reflexivity].
Qed.

Lemma snd_app_pair {A B : Type} (a : list A) (p : list A * B) :
  snd (let '(m, i) := p in ((a ++ m)%list, i)) = snd p.
Proof. destruct p; reflexivity. Qed.

Lemma generateExtractionCode_imports_fields (exts : list Extractor) (n : string) (d : bool)
    (fs : list Field) :
  (forall f ns, In f fs -> NestedStruct f = Some ns ->
     forall im, im ⊆ snd (generateExtractionCode exts ns im)) ->
  forall im, im ⊆ snd (generateExtractionCode exts (mkStruct n fs d) im).
Proof.
  induction fs as [|f fs IH]; intros Hns im; [reflexivity|].
  assert (IH' := IH (fun f' ns Hin => Hns f' ns (or_intror Hin))).
  assert (Hf := Hns f); clear Hns IH.
  destruct f as [nm ty tg ic icn p sl st emb body raw rw rq file nested pp].
  destruct emb; [destruct nested as [ns|]|destruct raw].
  - specialize (Hf ns (or_introl eq_refl) eq_refl im).
    cbn [generateExtractionCode].
    destruct (generateExtractionCode exts ns im) as [nc im1] eqn:E1.
    cbn [snd] in Hf; cbv beta iota.
    rewrite snd_app_pair.
    specialize (IH' im1); cbn [generateExtractionCode] in IH'; etransitivity; eassumption.
  - specialize (IH' im); cbn [generateExtractionCode] in IH' |- *; exact IH'.
  - specialize (IH' im); cbn [generateExtractionCode] in IH' |- *; exact IH'.
  - cbn [generateExtractionCode].
    match goal with |- context [match ?p with (_, _) => _ end] => destruct p as [code im2] eqn:Es end.
    assert (Hs := f_equal snd Es); cbn [snd] in Hs.
    rewrite snd_app_pair.
    specialize (IH' im2); cbn [generateExtractionCode] in IH'.
    etransitivity; [|exact IH'].
    rewrite <- Hs; apply extractor_scan_imports.
Qed.

Lemma generateExtractionCode_imports (exts : list Extractor) (s : Struct) (im : gset string) :
  im ⊆ snd (generateExtractionCode exts s im).
Proof.
  revert im; pattern s; revert s.
  apply struct_nested_ind; intros n fs d Hns.
  apply generateExtractionCode_imports_fields, Hns.
Qed.

Lemma extraction_lines_nonempty (exts : list Extractor) (s : Struct) :
  Forall (fun c => render c <> "") (extraction_lines exts s).
Proof.
  pattern s; revert s; apply struct_nested_ind; intros n fs d Hns.
  induction fs as [|f fs IH]; [constructor|].
  assert (IH' := IH (fun f' ns Hin => Hns f' ns (or_intror Hin))).
  assert (Hf := Hns f); clear Hns IH.
  destruct f as [nm ty tg ic icn p sl st emb body raw rw rq file nested pp].
  cbn [extraction_lines] in IH' |- *; apply Forall_app; split; [|exact IH'].
  destruct emb; [destruct nested as [ns|]; [exact (Hf ns (or_introl eq_refl) eq_refl)|constructor]|].
  destruct raw; [constructor|].
  unfold field_code_via_GetExtractor.
  destruct (GetExtractor exts _) as [e|]; [|constructor].
  destruct (fst (GenerateCode e _ n)) as [c|]; [|constructor].
  destruct (String.eqb (render c) "") eqn:Ec; [constructor|].
  constructor; [apply String.eqb_neq, Ec|constructor].
Qed.

Lemma join_lines_empty (l : list string) :
  Forall (fun x => x <> "") l -> (join_lines l = "" <-> l = []).
Proof.
  intros H; split; [|intros ->; reflexivity].
  destruct l as [|x r]; [reflexivity|].
  inversion H as [|? ? Hx _]; subst.
  destruct x as [|c x]; [contradiction|].
  unfold join_lines; destruct r; cbn; discriminate.
Qed.

(** prepareHandlerData for a handler with a payload struct: the
    extraction code is the lines of generateExtractionCode joined, and is
    non-empty exactly when some field gets a statement; the import set only
    grows and holds the validator package when validation is on; a body
    field name is set only with HasBody; HasRawBody says that a raw-body
    field name is set; and MaxMemory is 32 MiB exactly for multipart
    forms. *)
Theorem prepareHandlerData_extraction (toCamelCasePrivate capitalize : string -> string)
    (unquote : string -> option string) (exts : list Extractor) (handler : Handler)
    (importsMap : gset string) (s : Struct) :
  HStruct handler = Some s ->
  let '(hd, importsMap') :=
    prepareHandlerData toCamelCasePrivate capitalize unquote exts handler importsMap in
  HDExtractionCode hd = join_lines (map render (extraction_lines exts s)) /\
  (HDHasExtractionCode hd = true <-> extraction_lines exts s <> []) /\
  importsMap ⊆ importsMap' /\
  (HDHasValidation hd = true -> validator_import ∈ importsMap') /\
  (HDBodyFieldName hd <> "" -> HDHasBody hd = true) /\
  (HDHasRawBody hd = true <-> HDRawBodyFieldName hd <> "") /\
  HDMaxMemory hd = (if HDHasMultipartForm hd then 33554432%Z else 0%Z).
Proof.
  intros Hs; unfold prepareHandlerData; rewrite Hs.
  assert (Hl := generateExtractionCode_lines exts s importsMap).
  assert (Hi := generateExtractionCode_imports exts s importsMap).
  destruct (generateExtractionCode exts s importsMap) as [lines im1]; cbn [fst snd] in Hl, Hi; subst lines.
  cbn [HDExtractionCode HDHasExtractionCode HDHasValidation HDBodyFieldName HDHasBody
       HDHasRawBody HDRawBodyFieldName HDMaxMemory HDHasMultipartForm].
  split; [reflexivity|].
  split.
  { assert (Hne : Forall (fun x => x <> "") (map render (extraction_lines exts s))).
    { apply Forall_map, extraction_lines_nonempty. }
    rewrite negb_true_iff, String.eqb_neq, (join_lines_empty _ Hne).
    split; intros H E; apply H; [rewrite E; reflexivity|destruct (extraction_lines exts s); [reflexivity|discriminate]]. }
  split; [destruct (hasValidationTags unquote s); [set_solver|exact Hi]|].
  split; [destruct (hasValidationTags unquote s); [set_solver|discriminate]|].
  split; [destruct (hasBodyFields unquote s); [reflexivity|intros H; contradiction H; reflexivity]|].
  split; [rewrite negb_true_iff, String.eqb_neq; reflexivity|].
  destruct (hasMultipartFormFields unquote s); reflexivity.
Qed.

Lemma prepareHandlerData_extraction_witness :
  HStruct create_user_handler = Some create_req_struct /\
  let '(hd, importsMap') :=
    prepareHandlerData (fun x => x) (fun x => x) unquote_plain
      (builtin_sorted unquote_plain quote_plain DefaultRegistry) create_user_handler ∅ in
  HDExtractionCode hd
  = join_lines (map render (extraction_lines
      (builtin_sorted unquote_plain quote_plain DefaultRegistry) create_req_struct)) /\
  (HDHasExtractionCode hd = true <->
   extraction_lines (builtin_sorted unquote_plain quote_plain DefaultRegistry) create_req_struct <> []) /\
  ∅ ⊆ importsMap' /\
  (HDHasValidation hd = true -> validator_import ∈ importsMap') /\
  (HDBodyFieldName hd <> "" -> HDHasBody hd = true) /\
  (HDHasRawBody hd = true <-> HDRawBodyFieldName hd <> "") /\
  HDMaxMemory hd = (if HDHasMultipartForm hd then 33554432%Z else 0%Z).
Proof.
  split; [reflexivity|].
  exact (prepareHandlerData_extraction (fun x => x) (fun x => x) unquote_plain
           (builtin_sorted unquote_plain quote_plain DefaultRegistry) create_user_handler ∅
           create_req_struct eq_refl).
Defined.

(* ------------------------------------------------------------------ *)
(** ** Directive comments: extractInComment *)
(* ------------------------------------------------------------------ *)

Lemma list_of_str_app (s t : string) :
  list_of_str (s ++ t) = (list_of_str s ++ list_of_str t)%list.
Proof. induction s as [|c s IH]; [reflexivity|rewrite string_append_cons; cbn [list_of_str String.length]; rewrite IH; reflexivity]. Qed.


Lemma substring_0_app (s t : string) : substring 0 (String.length s) (s ++ t) = s.
Proof.
  induction s as [|c s IH]; [destruct t; reflexivity|].
  rewrite string_append_cons; cbn; rewrite IH; reflexivity.
Qed.

Lemma substring_app_r (p s : string) (n : nat) :
  substring (String.length p) n (p ++ s) = substring 0 n s.
Proof.
  induction p as [|c p IH]; [reflexivity|rewrite string_append_cons; cbn; exact IH].
Qed.




Lemma trim_suffix_app (s p : string) : trim_suffix (s ++ p) p = s.
Proof.
  unfold trim_suffix, has_suffix; rewrite string_length_app.
  replace (String.length s + String.length p - String.length p)%nat
    with (String.length s) by lia.
  rewrite substring_app_r, substring_all, String.eqb_refl, substring_0_app.
  replace (String.length p <=? String.length s + String.length p)%nat with true
    by (symmetry; apply Nat.leb_le; lia).
  reflexivity.
Qed.

Lemma list_of_str_inj (s t : string) : list_of_str s = list_of_str t -> s = t.
Proof.
  intros H; rewrite <- (str_of_list_of_str s), <- (str_of_list_of_str t), H; reflexivity.
Qed.

Ltac str_eq :=
  apply list_of_str_inj; rewrite ?list_of_str_app; cbn [list_of_str app];
  repeat (rewrite <- app_assoc); cbn [app]; repeat (rewrite <- app_assoc); reflexivity.


Local Open Scope list_scope.

Ltac byte_cases :=
  repeat (match goal with
          | |- context [if ?b then _ else _] => let E := fresh "E" in destruct b eqn:E
          | H : context [if ?b then _ else _] |- _ => let E := fresh "E" in destruct b eqn:E
          end);
  repeat match goal with
         | H : context [_ = true] |- _ =>
             progress rewrite ?orb_true_iff, ?andb_true_iff, ?Nat.eqb_eq, ?Nat.leb_le in H
         | H : context [_ = false] |- _ =>
             progress rewrite ?orb_false_iff, ?andb_false_iff, ?Nat.eqb_neq, ?Nat.leb_gt in H
         end;
  try lia.

Lemma space_len_le3 (l : list ascii) : (space_len l <= 3)%nat.
Proof. destruct l as [|c [|c2 [|c3 r]]]; unfold space_len; cbv zeta; byte_cases. Qed.

Lemma space_len_one (c : ascii) : (space_len [c] <= 1)%nat.
Proof. unfold space_len; cbv zeta; byte_cases. Qed.

Lemma space_len_ascii (a : ascii) (r : list ascii) :
  (byte_of a < 128)%nat -> space_len (a :: r) = space_len [a].
Proof. intros H; destruct r as [|c2 [|c3 r]]; unfold space_len; cbv zeta; byte_cases. Qed.

Lemma space_len_second (x y : ascii) (r : list ascii) :
  (2 <= space_len (x :: y :: r))%nat -> (128 <= byte_of y)%nat.
Proof. destruct r as [|c3 r]; unfold space_len; cbv zeta; intros H; byte_cases. Qed.

Lemma space_len_third (x y z : ascii) (r : list ascii) :
  space_len (x :: y :: z :: r) = 3 -> (128 <= byte_of z)%nat.
Proof. unfold space_len; cbv zeta; intros H; byte_cases. Qed.

Lemma space_len_cut1 (y : ascii) (r : list ascii) :
  (space_len (y :: r) <= 1)%nat -> space_len (y :: r) = space_len [y].
Proof. destruct r as [|c2 [|c3 r]]; unfold space_len; cbv zeta; intros H; byte_cases. Qed.

Lemma space_len_cut2 (y z : ascii) (r : list ascii) :
  (space_len (y :: z :: r) <= 2)%nat -> space_len (y :: z :: r) = space_len [y; z].
Proof. destruct r as [|c3 r]; unfold space_len; cbv zeta; intros H; byte_cases. Qed.

Lemma space_len_ascii_space (x : ascii) (r : list ascii) :
  space_len [x] = 1 -> space_len (x :: r) = 1.
Proof. destruct r as [|c2 [|c3 r]]; unfold space_len; cbv zeta; intros H; byte_cases. Qed.

Lemma space_len_ascii_space_byte (x : ascii) : space_len [x] = 1 -> (byte_of x < 128)%nat.
Proof. unfold space_len; cbv zeta; intros H; byte_cases. Qed.

Definition head_ascii (r : list ascii) : Prop :=
  match r with [] => True | c :: _ => (byte_of c < 128)%nat end.

Lemma head_ascii_blank (r : list ascii) : head_ascii (" "%char :: r).
Proof. apply Nat.ltb_lt; reflexivity. Qed.

Lemma space_len_app (l r : list ascii) :
  l <> [] -> head_ascii r -> space_len (l ++ r) = space_len l.
Proof.
  intros Hl Hr; destruct l as [|y [|z [|w l']]]; [congruence| | |reflexivity].
  - destruct r as [|a r']; [reflexivity|]; cbn [app]; cbn in Hr.
    apply space_len_cut1.
    destruct (Nat.le_gt_cases (space_len (y :: a :: r')) 1) as [H|H]; [exact H|].
    apply space_len_second in H; lia.
  - destruct r as [|a r']; [reflexivity|]; cbn [app]; cbn in Hr.
    apply space_len_cut2.
    pose proof (space_len_le3 (y :: z :: a :: r')) as H3.
    destruct (Nat.le_gt_cases (space_len (y :: z :: a :: r')) 2) as [H|H]; [exact H|].
    assert (H' : space_len (y :: z :: a :: r') = 3) by lia.
    apply space_len_third in H'; lia.
Qed.

Lemma no_space_at_app_r (p e : list ascii) : no_space_at (p ++ e) = true -> no_space_at e = true.
Proof.
  induction p as [|x p IH]; [auto|]; cbn [app no_space_at]; intros H.
  apply andb_true_iff in H as [_ H]; exact (IH H).
Qed.

Lemma no_space_at_head (x : ascii) (l : list ascii) :
  no_space_at (x :: l) = true -> space_len (x :: l) = 0.
Proof. cbn [no_space_at]; intros H; apply andb_true_iff in H as [H _]; apply Nat.eqb_eq, H. Qed.

Lemma no_space_at_tail (x : ascii) (l : list ascii) :
  no_space_at (x :: l) = true -> no_space_at l = true.
Proof. cbn [no_space_at]; intros H; apply andb_true_iff in H as [_ H]; exact H. Qed.

Lemma no_space_at_end (p e : list ascii) :
  e <> [] -> no_space_at (p ++ e) = true -> space_len e = 0.
Proof.
  intros He H; apply no_space_at_app_r in H.
  destruct e as [|x e]; [congruence|]; exact (no_space_at_head _ _ H).
Qed.

Lemma space_len_last_word (w rest : list ascii) :
  no_space_at w = true -> w <> [] -> head_ascii rest ->
  space_len_last (rev w ++ rest) = 0.
Proof.
  intros Hw Hne Hr.
  destruct (rev w) as [|c rw] eqn:Er.
  { apply (f_equal (@rev ascii)) in Er; rewrite rev_involutive in Er; cbn in Er; congruence. }
  assert (Hw' : w = (rev rw ++ [c])%list) by (rewrite <- (rev_involutive w), Er; reflexivity).
  cbn [app space_len_last].
  destruct (space_len [c] =? 1)%nat eqn:E1.
  { rewrite Hw' in Hw; apply no_space_at_end in Hw; [|discriminate].
    apply Nat.eqb_eq in E1; lia. }
  destruct rw as [|c2 rw2].
  - cbn [app]; destruct rest as [|a rest2]; [reflexivity|]; cbn in Hr.
    rewrite (space_len_ascii a [c] Hr).
    pose proof (space_len_one a) as Ha.
    destruct (space_len [a] =? 2)%nat eqn:E2; [apply Nat.eqb_eq in E2; lia|].
    destruct rest2 as [|c3 r3]; [reflexivity|].
    destruct (space_len [c3; a; c] =? 3)%nat eqn:E3; [|reflexivity].
    apply Nat.eqb_eq in E3.
    assert (H2 : (2 <= space_len [c3; a; c])%nat) by lia.
    apply space_len_second in H2; lia.
  - cbn [app].
    assert (Hw2 : w = (rev rw2 ++ [c2; c])%list) by (rewrite Hw'; cbn [rev]; rewrite <- app_assoc; reflexivity).
    destruct (space_len [c2; c] =? 2)%nat eqn:E2.
    { rewrite Hw2 in Hw; apply no_space_at_end in Hw; [|discriminate].
      apply Nat.eqb_eq in E2; lia. }
    destruct rw2 as [|c3 rw3].
    + cbn [app]; destruct rest as [|a rest2]; [reflexivity|]; cbn in Hr.
      destruct (space_len [a; c2; c] =? 3)%nat eqn:E3; [|reflexivity].
      apply Nat.eqb_eq in E3; rewrite (space_len_ascii a _ Hr) in E3.
      pose proof (space_len_one a); lia.
    + cbn [app].
      destruct (space_len [c3; c2; c] =? 3)%nat eqn:E3; [|reflexivity].
      assert (Hw3 : w = (rev rw3 ++ [c3; c2; c])%list)
        by (rewrite Hw2; cbn [rev]; rewrite <- app_assoc; reflexivity).
      rewrite Hw3 in Hw; apply no_space_at_end in Hw; [|discriminate].
      apply Nat.eqb_eq in E3; lia.
Qed.

Lemma trim_left_ascii (ws l : list ascii) (fuel : nat) :
  Forall (fun x => space_len [x] = 1) ws -> (length ws <= fuel)%nat -> space_len l = 0 ->
  trim_left_space_aux fuel (ws ++ l) = l.
Proof.
  intros Hws; revert fuel; induction Hws as [|x ws Hx Hws IH]; intros fuel Hf Hl.
  - destruct fuel; cbn [trim_left_space_aux app]; [reflexivity|rewrite Hl; reflexivity].
  - destruct fuel as [|f]; [cbn in Hf; lia|].
    cbn [trim_left_space_aux app]; rewrite (space_len_ascii_space x _ Hx); cbn [skipn].
    apply IH; [cbn in Hf; lia|exact Hl].
Qed.

Lemma trim_right_ascii (rws rl : list ascii) (fuel : nat) :
  Forall (fun x => space_len [x] = 1) rws -> (length rws <= fuel)%nat -> space_len_last rl = 0 ->
  trim_right_space_aux fuel (rws ++ rl) = rl.
Proof.
  intros Hws; revert fuel; induction Hws as [|x ws Hx Hws IH]; intros fuel Hf Hl.
  - destruct fuel; cbn [trim_right_space_aux app]; [reflexivity|rewrite Hl; reflexivity].
  - destruct fuel as [|f]; [cbn in Hf; lia|].
    cbn [trim_right_space_aux app].
    replace (space_len_last (x :: ws ++ rl)) with 1%nat
      by (cbn [space_len_last]; rewrite Hx; reflexivity).
    cbn [skipn]; apply IH; [cbn in Hf; lia|exact Hl].
Qed.

Lemma trim_space_frame (ws1 w ws2 : list ascii) :
  Forall (fun x => space_len [x] = 1) ws1 -> Forall (fun x => space_len [x] = 1) ws2 ->
  space_len (w ++ ws2) = 0 -> space_len_last (rev w) = 0 ->
  trim_space (str_of_list (ws1 ++ w ++ ws2)) = str_of_list w.
Proof.
  intros H1 H2 Hl Hr; unfold trim_space; rewrite list_of_str_of_list.
  rewrite trim_left_ascii by (auto; rewrite length_app; lia).
  rewrite rev_app_distr, trim_right_ascii, rev_involutive; [reflexivity| |rewrite length_rev, length_app; lia|exact Hr].
  apply Forall_rev; exact H2.
Qed.

Local Open Scope string_scope.

Lemma trim_space_str (ws1 w ws2 : string) :
  Forall (fun x => space_len [x] = 1) (list_of_str ws1) ->
  Forall (fun x => space_len [x] = 1) (list_of_str ws2) ->
  space_len (list_of_str w ++ list_of_str ws2) = 0 -> space_len_last (rev (list_of_str w)) = 0 ->
  trim_space (ws1 ++ w ++ ws2) = w.
Proof.
  intros H1 H2 Hl Hr.
  rewrite <- (str_of_list_of_str (ws1 ++ w ++ ws2)), !list_of_str_app.
  rewrite trim_space_frame by assumption; apply str_of_list_of_str.
Qed.

Lemma fields_aux_word (w r cur : list ascii) (fuel : nat) :
  no_space_at w = true -> head_ascii r -> (length w <= fuel)%nat ->
  fields_aux fuel (w ++ r) cur = fields_aux (fuel - length w) r (rev w ++ cur).
Proof.
  revert cur fuel; induction w as [|x w IH]; intros cur fuel Hw Hr Hf.
  - rewrite Nat.sub_0_r; reflexivity.
  - destruct fuel as [|f]; [cbn in Hf; lia|].
    cbn [app fields_aux].
    change (x :: (w ++ r))%list with ((x :: w) ++ r)%list.
    rewrite (space_len_app (x :: w) r) by (discriminate || exact Hr).
    rewrite (no_space_at_head x w Hw).
    rewrite (IH (x :: cur) f (no_space_at_tail x w Hw) Hr) by (cbn in Hf; lia).
    cbn [rev length]; rewrite <- app_assoc; reflexivity.
Qed.

Lemma fields_aux_end (w : list ascii) (fuel : nat) :
  w <> [] -> no_space_at w = true -> (length w <= fuel)%nat ->
  fields_aux fuel w [] = [str_of_list w].
Proof.
  intros Hne Hw Hf.
  rewrite <- (app_nil_r w) at 1.
  rewrite fields_aux_word by (auto; exact I).
  rewrite app_nil_r.
  destruct (rev w) as [|c rw] eqn:E.
  { apply (f_equal (@rev ascii)) in E; rewrite rev_involutive in E; cbn in E; congruence. }
  destruct (fuel - length w); cbn [fields_aux]; rewrite <- E, rev_involutive; reflexivity.
Qed.

Lemma fields_one_word (s : string) :
  s <> "" -> has_no_space s = true -> fields s = [s].
Proof.
  intros Hne Hs; unfold fields, has_no_space in *.
  rewrite fields_aux_end, str_of_list_of_str; [reflexivity| |exact Hs|lia].
  intros H; apply Hne, list_of_str_inj; rewrite H; reflexivity.
Qed.

Lemma space_len_blank (r : list ascii) : space_len (" "%char :: r) = 1.
Proof. apply space_len_ascii_space; reflexivity. Qed.

Lemma fields_two_words (s t : string) :
  s <> "" -> t <> "" -> has_no_space s = true -> has_no_space t = true ->
  fields (s ++ " " ++ t) = [s; t].
Proof.
  intros Hs Ht Ns Nt; unfold fields, has_no_space in *; rewrite !list_of_str_app.
  cbn [list_of_str app].
  rewrite fields_aux_word; [|exact Ns|exact (head_ascii_blank _)|rewrite length_app; lia].
  replace (length (list_of_str s ++ " "%char :: list_of_str t)%list - length (list_of_str s))%nat
    with (S (length (list_of_str t))) by (rewrite length_app; cbn; lia).
  cbn [fields_aux]; rewrite space_len_blank; change (skipn 1 (" "%char :: list_of_str t)) with (list_of_str t).
  rewrite fields_aux_end; [| |exact Nt|lia].
  - destruct (rev (list_of_str s) ++ [])%list as [|c rs] eqn:E.
    + rewrite app_nil_r in E; apply (f_equal (@rev ascii)) in E; rewrite rev_involutive in E.
      contradiction Hs; apply list_of_str_inj; rewrite E; reflexivity.
    + rewrite <- E, app_nil_r, rev_involutive, !str_of_list_of_str; reflexivity.
  - intros H; apply Ht, list_of_str_inj; rewrite H; reflexivity.
Qed.

Lemma blank_spaces : Forall (fun x => space_len [x] = 1) (list_of_str " ").
Proof. repeat constructor. Qed.

Lemma list_of_str_nonempty (s : string) : s <> "" -> list_of_str s <> [].
Proof. intros Hs H; apply Hs, list_of_str_inj; rewrite H; reflexivity. Qed.

Lemma has_prefix_in_app (s : string) : has_prefix ("in:" ++ s) "in:" = true.
Proof. apply has_prefix_app. Qed.

Lemma extractInComment_body (comment source name tail : string) :
  source <> "" -> has_no_space source = true -> has_no_space name = true ->
  Forall (fun x => space_len [x] = 1) (list_of_str tail) ->
  trim_suffix (trim_prefix (trim_prefix comment "//") "/*") "*/"
    = " in: " ++ source ++ " " ++ name ++ tail ->
  extractInComment comment = (source, name).
Proof.
  intros Hs Ns Nn Ht Hc.
  unfold extractInComment, strip_markers; rewrite Hc.
  pose proof (list_of_str_nonempty source Hs) as Ls.
  assert (Zs : space_len (list_of_str source) = 0).
  { unfold has_no_space in Ns; destruct (list_of_str source); [congruence|].
    exact (no_space_at_head _ _ Ns). }
  assert (Rs : space_len_last (rev (list_of_str source)) = 0).
  { rewrite <- (app_nil_r (rev (list_of_str source))).
    apply space_len_last_word; [exact Ns|exact Ls|exact I]. }
  destruct (String.eqb_spec name "") as [->|Hn].
  - replace (" in: " ++ source ++ " " ++ "" ++ tail)
      with (" " ++ ("in: " ++ source) ++ (" " ++ tail)) by str_eq.
    rewrite trim_space_str;
      [|exact blank_spaces|rewrite list_of_str_app; apply Forall_app; split; [exact blank_spaces|exact Ht]
       |reflexivity|].
    2:{ rewrite list_of_str_app, rev_app_distr.
        apply space_len_last_word; [exact Ns|exact Ls|exact (head_ascii_blank _)]. }
    change ("in: " ++ source) with ("in:" ++ (" " ++ source)).
    rewrite has_prefix_in_app, trim_prefix_app.
    replace (" " ++ source) with (" " ++ source ++ "") by (rewrite string_append_nil_r; reflexivity).
    rewrite trim_space_str;
      [|exact blank_spaces|constructor|cbn [list_of_str]; rewrite app_nil_r; exact Zs|exact Rs].
    rewrite fields_one_word by assumption; reflexivity.
  - pose proof (list_of_str_nonempty name Hn) as Ln.
    assert (Rn : forall p, space_len_last (rev (list_of_str ((p ++ " ") ++ name))) = 0).
    { intros p; rewrite !list_of_str_app, !rev_app_distr.
      apply space_len_last_word; [exact Nn|exact Ln|exact (head_ascii_blank _)]. }
    replace (" in: " ++ source ++ " " ++ name ++ tail)
      with (" " ++ ("in: " ++ source ++ " " ++ name) ++ tail) by str_eq.
    rewrite trim_space_str; [|exact blank_spaces|exact Ht|reflexivity|].
    2:{ replace ("in: " ++ source ++ " " ++ name) with ((("in: " ++ source) ++ " ") ++ name) by str_eq.
        apply Rn. }
    change ("in: " ++ source ++ " " ++ name) with ("in:" ++ (" " ++ source ++ " " ++ name)).
    rewrite has_prefix_in_app, trim_prefix_app.
    replace (" " ++ source ++ " " ++ name) with (" " ++ (source ++ " " ++ name) ++ "")
      by (rewrite string_append_nil_r; reflexivity).
    rewrite trim_space_str; [|exact blank_spaces|constructor| |].
    2:{ cbn [list_of_str]; rewrite app_nil_r, list_of_str_app, space_len_app;
        [exact Zs|exact Ls|exact (head_ascii_blank _)]. }
    2:{ replace (source ++ " " ++ name) with ((source ++ " ") ++ name) by str_eq.
        apply Rn. }
    rewrite fields_two_words by assumption; reflexivity.
Qed.

Lemma substring_app_skip (p s : string) (k n : nat) :
  substring (String.length p + k) n (p ++ s) = substring k n s.
Proof.
  induction p as [|c p IH]; [reflexivity|rewrite string_append_cons; cbn; exact IH].
Qed.

Lemma has_suffix_app (s t p : string) :
  (String.length p <= String.length t)%nat -> has_suffix (s ++ t) p = has_suffix t p.
Proof.
  intros Hle; unfold has_suffix; rewrite string_length_app.
  replace (String.length s + String.length t - String.length p)%nat
    with (String.length s + (String.length t - String.length p))%nat by lia.
  rewrite substring_app_skip.
  replace (String.length p <=? String.length s + String.length t)%nat with true
    by (symmetry; apply Nat.leb_le; lia).
  replace (String.length p <=? String.length t)%nat with true
    by (symmetry; apply Nat.leb_le; lia).
  reflexivity.
Qed.

Lemma trim_prefix_not (s p : string) : has_prefix s p = false -> trim_prefix s p = s.
Proof. unfold trim_prefix; intros ->; reflexivity. Qed.

Lemma trim_suffix_not (s p : string) : has_suffix s p = false -> trim_suffix s p = s.
Proof. unfold trim_suffix; intros ->; reflexivity. Qed.

Lemma line_directive_no_block_end (source name : string) :
  source <> "" -> has_suffix name "*/" = false ->
  has_suffix (" in: " ++ source ++ " " ++ name) "*/" = false.
Proof.
  intros Hs Hn.
  destruct name as [|e [|e' name']].
  - destruct (exists_last (l := list_of_str source)) as (l & d & Hl).
    { intros H; apply Hs, list_of_str_inj; rewrite H; reflexivity. }
    replace (" in: " ++ source ++ " " ++ "") with ((" in: " ++ str_of_list l) ++ String d " ")
      by (apply list_of_str_inj; rewrite !list_of_str_app, list_of_str_of_list, Hl;
          cbn [list_of_str app]; rewrite <- !app_assoc; reflexivity).
    rewrite has_suffix_app by (cbn; lia).
    unfold has_suffix; cbn; destruct (Ascii.eqb d "*"); reflexivity.
  - replace (" in: " ++ source ++ " " ++ String e "") with ((" in: " ++ source) ++ String " " (String e ""))
      by str_eq.
    rewrite has_suffix_app by (cbn; lia); reflexivity.
  - replace (" in: " ++ source ++ " " ++ String e (String e' name'))
      with ((" in: " ++ source ++ " ") ++ String e (String e' name')) by str_eq.
    rewrite has_suffix_app by (cbn; lia); exact Hn.
Qed.

(** extractInComment inverts the writing of a directive: for a
    non-empty source and a name without white space (no rune that
    unicode.IsSpace accepts; the name possibly empty), the block
    comment "/* in: source name */" gives back (source, name), and so does
    the line comment "// in: source name" when the name does not end in
    the block-comment closer. *)
Theorem extractInComment_roundtrip (source name : string) :
  source <> "" -> has_no_space source = true -> has_no_space name = true ->
  extractInComment ("/* in: " ++ source ++ " " ++ name ++ " */") = (source, name) /\
  (has_suffix name "*/" = false ->
   extractInComment ("// in: " ++ source ++ " " ++ name) = (source, name)).
Proof.
  intros Hs Ns Nn; split.
  - apply (extractInComment_body _ source name " " Hs Ns Nn blank_spaces).
    rewrite (trim_prefix_not _ "//") by reflexivity.
    change ("/* in: " ++ source ++ " " ++ name ++ " */")
      with ("/*" ++ (" in: " ++ source ++ " " ++ name ++ " */")).
    rewrite trim_prefix_app.
    replace (" in: " ++ source ++ " " ++ name ++ " */")
      with ((" in: " ++ source ++ " " ++ name ++ " ") ++ "*/") by str_eq.
    apply trim_suffix_app.
  - intros Hn.
    apply (extractInComment_body _ source name "" Hs Ns Nn (List.Forall_nil _)).
    change ("// in: " ++ source ++ " " ++ name) with ("//" ++ (" in: " ++ source ++ " " ++ name)).
    rewrite trim_prefix_app, trim_prefix_not by reflexivity.
    rewrite trim_suffix_not by (apply line_directive_no_block_end; assumption).
    rewrite string_append_nil_r; reflexivity.
Qed.

Lemma extractInComment_roundtrip_witness :
  ("query" <> "" /\ has_no_space "query" = true /\ has_no_space "page_size" = true) /\
  extractInComment ("/* in: " ++ "query" ++ " " ++ "page_size" ++ " */") = ("query", "page_size") /\
  extractInComment ("// in: " ++ "query" ++ " " ++ "page_size") = ("query", "page_size").
Proof.
  assert (H1 : "query" <> "") by discriminate.
  assert (H2 : has_no_space "query" = true) by reflexivity.
  assert (H3 : has_no_space "page_size" = true) by reflexivity.
  destruct (extractInComment_roundtrip "query" "page_size" H1 H2 H3) as [Hb Hl].
  split; [split; [exact H1|split; [exact H2|exact H3]]|].
  split; [exact Hb|apply Hl; reflexivity].
Defined.

(** The no-break space U+00A0 (UTF-8 C2 A0) is white space for
    unicode.IsSpace, so "a<U+00A0>b" is not a single word. *)
Lemma has_no_space_nbsp :
  has_no_space (String "a" (String (ascii_of_nat 194) (String (ascii_of_nat 160) (String "b" EmptyString))))
  = false.
Proof. reflexivity. Qed.


(* ------------------------------------------------------------------ *)
(** ** Imports of the generated file: prepareTemplateData *)
(* ------------------------------------------------------------------ *)

Lemma extractor_scan_imports_exact (exts : list Extractor) (field : Field) (sname : string)
    (importsMap : gset string) :
  snd ((fix scan (l : list Extractor) : list stmt * gset string :=
          match l with
          | [] => ([], importsMap)
          | ext :: l' =>
              if CanExtract ext field then
                match GenerateCode ext field sname with
                | (Some c, imports) =>
                    if negb (String.eqb (render c) "") then
                      ([c], list_to_set imports ∪ importsMap)
                    else ([], importsMap)
                | (None, _) => ([], importsMap)
                end
              else scan l'
          end) exts)
  = importsMap ∪ field_imports_via_GetExtractor exts field sname.
Proof.
  unfold field_imports_via_GetExtractor.
  induction exts as [|e exts IH]; [cbn; set_solver|]; cbn [GetExtractor snd].
  destruct (CanExtract e field); [|exact IH].
  destruct (GenerateCode e field sname) as [[c|] imps]; cbn [snd]; [|set_solver].
  destruct (String.eqb (render c) ""); cbn; set_solver.
Qed.

Lemma generateExtractionCode_imports_union_fields (exts : list Extractor) (n : string) (d : bool)
    (fs : list Field) :
  (forall f ns, In f fs -> NestedStruct f = Some ns ->
     forall im, snd (generateExtractionCode exts ns im) = im ∪ extraction_imports exts ns) ->
  forall im, snd (generateExtractionCode exts (mkStruct n fs d) im)
             = im ∪ extraction_imports exts (mkStruct n fs d).
Proof.
  induction fs as [|f fs IH]; intros Hns im; [cbn; set_solver|].
  assert (IH' := IH (fun f' ns Hin => Hns f' ns (or_intror Hin))).
  assert (Hf := Hns f); clear Hns IH.
  destruct f as [nm ty tg ic icn p sl st emb body raw rw rq file nested pp].
  destruct emb; [destruct nested as [ns|]|destruct raw].
  - specialize (Hf ns (or_introl eq_refl) eq_refl im).
    cbn [generateExtractionCode extraction_imports].
    destruct (generateExtractionCode exts ns im) as [nc im1] eqn:E1.
    cbn [snd] in Hf; cbv beta iota.
    rewrite snd_app_pair.
    specialize (IH' im1); cbn [generateExtractionCode extraction_imports] in IH'.
    rewrite IH', Hf; set_solver.
  - specialize (IH' im); cbn [generateExtractionCode extraction_imports] in IH' |- *.
    rewrite IH'; set_solver.
  - specialize (IH' im); cbn [generateExtractionCode extraction_imports] in IH' |- *.
    rewrite IH'; set_solver.
  - cbn [generateExtractionCode extraction_imports].
    match goal with |- context [match ?p with (_, _) => _ end] => destruct p as [code im2] eqn:Es end.
    assert (Hs := f_equal snd Es); cbn [snd] in Hs.
    rewrite extractor_scan_imports_exact in Hs.
    rewrite snd_app_pair.
    specialize (IH' im2); cbn [generateExtractionCode extraction_imports] in IH'.
    rewrite IH', <- Hs; set_solver.
Qed.

Lemma generateExtractionCode_imports_union (exts : list Extractor) (s : Struct) (im : gset string) :
  snd (generateExtractionCode exts s im) = im ∪ extraction_imports exts s.
Proof.
  revert im; pattern s; revert s.
  apply struct_nested_ind; intros n fs d Hns.
  apply generateExtractionCode_imports_union_fields, Hns.
Qed.

(** generateExtractionCode only adds imports to the map it is given: exactly
    those the extractor GetExtractor selects for each field reports with a
    non-empty statement, searching embedded structs in place; imports
    reported with an empty statement are dropped. *)
Theorem generateExtractionCode_imports_exact (exts : list Extractor) (s : Struct)
    (im : gset string) :
  snd (generateExtractionCode exts s im) = im ∪ extraction_imports exts s.
Proof. exact (generateExtractionCode_imports_union exts s im). Qed.

Lemma prepareHandlerData_import_free toCamelCasePrivate capitalize unquote exts
    (handler : Handler) (im : gset string) :
  fst (prepareHandlerData toCamelCasePrivate capitalize unquote exts handler im)
  = fst (prepareHandlerData toCamelCasePrivate capitalize unquote exts handler ∅)
  /\ snd (prepareHandlerData toCamelCasePrivate capitalize unquote exts handler im)
     = im ∪ handler_imports unquote exts handler.
Proof.
  unfold prepareHandlerData, handler_imports.
  destruct (HStruct handler) as [s|]; [|split; [reflexivity|cbn; set_solver]].
  assert (L1 := generateExtractionCode_lines exts s im).
  assert (L2 := generateExtractionCode_lines exts s ∅).
  assert (I1 := generateExtractionCode_imports_union exts s im).
  destruct (generateExtractionCode exts s im) as [l1 i1].
  destruct (generateExtractionCode exts s ∅) as [l2 i2].
  cbn [fst snd] in *; subst l1 l2 i1.
  split; [reflexivity|].
  destruct (hasValidationTags unquote s); cbn [snd]; set_solver.
Qed.

Lemma prepare_handlers_spec toCamelCasePrivate capitalize unquote exts
    (handlers : list Handler) (im : gset string) :
  fst (prepare_handlers toCamelCasePrivate capitalize unquote exts handlers im)
  = map (fun h => fst (prepareHandlerData toCamelCasePrivate capitalize unquote exts h ∅)) handlers
  /\ forall x, x ∈ snd (prepare_handlers toCamelCasePrivate capitalize unquote exts handlers im)
     <-> x ∈ im \/ exists h, In h handlers /\ x ∈ handler_imports unquote exts h.
Proof.
  revert im; induction handlers as [|h hs IH]; intros im.
  - split; [reflexivity|]; intros x; cbn; split; [left; exact H|].
    intros [Hx|(h & [] & _)]; exact Hx.
  - cbn [prepare_handlers].
    destruct (prepareHandlerData_import_free toCamelCasePrivate capitalize unquote exts h im) as [F S].
    destruct (prepareHandlerData toCamelCasePrivate capitalize unquote exts h im) as [hd im1].
    cbn [fst snd] in F, S; subst im1.
    destruct (IH (im ∪ handler_imports unquote exts h)) as [IF IS].
    destruct (prepare_handlers toCamelCasePrivate capitalize unquote exts hs
                (im ∪ handler_imports unquote exts h)) as [hds im2].
    cbn [fst snd] in IF, IS |- *.
    split; [rewrite F, IF; reflexivity|].
    intros x; rewrite IS, elem_of_union; split.
    + intros [[Hx|Hx]|(h' & Hin & Hx)]; [left; exact Hx|right; exists h; split; [left; reflexivity|exact Hx]|].
      right; exists h'; split; [right; exact Hin|exact Hx].
    + intros [Hx|(h' & [<-|Hin] & Hx)]; [left; left; exact Hx|left; right; exact Hx|].
      right; exists h'; split; assumption.
Qed.

(** prepareTemplateData keeps the package name, gives each handler the
    data prepareHandlerData computes for it from an empty import set (the
    shared map never changes a handler's data), and lists the imports
    sorted bytewise, each once: the apikit package and those of every
    handler's extraction code and validation. *)
Theorem prepareTemplateData_spec toCamelCasePrivate capitalize unquote exts
    (package : string) (handlers : list Handler) :
  let td := prepareTemplateData toCamelCasePrivate capitalize unquote exts package handlers in
  TDPackageName td = package /\
  TDHandlers td
  = map (fun h => fst (prepareHandlerData toCamelCasePrivate capitalize unquote exts h ∅)) handlers /\
  StronglySorted String.le (TDImports td) /\ NoDup (TDImports td) /\
  (forall x, In x (TDImports td) <->
     x = apikit_import \/ exists h, In h handlers /\ x ∈ handler_imports unquote exts h).
Proof.
  cbv zeta; unfold prepareTemplateData.
  destruct (prepare_handlers_spec toCamelCasePrivate capitalize unquote exts handlers {[apikit_import]})
    as [F S].
  destruct (prepare_handlers toCamelCasePrivate capitalize unquote exts handlers {[apikit_import]})
    as [hds im]; cbn [fst snd] in F, S; cbn [TDPackageName TDHandlers TDImports].
  assert (P := sorting.merge_sort_Permutation String.le (elements im)).
  split; [reflexivity|split; [exact F|split; [|split]]].
  - apply sorting.StronglySorted_merge_sort; typeclasses eauto.
  - rewrite P; apply NoDup_elements.
  - intros x; split.
    + intros Hx; apply (Permutation_in _ P), list_elem_of_In, elem_of_elements, S in Hx.
      destruct Hx as [Hx|Hx]; [left; apply elem_of_singleton in Hx; exact Hx|right; exact Hx].
    + intros Hx; apply (Permutation_in _ (Permutation_sym P)), list_elem_of_In, elem_of_elements, S.
      destruct Hx as [->|Hx]; [left; apply elem_of_singleton; reflexivity|right; exact Hx].
Qed.

(* ------------------------------------------------------------------ *)
(** ** The generate command: runGenerate *)
(* ------------------------------------------------------------------ *)

Section RunGenerateProofs.

Variable sha256hex : string -> string.
Variable ParseResult : Type.
Variable Handlers_of : ParseResult -> list Handler.
Variable parse_source : string -> option ParseResult.
Variable Generate : ParseResult -> option string.
Variable filepath_Join : string -> string -> string.

Let gen := generateWithParser sha256hex ParseResult Handlers_of parse_source Generate.
Let process := process_files sha256hex ParseResult Handlers_of parse_source Generate.

Lemma generateWithParser_dry_run_no_write fs force outputFile src o c :
  gen fs force true outputFile src <> GenWrite o c.
Proof.
  unfold gen, generateWithParser; cbv zeta.
  destruct (generateWithParser_gate _ _ _ _ _); [discriminate|].
  destruct (ParseFile _ _ _ _) as [r|]; [|discriminate].
  destruct (_ =? 0)%nat; [discriminate|].
  destruct (Generate r); [|discriminate].
  destruct (CalculateFileChecksum _ _ _); discriminate.
Qed.

Lemma process_files_dry_run fs force outputFile files :
  let '(fs', outs, _) := process fs force true outputFile files in
  fs' = fs /\ forall o, In o outs -> match o with GenWrite _ _ => False | _ => True end.
Proof.
  revert fs; induction files as [|f files IH]; intros fs; [split; [reflexivity|intros o []]|].
  unfold process; cbn [process_files]; fold process.
  assert (Hw := generateWithParser_dry_run_no_write fs force outputFile f).
  fold gen; destruct (gen fs force true outputFile f) as [| |msg|out code|out code] eqn:E.
  - specialize (IH fs); destruct (process fs force true outputFile files) as [[fs' outs] err].
    destruct IH as [IH1 IH2]; split; [exact IH1|intros o [<-|Ho]; [exact I|exact (IH2 o Ho)]].
  - specialize (IH fs); destruct (process fs force true outputFile files) as [[fs' outs] err].
    destruct IH as [IH1 IH2]; split; [exact IH1|intros o [<-|Ho]; [exact I|exact (IH2 o Ho)]].
  - split; [reflexivity|intros o [<-|[]]; exact I].
  - specialize (IH fs); destruct (process fs force true outputFile files) as [[fs' outs] err].
    destruct IH as [IH1 IH2]; split; [exact IH1|intros o [<-|Ho]; [exact I|exact (IH2 o Ho)]].
  - exfalso; exact (Hw out code eq_refl).
Qed.


Lemma resolve_files_first_missing fs cwd files file :
  In file files -> fs (filepath_Join cwd file) = Missing ->
  exists pre missing rest, files = (pre ++ missing :: rest)%list /\
    Forall (fun g => fs (filepath_Join cwd g) <> Missing) pre /\
    fs (filepath_Join cwd missing) = Missing /\
    resolve_files filepath_Join fs cwd files = inl ("source file not found: " ++ filepath_Join cwd missing).
Proof.
  intros Hin Hm; induction files as [|g files IH]; [destruct Hin|].
  cbn [resolve_files]; destruct (fs (filepath_Join cwd g)) as [|t r] eqn:Eg.
  - exists [], g, files; split; [reflexivity|split; [constructor|split; [exact Eg|reflexivity]]].
  - destruct Hin as [<-|Hin]; [congruence|].
    destruct (IH Hin) as (pre & missing & rest & -> & Hpre & Hmiss & Hres).
    exists (g :: pre), missing, rest; split; [reflexivity|split; [|split; [exact Hmiss|]]].
    + constructor; [rewrite Eg; discriminate|exact Hpre].
    + rewrite Hres; reflexivity.
Qed.

Lemma process_files_first_error fs force dryRun outputFile files :
  let '(fs', outs, err) := process fs force dryRun outputFile files in
  match err with
  | None => length outs = length files /\ Forall (fun o => is_gen_error o = false) outs
  | Some m => exists pre f rest outs_pre msg,
      files = (pre ++ f :: rest)%list /\ outs = (outs_pre ++ [GenError msg])%list /\
      length outs_pre = length pre /\ Forall (fun o => is_gen_error o = false) outs_pre /\
      m = "processing " ++ f ++ ": " ++ msg
  end.
Proof.
  revert fs; induction files as [|f files IH]; intros fs; [split; [reflexivity|constructor]|].
  unfold process; cbn [process_files]; fold process; fold gen.
  assert (Hstep : forall fs1 o, is_gen_error o = false ->
    let '(fs', outs, err) :=
      (let '(fs', outs, err) := process fs1 force dryRun outputFile files in (fs', o :: outs, err)) in
    match err with
    | None => length outs = length (f :: files) /\ Forall (fun o => is_gen_error o = false) outs
    | Some m => exists pre f' rest outs_pre msg,
        (f :: files) = (pre ++ f' :: rest)%list /\ outs = (outs_pre ++ [GenError msg])%list /\
        length outs_pre = length pre /\ Forall (fun o => is_gen_error o = false) outs_pre /\
        m = "processing " ++ f' ++ ": " ++ msg
    end).
  { intros fs1 o Ho; specialize (IH fs1).
    destruct (process fs1 force dryRun outputFile files) as [[fs' outs] [m|]].
    - destruct IH as (pre & f' & rest & outs_pre & msg & -> & -> & Hl & Hf & ->).
      exists (f :: pre), f', rest, (o :: outs_pre), msg.
      split; [reflexivity|split; [reflexivity|split; [cbn; congruence|split; [constructor; assumption|reflexivity]]]].
    - destruct IH as [Hl Hf]; split; [cbn; congruence|constructor; assumption]. }
  destruct (gen fs force dryRun outputFile f) as [| |msg|out code|out code].
  - exact (Hstep fs GenSkipped eq_refl).
  - exact (Hstep fs GenNoHandlers eq_refl).
  - exists [], f, files, [], msg; repeat split; constructor.
  - exact (Hstep fs (GenDryRun out code) eq_refl).
  - exact (Hstep (write_file fs out code) (GenWrite out code) eq_refl).
Qed.


(** runGenerate checks every named file before processing any: when one
    of them does not exist, it fails on the first missing one, with no
    run of generateWithParser and the file system untouched. *)
Theorem runGenerate_missing_file (fs : string -> file_state) (force dryRun : bool)
    (outputFile sourceFile : string) (args : list string) (getenv : string -> string)
    (cwd : string) (files : list string) (file : string) :
  collect_source_files sourceFile args (getenv "GOFILE") = Some files ->
  In file files -> fs (filepath_Join cwd file) = Missing ->
  exists pre missing rest, files = (pre ++ missing :: rest)%list /\
    Forall (fun g => fs (filepath_Join cwd g) <> Missing) pre /\
    fs (filepath_Join cwd missing) = Missing /\
    runGenerate sha256hex ParseResult Handlers_of parse_source Generate filepath_Join
      fs force dryRun outputFile sourceFile args getenv (Some cwd)
    = (fs, [], Some ("source file not found: " ++ filepath_Join cwd missing)).
Proof.
  intros Hc Hin Hm.
  destruct (resolve_files_first_missing fs cwd files file Hin Hm)
    as (pre & missing & rest & Hf & Hpre & Hmiss & Hres).
  exists pre, missing, rest; split; [exact Hf|split; [exact Hpre|split; [exact Hmiss|]]].
  unfold runGenerate; rewrite Hc, Hres; reflexivity.
Qed.

(** With --dry-run, runGenerate never writes a file, whatever the flags,
    arguments and environment. *)
Theorem runGenerate_dry_run_writes_nothing (fs : string -> file_state) (force : bool)
    (outputFile sourceFile : string) (args : list string) (getenv : string -> string)
    (getwd : option string) :
  let '(fs', outs, _) :=
    runGenerate sha256hex ParseResult Handlers_of parse_source Generate filepath_Join
      fs force true outputFile sourceFile args getenv getwd in
  fs' = fs /\ forall o, In o outs -> match o with GenWrite _ _ => False | _ => True end.
Proof.
  unfold runGenerate.
  destruct (collect_source_files _ _ _); [|split; [reflexivity|intros o []]].
  destruct getwd as [cwd|]; [|split; [reflexivity|intros o []]].
  destruct (resolve_files _ _ _ _) as [msg|resolved]; [split; [reflexivity|intros o []]|].
  apply process_files_dry_run.
Qed.

(** Once the files are resolved, runGenerate runs generateWithParser on
    each in order: without an error every file has an outcome and none is
    an error; otherwise the outcomes stop at the first error, which is
    returned wrapped with the path of the file that failed. *)
Theorem runGenerate_stops_at_first_error (fs : string -> file_state) (force dryRun : bool)
    (outputFile sourceFile : string) (args : list string) (getenv : string -> string)
    (cwd : string) (files resolved : list string) :
  collect_source_files sourceFile args (getenv "GOFILE") = Some files ->
  resolve_files filepath_Join fs cwd files = inr resolved ->
  let '(fs', outs, err) :=
    runGenerate sha256hex ParseResult Handlers_of parse_source Generate filepath_Join
      fs force dryRun outputFile sourceFile args getenv (Some cwd) in
  match err with
  | None => length outs = length files /\ Forall (fun o => is_gen_error o = false) outs
  | Some m => exists pre f rest outs_pre msg,
      resolved = (pre ++ f :: rest)%list /\ outs = (outs_pre ++ [GenError msg])%list /\
      length outs_pre = length pre /\ Forall (fun o => is_gen_error o = false) outs_pre /\
      m = "processing " ++ f ++ ": " ++ msg
  end.
Proof.
  intros Hc Hr; unfold runGenerate; rewrite Hc, Hr.
  assert (Hl : length resolved = length files).
  { clear Hc; revert resolved Hr; induction files as [|g files IH]; intros resolved Hr.
    - injection Hr as <-; reflexivity.
    - cbn [resolve_files] in Hr; destruct (fs (filepath_Join cwd g)); [discriminate|].
      destruct (resolve_files filepath_Join fs cwd files) as [m|r']; [discriminate|].
      injection Hr as <-; cbn; f_equal; apply IH; reflexivity. }
  match goal with |- context [process_files _ _ _ _ _ ?fs ?fo ?d ?o ?l] =>
    assert (H := process_files_first_error fs fo d o l) end.
  unfold process in H.
  destruct (process_files _ _ _ _ _ fs _ dryRun outputFile resolved) as [[fs' outs] [m|]].
  - exact H.
  - destruct H as [H1 H2]; split; [congruence|exact H2].
Qed.






End RunGenerateProofs.

Lemma runGenerate_missing_file_witness :
  exists pre missing rest, ["handlers.go"; "missing.go"] = (pre ++ missing :: rest)%list /\
    Forall (fun g => src_fs "package x" (join_clean "/src" g) <> Missing) pre /\
    src_fs "package x" (join_clean "/src" missing) = Missing /\
    runGenerate toy_sha256hex string (fun _ => [toy_handler]) (fun c => Some c)
      (fun _ => Some toy_generated) join_clean
      (src_fs "package x") false false "" "handlers.go" ["missing.go"] (env_of []) (Some "/src")
    = (src_fs "package x", [], Some ("source file not found: " ++ join_clean "/src" missing)).
Proof.
  apply (runGenerate_missing_file toy_sha256hex string (fun _ => [toy_handler]) (fun c => Some c)
           (fun _ => Some toy_generated) join_clean (src_fs "package x") false false ""
           "handlers.go" ["missing.go"] (env_of []) "/src" ["handlers.go"; "missing.go"] "missing.go").
  - vm_compute; reflexivity.
  - right; left; reflexivity.
  - vm_compute; reflexivity.
Defined.

Lemma runGenerate_stops_at_first_error_witness :
  let '(fs', outs, err) :=
    runGenerate toy_sha256hex string (fun _ => [toy_handler])
      (fun c => if String.eqb c "package x" then Some c else None)
      (fun _ => Some toy_generated) join_clean
      broken_fs false false "" "handlers.go" ["broken.go"; "handlers.go"] (env_of []) (Some "/src") in
  match err with
  | None => length outs = length ["handlers.go"; "broken.go"; "handlers.go"] /\
            Forall (fun o => is_gen_error o = false) outs
  | Some m => exists pre f rest outs_pre msg,
      ["/src/handlers.go"; "/src/broken.go"; "/src/handlers.go"] = (pre ++ f :: rest)%list /\
      outs = (outs_pre ++ [GenError msg])%list /\
      length outs_pre = length pre /\ Forall (fun o => is_gen_error o = false) outs_pre /\
      m = "processing " ++ f ++ ": " ++ msg
  end.
Proof.
  apply (runGenerate_stops_at_first_error toy_sha256hex string (fun _ => [toy_handler])
           (fun c => if String.eqb c "package x" then Some c else None)
           (fun _ => Some toy_generated) join_clean broken_fs false false "" "handlers.go"
           ["broken.go"; "handlers.go"] (env_of []) "/src");
    vm_compute; reflexivity.
Defined.


(* ------------------------------------------------------------------ *)
(** ** Handlers of a file: parseHandler and the handler pass *)
(* ------------------------------------------------------------------ *)

Lemma request_not_response_writer (e : TypeExpr) :
  isRequestType e = true -> isResponseWriterType e = false.
Proof. destruct e; try discriminate; reflexivity. Qed.

Lemma existsb_request_only (extra : list FieldGroup) :
  existsb (fun g => negb (isResponseWriterType (GType g)) && isRequestType (GType g)) extra
  = existsb (fun g => isRequestType (GType g)) extra.
Proof.
  induction extra as [|g extra IH]; [reflexivity|]; cbn [existsb]; rewrite IH.
  destruct (isRequestType (GType g)) eqn:E; [|rewrite andb_false_r; reflexivity].
  rewrite (request_not_response_writer _ E); reflexivity.
Qed.

(** For a function with the apikit:handler comment and a valid
    signature, parseHandler adds no warning (its checks for too few
    parameters or results never fire) and returns the handler: the second
    parameter's type, the first result's type, the struct of the second
    parameter's type name, and whether some extra parameter is an
    http.ResponseWriter or an *http.Request, whatever their order. *)
Theorem parseHandler_valid (fn : FuncDecl) (pkgName : string) (structs : gmap string Struct)
    (warnings : list string) :
  hasApikitComment fn = true -> isValidHandlerSignature fn = true ->
  exists p0 p1 extra r0 r1,
    FnParams fn = Some (p0 :: p1 :: extra) /\ FnResults fn = Some [r0; r1] /\
    (length extra <= 2)%nat /\ isContextType (GType p0) = true /\ isErrorType (GType r1) = true /\
    Forall (fun g => isResponseWriterType (GType g) = true \/ isRequestType (GType g) = true) extra /\
    parseHandler fn pkgName structs warnings =
      (Some (mkHandler (FnName fn) pkgName
               (match FnRecv fn with Some (r :: _) => typeToString (GType r) | _ => "" end)
               (typeToString (GType p1)) (typeToString (GType r0))
               (structs !! getTypeName (GType p1))
               (existsb (fun g => isResponseWriterType (GType g)) extra)
               (existsb (fun g => isRequestType (GType g)) extra) (FnPos fn)),
       warnings).
Proof.
  intros Hc Hv.
  unfold parseHandler; rewrite Hc, Hv; cbn [negb].
  unfold isValidHandlerSignature in Hv.
  destruct (FnParams fn) as [params|]; [|discriminate].
  destruct params as [|p0 [|p1 extra]]; [discriminate|discriminate|].
  destruct ((length (p0 :: p1 :: extra) <? 2)%nat || (4 <? length (p0 :: p1 :: extra))%nat) eqn:Len;
    [discriminate|].
  destruct (isContextType (GType p0)) eqn:Ctx; [|discriminate]; cbn [negb] in Hv.
  destruct (forallb _ extra) eqn:Fx; [|discriminate]; cbn [negb] in Hv.
  destruct (FnResults fn) as [[|r0 [|r1 [|r2 rs]]]|]; try discriminate.
  exists p0, p1, extra, r0, r1.
  split; [reflexivity|split; [reflexivity|split; [|split; [exact Ctx|split; [exact Hv|split]]]]].
  - apply orb_false_iff in Len as [_ L4]; apply Nat.ltb_ge in L4; cbn in L4; lia.
  - apply List.Forall_forall; intros g Hg; apply forallb_forall with (x := g) in Fx; [|exact Hg].
    apply orb_true_iff in Fx; exact Fx.
  - rewrite existsb_request_only; reflexivity.
Qed.

Lemma parseHandler_valid_witness :
  exists p0 p1 extra r0 r1,
    FnParams create_user_decl = Some (p0 :: p1 :: extra) /\ FnResults create_user_decl = Some [r0; r1] /\
    (length extra <= 2)%nat /\ isContextType (GType p0) = true /\ isErrorType (GType r1) = true /\
    Forall (fun g => isResponseWriterType (GType g) = true \/ isRequestType (GType g) = true) extra /\
    parseHandler create_user_decl "main" ({[ "CreateReq" := create_req_struct ]} : gmap string Struct) [] =
      (Some (mkHandler (FnName create_user_decl) "main"
               (match FnRecv create_user_decl with Some (r :: _) => typeToString (GType r) | _ => "" end)
               (typeToString (GType p1)) (typeToString (GType r0))
               (({[ "CreateReq" := create_req_struct ]} : gmap string Struct) !! getTypeName (GType p1))
               (existsb (fun g => isResponseWriterType (GType g)) extra)
               (existsb (fun g => isRequestType (GType g)) extra) (FnPos create_user_decl)),
       []).
Proof.
  apply parseHandler_valid; vm_compute; reflexivity.
Defined.

Lemma parseHandler_warnings (fn : FuncDecl) (pkgName : string) (structs : gmap string Struct)
    (warnings : list string) :
  parseHandler fn pkgName structs warnings
  = (fst (parseHandler fn pkgName structs []),
     (warnings ++ (if hasApikitComment fn && negb (isValidHandlerSignature fn)
                   then [invalid_signature_warning fn] else []))%list).
Proof.
  unfold parseHandler.
  destruct (hasApikitComment fn); cbn [negb andb fst]; [|rewrite app_nil_r; reflexivity].
  destruct (isValidHandlerSignature fn) eqn:Hv; cbn [negb fst]; [|reflexivity].
  rewrite app_nil_r.
  unfold isValidHandlerSignature in Hv.
  destruct (FnParams fn) as [params|]; [|discriminate].
  destruct params as [|p0 [|p1 extra]]; [discriminate|discriminate|].
  destruct (_ || _)%bool; [discriminate|].
  destruct (negb (isContextType (GType p0))); [discriminate|].
  destruct (negb (forallb _ extra)); [discriminate|].
  destruct (FnResults fn) as [[|r0 [|r1 [|r2 rs]]]|]; try discriminate; reflexivity.
Qed.

(** The handler pass of ParseFile returns the handlers of the functions
    parseHandler accepts, in declaration order, and one warning per
    function with the apikit:handler comment and an invalid signature, in
    declaration order; it emits no other warning. *)
Theorem find_handlers_spec (fns : list FuncDecl) (pkgName : string) (structs : gmap string Struct)
    (handlers : list Handler) (warnings : list string) :
  find_handlers fns pkgName structs handlers warnings
  = ((handlers ++ omap (fun fn => fst (parseHandler fn pkgName structs [])) fns)%list,
     (warnings ++ map invalid_signature_warning
        (List.filter (fun fn => hasApikitComment fn && negb (isValidHandlerSignature fn)) fns))%list).
Proof.
  revert handlers warnings; induction fns as [|fn fns IH]; intros handlers warnings.
  - cbn; rewrite !app_nil_r; reflexivity.
  - cbn [find_handlers]; rewrite parseHandler_warnings, IH.
    cbn [omap list_omap List.filter].
    destruct (fst (parseHandler fn pkgName structs [])) as [h|];
      destruct (hasApikitComment fn && negb (isValidHandlerSignature fn));
      cbn [map]; rewrite <- ?app_assoc; reflexivity.
Qed.
